(** * A B+ tree with multi-valued keys: the Python module [BPlusTree.py]

    The module defines three classes, [Node], [LeafNode] and [BPlusTree].
    Nodes are mutable objects that point at each other (parent links, child
    lists, the leaf chain), so the embedding keeps an explicit object heap:
    a list of node records addressed by allocation order, in which objects
    that have become unreachable simply stay.  Every method is a
    computation in a small state-and-exception monad over that heap, and
    the [while] loops of the module take a fuel argument. *)

From stdpp Require Import base list sorting strings.
From Stdlib Require Import ZArith Lia.

Open Scope Z_scope.

(** ** Python values, exceptions and the heap monad *)

(** Object addresses: positions in the heap. *)
Abbreviation addr := nat (only parsing).

Inductive exn :=
| TypeError        (* unpacking [None], e.g. [node, index = None] *)
| IndexError       (* list index out of range *)
| AttributeError   (* attribute missing on the object *)
| NameError        (* unbound global name *)
| BadAddress.      (* dangling address: no Python counterpart *)

(** An element of a node's [values] list: a child node (internal nodes) or
    a bucket of payload values (leaves). *)
Inductive pyval :=
| VNode (a : addr)
| VBucket (b : list Z).

#[global] Instance pyval_eq_dec : EqDecision pyval.
Proof. solve_decision. Defined.

(** Instances of [Node] and of its subclass [LeafNode].  [is_leaf] tells
    the class; [prevLeaf] and [nextLeaf] exist on [LeafNode] only. *)
Record node := mkNode {
  order : Z;
  parent : option addr;
  keys : list Z;
  values : list pyval;
  uid : nat;
  is_leaf : bool;
  prevLeaf : option addr;
  nextLeaf : option addr
}.

Definition set_parent (p : option addr) (n : node) : node :=
  mkNode (order n) p (keys n) (values n) (uid n) (is_leaf n) (prevLeaf n) (nextLeaf n).
Definition set_keys (ks : list Z) (n : node) : node :=
  mkNode (order n) (parent n) ks (values n) (uid n) (is_leaf n) (prevLeaf n) (nextLeaf n).
Definition set_values (vs : list pyval) (n : node) : node :=
  mkNode (order n) (parent n) (keys n) vs (uid n) (is_leaf n) (prevLeaf n) (nextLeaf n).
Definition set_nextLeaf (x : option addr) (n : node) : node :=
  mkNode (order n) (parent n) (keys n) (values n) (uid n) (is_leaf n) (prevLeaf n) x.

Abbreviation heap := (list node) (only parsing).

Inductive res (A : Type) :=
| Ok (a : A) (h : heap)
| Raise (e : exn) (h : heap)
| OutOfFuel.
Arguments Ok {A} a h.
Arguments Raise {A} e h.
Arguments OutOfFuel {A}.

Definition M (A : Type) : Type := heap → res A.

Definition ret {A} (a : A) : M A := fun h => Ok a h.
Definition bind {A B} (m : M A) (k : A → M B) : M B :=
  fun h => match m h with
           | Ok a h' => k a h'
           | Raise e h' => Raise e h'
           | OutOfFuel => OutOfFuel
           end.
Definition raise {A} (e : exn) : M A := fun h => Raise e h.
Definition out_of_fuel {A} : M A := fun _ => OutOfFuel.

Notation "'do' x <- m ; k" := (bind m (fun x => k))
  (at level 10, x name, m at level 100, k at level 200,
   format "'[v' 'do'  x  <-  m ; '/' k ']'").
Notation "'run' m ; k" := (bind m (fun _ => k))
  (at level 10, m at level 100, k at level 200,
   format "'[v' 'run'  m ; '/' k ']'").

(** Pure helpers return [exn + A]; [lift] raises in the current heap. *)
Definition lift {A} (r : exn + A) : M A :=
  match r with inl e => raise e | inr a => ret a end.

Definition get (a : addr) : M node :=
  fun h => match h !! a with Some n => Ok n h | None => Raise BadAddress h end.
Definition put (a : addr) (n : node) : M unit :=
  fun h => match h !! a with
           | Some _ => Ok tt (<[a := n]> h)
           | None => Raise BadAddress h
           end.
Definition modify (a : addr) (f : node → node) : M unit :=
  do n <- get a; put a (f n).

(** [Node.uidCounter] counts the nodes constructed so far, which is the
    length of the heap; a new object gets the next uid and the next
    address. *)
Definition alloc (mk : nat → node) : M addr :=
  fun h => Ok (length h) (h ++ [mk (S (length h))]).

(** ** Python list indexing and slicing with a possibly negative index *)

Definition py_index {A} (l : list A) (i : Z) : exn + A :=
  let j := if 0 <=? i then i else Z.of_nat (length l) + i in
  if 0 <=? j then
    match l !! Z.to_nat j with Some x => inr x | None => inl IndexError end
  else inl IndexError.

Definition py_bound {A} (l : list A) (i : Z) : nat :=
  if 0 <=? i then Z.to_nat i else (length l - Z.to_nat (- i))%nat.

(** [l[i] = x] *)
Definition py_set {A} (l : list A) (i : Z) (x : A) : exn + list A :=
  let j := if 0 <=? i then i else Z.of_nat (length l) + i in
  if (0 <=? j) && (j <? Z.of_nat (length l))
  then inr (<[Z.to_nat j := x]> l)
  else inl IndexError.

(** [l[:i]] and [l[i:]]. *)
Definition slice_to {A} (l : list A) (i : Z) : list A := take (py_bound l i) l.
Definition slice_from {A} (l : list A) (i : Z) : list A := drop (py_bound l i) l.

(** [for c in vs: if isinstance(c, Node): c.parent = p] *)
Fixpoint reparent (vs : list pyval) (p : addr) : M unit :=
  match vs with
  | [] => ret tt
  | VNode c :: vs' => run modify c (set_parent (Some p)); reparent vs' p
  | VBucket _ :: vs' => reparent vs' p
  end.

(** [v.parent = p]; a bucket is a list and takes no attribute. *)
Definition set_parent_attr (v : pyval) (p : addr) : M unit :=
  match v with
  | VNode c => modify c (set_parent (Some p))
  | VBucket _ => raise AttributeError
  end.

(** ** Name resolution

    The names bound at module level once the module has run: the
    [__future__] import, the three classes, the [graphviz] import and the
    two functions.  A global name that is neither there nor a builtin
    raises [NameError]. *)
Definition module_globals : list string :=
  ["annotations"; "Node"; "LeafNode"; "BPlusTree"; "Digraph";
   "read_numbers_from_file"; "visualize_bplus_tree_graphviz"]%string.

Definition builtins : list string :=
  ["abs"; "aiter"; "all"; "anext"; "any"; "ascii"; "bin"; "bool"; "breakpoint";
   "bytearray"; "bytes"; "callable"; "chr"; "classmethod"; "compile"; "complex";
   "delattr"; "dict"; "dir"; "divmod"; "enumerate"; "eval"; "exec"; "filter";
   "float"; "format"; "frozenset"; "getattr"; "globals"; "hasattr"; "hash";
   "help"; "hex"; "id"; "input"; "int"; "isinstance"; "issubclass"; "iter";
   "len"; "list"; "locals"; "map"; "max"; "memoryview"; "min"; "next"; "object";
   "oct"; "open"; "ord"; "pow"; "print"; "property"; "range"; "repr";
   "reversed"; "round"; "set"; "setattr"; "slice"; "sorted"; "staticmethod";
   "str"; "sum"; "super"; "tuple"; "type"; "vars"; "zip"; "__import__"]%string.

Definition bound (name : string) : bool :=
  bool_decide (name ∈ module_globals ++ builtins).

(** ** class Node *)

Module Node.

(** [Node(order)]; the uid is supplied by [alloc]. *)
Definition init (order : Z) (uid : nat) : node :=
  mkNode order None [] [] uid false None None.

Definition split (self : addr) : M addr :=
  do s <- get self;
  let mid := order s `div` 2 in
  do left <- alloc (fun u => mkNode (order s) (Some self) (slice_to (keys s) mid)
                               (slice_to (values s) (mid + 1)) u false None None);
  do right <- alloc (fun u => mkNode (order s) (Some self) (slice_from (keys s) (mid + 1))
                                (slice_from (values s) (mid + 1)) u false None None);
  run modify self (set_values [VNode left; VNode right]);
  do k <- lift (py_index (keys s) mid);
  run modify self (set_keys [k]);
  do l <- get left;
  run reparent (values l) left;
  do r <- get right;
  run reparent (values r) right;
  ret self.

Definition getSize (n : node) : Z := Z.of_nat (length (keys n)).
Definition isEmpty (n : node) : bool := Z.of_nat (length (keys n)) =? 0.
Definition isRoot (n : node) : bool :=
  match parent n with None => true | Some _ => false end.

(** [isNearlyUnderflow] and [isUnderflow] call a global [floor].  The
    name is looked up after [len(self.keys)] is evaluated; what a bound
    [floor] would return on [self.order / 2] is left as a parameter. *)
Section Underflow.
Variable floor_half : Z → exn + Z.

Definition isNearlyUnderflow (n : node) : exn + bool :=
  let len := Z.of_nat (length (keys n)) in
  if bound "floor" then
    match floor_half (order n) with
    | inr f => inr (len <=? f)
    | inl e => inl e
    end
  else inl NameError.

Definition isUnderflow (n : node) : exn + bool :=
  let len := Z.of_nat (length (keys n)) in
  if bound "floor" then
    match floor_half (order n) with
    | inr f => inr (len <=? f - 1)
    | inl e => inl e
    end
  else inl NameError.
End Underflow.

End Node.

(** ** class LeafNode(Node) *)

Module LeafNode.

(** [LeafNode(order)] *)
Definition init (order : Z) (uid : nat) : node :=
  mkNode order None [] [] uid true None None.

(** The [for i, item in enumerate(self.keys)] loop of [add]; [rest] is
    the part of [ks] still to visit, starting at index [i]. *)
Fixpoint add_scan (i : nat) (rest ks : list Z) (vs : list pyval) (key value : Z)
  : exn + (list Z * list pyval) :=
  match rest with
  | [] => inr (ks, vs)
  | item :: rest' =>
    if key =? item then
      match vs !! i with
      | Some (VBucket b) => inr (ks, <[i := VBucket (b ++ [value])]> vs)
      | Some (VNode _) => inl AttributeError
      | None => inl IndexError
      end
    else if key <? item then
      inr (take i ks ++ [key] ++ drop i ks,
           take i vs ++ [VBucket [value]] ++ drop i vs)
    else
      match rest' with
      | [] => inr (ks ++ [key], vs ++ [VBucket [value]])
      | _ :: _ => add_scan (S i) rest' ks vs key value
      end
  end.

Definition add (self : addr) (key value : Z) : M unit :=
  do s <- get self;
  match keys s with
  | [] => put self (set_values (values s ++ [VBucket [value]]) (set_keys [key] s))
  | _ :: _ =>
    do kv <- lift (add_scan 0 (keys s) (keys s) (values s) key value);
    put self (set_values (snd kv) (set_keys (fst kv) s))
  end.

Definition split (self : addr) : M addr :=
  do s <- get self;
  let mid := order s `div` 2 in
  do top <- alloc (Node.init (order s));
  do right <- alloc (fun u => mkNode (order s) (Some top) (slice_from (keys s) mid)
                                (slice_from (values s) mid) u true (Some self) (nextLeaf s));
  run modify self (set_parent (Some top));
  do r <- get right;
  do k <- lift (py_index (keys r) 0);
  run modify top (fun n => set_values [VNode self; VNode right] (set_keys [k] n));
  run modify self (fun n => set_nextLeaf (Some right)
                     (set_values (slice_to (values n) mid) (set_keys (slice_to (keys n) mid) n)));
  ret top.

End LeafNode.

(** ** class BPlusTree *)

(** The node attribute [order], for use where the tree's own [order]
    attribute shadows it. *)
Abbreviation node_order := order (only parsing).

Module BPlusTree.

Record t := mk { root : addr; order : Z }.

(** [BPlusTree(order)]: the root starts as an empty leaf.  No check is
    made on [order]. *)
Definition init (order : Z) : M t :=
  do r <- alloc (LeafNode.init order);
  ret (mk r order).

(** The loop of [_find] over [node.keys]; falling off the end returns
    [None]. *)
Fixpoint find_scan (i : nat) (rest : list Z) (vs : list pyval) (key : Z)
  : exn + option (pyval * nat) :=
  match rest with
  | [] => inr None
  | item :: rest' =>
    if key <? item then
      match vs !! i with
      | Some v => inr (Some (v, i))
      | None => inl IndexError
      end
    else
      match rest' with
      | [] => match vs !! S i with
              | Some v => inr (Some (v, S i))
              | None => inl IndexError
              end
      | _ :: _ => find_scan (S i) rest' vs key
      end
  end.

(** [_find(node, key)]; a bucket has no [keys] attribute. *)
Definition _find (node : pyval) (key : Z) : M (option (pyval * nat)) :=
  match node with
  | VNode a => do n <- get a; lift (find_scan 0 (keys n) (values n) key)
  | VBucket _ => raise AttributeError
  end.

(** [a, b = r] *)
Definition unpack {A} (r : option A) : M A :=
  match r with Some x => ret x | None => raise TypeError end.

(** The second loop of [_mergeUp]: where the pivot enters the parent. *)
Fixpoint mergeUp_scan (i : nat) (rest ks : list Z) (vs cvs : list pyval) (pivot : Z)
  : list Z * list pyval :=
  match rest with
  | [] => (ks, vs)
  | item :: rest' =>
    if pivot <? item then
      (take i ks ++ [pivot] ++ drop i ks, take i vs ++ cvs ++ drop i vs)
    else
      match rest' with
      | [] => (ks ++ [pivot], vs ++ cvs)
      | _ :: _ => mergeUp_scan (S i) rest' ks vs cvs pivot
      end
  end.

Definition _mergeUp (parent child : addr) (index : nat) : M unit :=
  do p <- get parent;
  run (if decide (index < length (values p))%nat
       then put parent (set_values (delete index (values p)) p)
       else raise IndexError);
  do c <- get child;
  do pivot <- lift (py_index (keys c) 0);
  run reparent (values c) parent;
  do p <- get parent;
  do c <- get child;
  let kv := mergeUp_scan 0 (keys p) (keys p) (values p) (values c) pivot in
  put parent (set_values (snd kv) (set_keys (fst kv) p)).

(** [node.split()], dispatched on the class of [node]. *)
Definition split_method (a : addr) : M addr :=
  do n <- get a;
  if is_leaf n then LeafNode.split a else Node.split a.

(** [while not isinstance(node, LeafNode): node, index = self._find(node, key)] *)
Fixpoint descend (fuel : nat) (node : pyval) (key : Z) : M addr :=
  match fuel with
  | O => out_of_fuel
  | S f =>
    match node with
    | VBucket _ => raise AttributeError
    | VNode a =>
      do n <- get a;
      if is_leaf n then ret a
      else
        do r <- _find node key;
        do ci <- unpack r;
        descend f (fst ci) key
    end
  end.

(** [while len(node.keys) == node.order: ...] *)
Fixpoint overflow (fuel : nat) (node : addr) (self : t) : M t :=
  match fuel with
  | O => out_of_fuel
  | S f =>
    do n <- get node;
    if Z.of_nat (length (keys n)) =? node_order n then
      match parent n with
      | Some parent =>
        do top <- split_method node;
        do tn <- get top;
        do k <- lift (py_index (keys tn) 0);
        do r <- _find (VNode parent) k;
        do ji <- unpack r;
        run _mergeUp parent top (snd ji);
        overflow f parent self
      | None =>
        do top <- split_method node;
        overflow f top (mk top (order self))
      end
    else ret self
  end.

Definition insert (fuel : nat) (key value : Z) (self : t) : M t :=
  do node <- descend fuel (VNode (root self)) key;
  run LeafNode.add node key value;
  overflow fuel node self.

Fixpoint retrieve_scan (i : nat) (rest : list Z) (vs : list pyval) (key : Z)
  : exn + option pyval :=
  match rest with
  | [] => inr None
  | item :: rest' =>
    if key =? item then
      match vs !! i with
      | Some v => inr (Some v)
      | None => inl IndexError
      end
    else retrieve_scan (S i) rest' vs key
  end.

(** [retrieve(key)]: [Some bucket], or [None] for an absent key. *)
Definition retrieve (fuel : nat) (key : Z) (self : t) : M (option pyval) :=
  do node <- descend fuel (VNode (root self)) key;
  do n <- get node;
  lift (retrieve_scan 0 (keys n) (values n) key).

(** [node.parent.keys]: [None] has no attribute [keys]. *)
Definition parent_of (a : addr) : M addr :=
  do n <- get a;
  match parent n with Some p => ret p | None => raise AttributeError end.

Definition _borrowLeft (node sibling : addr) (parentIndex : Z) : M unit :=
  do n <- get node;
  if is_leaf n then
    do s <- get sibling;
    do key <- lift (py_index (keys s) (-1));
    run put sibling (set_keys (removelast (keys s)) s);
    do s <- get sibling;
    do data <- lift (py_index (values s) (-1));
    run put sibling (set_values (removelast (values s)) s);
    run modify node (fun n => set_keys (key :: keys n) n);
    run modify node (fun n => set_values (data :: values n) n);
    do p <- parent_of node;
    do pn <- get p;
    do ks <- lift (py_set (keys pn) (parentIndex - 1) key);
    put p (set_keys ks pn)
  else
    do p <- parent_of node;
    do pn <- get p;
    do parent_key <- lift (py_index (keys pn) (-1));
    run put p (set_keys (removelast (keys pn)) pn);
    do s <- get sibling;
    do sibling_key <- lift (py_index (keys s) (-1));
    run put sibling (set_keys (removelast (keys s)) s);
    do s <- get sibling;
    do data <- lift (py_index (values s) (-1));
    run put sibling (set_values (removelast (values s)) s);
    run set_parent_attr data node;
    do p <- parent_of node;
    run modify p (fun n => set_keys (sibling_key :: keys n) n);
    run modify node (fun n => set_keys (parent_key :: keys n) n);
    modify node (fun n => set_values (data :: values n) n).

Definition _borrowRight (node sibling : addr) (parentIndex : Z) : M unit :=
  do n <- get node;
  if is_leaf n then
    do s <- get sibling;
    do key <- lift (py_index (keys s) 0);
    run put sibling (set_keys (tail (keys s)) s);
    do s <- get sibling;
    do data <- lift (py_index (values s) 0);
    run put sibling (set_values (tail (values s)) s);
    run modify node (fun n => set_keys (keys n ++ [key]) n);
    run modify node (fun n => set_values (values n ++ [data]) n);
    do s <- get sibling;
    do k0 <- lift (py_index (keys s) 0);
    do p <- parent_of node;
    do pn <- get p;
    do ks <- lift (py_set (keys pn) parentIndex k0);
    put p (set_keys ks pn)
  else
    do p <- parent_of node;
    do pn <- get p;
    do parent_key <- lift (py_index (keys pn) 0);
    run put p (set_keys (tail (keys pn)) pn);
    do s <- get sibling;
    do sibling_key <- lift (py_index (keys s) 0);
    run put sibling (set_keys (tail (keys s)) s);
    do s <- get sibling;
    do data <- lift (py_index (values s) 0);
    run put sibling (set_values (tail (values s)) s);
    run set_parent_attr data node;
    do p <- parent_of node;
    run modify p (fun n => set_keys (keys n ++ [sibling_key]) n);
    run modify node (fun n => set_keys (keys n ++ [parent_key]) n);
    modify node (fun n => set_values (values n ++ [data]) n).

(** [for r_node_child in r_node.values: r_node_child.parent = l_node],
    without the [isinstance] test of [reparent]. *)
Fixpoint reparent_all (vs : list pyval) (p : addr) : M unit :=
  match vs with
  | [] => ret tt
  | v :: vs' => run set_parent_attr v p; reparent_all vs' p
  end.

(** [_mergeOnDelete(l_node, r_node)].  Buckets are values in this model,
    not objects of the heap: after [l_node.values += r_node.values] the
    right leaf keeps its own copies, where in Python both leaves refer
    to the same lists.  The two differ only in what the right leaf,
    which has left the tree, shows after a later insertion. *)
Definition _mergeOnDelete (l_node r_node : addr) : M unit :=
  do ln <- get l_node;
  do k0 <- lift (py_index (keys ln) 0);
  match parent ln with
  | None => raise AttributeError
  | Some parent =>
    do r <- _find (VNode parent) k0;
    do ji <- unpack r;
    let index := snd ji in
    do pn <- get parent;
    do parent_key <- lift (py_index (keys pn) (Z.of_nat index));
    run put parent (set_keys (delete index (keys pn)) pn);
    do pn <- get parent;
    do jnk <- lift (py_index (values pn) (Z.of_nat index));
    run put parent (set_values (delete index (values pn)) pn);
    do pn <- get parent;
    do vs <- lift (py_set (values pn) (Z.of_nat index) (VNode l_node));
    run put parent (set_values vs pn);
    do ln <- get l_node;
    do rn <- get r_node;
    run (if is_leaf ln && is_leaf rn
         then modify l_node (set_nextLeaf (nextLeaf rn))
         else
           run modify l_node (fun n => set_keys (keys n ++ [parent_key]) n);
           do rn <- get r_node;
           reparent_all (values rn) l_node);
    do rn <- get r_node;
    run modify l_node (fun n => set_keys (keys n ++ keys rn) n);
    do rn <- get r_node;
    modify l_node (fun n => set_values (values n ++ values rn) n)
  end.

(** [while not isinstance(node, LeafNode): node = node.values[i]], for
    [i = 0] and [i = -1]. *)
Fixpoint edge_descend (fuel : nat) (i : Z) (node : pyval) : M pyval :=
  match fuel with
  | O => out_of_fuel
  | S f =>
    match node with
    | VBucket _ => raise AttributeError
    | VNode a =>
      do n <- get a;
      if is_leaf n then ret node
      else
        do v <- lift (py_index (values n) i);
        edge_descend f i v
    end
  end.

(** A node object is always truthy, so the [if not self.root] guard
    never fires. *)
Definition getLeftmostLeaf (fuel : nat) (self : t) : M (option pyval) :=
  do node <- edge_descend fuel 0 (VNode (root self));
  ret (Some node).

(** The loop is the mirror image of the one above, but no [return]
    follows it: the method ends by returning [None]. *)
Definition getRightmostLeaf (fuel : nat) (self : t) : M (option pyval) :=
  do node <- edge_descend fuel (-1) (VNode (root self));
  ret None.

(** [getPrevSibling(node)] and [getNextSibling(node)]: the neighbour of
    [node] among its parent's children, found by searching the parent
    for the node's first key; [None] for the root, for a node without
    keys and at either end. *)
Definition getPrevSibling (node : addr) : M (option pyval) :=
  do n <- get node;
  match parent n, keys n with
  | None, _ => ret None
  | Some _, [] => ret None
  | Some p, k0 :: _ =>
    do r <- _find (VNode p) k0;
    do ji <- unpack r;
    let index := Z.of_nat (snd ji) in
    if 0 <=? index - 1 then
      do pn <- get p;
      do v <- lift (py_index (values pn) (index - 1));
      ret (Some v)
    else ret None
  end.

Definition getNextSibling (node : addr) : M (option pyval) :=
  do n <- get node;
  match parent n, keys n with
  | None, _ => ret None
  | Some _, [] => ret None
  | Some p, k0 :: _ =>
    do r <- _find (VNode p) k0;
    do ji <- unpack r;
    let index := Z.of_nat (snd ji) in
    do pn <- get p;
    if index + 1 <? Z.of_nat (length (values pn)) then
      do v <- lift (py_index (values pn) (index + 1));
      ret (Some v)
    else ret None
  end.

(** [result[0::2] = src]: the elements of [src] replace every second
    element of [result], starting with the first; [None] stands for the
    [ValueError] raised when [src] has not as many elements as there are
    places. *)
Fixpoint assign_even {A} (result src : list A) : option (list A) :=
  match result, src with
  | [], [] => Some []
  | _ :: rest, x :: src' =>
    match rest with
    | [] => cons x <$> assign_even [] src'
    | r1 :: rest' => (fun tl => x :: r1 :: tl) <$> assign_even rest' src'
    end
  | _, _ => None
  end.

Definition intersperse {A} (lst : list A) (item : A) : option (list A) :=
  let result := replicate (length lst * 2) item in
  assign_even result lst.

(** The attributes defined in the body of [class BPlusTree]. *)
Definition methods : list string :=
  ["__init__"; "_find"; "_mergeUp"; "insert"; "retrieve"; "_borrowLeft";
   "_borrowRight"; "_mergeOnDelete"; "getPrevSibling"; "getNextSibling";
   "getLeftmostLeaf"; "getRightmostLeaf"; "intersperse"]%string.

(** The attributes that [__init__] sets on the instance. *)
Definition instance_attributes : list string := ["root"; "order"]%string.

(** [getattr(tree, name)] applied to [args], for a caller that passes
    integers (keys, values, an order).  A name that neither the class
    body nor the instance defines raises [AttributeError] before
    anything is run; [root] and [order] are found on the instance and
    hold a node and an integer, which cannot be called ([TypeError]);
    a wrong number of arguments raises [TypeError]; the static helpers
    that expect node objects fail on the first attribute they read
    from an integer, and [intersperse] on [len] of an integer.  The
    names that [object] itself provides ([__repr__], [__eq__], ...)
    are not modelled: the function is meant for the other names. *)
Definition call (fuel : nat) (name : string) (args : list Z) (self : t)
  : M (option pyval * t) :=
  if bool_decide (name ∈ instance_attributes) then raise TypeError
  else if negb (bool_decide (name ∈ methods)) then raise AttributeError
  else if decide (name = "insert"%string) then
    match args with
    | [key; value] => do self' <- insert fuel key value self; ret (None, self')
    | _ => raise TypeError
    end
  else if decide (name = "retrieve"%string) then
    match args with
    | [key] => do r <- retrieve fuel key self; ret (r, self)
    | _ => raise TypeError
    end
  else if decide (name = "getLeftmostLeaf"%string) then
    match args with
    | [] => do r <- getLeftmostLeaf fuel self; ret (r, self)
    | _ => raise TypeError
    end
  else if decide (name = "getRightmostLeaf"%string) then
    match args with
    | [] => do r <- getRightmostLeaf fuel self; ret (r, self)
    | _ => raise TypeError
    end
  else if decide (name = "__init__"%string) then
    match args with
    | [] => do self' <- init 5; ret (None, self')
    | [order] => do self' <- init order; ret (None, self')
    | _ => raise TypeError
    end
  else if bool_decide (name ∈ ["getPrevSibling"; "getNextSibling"]%string) then
    match args with
    | [_] => raise AttributeError
    | _ => raise TypeError
    end
  else if bool_decide (name ∈ ["_find"; "_mergeOnDelete"]%string) then
    match args with
    | [_; _] => raise AttributeError
    | _ => raise TypeError
    end
  else if bool_decide (name ∈ ["_mergeUp"; "_borrowLeft"; "_borrowRight"]%string) then
    match args with
    | [_; _; _] => raise AttributeError
    | _ => raise TypeError
    end
  else raise TypeError.

End BPlusTree.

(** [insert] called once per pair, in order. *)
Fixpoint inserts (fuel : nat) (kvs : list (Z * Z)) (self : BPlusTree.t) : M BPlusTree.t :=
  match kvs with
  | [] => ret self
  | (k, v) :: kvs' =>
    do self' <- BPlusTree.insert fuel k v self;
    inserts fuel kvs' self'
  end.

(** Constructing a tree of the given order and inserting the pairs. *)
Definition construct_insert (fuel : nat) (order : Z) (kvs : list (Z * Z)) : M BPlusTree.t :=
  do t <- BPlusTree.init order;
  inserts fuel kvs t.

(** Following [nextLeaf] from a leaf to the end of the chain: the
    addresses visited, or [None] when the fuel runs out or a link does not
    lead to a leaf. *)
Fixpoint chain (fuel : nat) (h : heap) (a : option addr) : option (list addr) :=
  match a with
  | None => Some []
  | Some x =>
    match fuel with
    | O => None
    | S f =>
      match h !! x with
      | Some n =>
        if is_leaf n then cons x <$> chain f h (nextLeaf n) else None
      | None => None
      end
    end
  end.

(** [reach h r d a]: the node at [a] is found [d] levels below the node
    at [r], following the [values] of internal nodes. *)
Inductive reach (h : heap) (r : addr) : nat → addr → Prop :=
| reach_root : reach h r 0 r
| reach_child d a n c :
    reach h r d a → h !! a = Some n → is_leaf n = false →
    VNode c ∈ values n → reach h r (S d) c.

(** A computation that returns or raises in the heap it started in. *)
Definition readonly {A} (m : M A) : Prop :=
  ∀ h, match m h with
       | Ok _ h' => h' = h
       | Raise _ h' => h' = h
       | OutOfFuel => True
       end.

(** ** Abstract trees

    The shape a heap is meant to hold: a tree of uniform height [n] whose
    nodes carry their heap address.  A leaf lists its keys with their
    buckets; an internal node lists its keys and its children. *)

Fixpoint tree (n : nat) : Type :=
  match n with
  | O => (addr * list (Z * list Z))%type
  | S n' => (addr * list Z * list (tree n'))%type
  end.

Definition taddr {n} : tree n → addr :=
  match n with
  | O => fun t => t.1
  | S _ => fun t => t.1.1
  end.

Definition tkeys {n} : tree n → list Z :=
  match n with
  | O => fun t => t.2.*1
  | S _ => fun t => t.1.2
  end.

Fixpoint ids {n} : tree n → list addr :=
  match n with
  | O => fun t => [t.1]
  | S n' => fun t => t.1.1 :: (t.2 ≫= ids)
  end.

Fixpoint leftmost {n} : tree n → addr :=
  match n with
  | O => fun t => t.1
  | S n' => fun t => match t.2 with c :: _ => leftmost c | [] => t.1.1 end
  end.

Fixpoint leaves {n} : tree n → list (addr * list (Z * list Z)) :=
  match n with
  | O => fun t => [t]
  | S n' => fun t => t.2 ≫= leaves
  end.

(** Keys and buckets of the whole tree, left to right. *)
Definition contents {n} (t : tree n) : list (Z * list Z) :=
  leaves t ≫= snd.

(** Key ranges: [None] is an open end. *)
Definition in_range (lo hi : option Z) (k : Z) : Prop :=
  from_option (fun l => l ≤ k) True lo ∧ from_option (fun u => k < u) True hi.

Definition keys_ok (lo hi : option Z) (ks : list Z) : Prop :=
  StronglySorted Z.lt ks ∧ Forall (in_range lo hi) ks.

(** The range of each child of a node with keys [ks] and range [lo, hi). *)
Definition child_bounds (lo hi : option Z) (ks : list Z) : list (option Z * option Z) :=
  zip (lo :: (Some <$> ks)) ((Some <$> ks) ++ [hi]).

(** The leaf that follows each child's last leaf. *)
Definition child_nexts {n} (nxt : option addr) (cs : list (tree n)) : list (option addr) :=
  (Some ∘ leftmost <$> tail cs) ++ [nxt].

(** Occupancy of a node that is not the root. *)
Definition size_ok (M : Z) {n} (t : tree n) : Prop :=
  Z.of_nat (length (tkeys t)) < M ∧
  match n with O => M `div` 2 ≤ Z.of_nat (length (tkeys t)) | S _ => True end.

(** Search order and occupancy below the root of [t]. *)
Fixpoint wf (M : Z) {n} : option Z → option Z → tree n → Prop :=
  match n with
  | O => fun lo hi t => keys_ok lo hi (t.2.*1)
  | S n' => fun lo hi t =>
    keys_ok lo hi t.1.2 ∧ t.1.2 ≠ [] ∧
    Forall2 (fun b c => wf M b.1 b.2 c ∧ size_ok M c) (child_bounds lo hi t.1.2) t.2
  end.

(** The heap holds [t]: every node of [t] is stored at its address with
    the keys, values, parent link and (for leaves) successor link that
    [t] prescribes.  [prevLeaf] is left free. *)
Fixpoint rep (h : heap) (M : Z) {n} : option addr → option addr → tree n → Prop :=
  match n with
  | O => fun par nxt t =>
    ∃ u prev, h !! t.1 = Some (mkNode M par (t.2.*1) (VBucket <$> t.2.*2) u true prev nxt)
  | S n' => fun par nxt t =>
    (∃ u, h !! t.1.1 = Some (mkNode M par t.1.2 (VNode ∘ taddr <$> t.2) u false None None)) ∧
    Forall2 (rep h M (Some t.1.1)) (child_nexts nxt t.2) t.2
  end.

(** The state invariant of a tree object: the heap holds a well-formed
    tree of height [n] at [self.root], with buckets [cont], and the root is
    not overfull. *)
Definition tree_inv (M : Z) (n : nat) (cont : list (Z * list Z))
    (self : BPlusTree.t) (h : heap) : Prop :=
  ∃ t : tree n,
    BPlusTree.root self = taddr t ∧ BPlusTree.order self = M ∧
    rep h M None None t ∧ wf M None None t ∧ NoDup (ids t) ∧
    Z.of_nat (length (tkeys t)) < M ∧ contents t = cont.

(** ** Reference functions on sorted association lists *)

(** The child index [_find] settles on: the position of the first key
    that exceeds [key], or the number of keys. *)
Fixpoint rank (key : Z) (ks : list Z) : nat :=
  match ks with
  | [] => O
  | k :: ks' => if key <? k then O else S (rank key ks')
  end.

(** Adding a value under a key in a list of buckets sorted by key. *)
Fixpoint assoc_add (key value : Z) (l : list (Z * list Z)) : list (Z * list Z) :=
  match l with
  | [] => [(key, [value])]
  | (k, b) :: l' =>
    if key =? k then (k, b ++ [value]) :: l'
    else if key <? k then (key, [value]) :: l
    else (k, b) :: assoc_add key value l'
  end.

Fixpoint alookup (key : Z) (l : list (Z * list Z)) : option (list Z) :=
  match l with
  | [] => None
  | (k, b) :: l' => if key =? k then Some b else alookup key l'
  end.

(** The buckets a sequence of insertions adds up to. *)
Definition model (kvs : list (Z * Z)) : list (Z * list Z) :=
  foldl (fun acc kv => assoc_add kv.1 kv.2 acc) [] kvs.

(** The values inserted under [key], in insertion order. *)
Definition inserted_under (key : Z) (kvs : list (Z * Z)) : list Z :=
  snd <$> filter (fun kv => kv.1 = key) kvs.

(** What [retrieve] is meant to return after the insertions [kvs]. *)
Definition expected (key : Z) (kvs : list (Z * Z)) : option pyval :=
  match inserted_under key kvs with
  | [] => None
  | vs => Some (VBucket vs)
  end.

(** ** Scenarios *)

(** The keys stored in the given leaves, in order. *)
Definition chain_keys (h : heap) (ls : list addr) : list Z :=
  ls ≫= (fun a => from_option keys [] (h !! a)).

(** A tree of the given order built from the empty heap by inserting each
    key with itself as value. *)
Definition built (fuel : nat) (order : Z) (ks : list Z) : res BPlusTree.t :=
  construct_insert fuel order ((fun k => (k, k)) <$> ks) [].

(** A three-level tree of order 5 whose middle internal node (address 2)
    is at the underflow threshold and whose siblings (1 and 3) can lend:
    root 0 has keys 30, 60; the leaves 4 to 12 hold one key each. *)
Definition one_key_leaf (p : addr) (k : Z) (u : nat) (prev next : option addr) : node :=
  mkNode 5 (Some p) [k] [VBucket [k]] u true prev next.

Definition borrow_heap : heap :=
  [ mkNode 5 None [30; 60] [VNode 1%nat; VNode 2%nat; VNode 3%nat] 1%nat false None None;
    mkNode 5 (Some 0%nat) [5; 10; 20] [VNode 4%nat; VNode 5%nat; VNode 6%nat; VNode 7%nat]
           2%nat false None None;
    mkNode 5 (Some 0%nat) [40] [VNode 8%nat; VNode 9%nat] 3%nat false None None;
    mkNode 5 (Some 0%nat) [70; 80] [VNode 10%nat; VNode 11%nat; VNode 12%nat]
           4%nat false None None;
    one_key_leaf 1%nat 1 5%nat None (Some 5%nat);
    one_key_leaf 1%nat 5 6%nat (Some 4%nat) (Some 6%nat);
    one_key_leaf 1%nat 10 7%nat (Some 5%nat) (Some 7%nat);
    one_key_leaf 1%nat 20 8%nat (Some 6%nat) (Some 8%nat);
    one_key_leaf 2%nat 30 9%nat (Some 7%nat) (Some 9%nat);
    one_key_leaf 2%nat 40 10%nat (Some 8%nat) (Some 10%nat);
    one_key_leaf 3%nat 60 11%nat (Some 9%nat) (Some 11%nat);
    one_key_leaf 3%nat 70 12%nat (Some 10%nat) (Some 12%nat);
    one_key_leaf 3%nat 80 13%nat (Some 11%nat) None ].

Definition borrow_tree : BPlusTree.t := BPlusTree.mk 0%nat 5.

(** The keys of the node at an address. *)
Definition keys_at (h : heap) (a : addr) : option (list Z) := keys <$> h !! a.

(** * Properties *)

(** ** The heap monad *)

Lemma bind_Ok {A B} (m : M A) (k : A → M B) h a h' :
  m h = Ok a h' → bind m k h = k a h'.
Proof. unfold bind. by intros ->. Qed.

Lemma get_Ok h a n : h !! a = Some n → get a h = Ok n h.
Proof. unfold get. by intros ->. Qed.

Lemma put_Ok h a n n' : h !! a = Some n → put a n' h = Ok tt (<[a := n']> h).
Proof. unfold put. by intros ->. Qed.

Lemma modify_Ok h a n f : h !! a = Some n → modify a f h = Ok tt (<[a := f n]> h).
Proof.
  intros H. unfold modify. rewrite (bind_Ok _ _ _ _ _ (get_Ok _ _ _ H)).
  by apply put_Ok with n.
Qed.

Lemma lookup_alloc_new (h : heap) n : (h ++ [n]) !! length h = Some n.
Proof. by rewrite lookup_app_r, Nat.sub_diag. Qed.

Lemma lookup_alloc_old (h : heap) n a x : h !! a = Some x → (h ++ [n]) !! a = Some x.
Proof. intros H. by rewrite lookup_app_l by (by eapply lookup_lt_Some). Qed.

(** ** The scanning loops *)

Lemma rank_le key ks : (rank key ks ≤ length ks)%nat.
Proof. induction ks as [|k ks IH]; simpl; [lia|]. destruct (key <? k); simpl; lia. Qed.

Lemma find_scan_rank i ks vs key :
  ks ≠ [] →
  BPlusTree.find_scan i ks vs key =
    match vs !! (i + rank key ks)%nat with
    | Some v => inr (Some (v, (i + rank key ks)%nat))
    | None => inl IndexError
    end.
Proof.
  revert i. induction ks as [|k ks IH]; intros i Hne; [done|]. simpl.
  destruct (key <? k).
  - by rewrite Nat.add_0_r.
  - destruct ks as [|k' ks].
    + simpl. by rewrite Nat.add_1_r.
    + rewrite IH by done. by rewrite Nat.add_succ_r.
Qed.

Lemma mergeUp_scan_rank i (pre rest : list Z) vs cvs pivot :
  rest ≠ [] → i = length pre → length vs = length (pre ++ rest) →
  BPlusTree.mergeUp_scan i rest (pre ++ rest) vs cvs pivot =
    let j := (i + rank pivot rest)%nat in
    (take j (pre ++ rest) ++ [pivot] ++ drop j (pre ++ rest),
     take j vs ++ cvs ++ drop j vs).
Proof.
  revert i pre. induction rest as [|k rest IH]; intros i pre Hne -> Hlen; [done|].
  simpl. destruct (pivot <? k).
  - by rewrite Nat.add_0_r.
  - destruct rest as [|k' rest].
    + simpl. rewrite Nat.add_1_r.
      assert (S (length pre) = length (pre ++ [k])) as -> by (rewrite length_app; simpl; lia).
      rewrite firstn_all, drop_all. rewrite <- Hlen, firstn_all, drop_all.
      by rewrite !app_nil_r.
    + replace (pre ++ k :: k' :: rest) with ((pre ++ [k]) ++ k' :: rest) in *
        by (by rewrite <- app_assoc).
      rewrite (IH (S (length pre)) (pre ++ [k])); [|done| |done].
      * simpl. by rewrite Nat.add_succ_r.
      * rewrite length_app. simpl. lia.
Qed.

Lemma retrieve_scan_alookup i (pre rest : list (Z * list Z)) key :
  i = length pre →
  BPlusTree.retrieve_scan i rest.*1 (VBucket <$> (pre ++ rest).*2) key =
    inr (VBucket <$> alookup key rest).
Proof.
  revert i pre. induction rest as [|[k b] rest IH]; intros i pre ->; [done|].
  simpl. destruct (key =? k).
  - rewrite list_lookup_fmap, list_lookup_fmap, lookup_app_r by lia.
    by rewrite Nat.sub_diag.
  - replace (pre ++ (k, b) :: rest) with ((pre ++ [(k, b)]) ++ rest)
      by (by rewrite <- app_assoc).
    apply IH. rewrite length_app. simpl. lia.
Qed.

Lemma add_scan_assoc i (pre rest : list (Z * list Z)) key value :
  rest ≠ [] → i = length pre →
  LeafNode.add_scan i rest.*1 (pre ++ rest).*1 (VBucket <$> (pre ++ rest).*2) key value =
    inr ((pre ++ assoc_add key value rest).*1,
         VBucket <$> (pre ++ assoc_add key value rest).*2).
Proof.
  revert i pre. induction rest as [|[k b] rest IH]; intros i pre Hne ->; [done|].
  assert (Hassoc : pre ++ (k, b) :: rest = (pre ++ [(k, b)]) ++ rest)
    by (by rewrite <- app_assoc).
  assert (Hlen : S (length pre) = length (pre ++ [(k, b)]))
    by (rewrite length_app; simpl; lia).
  rewrite fmap_cons. cbn [LeafNode.add_scan assoc_add fst].
  destruct (key =? k) eqn:Ek.
  - rewrite !list_lookup_fmap, lookup_app_r by lia. rewrite Nat.sub_diag. simpl.
    f_equal. f_equal.
    + by rewrite !fmap_app.
    + rewrite !fmap_app, !fmap_cons. simpl.
      rewrite insert_app_r_alt by (by rewrite !length_fmap).
      by rewrite !length_fmap, Nat.sub_diag.
  - destruct (key <? k).
    + f_equal. f_equal.
      * rewrite !fmap_app. rewrite take_app_length' by (by rewrite length_fmap).
        by rewrite drop_app_length' by (by rewrite length_fmap).
      * rewrite !fmap_app. rewrite take_app_length' by (by rewrite !length_fmap).
        by rewrite drop_app_length' by (by rewrite !length_fmap).
    + destruct rest as [|[k' b'] rest].
      * simpl. f_equal. f_equal.
        -- by rewrite !fmap_app, <- app_assoc.
        -- by rewrite !fmap_app, <- app_assoc.
      * rewrite fmap_cons. rewrite <- fmap_cons. rewrite Hassoc.
        rewrite (IH (S (length pre)) (pre ++ [(k, b)])) by done.
        by rewrite <- !app_assoc.
Qed.

(** ** Sorted association lists *)

Lemma assoc_add_length key value l :
  (length l ≤ length (assoc_add key value l) ≤ S (length l))%nat.
Proof.
  induction l as [|[k b] l IH]; simpl; [lia|].
  destruct (key =? k); [simpl; lia|]. destruct (key <? k); simpl; lia.
Qed.

Lemma assoc_add_nonempty key value l : assoc_add key value l ≠ [].
Proof. destruct l as [|[k b] l]; simpl; [done|]. by repeat case_match. Qed.

Lemma elem_of_assoc_add_keys x key value l :
  x ∈ (assoc_add key value l).*1 ↔ x = key ∨ x ∈ l.*1.
Proof.
  induction l as [|[k b] l IH]; simpl.
  - rewrite list_elem_of_singleton, elem_of_nil. tauto.
  - destruct (key =? k) eqn:E.
    + apply Z.eqb_eq in E as ->. simpl. rewrite !elem_of_cons. tauto.
    + destruct (key <? k); simpl; rewrite !elem_of_cons; [tauto|].
      rewrite IH. tauto.
Qed.

Lemma assoc_add_sorted key value l :
  StronglySorted Z.lt l.*1 → StronglySorted Z.lt (assoc_add key value l).*1.
Proof.
  induction l as [|[k b] l IH]; simpl; intros Hs.
  - repeat constructor.
  - apply StronglySorted_cons in Hs as [Hk Hs].
    destruct (key =? k) eqn:E; [by constructor|].
    destruct (key <? k) eqn:E'; simpl.
    + apply Z.ltb_lt in E'. constructor; [by constructor|].
      constructor; [done|]. eapply Forall_impl; [exact Hk|]. simpl. lia.
    + apply Z.ltb_ge in E'. apply Z.eqb_neq in E.
      constructor; [by apply IH|].
      apply Forall_forall. intros x Hx. apply elem_of_assoc_add_keys in Hx as [->|Hx].
      * lia.
      * by eapply Forall_forall in Hk.
Qed.

Lemma assoc_add_keys_ok lo hi key value l :
  keys_ok lo hi l.*1 → in_range lo hi key → keys_ok lo hi (assoc_add key value l).*1.
Proof.
  intros [Hs Hr] Hk. split; [by apply assoc_add_sorted|].
  apply Forall_forall. intros x Hx. apply elem_of_assoc_add_keys in Hx as [->|Hx]; [done|].
  by eapply Forall_forall in Hr.
Qed.

Lemma assoc_add_app key value l1 seg l2 :
  Forall (fun x => x < key) l1.*1 → Forall (fun y => key < y) l2.*1 →
  assoc_add key value (l1 ++ seg ++ l2) = l1 ++ assoc_add key value seg ++ l2.
Proof.
  intros H1 H2. induction l1 as [|[k b] l1 IH]; simpl.
  - clear H1. induction seg as [|[k b] seg IH]; simpl.
    + destruct l2 as [|[k b] l2]; [done|]. simpl.
      apply Forall_cons in H2 as [Hk _]. simpl in Hk.
      replace (key =? k) with false by (symmetry; apply Z.eqb_neq; lia).
      by replace (key <? k) with true by (symmetry; apply Z.ltb_lt; lia).
    + destruct (key =? k); [done|]. destruct (key <? k); [done|].
      simpl. by rewrite IH.
  - apply Forall_cons in H1 as [Hk H1]. simpl in Hk.
    replace (key =? k) with false by (symmetry; apply Z.eqb_neq; lia).
    replace (key <? k) with false by (symmetry; apply Z.ltb_ge; lia).
    by rewrite IH.
Qed.

Lemma alookup_None key l : key ∉ l.*1 → alookup key l = None.
Proof.
  induction l as [|[k b] l IH]; simpl; [done|]. rewrite not_elem_of_cons. intros [Hne Hn].
  destruct (key =? k) eqn:E.
  - by apply Z.eqb_eq in E.
  - by apply IH.
Qed.

Lemma alookup_Some_elem key l b : alookup key l = Some b → key ∈ l.*1.
Proof.
  induction l as [|[k b'] l IH]; simpl; [done|].
  destruct (key =? k) eqn:E.
  - apply Z.eqb_eq in E as ->. intros _. left.
  - intros H. right. by apply IH.
Qed.

Lemma alookup_elem key l : key ∈ l.*1 → is_Some (alookup key l).
Proof.
  induction l as [|[k b'] l IH]; simpl; [by intros ?%elem_of_nil|].
  destruct (key =? k) eqn:E; [by eauto|].
  apply Z.eqb_neq in E. intros [?|?]%elem_of_cons; [done|by apply IH].
Qed.

Lemma alookup_app key l1 l2 :
  alookup key (l1 ++ l2) =
    match alookup key l1 with Some b => Some b | None => alookup key l2 end.
Proof.
  induction l1 as [|[k b] l1 IH]; simpl; [done|]. by destruct (key =? k).
Qed.

Lemma alookup_assoc_add key k v l :
  StronglySorted Z.lt l.*1 →
  alookup key (assoc_add k v l) =
    if decide (key = k) then Some (default [] (alookup key l) ++ [v]) else alookup key l.
Proof.
  induction l as [|[k' b] l IH]; simpl; intros Hs.
  - destruct (key =? k) eqn:E; case_decide; try done; lia.
  - apply StronglySorted_cons in Hs as [Hk Hs].
    destruct (k =? k') eqn:E1.
    + apply Z.eqb_eq in E1 as ->. simpl.
      destruct (key =? k') eqn:E2; case_decide; try done; lia.
    + apply Z.eqb_neq in E1. destruct (k <? k') eqn:E3; simpl.
      * apply Z.ltb_lt in E3.
        destruct (key =? k) eqn:E2; case_decide; try lia.
        -- subst. replace (k =? k') with false by (symmetry; apply Z.eqb_neq; lia).
           rewrite alookup_None; [done|]. intros Hin.
           eapply Forall_forall in Hk; [|done]. lia.
        -- done.
      * rewrite IH by done.
        destruct (key =? k') eqn:E2; case_decide; try done.
        apply Z.eqb_eq in E2. lia.
Qed.

(** ** The reference model of a sequence of insertions *)

Lemma model_snoc kvs k v : model (kvs ++ [(k, v)]) = assoc_add k v (model kvs).
Proof. unfold model. by rewrite foldl_app. Qed.

Lemma model_sorted kvs : StronglySorted Z.lt (model kvs).*1.
Proof.
  induction kvs as [|[k v] kvs IH] using rev_ind; [constructor|].
  rewrite model_snoc. by apply assoc_add_sorted.
Qed.

Lemma inserted_under_snoc key kvs k v :
  inserted_under key (kvs ++ [(k, v)]) =
    inserted_under key kvs ++ (if decide (k = key) then [v] else []).
Proof.
  unfold inserted_under. rewrite filter_app, fmap_app. f_equal.
  rewrite filter_cons. simpl. by case_decide.
Qed.

Lemma alookup_model key kvs :
  alookup key (model kvs) =
    match inserted_under key kvs with [] => None | vs => Some vs end.
Proof.
  induction kvs as [|[k v] kvs IH] using rev_ind; [done|].
  rewrite model_snoc, alookup_assoc_add by apply model_sorted.
  rewrite inserted_under_snoc, IH.
  case_decide; case_decide; try congruence.
  - by destruct (inserted_under key kvs).
  - by rewrite app_nil_r.
Qed.

Lemma elem_of_model_keys x kvs : x ∈ (model kvs).*1 ↔ x ∈ kvs.*1.
Proof.
  induction kvs as [|[k v] kvs IH] using rev_ind; [done|].
  rewrite model_snoc, elem_of_assoc_add_keys, fmap_app, elem_of_app, IH. simpl.
  rewrite list_elem_of_singleton. tauto.
Qed.

Lemma model_length kvs : (length (model kvs) ≤ length kvs)%nat.
Proof.
  induction kvs as [|[k v] kvs IH] using rev_ind; [done|].
  rewrite model_snoc, length_app. simpl. pose proof (assoc_add_length k v (model kvs)). lia.
Qed.

(** ** Child ranges *)

Lemma child_bounds_nil lo hi : child_bounds lo hi [] = [(lo, hi)].
Proof. done. Qed.

Lemma child_bounds_cons lo hi k ks :
  child_bounds lo hi (k :: ks) = (lo, Some k) :: child_bounds (Some k) hi ks.
Proof. done. Qed.

Lemma length_child_bounds lo hi ks : length (child_bounds lo hi ks) = S (length ks).
Proof.
  revert lo. induction ks as [|k ks IH]; intros lo; [done|].
  rewrite child_bounds_cons. simpl. by rewrite IH.
Qed.

Lemma child_bounds_splice lo hi ks j lo' hi' pivot :
  child_bounds lo hi ks !! j = Some (lo', hi') →
  child_bounds lo hi (take j ks ++ pivot :: drop j ks) =
    take j (child_bounds lo hi ks) ++
    (lo', Some pivot) :: (Some pivot, hi') :: drop (S j) (child_bounds lo hi ks).
Proof.
  revert lo j. induction ks as [|k ks IH]; intros lo j Hj.
  - destruct j as [|j]; [|done]. by injection Hj as <- <-.
  - destruct j as [|j].
    + injection Hj as <- <-. done.
    + rewrite child_bounds_cons in Hj. simpl in Hj.
      simpl. rewrite !child_bounds_cons. simpl. f_equal. by apply IH.
Qed.

Lemma in_range_weaken lo hi lo' hi' k :
  in_range lo' hi' k →
  from_option (fun l => from_option (fun l' => l ≤ l') False lo') True lo →
  from_option (fun u => from_option (fun u' => u' ≤ u) False hi') True hi →
  in_range lo hi k.
Proof.
  unfold in_range. destruct lo, hi, lo', hi'; simpl; intros; lia.
Qed.

(** The child [_find] selects has the key in its range. *)
Lemma rank_bounds lo hi ks key :
  in_range lo hi key →
  ∃ lo' hi', child_bounds lo hi ks !! rank key ks = Some (lo', hi') ∧
             in_range lo' hi' key.
Proof.
  revert lo. induction ks as [|k ks IH]; intros lo Hr.
  - eexists _, _. split; [done|done].
  - simpl. destruct (key <? k) eqn:E.
    + apply Z.ltb_lt in E. eexists _, _. split; [done|].
      destruct Hr. split; [done|]. simpl. lia.
    + apply Z.ltb_ge in E. rewrite child_bounds_cons. simpl.
      apply IH. destruct Hr. split; [simpl; lia|done].
Qed.

(** A child's range lies within its parent's. *)
Lemma child_bounds_within lo hi ks j lo' hi' k :
  keys_ok lo hi ks →
  child_bounds lo hi ks !! j = Some (lo', hi') →
  in_range lo' hi' k → in_range lo hi k.
Proof.
  revert lo j. induction ks as [|x ks IH]; intros lo j [Hs Hr] Hj Hk.
  - destruct j; [|done]. by injection Hj as <- <-.
  - apply StronglySorted_cons in Hs as [Hx Hs]. apply Forall_cons in Hr as [Hrx Hr].
    destruct j as [|j].
    + injection Hj as <- <-. destruct Hk as [? Hk], Hrx as [? Hrx]. split; [done|].
      simpl in Hk. destruct hi; simpl in *; lia.
    + rewrite child_bounds_cons in Hj. simpl in Hj.
      assert (in_range (Some x) hi k) as [Hk1 Hk2].
      { eapply (IH (Some x) j); [|done|done]. split; [done|].
        apply Forall_forall. intros y Hy. split.
        - simpl. eapply Forall_forall in Hx; [|done]. lia.
        - eapply Forall_forall in Hr; [|done]. by destruct Hr. }
      destruct Hrx as [Hrx _]. split; [|done].
      simpl in Hk1. destruct lo; simpl in *; lia.
Qed.

Lemma child_bounds_lookup lo hi ks i lo' hi' :
  child_bounds lo hi ks !! i = Some (lo', hi') →
  lo' = match i with O => lo | S i' => Some (default 0 (ks !! i')) end ∧
  hi' = match ks !! i with Some x => Some x | None => hi end ∧
  (i ≤ length ks)%nat.
Proof.
  revert lo i. induction ks as [|x ks IH]; intros lo i Hb.
  - destruct i; [|done]. injection Hb as <- <-. simpl. auto.
  - destruct i as [|i].
    + injection Hb as <- <-. simpl. split; [done|]. split; [done|lia].
    + rewrite child_bounds_cons in Hb. simpl in Hb.
      apply IH in Hb as (-> & -> & Hi). simpl. split; [|split; [done|lia]].
      destruct i as [|i]; [done|]. simpl.
      destruct (ks !! i) eqn:E; [done|]. apply lookup_ge_None in E. lia.
Qed.

Lemma rank_above key ks x : ks !! rank key ks = Some x → key < x.
Proof.
  induction ks as [|k ks IH]; simpl; [done|].
  destruct (key <? k) eqn:E; simpl.
  - intros [= <-]. by apply Z.ltb_lt.
  - done.
Qed.

Lemma rank_below key ks i x : (i < rank key ks)%nat → ks !! i = Some x → x ≤ key.
Proof.
  revert i. induction ks as [|k ks IH]; simpl; intros i Hi Hx; [lia|].
  destruct (key <? k) eqn:E; [lia|]. apply Z.ltb_ge in E.
  destruct i as [|i]; simpl in Hx.
  - by injection Hx as <-.
  - apply (IH i); [lia|done].
Qed.

Lemma sorted_lookup_le ks i j x y :
  StronglySorted Z.lt ks → (i ≤ j)%nat → ks !! i = Some x → ks !! j = Some y → x ≤ y.
Proof.
  intros Hs. revert i j. induction Hs as [|k ks Hs IH Hk]; intros i j Hij Hx Hy; [done|].
  destruct i as [|i], j as [|j]; simpl in *; try lia.
  - injection Hx as <-. injection Hy as <-. lia.
  - injection Hx as <-. eapply Forall_forall in Hk; [|by eapply list_elem_of_lookup_2]. lia.
  - apply (IH i j); [lia|done|done].
Qed.

(** Children left of the selected one hold smaller keys, children right
    of it larger ones. *)
Lemma child_bounds_left lo hi ks key i lo' hi' k :
  (i < rank key ks)%nat →
  child_bounds lo hi ks !! i = Some (lo', hi') →
  in_range lo' hi' k → k < key.
Proof.
  intros Hi Hb [_ Hk]. apply child_bounds_lookup in Hb as (_ & -> & _).
  pose proof (rank_le key ks).
  destruct (ks !! i) as [x|] eqn:E; [|apply lookup_ge_None in E; lia].
  simpl in Hk. pose proof (rank_below _ _ _ _ Hi E). lia.
Qed.

Lemma child_bounds_right lo hi ks key i lo' hi' k :
  StronglySorted Z.lt ks → (rank key ks < i)%nat →
  child_bounds lo hi ks !! i = Some (lo', hi') →
  in_range lo' hi' k → key < k.
Proof.
  intros Hs Hi Hb [Hk _]. apply child_bounds_lookup in Hb as (-> & _ & Hlen).
  destruct i as [|i]; [lia|]. simpl in Hk.
  destruct (ks !! i) as [x|] eqn:E; [|apply lookup_ge_None in E; lia]. simpl in Hk.
  destruct (ks !! rank key ks) as [y|] eqn:E'.
  - pose proof (rank_above _ _ _ E').
    pose proof (sorted_lookup_le ks (rank key ks) i y x Hs ltac:(lia) E' E). lia.
  - apply lookup_ge_None in E'. apply lookup_lt_Some in E. lia.
Qed.

(** ** Abstract trees and their representation *)

Lemma Forall2_impl_elem {A B} (P Q : A → B → Prop) l k :
  Forall2 P l k → (∀ x y, y ∈ k → P x y → Q x y) → Forall2 Q l k.
Proof.
  induction 1 as [|x y l k Hxy _ IH]; intros HPQ; constructor.
  - apply HPQ; [left|done].
  - apply IH. intros x' y' Hy'. apply HPQ. by right.
Qed.

Lemma taddr_in_ids {n} (t : tree n) : taddr t ∈ ids t.
Proof. destruct n; simpl; left. Qed.

Lemma leftmost_in_ids {n} (t : tree n) : leftmost t ∈ ids t.
Proof.
  induction n as [|n IH].
  - left.
  - destruct t as [[a ks] [|c cs]]; simpl; [left|].
    right. apply elem_of_app. left. apply IH.
Qed.

Lemma ids_child {n} (c : tree n) (cs : list (tree n)) x :
  c ∈ cs → x ∈ ids c → x ∈ cs ≫= ids.
Proof. intros Hc Hx. apply list_elem_of_bind. eauto. Qed.

Lemma rep_root h M {n} par nxt (t : tree n) :
  rep h M par nxt t →
  ∃ nd, h !! taddr t = Some nd ∧ order nd = M ∧ parent nd = par ∧
        keys nd = tkeys t ∧ is_leaf nd = bool_decide (n = O).
Proof.
  destruct n; simpl.
  - intros (u & prev & H). eexists. split; [exact H|done].
  - intros [[u H] _]. eexists. split; [exact H|done].
Qed.

Lemma rep_ids_lt h M {n} par nxt (t : tree n) x :
  rep h M par nxt t → x ∈ ids t → (x < length h)%nat.
Proof.
  revert par nxt t. induction n as [|n IH]; intros par nxt t.
  - destruct t as [a kb]. simpl. intros (u & prev & H) ->%list_elem_of_singleton.
    by eapply lookup_lt_Some.
  - destruct t as [[a ks] cs]. simpl. intros [[u H] Hcs] Hx.
    apply elem_of_cons in Hx as [->|Hx]; [by eapply lookup_lt_Some|].
    apply list_elem_of_bind in Hx as (c & Hx & Hc).
    apply list_elem_of_lookup in Hc as [i Hc].
    eapply Forall2_lookup_r in Hcs as (nx & _ & Hrep); [|done].
    by eapply IH.
Qed.

Lemma rep_frame h h' M {n} par nxt (t : tree n) :
  (∀ x, x ∈ ids t → h' !! x = h !! x) →
  rep h M par nxt t → rep h' M par nxt t.
Proof.
  revert par nxt t. induction n as [|n IH]; intros par nxt t.
  - destruct t as [a kb]. simpl. intros Hf (u & prev & H).
    exists u, prev. rewrite Hf; [done|left].
  - destruct t as [[a ks] cs]. simpl. intros Hf [[u H] Hcs]. split.
    + exists u. rewrite Hf; [done|left].
    + eapply Forall2_impl_elem; [done|]. intros nx c Hc Hrep. simpl in Hrep.
      eapply IH; [|done]. intros x Hx. apply Hf. right. by eapply ids_child.
Qed.

Lemma rep_children_frame h h' M {n} p nexts (cs : list (tree n)) :
  (∀ x, x ∈ cs ≫= ids → h' !! x = h !! x) →
  Forall2 (rep h M p) nexts cs → Forall2 (rep h' M p) nexts cs.
Proof.
  intros Hf Hcs. eapply Forall2_impl_elem; [done|]. intros nx c Hc Hrep. simpl in Hrep.
  eapply rep_frame; [|done]. intros x Hx. apply Hf. by eapply ids_child.
Qed.

(** Redirecting the parent link of the root of a represented tree. *)
Lemma rep_set_parent h M {n} par par' nxt (t : tree n) nd :
  NoDup (ids t) → rep h M par nxt t → h !! taddr t = Some nd →
  rep (<[taddr t := set_parent par' nd]> h) M par' nxt t.
Proof.
  destruct n.
  - destruct t as [a kb]. simpl. intros _ (u & prev & H) Hnd.
    rewrite H in Hnd. injection Hnd as <-.
    exists u, prev. rewrite list_lookup_insert_eq by (by eapply lookup_lt_Some). done.
  - destruct t as [[a ks] cs]. simpl. intros Hnd [[u H] Hcs] Hl.
    rewrite H in Hl. injection Hl as <-. apply NoDup_cons in Hnd as [Ha _]. split.
    + exists u. rewrite list_lookup_insert_eq by (by eapply lookup_lt_Some). done.
    + eapply rep_children_frame; [|done]. intros x Hx.
      apply list_lookup_insert_ne. by intros ->.
Qed.

(** ** The successor leaves of a list of children *)

Lemma child_nexts_cons {n} nxt (c : tree n) cs :
  child_nexts nxt (c :: cs) = (Some ∘ leftmost <$> cs) ++ [nxt].
Proof. done. Qed.

Lemma length_child_nexts {n} nxt (cs : list (tree n)) :
  cs ≠ [] → length (child_nexts nxt cs) = length cs.
Proof.
  destruct cs as [|c cs]; [done|]. intros _. rewrite child_nexts_cons, length_app, length_fmap.
  simpl. lia.
Qed.

Lemma child_nexts_insert {n} nxt (cs : list (tree n)) j c c' :
  cs !! j = Some c → leftmost c' = leftmost c →
  child_nexts nxt (<[j := c']> cs) = child_nexts nxt cs.
Proof.
  intros Hj Hl. destruct cs as [|c0 cs]; [done|]. destruct j as [|j]; [done|].
  simpl in *. rewrite !child_nexts_cons. f_equal.
  rewrite list_fmap_insert. simpl. rewrite Hl. apply list_insert_id.
  by rewrite list_lookup_fmap, Hj.
Qed.

Lemma child_nexts_splice {n} nxt (cs : list (tree n)) j c l r :
  cs !! j = Some c → leftmost l = leftmost c →
  child_nexts nxt (take j cs ++ l :: r :: drop (S j) cs) =
    take j (child_nexts nxt cs) ++ Some (leftmost r) :: drop j (child_nexts nxt cs).
Proof.
  intros Hj Hl. destruct cs as [|c0 cs]; [done|]. destruct j as [|j].
  - done.
  - simpl in Hj. simpl. rewrite !child_nexts_cons.
    assert (j < length cs)%nat by (by eapply lookup_lt_Some).
    rewrite take_app_le by (rewrite length_fmap; lia).
    rewrite drop_app_le by (rewrite length_fmap; lia).
    rewrite fmap_app, !fmap_cons, <- fmap_take, <- fmap_drop.
    rewrite (take_S_r cs j c Hj), fmap_app. simpl. rewrite Hl.
    by rewrite <- !app_assoc.
Qed.

Lemma child_nexts_lookup {n} nxt (cs : list (tree n)) j c :
  cs !! j = Some c →
  child_nexts nxt cs !! j =
    Some (match cs !! S j with Some c' => Some (leftmost c') | None => nxt end).
Proof.
  intros Hj. destruct cs as [|c0 cs]; [done|]. rewrite child_nexts_cons. simpl.
  destruct (cs !! j) as [c'|] eqn:E.
  - rewrite lookup_app_l by (rewrite length_fmap; by eapply lookup_lt_Some).
    by rewrite list_lookup_fmap, E.
  - apply lookup_ge_None in E. apply lookup_lt_Some in Hj. simpl in Hj.
    assert (j = length cs) as -> by lia.
    rewrite lookup_app_r by (by rewrite length_fmap).
    by rewrite length_fmap, Nat.sub_diag.
Qed.

(** ** Search order of abstract trees *)

Lemma contents_leaf (t : tree 0) : contents t = t.2.
Proof. unfold contents. simpl. by rewrite app_nil_r. Qed.

Lemma contents_node {n} (t : tree (S n)) : contents t = t.2 ≫= contents.
Proof.
  unfold contents. cbn [leaves]. induction (t.2) as [|c cs IH]; [done|].
  by rewrite !bind_cons, bind_app, IH.
Qed.

Lemma keys_ok_tail lo hi k ks : keys_ok lo hi (k :: ks) → keys_ok (Some k) hi ks.
Proof.
  intros [[Hk Hs]%StronglySorted_cons [_ Hr]%Forall_cons]. split; [done|].
  apply Forall_forall. intros x Hx. split.
  - simpl. eapply Forall_forall in Hk; [|done]. lia.
  - eapply Forall_forall in Hr; [|done]. by destruct Hr.
Qed.

Lemma children_lookup {n} {P : option Z * option Z → tree n → Prop} lo hi ks cs key :
  Forall2 P (child_bounds lo hi ks) cs →
  ∃ c b, cs !! rank key ks = Some c ∧ child_bounds lo hi ks !! rank key ks = Some b ∧ P b c.
Proof.
  intros HF. pose proof (Forall2_length _ _ _ HF) as Hlen.
  rewrite length_child_bounds in Hlen. pose proof (rank_le key ks).
  destruct (lookup_lt_is_Some_2 cs (rank key ks)) as [c Hc]; [lia|].
  destruct (Forall2_lookup_r _ _ _ _ _ HF Hc) as (b & Hb & HP). eauto.
Qed.

Lemma wf_contents_range M {n} lo hi (t : tree n) :
  wf M lo hi t → Forall (in_range lo hi) (contents t).*1.
Proof.
  revert lo hi t. induction n as [|n IH]; intros lo hi t.
  - destruct t as [a kb]. rewrite contents_leaf. by intros [_ H].
  - destruct t as [[a ks] cs]. rewrite contents_node. simpl. intros (Hks & _ & Hcs).
    apply Forall_forall. intros x Hx.
    apply list_elem_of_fmap in Hx as ([k b] & -> & Hx).
    apply list_elem_of_bind in Hx as (c & Hx & Hc).
    apply list_elem_of_lookup in Hc as [i Hc].
    destruct (Forall2_lookup_r _ _ _ _ _ Hcs Hc) as ([lo' hi'] & Hb & Hwf & _).
    eapply child_bounds_within; [done|done|]. simpl in Hwf.
    apply IH in Hwf. eapply Forall_forall in Hwf; [done|].
    apply list_elem_of_fmap. by exists (k, b).
Qed.

Lemma contents_split M {n} lo hi ks (cs : list (tree n)) key :
  StronglySorted Z.lt ks →
  Forall2 (fun b c => wf M b.1 b.2 c ∧ size_ok M c) (child_bounds lo hi ks) cs →
  Forall (fun x => x < key) (take (rank key ks) cs ≫= contents).*1 ∧
  Forall (fun y => key < y) (drop (S (rank key ks)) cs ≫= contents).*1.
Proof.
  intros Hs Hcs. split; apply Forall_forall; intros x Hx;
    apply list_elem_of_fmap in Hx as ([k b] & -> & Hx);
    apply list_elem_of_bind in Hx as (c & Hx & Hc).
  - apply elem_of_take in Hc as (i & Hc & Hi).
    destruct (Forall2_lookup_r _ _ _ _ _ Hcs Hc) as ([lo' hi'] & Hb & Hwf & _).
    eapply child_bounds_left; [done|done|].
    apply wf_contents_range in Hwf. eapply Forall_forall in Hwf; [done|].
    apply list_elem_of_fmap. by exists (k, b).
  - apply list_elem_of_lookup in Hc as [i Hc]. rewrite lookup_drop in Hc.
    destruct (Forall2_lookup_r _ _ _ _ _ Hcs Hc) as ([lo' hi'] & Hb & Hwf & _).
    eapply child_bounds_right; [done| |done|]; [lia|].
    apply wf_contents_range in Hwf. eapply Forall_forall in Hwf; [done|].
    apply list_elem_of_fmap. by exists (k, b).
Qed.

Lemma contents_middle {n} (cs : list (tree n)) j c :
  cs !! j = Some c →
  cs ≫= contents = (take j cs ≫= contents) ++ contents c ++ (drop (S j) cs ≫= contents).
Proof.
  intros Hj. rewrite <- (take_drop_middle cs j c Hj) at 1.
  by rewrite bind_app, bind_cons.
Qed.

Lemma children_sorted M {n} lo hi ks (cs : list (tree n)) :
  (∀ lo hi (c : tree n), wf M lo hi c → StronglySorted Z.lt (contents c).*1) →
  keys_ok lo hi ks →
  Forall2 (fun b c => wf M b.1 b.2 c ∧ size_ok M c) (child_bounds lo hi ks) cs →
  StronglySorted Z.lt (cs ≫= contents).*1.
Proof.
  intros IH. revert lo cs. induction ks as [|k ks IHks]; intros lo cs Hks Hcs.
  - rewrite child_bounds_nil in Hcs.
    apply Forall2_cons_inv_l in Hcs as (c & cs' & [Hwf _] & ->%Forall2_nil_inv_l & ->).
    rewrite bind_singleton. by eapply IH.
  - rewrite child_bounds_cons in Hcs.
    apply Forall2_cons_inv_l in Hcs as (c & cs' & [Hwf _] & Hcs & ->).
    rewrite bind_cons, fmap_app. apply StronglySorted_app_2.
    + intros x y Hx Hy. simpl in Hwf.
      apply wf_contents_range in Hwf. eapply Forall_forall in Hwf as [_ Hx']; [|done].
      simpl in Hx'.
      assert (in_range (Some k) hi y) as [Hy' _]; [|simpl in Hy'; lia].
      apply list_elem_of_fmap in Hy as ([k' b] & -> & Hy).
      apply list_elem_of_bind in Hy as (c' & Hy & Hc').
      apply list_elem_of_lookup in Hc' as [i Hc'].
      destruct (Forall2_lookup_r _ _ _ _ _ Hcs Hc') as ([lo' hi'] & Hb & Hwf' & _).
      eapply child_bounds_within; [by eapply keys_ok_tail|done|].
      apply wf_contents_range in Hwf'. eapply Forall_forall in Hwf'; [done|].
      apply list_elem_of_fmap. by exists (k', b).
    + by eapply IH.
    + eapply IHks; [by eapply keys_ok_tail|done].
Qed.

Lemma wf_contents_sorted M {n} lo hi (t : tree n) :
  wf M lo hi t → StronglySorted Z.lt (contents t).*1.
Proof.
  revert lo hi t. induction n as [|n IH]; intros lo hi t.
  - destruct t as [a kb]. rewrite contents_leaf. by intros [H _].
  - destruct t as [[a ks] cs]. rewrite contents_node. simpl. intros (Hks & _ & Hcs).
    by eapply children_sorted.
Qed.

(** Looking a key up in the whole tree is looking it up in the child
    that [_find] selects. *)
Lemma alookup_child M {n} lo hi ks (cs : list (tree n)) key c :
  StronglySorted Z.lt ks →
  Forall2 (fun b c => wf M b.1 b.2 c ∧ size_ok M c) (child_bounds lo hi ks) cs →
  cs !! rank key ks = Some c →
  alookup key (cs ≫= contents) = alookup key (contents c).
Proof.
  intros Hs Hcs Hc. destruct (contents_split M lo hi ks cs key Hs Hcs) as [Hl Hr].
  rewrite (contents_middle cs _ c Hc), !alookup_app.
  rewrite (alookup_None key (take _ _ ≫= _)).
  2:{ intros Hin. eapply Forall_forall in Hl; [|done]. simpl in Hl. lia. }
  rewrite (alookup_None key (drop _ _ ≫= _)).
  2:{ intros Hin. eapply Forall_forall in Hr; [|done]. simpl in Hr. lia. }
  by destruct (alookup key (contents c)).
Qed.

(** ** Stepping through monadic code *)

Lemma bind_get {B} h a n (k : node → M B) :
  h !! a = Some n → bind (get a) k h = k n h.
Proof. intros H. by rewrite (bind_Ok _ _ _ _ _ (get_Ok _ _ _ H)). Qed.

Lemma bind_put {B} h a n n' (k : unit → M B) :
  h !! a = Some n → bind (put a n') k h = k tt (<[a := n']> h).
Proof. intros H. by rewrite (bind_Ok _ _ _ _ _ (put_Ok _ _ _ n' H)). Qed.

Lemma bind_modify {B} h a n f (k : unit → M B) :
  h !! a = Some n → bind (modify a f) k h = k tt (<[a := f n]> h).
Proof. intros H. by rewrite (bind_Ok _ _ _ _ _ (modify_Ok _ _ _ f H)). Qed.

Lemma bind_alloc {B} h mk (k : nat → M B) :
  bind (alloc mk) k h = k (length h) (h ++ [mk (S (length h))]).
Proof. done. Qed.

Lemma bind_lift_inr {A B} (a : A) (k : A → M B) h : bind (lift (inr a)) k h = k a h.
Proof. done. Qed.

Lemma bind_ret {A B} (a : A) (k : A → M B) h : bind (ret a) k h = k a h.
Proof. done. Qed.

(** ** Descending to a leaf *)

Lemma find_child M {n} h par (a : addr) ks (cs : list (tree n)) key u c :
  h !! a = Some (mkNode M par ks (VNode ∘ taddr <$> cs) u false None None) →
  ks ≠ [] → cs !! rank key ks = Some c →
  BPlusTree._find (VNode a) key h = Ok (Some (VNode (taddr c), rank key ks)) h.
Proof.
  intros Ha Hks Hc. unfold BPlusTree._find. rewrite (bind_get _ _ _ _ Ha). simpl.
  rewrite find_scan_rank by done. simpl.
  by rewrite list_lookup_fmap, Hc.
Qed.

Lemma descend_spec M {n} h par nxt lo hi (t : tree n) key :
  rep h M par nxt t → wf M lo hi t → in_range lo hi key →
  Z.of_nat (length (tkeys t)) < M →
  ∃ (lf : tree 0) par' nxt' lo' hi',
    (∀ f, (n < f)%nat → BPlusTree.descend f (VNode (taddr t)) key h = Ok lf.1 h) ∧
    rep h M par' nxt' lf ∧ wf M lo' hi' lf ∧ in_range lo' hi' key ∧
    alookup key (contents t) = alookup key lf.2 ∧
    Z.of_nat (length lf.2) < M ∧
    lf.1 ∈ ids t.
Proof.
  revert par nxt lo hi t. induction n as [|n IH]; intros par nxt lo hi t Hrep Hwf Hkey Hsz.
  - destruct t as [a kb]. exists (a, kb), par, nxt, lo, hi.
    split; [|split_and!; try done].
    + intros [|f] Hf; [lia|]. simpl in Hrep. destruct Hrep as (u & prev & Ha).
      simpl. by rewrite (bind_get _ _ _ _ Ha).
    + by rewrite contents_leaf.
    + simpl in Hsz. by rewrite length_fmap in Hsz.
    + left.
  - destruct t as [[a ks] cs]. simpl in Hrep, Hwf.
    destruct Hrep as [[u Ha] Hcs]. destruct Hwf as (Hks & Hne & Hwcs).
    destruct (children_lookup lo hi ks cs key Hwcs) as (c & [lo' hi'] & Hc & Hb & Hwc & Hsc).
    destruct (Forall2_lookup_r _ _ _ _ _ Hcs Hc) as (nx & Hnx & Hrc).
    destruct (rank_bounds lo hi ks key Hkey) as (lo'' & hi'' & Hb' & Hkey').
    rewrite Hb in Hb'. injection Hb' as <- <-.
    destruct (IH _ _ _ _ c Hrc Hwc Hkey' (proj1 Hsc))
      as (lf & par' & nxt' & lo2 & hi2 & Hd & Hrl & Hwl & Hkl & Hal & Hsl & Hin).
    exists lf, par', nxt', lo2, hi2. split; [|split_and!; try done].
    + intros [|f] Hf; [lia|]. cbn [BPlusTree.descend taddr fst].
      rewrite (bind_get _ _ _ _ Ha). cbn [is_leaf].
      rewrite (bind_Ok _ _ _ _ _ (find_child M h par a ks cs key u c Ha Hne Hc)).
      cbn [BPlusTree.unpack]. rewrite bind_ret. cbn [fst]. apply Hd. lia.
    + rewrite contents_node. cbn [snd]. rewrite <- Hal.
      eapply alookup_child; [|done|done]. by destruct Hks.
    + right. eapply ids_child; [|done]. by eapply list_elem_of_lookup_2.
Qed.

Lemma retrieve_spec M {n} h (t : tree n) key self fuel :
  rep h M None None t → wf M None None t → Z.of_nat (length (tkeys t)) < M →
  BPlusTree.root self = taddr t → (n < fuel)%nat →
  BPlusTree.retrieve fuel key self h = Ok (VBucket <$> alookup key (contents t)) h.
Proof.
  intros Hrep Hwf Hsz Hroot Hfuel.
  destruct (descend_spec M h None None None None t key Hrep Hwf)
    as ([e kb] & par' & nxt' & lo' & hi' & Hd & Hrl & _ & _ & Hal & _); [done|done|].
  unfold BPlusTree.retrieve. rewrite Hroot, (bind_Ok _ _ _ _ _ (Hd fuel Hfuel)).
  destruct Hrl as (u & prev & He). simpl in He. simpl fst.
  rewrite (bind_get _ _ _ _ He). cbn [keys values].
  pose proof (retrieve_scan_alookup 0 [] kb key eq_refl) as Hscan. simpl in Hscan.
  unfold lift. simpl. rewrite Hscan. by rewrite Hal.
Qed.

(** ** Cutting a node in two *)

Lemma keys_ok_split lo hi ks m p :
  keys_ok lo hi ks → ks !! m = Some p →
  keys_ok lo (Some p) (take m ks) ∧ keys_ok (Some p) hi (drop m ks) ∧
  keys_ok (Some p) hi (drop (S m) ks) ∧ in_range lo hi p.
Proof.
  intros [Hs Hr] Hm. pose proof (take_drop_middle ks m p Hm) as Hks.
  rewrite <- Hks in Hs. apply StronglySorted_app in Hs as (Hlt & Hs1 & Hs2).
  pose proof Hs2 as [Hp Hs3]%StronglySorted_cons.
  assert (Hrp : in_range lo hi p).
  { eapply Forall_forall in Hr; [done|]. by eapply list_elem_of_lookup_2. }
  assert (Hd : drop m ks = p :: drop (S m) ks) by (by erewrite drop_S).
  split_and!; [| | |done].
  - split; [done|]. apply Forall_forall. intros x Hx. split.
    + eapply Forall_forall in Hr as [? _]; [done|]. by eapply subseteq_take.
    + simpl. apply Hlt; [done|left].
  - rewrite Hd. split; [done|]. apply Forall_forall. intros x Hx. split.
    + simpl. apply elem_of_cons in Hx as [->|Hx]; [lia|].
      eapply Forall_forall in Hp; [|done]. lia.
    + rewrite <- Hd in Hx. eapply Forall_forall in Hr as [_ ?]; [done|].
      by eapply subseteq_drop.
  - split; [done|]. apply Forall_forall. intros x Hx. split.
    + simpl. eapply Forall_forall in Hp; [|done]. lia.
    + eapply Forall_forall in Hr as [_ ?]; [done|]. by eapply subseteq_drop.
Qed.

Lemma child_bounds_take lo hi ks m p :
  ks !! m = Some p →
  take (S m) (child_bounds lo hi ks) = child_bounds lo (Some p) (take m ks).
Proof.
  revert lo m. induction ks as [|k ks IH]; intros lo m Hm; [done|].
  destruct m as [|m].
  - by injection Hm as ->.
  - simpl in Hm. rewrite child_bounds_cons. simpl. rewrite child_bounds_cons.
    f_equal. by apply IH.
Qed.

Lemma child_bounds_drop lo hi ks m p :
  ks !! m = Some p →
  drop (S m) (child_bounds lo hi ks) = child_bounds (Some p) hi (drop (S m) ks).
Proof.
  revert lo m. induction ks as [|k ks IH]; intros lo m Hm; [done|].
  destruct m as [|m].
  - by injection Hm as ->.
  - simpl in Hm. rewrite child_bounds_cons. simpl. by apply IH.
Qed.

Lemma child_nexts_take {n} nxt (cs : list (tree n)) m c :
  (0 < m)%nat → cs !! m = Some c →
  take m (child_nexts nxt cs) = child_nexts (Some (leftmost c)) (take m cs).
Proof.
  intros Hpos Hm. destruct cs as [|c0 cs]; [done|]. destruct m as [|m]; [lia|].
  simpl in Hm. simpl take. rewrite !child_nexts_cons.
  assert (m < length cs)%nat by (by eapply lookup_lt_Some).
  rewrite take_app_le by (rewrite length_fmap; lia).
  by rewrite <- fmap_take, (take_S_r cs m c Hm), fmap_app.
Qed.

Lemma child_nexts_drop {n} nxt (cs : list (tree n)) m :
  (m < length cs)%nat →
  drop m (child_nexts nxt cs) = child_nexts nxt (drop m cs).
Proof.
  intros Hm. destruct m as [|m]; [done|]. destruct cs as [|c0 cs]; [simpl in Hm; lia|].
  simpl in Hm. rewrite child_nexts_cons. simpl drop.
  rewrite drop_app_le by (rewrite length_fmap; lia).
  destruct (lookup_lt_is_Some_2 cs m) as [c Hc]; [lia|].
  rewrite (drop_S cs c m Hc), child_nexts_cons. by rewrite <- fmap_drop.
Qed.

(** ** Re-parenting a list of subtrees *)

Lemma reparent_spec M {n} h pold p nexts (gs : list (tree n)) :
  Forall2 (rep h M pold) nexts gs → NoDup (gs ≫= ids) →
  ∃ h', reparent (VNode ∘ taddr <$> gs) p h = Ok tt h' ∧
        Forall2 (rep h' M (Some p)) nexts gs ∧
        length h' = length h ∧
        (∀ x, x ∉ taddr <$> gs → h' !! x = h !! x).
Proof.
  revert h nexts. induction gs as [|g gs IH]; intros h nexts Hrep Hnd.
  - apply Forall2_nil_inv_r in Hrep as ->. exists h. by split_and!.
  - apply Forall2_cons_inv_r in Hrep as (nx & nexts' & Hg & Hgs & ->).
    rewrite bind_cons in Hnd. apply NoDup_app in Hnd as (Hndg & Hdisj & Hndgs).
    destruct (rep_root _ _ _ _ _ Hg) as (nd & Hl & _).
    set (h1 := <[taddr g := set_parent (Some p) nd]> h).
    assert (Hgs1 : Forall2 (rep h1 M pold) nexts' gs).
    { eapply rep_children_frame; [|done]. intros x Hx. apply list_lookup_insert_ne.
      intros <-. by eapply Hdisj; [apply taddr_in_ids|]. }
    destruct (IH h1 nexts' Hgs1 Hndgs) as (h' & Hrun & Hrep' & Hlen & Hframe).
    exists h'. split_and!.
    + rewrite fmap_cons. cbn [reparent compose].
      by rewrite (bind_modify _ _ _ _ _ Hl).
    + constructor; [|done]. eapply rep_frame; [|by eapply rep_set_parent].
      intros x Hx. apply Hframe. intros (g' & -> & Hg')%list_elem_of_fmap.
      eapply Hdisj; [done|]. eapply ids_child; [done|apply taddr_in_ids].
    + rewrite Hlen. apply length_insert.
    + intros x Hx. rewrite fmap_cons in Hx. apply not_elem_of_cons in Hx as [Hx1 Hx2].
      rewrite Hframe by done. by apply list_lookup_insert_ne.
Qed.

(** ** Python slices at a non-negative index *)

Lemma slice_to_nonneg {A} (l : list A) i : 0 ≤ i → slice_to l i = take (Z.to_nat i) l.
Proof. intros Hi. unfold slice_to, py_bound. by rewrite (proj2 (Z.leb_le 0 i) Hi). Qed.

Lemma slice_from_nonneg {A} (l : list A) i : 0 ≤ i → slice_from l i = drop (Z.to_nat i) l.
Proof. intros Hi. unfold slice_from, py_bound. by rewrite (proj2 (Z.leb_le 0 i) Hi). Qed.

Lemma py_index_nonneg {A} (l : list A) i x :
  0 ≤ i → l !! Z.to_nat i = Some x → py_index l i = inr x.
Proof.
  intros Hi Hx. unfold py_index. rewrite (proj2 (Z.leb_le 0 i) Hi).
  by rewrite (proj2 (Z.leb_le 0 i) Hi), Hx.
Qed.

(** Heap lookups after allocations and updates. *)
Lemma lookup_alloc_at (h : list node) n i : i = length h → (h ++ [n]) !! i = Some n.
Proof. intros ->. apply lookup_alloc_new. Qed.

Ltac len := rewrite ?length_insert, ?length_app; simpl; lia.
Ltac lk :=
  repeat first
    [ rewrite lookup_alloc_at by len
    | rewrite list_lookup_insert_eq by len
    | rewrite list_lookup_insert_ne by len
    | rewrite lookup_app_l by len ].

(** ** Splitting a leaf *)

Lemma leaf_split_run M h par nxt (e : addr) (kb : list (Z * list Z)) :
  2 ≤ M → rep h M par nxt ((e, kb) : tree 0) → Z.of_nat (length kb) = M →
  let m := Z.to_nat (M `div` 2) in
  let L := length h in
  ∃ h' pivot,
    BPlusTree.split_method e h = Ok L h' ∧ kb.*1 !! m = Some pivot ∧
    rep h' M None nxt ((L, [pivot], [(e, take m kb); (S L, drop m kb)]) : tree 1) ∧
    length h' = S (S L) ∧
    (∀ x, (x < L)%nat → x ≠ e → h' !! x = h !! x).
Proof.
  intros HM (u & prev & Ha) Hlen m L. simpl in Ha.
  assert (He : (e < length h)%nat) by (by eapply lookup_lt_Some).
  assert (Hdiv : 0 ≤ M `div` 2) by (apply Z.div_pos; lia).
  assert (Hm : (m < length kb)%nat).
  { subst m. assert (M `div` 2 < M) by (apply Z.div_lt; lia). lia. }
  destruct (lookup_lt_is_Some_2 kb.*1 m) as [pivot Hp]; [by rewrite length_fmap|].
  eexists _, pivot. split_and!; [|done| | |].
  - unfold BPlusTree.split_method. rewrite (bind_get _ _ _ _ Ha). cbn [is_leaf].
    unfold LeafNode.split. rewrite (bind_get _ _ _ _ Ha).
    cbn [order keys values nextLeaf]. rewrite !bind_alloc.
    erewrite bind_modify by (lk; exact Ha).
    erewrite bind_get by (lk; reflexivity). cbn [keys].
    rewrite slice_from_nonneg by done.
    erewrite py_index_nonneg; [|lia|by rewrite lookup_drop, Nat.add_0_r].
    rewrite bind_lift_inr.
    erewrite bind_modify by (lk; reflexivity).
    erewrite bind_modify by (lk; reflexivity).
    reflexivity.
  - subst L. match goal with |- context [length (h ++ [?x])] =>
      replace (length (h ++ [x])) with (S (length h)) by len end.
    cbn [rep fst snd]. split.
    + exists (S (length h)). lk. reflexivity.
    + unfold child_nexts. cbn [tail fmap list_fmap app compose leftmost fst].
      constructor; [|constructor; [|constructor]].
      * exists u, prev. lk. unfold set_nextLeaf, set_values, set_keys, set_parent.
        cbn [order parent keys values uid is_leaf prevLeaf nextLeaf].
        rewrite !slice_to_nonneg by done. fold m. cbn [snd].
        by rewrite !fmap_take.
      * exists (S (S (length h))), (Some e). cbn [fst snd]. lk.
        rewrite !slice_from_nonneg by done. fold m. rewrite !fmap_drop.
        done.
  - len.
  - intros x Hx Hne. by lk.
Qed.

(** ** Splitting an internal node *)

Lemma node_split_run M {n} h par nxt (b : addr) bks (bcs : list (tree n)) :
  2 ≤ M → rep h M par nxt ((b, bks, bcs) : tree (S n)) →
  NoDup (b :: (bcs ≫= ids)) →
  Z.of_nat (length bks) = M → length bcs = S (length bks) →
  let m := Z.to_nat (M `div` 2) in
  let L := length h in
  ∃ h' pivot,
    BPlusTree.split_method b h = Ok b h' ∧ bks !! m = Some pivot ∧
    rep h' M par nxt
      ((b, [pivot], [(L, take m bks, take (S m) bcs);
                     (S L, drop (S m) bks, drop (S m) bcs)]) : tree (S (S n))) ∧
    length h' = S (S L) ∧
    (∀ x, (x < L)%nat → x ∉ b :: (bcs ≫= ids) → h' !! x = h !! x).
Proof.
  intros HM [[u Ha] Hcs] Hnd Hlen Hlcs m L. cbn [fst snd] in Ha, Hcs.
  apply NoDup_cons in Hnd as [Hb Hnd].
  assert (He : (b < length h)%nat) by (by eapply lookup_lt_Some).
  assert (Hdiv : 0 ≤ M `div` 2) by (apply Z.div_pos; lia).
  assert (Hm : (m < length bks)%nat).
  { subst m. assert (M `div` 2 < M) by (apply Z.div_lt; lia). lia. }
  assert (Hm1 : Z.to_nat (M `div` 2 + 1) = S m) by (subst m; lia).
  destruct (lookup_lt_is_Some_2 bks m) as [pivot Hp]; [done|].
  destruct (lookup_lt_is_Some_2 bcs (S m)) as [c' Hc']; [lia|].
  set (gl := take (S m) bcs). set (gr := drop (S m) bcs).
  assert (Hbcs : bcs = gl ++ gr) by (symmetry; apply take_drop).
  rewrite Hbcs, bind_app in Hnd. apply NoDup_app in Hnd as (Hndl & Hdisj & Hndr).
  assert (Hlt : ∀ x, x ∈ bcs ≫= ids → (x < L)%nat).
  { intros x (c & Hx & Hc)%list_elem_of_bind.
    apply list_elem_of_lookup in Hc as [i Hc].
    destruct (Forall2_lookup_r _ _ _ _ _ Hcs Hc) as (nx & _ & Hrc).
    by eapply rep_ids_lt. }
  assert (Hinl : ∀ x, x ∈ gl ≫= ids → x ∈ bcs ≫= ids).
  { intros x Hx. rewrite Hbcs, bind_app. apply elem_of_app. by left. }
  assert (Hinr : ∀ x, x ∈ gr ≫= ids → x ∈ bcs ≫= ids).
  { intros x Hx. rewrite Hbcs, bind_app. apply elem_of_app. by right. }
  assert (Htl : ∀ x, x ∈ taddr <$> gl → x ∈ gl ≫= ids).
  { intros x (g & -> & Hg)%list_elem_of_fmap. eapply ids_child; [done|apply taddr_in_ids]. }
  assert (Htr : ∀ x, x ∈ taddr <$> gr → x ∈ gr ≫= ids).
  { intros x (g & -> & Hg)%list_elem_of_fmap. eapply ids_child; [done|apply taddr_in_ids]. }
  (* the heap once the two halves are allocated and [self] is rewritten *)
  set (nl := mkNode M (Some b) (take m bks) (VNode ∘ taddr <$> gl) (S L) false None None).
  set (nr := mkNode M (Some b) (drop (S m) bks) (VNode ∘ taddr <$> gr) (S (S L))
                    false None None).
  set (nb := mkNode M par [pivot] [VNode L; VNode (S L)] u false None None).
  set (h3 := <[b := nb]> ((h ++ [nl]) ++ [nr])).
  assert (Hf3 : ∀ x, (x < L)%nat → x ≠ b → h3 !! x = h !! x).
  { intros x Hx Hne. subst h3 L. by lk. }
  assert (Hrl3 : Forall2 (rep h3 M (Some b)) (take (S m) (child_nexts nxt bcs)) gl).
  { eapply rep_children_frame; [|by apply Forall2_take].
    intros x Hx. apply Hf3; [by apply Hlt, Hinl|]. intros ->. by apply Hb, Hinl. }
  assert (Hrr3 : Forall2 (rep h3 M (Some b)) (drop (S m) (child_nexts nxt bcs)) gr).
  { eapply rep_children_frame; [|by apply Forall2_drop].
    intros x Hx. apply Hf3; [by apply Hlt, Hinr|]. intros ->. by apply Hb, Hinr. }
  destruct (reparent_spec M h3 (Some b) L _ gl Hrl3 Hndl) as (h4 & Hrun4 & Hrl4 & Hlen4 & Hf4).
  assert (Hrr4 : Forall2 (rep h4 M (Some b)) (drop (S m) (child_nexts nxt bcs)) gr).
  { eapply rep_children_frame; [|done]. intros x Hx. apply Hf4.
    intros Hx'%Htl. by eapply Hdisj. }
  destruct (reparent_spec M h4 (Some b) (S L) _ gr Hrr4 Hndr)
    as (h5 & Hrun5 & Hrr5 & Hlen5 & Hf5).
  assert (Hrl5 : Forall2 (rep h5 M (Some L)) (take (S m) (child_nexts nxt bcs)) gl).
  { eapply rep_children_frame; [|done]. intros x Hx. apply Hf5.
    intros Hx'%Htr. by eapply Hdisj. }
  assert (Hout : ∀ x, x ∉ bcs ≫= ids → h5 !! x = h3 !! x).
  { intros x Hx. rewrite Hf5, Hf4; [done| |].
    - intros Hx'%Htl. by apply Hx, Hinl.
    - intros Hx'%Htr. by apply Hx, Hinr. }
  assert (HL : L ∉ bcs ≫= ids) by (intros Hx%Hlt; lia).
  assert (HSL : S L ∉ bcs ≫= ids) by (intros Hx%Hlt; lia).
  exists h5, pivot. split_and!; [|done| | |].
  - unfold BPlusTree.split_method. rewrite (bind_get _ _ _ _ Ha). cbn [is_leaf].
    unfold Node.split. rewrite (bind_get _ _ _ _ Ha).
    cbn [order keys values]. rewrite !bind_alloc.
    rewrite slice_to_nonneg, !slice_from_nonneg, slice_to_nonneg by lia.
    rewrite Hm1. fold m. rewrite <- fmap_take, <- fmap_drop. fold gl gr L.
    erewrite bind_modify by (lk; exact Ha).
    erewrite py_index_nonneg by (done || exact Hp). rewrite bind_lift_inr.
    erewrite bind_modify by (lk; reflexivity).
    rewrite list_insert_insert_eq.
    unfold set_keys, set_values. cbn [order parent keys values uid is_leaf prevLeaf nextLeaf].
    fold nl. replace (length (h ++ [nl])) with (S L) by (subst L; len).
    fold nr nb h3.
    erewrite bind_get by (subst h3 L; lk; reflexivity).
    cbn [values]. rewrite (bind_Ok _ _ _ _ _ Hrun4).
    erewrite bind_get by (rewrite Hf4 by (intros Hx%Htl%Hinl; done); subst h3 L; lk; reflexivity).
    cbn [values]. by rewrite (bind_Ok _ _ _ _ _ Hrun5).
  - assert (Hgr : gr = c' :: drop (S (S m)) bcs) by (by apply drop_S).
    set (tl := (L, take m bks, gl) : tree (S n)).
    set (tr := (S L, drop (S m) bks, gr) : tree (S n)).
    assert (Hlm : leftmost tr = leftmost c') by (subst tr; cbn; by rewrite Hgr).
    split.
    + exists u. cbn. rewrite Hout by done. subst h3 L. by lk.
    + cbn [fst snd]. change (child_nexts nxt [tl; tr]) with [Some (leftmost tr); nxt].
      constructor; [|constructor; [|constructor]].
      * split.
        -- exists (S L). cbn. rewrite Hout by done. subst h3 L. by lk.
        -- subst tl. cbn [fst snd]. rewrite Hlm. subst gl.
           by rewrite <- (child_nexts_take nxt bcs (S m) c') by (lia || done).
      * split.
        -- exists (S (S L)). cbn. rewrite Hout by done. subst h3 L. by lk.
        -- subst tr. cbn [fst snd]. subst gr. by rewrite <- child_nexts_drop by lia.
  - rewrite Hlen5, Hlen4. subst h3 L. len.
  - intros x Hx Hnin. apply not_elem_of_cons in Hnin as [Hne Hnin].
    rewrite Hout by done. by apply Hf3.
Qed.

(** ** The two halves of a split node are well formed *)

Lemma half_bounds M : 2 ≤ M →
  let m := Z.to_nat (M `div` 2) in
  (0 < m)%nat ∧ Z.of_nat m = M `div` 2 ∧ M `div` 2 < M ∧ M `div` 2 ≤ M - M `div` 2 ∧
  (3 ≤ M → M `div` 2 + 1 < M).
Proof.
  intros HM m. assert (1 ≤ M `div` 2) by (apply Z.div_le_lower_bound; lia).
  assert (M `div` 2 < M) by (apply Z.div_lt; lia).
  pose proof (Z.mul_div_le M 2 ltac:(lia)).
  pose proof (Z.mul_succ_div_gt M 2 ltac:(lia)).
  subst m. split_and!; try lia.
Qed.

Lemma keys_ok_singleton lo hi k : in_range lo hi k → keys_ok lo hi [k].
Proof. intros H. split; [repeat constructor|by constructor]. Qed.

Lemma sorted_first_lt ks m k0 p :
  StronglySorted Z.lt ks → (0 < m)%nat → ks !! 0%nat = Some k0 → ks !! m = Some p → k0 < p.
Proof.
  intros Hs Hm H0 Hp. destruct ks as [|k ks]; [done|]. injection H0 as ->.
  destruct m as [|m]; [lia|]. simpl in Hp. apply StronglySorted_cons in Hs as [Hk _].
  eapply Forall_forall in Hk; [done|]. by eapply list_elem_of_lookup_2.
Qed.

Lemma above_lo lo hi ks m p :
  keys_ok lo hi ks → (0 < m)%nat → ks !! m = Some p → from_option (fun x => x < p) True lo.
Proof.
  intros [Hs Hr] Hm Hp. destruct ks as [|k0 ks]; [done|].
  pose proof (sorted_first_lt (k0 :: ks) m k0 p Hs Hm eq_refl Hp).
  apply Forall_cons in Hr as [[Hlo _] _]. destruct lo; simpl in *; [lia|done].
Qed.

Lemma leaf_split_wf M lo hi (e top r : addr) (kb : list (Z * list Z)) pivot :
  2 ≤ M → wf M lo hi ((e, kb) : tree 0) → Z.of_nat (length kb) = M →
  kb.*1 !! Z.to_nat (M `div` 2) = Some pivot →
  let m := Z.to_nat (M `div` 2) in
  wf M lo hi ((top, [pivot], [(e, take m kb); (r, drop m kb)]) : tree 1) ∧
  from_option (fun x => x < pivot) True lo.
Proof.
  intros HM Hwf Hlen Hp m. cbn [wf fst snd] in Hwf.
  destruct (half_bounds M HM) as (Hm0 & Hm & Hlt & Hge & _). fold m in Hm0, Hm.
  destruct (keys_ok_split lo hi _ _ _ Hwf Hp) as (Hl & Hr & _ & Hin).
  split; [|exact (above_lo lo hi _ m pivot Hwf Hm0 Hp)].
  cbn [wf fst snd]. split_and!; [by apply keys_ok_singleton|done|].
  rewrite child_bounds_cons, child_bounds_nil.
  constructor; [|constructor; [|constructor]]; cbn [fst snd]; split.
  - by rewrite fmap_take.
  - unfold size_ok. cbn [tkeys snd]. rewrite length_fmap, length_take. lia.
  - by rewrite fmap_drop.
  - unfold size_ok. cbn [tkeys snd]. rewrite length_fmap, length_drop. lia.
Qed.

Lemma node_split_wf M {n} lo hi (b L R : addr) bks (bcs : list (tree n)) pivot :
  3 ≤ M → wf M lo hi ((b, bks, bcs) : tree (S n)) → Z.of_nat (length bks) = M →
  bks !! Z.to_nat (M `div` 2) = Some pivot →
  let m := Z.to_nat (M `div` 2) in
  wf M lo hi ((b, [pivot], [(L, take m bks, take (S m) bcs);
                           (R, drop (S m) bks, drop (S m) bcs)]) : tree (S (S n))) ∧
  from_option (fun x => x < pivot) True lo.
Proof.
  intros HM (Hks & Hne & Hcs) Hlen Hp m. cbn [fst snd] in Hks, Hne, Hcs.
  destruct (half_bounds M ltac:(lia)) as (Hm0 & Hm & Hlt & Hge & H3). fold m in Hm0, Hm.
  specialize (H3 HM).
  destruct (keys_ok_split lo hi _ _ _ Hks Hp) as (Hl & _ & Hr & Hin).
  split; [|exact (above_lo lo hi _ m pivot Hks Hm0 Hp)].
  split_and!; [by apply keys_ok_singleton|done|]. cbn [fst snd].
  rewrite child_bounds_cons, child_bounds_nil.
  constructor; [|constructor; [|constructor]]; cbn [fst snd]; split.
  - split_and!; cbn [fst snd]; [done| |].
    + intros Hnil. apply (f_equal length) in Hnil. rewrite length_take in Hnil.
      simpl in Hnil. lia.
    + rewrite <- (child_bounds_take lo hi bks m pivot Hp). by apply Forall2_take.
  - split; [|done]. cbn [tkeys fst snd]. rewrite length_take. lia.
  - split_and!; cbn [fst snd]; [done| |].
    + intros Hnil. apply (f_equal length) in Hnil. rewrite length_drop in Hnil.
      simpl in Hnil. lia.
    + rewrite <- (child_bounds_drop lo hi bks m pivot Hp). by apply Forall2_drop.
  - split; [|done]. cbn [tkeys fst snd]. rewrite length_drop. lia.
Qed.

(** ** The effect of [split] on an overfull node *)

Lemma split_spec M {n} h par nxt lo hi (c : tree n) :
  3 ≤ M → rep h M par nxt c → wf M lo hi c → NoDup (ids c) →
  Z.of_nat (length (tkeys c)) = M →
  ∃ top h' pivot (l r : tree n),
    BPlusTree.split_method (taddr c) h = Ok top h' ∧
    rep h' M (match n with O => None | S _ => par end) nxt
        ((top, [pivot], [l; r]) : tree (S n)) ∧
    wf M lo hi ((top, [pivot], [l; r]) : tree (S n)) ∧
    from_option (fun x => x < pivot) True lo ∧
    leftmost l = leftmost c ∧
    contents l ++ contents r = contents c ∧
    NoDup (top :: ids l ++ ids r) ∧
    (∀ x, x ∈ top :: ids l ++ ids r → x ∈ ids c ∨ (length h ≤ x)%nat) ∧
    (length h ≤ length h')%nat ∧
    (∀ x, (x < length h)%nat → x ∉ ids c → h' !! x = h !! x).
Proof.
  intros HM Hrep Hwf Hnd Hlen. destruct n as [|n].
  - destruct c as [e kb]. cbn [tkeys snd] in Hlen. rewrite length_fmap in Hlen.
    destruct (leaf_split_run M h par nxt e kb ltac:(lia) Hrep Hlen)
      as (h' & pivot & Hrun & Hp & Hrep' & Hlen' & Hframe).
    destruct (leaf_split_wf M lo hi e (length h) (S (length h)) kb pivot
                ltac:(lia) Hwf Hlen Hp) as [Hwf' Hlo].
    assert (He : (e < length h)%nat) by (eapply rep_ids_lt; [done|left]).
    eexists _, h', pivot, _, _. split_and!; try done.
    + rewrite !(contents_leaf (_, _)). cbn [snd]. apply take_drop.
    + cbn [ids fst app].
      repeat (apply NoDup_cons; split; [rewrite ?elem_of_cons, ?elem_of_nil; lia|]).
      apply NoDup_nil_2.
    + cbn [ids fst app]. intros x. rewrite !elem_of_cons, elem_of_nil.
      intros [->|[->|[->|[]]]]; [right; lia|by left; left|right; lia].
    + lia.
    + intros x Hx Hne. apply Hframe; [done|]. intros ->. apply Hne. left.
  - destruct c as [[b bks] bcs]. cbn [tkeys fst snd] in Hlen.
    assert (Hlcs : length bcs = S (length bks)).
    { destruct Hwf as (_ & _ & Hcs). apply Forall2_length in Hcs.
      by rewrite length_child_bounds in Hcs. }
    destruct (node_split_run M h par nxt b bks bcs ltac:(lia) Hrep Hnd Hlen Hlcs)
      as (h' & pivot & Hrun & Hp & Hrep' & Hlen' & Hframe).
    destruct (node_split_wf M lo hi b (length h) (S (length h)) bks bcs pivot
                HM Hwf Hlen Hp) as [Hwf' Hlo].
    assert (Hlt : ∀ x, x ∈ b :: (bcs ≫= ids) → (x < length h)%nat)
      by (intros x Hx; by eapply rep_ids_lt).
    cbn [ids fst snd] in Hnd. apply NoDup_cons in Hnd as [Hb Hnd].
    set (m := Z.to_nat (M `div` 2)) in *.
    assert (Hsplit : bcs ≫= ids = (take (S m) bcs ≫= ids) ++ (drop (S m) bcs ≫= ids)).
    { by rewrite <- bind_app, take_drop. }
    eexists _, h', pivot, _, _. split_and!; try done.
    + cbn [leftmost fst snd]. destruct bcs; [done|done].
    + rewrite !contents_node. cbn [snd]. by rewrite <- bind_app, take_drop.
    + cbn [ids fst snd]. rewrite Hsplit in Hnd, Hb, Hlt.
      apply NoDup_app in Hnd as (Hn1 & Hdisj & Hn2).
      assert (HL : ∀ x, x ∈ b :: (take (S m) bcs ≫= ids) ++ (drop (S m) bcs ≫= ids) →
                        (x < length h)%nat) by done.
      apply NoDup_cons. split.
      { rewrite elem_of_app, !elem_of_cons. intros [[Hx|Hx]|[Hx|Hx]].
        - specialize (HL b ltac:(left)). lia.
        - apply Hb. apply elem_of_app. by left.
        - specialize (HL b ltac:(left)). lia.
        - apply Hb. apply elem_of_app. by right. }
      apply NoDup_app. split_and!.
      * apply NoDup_cons. split; [|done]. intros Hx.
        pose proof (HL (length h) ltac:(right; apply elem_of_app; by left)). lia.
      * intros x [->|Hx]%elem_of_cons [Hy|Hy]%elem_of_cons.
        -- lia.
        -- pose proof (HL (length h) ltac:(right; apply elem_of_app; by right)). lia.
        -- subst x. pose proof (HL (S (length h)) ltac:(right; apply elem_of_app; by left)). lia.
        -- by eapply Hdisj.
      * apply NoDup_cons. split; [|done]. intros Hx.
        pose proof (HL (S (length h)) ltac:(right; apply elem_of_app; by right)). lia.
    + cbn [ids fst snd]. intros x. rewrite elem_of_cons, elem_of_app, !elem_of_cons.
      rewrite Hsplit, elem_of_app.
      intros [->|[[->|Hx]|[->|Hx]]]; auto; right; lia.
    + lia.
Qed.

(** ** Absorbing a split child into its parent *)

Lemma rank_unique lo hi ks j lo' hi' p :
  StronglySorted Z.lt ks →
  child_bounds lo hi ks !! j = Some (lo', hi') → in_range lo' hi' p →
  rank p ks = j.
Proof.
  intros Hs Hb Hp. destruct (Nat.lt_trichotomy (rank p ks) j) as [Hlt|[Heq|Hgt]]; [|done|].
  - pose proof (child_bounds_right lo hi ks p j lo' hi' p Hs Hlt Hb Hp). lia.
  - pose proof (child_bounds_left lo hi ks p j lo' hi' p Hgt Hb Hp). lia.
Qed.

Lemma take_delete_same {A} (l : list A) j : take j (delete j l) = take j l.
Proof.
  rewrite delete_take_drop. destruct (decide (j ≤ length l)%nat).
  - by rewrite take_app_length' by (rewrite length_take; lia).
  - rewrite drop_ge, app_nil_r by lia. by rewrite take_take, Nat.min_id.
Qed.

Lemma drop_delete_same {A} (l : list A) j : drop j (delete j l) = drop (S j) l.
Proof.
  rewrite delete_take_drop. destruct (decide (j ≤ length l)%nat).
  - by rewrite drop_app_length' by (rewrite length_take; lia).
  - rewrite !drop_ge; [done|lia|]. rewrite length_app, length_take, length_drop. lia.
Qed.

Lemma keys_ok_insert lo hi ks j lo' hi' p :
  keys_ok lo hi ks → child_bounds lo hi ks !! j = Some (lo', hi') →
  in_range lo' hi' p → from_option (fun x => x < p) True lo' →
  keys_ok lo hi (take j ks ++ p :: drop j ks).
Proof.
  intros Hks Hb Hp Hlo. pose proof Hks as [Hs Hr].
  pose proof (child_bounds_lookup _ _ _ _ _ _ Hb) as (Elo & Ehi & Hj).
  assert (Hbelow : ∀ x, x ∈ take j ks → x < p).
  { intros x (i & Hx & Hi)%elem_of_take. destruct j as [|j]; [lia|]. subst lo'.
    destruct (ks !! j) as [y|] eqn:Ey; [|apply lookup_ge_None in Ey; lia].
    simpl in Hlo. pose proof (sorted_lookup_le ks i j x y Hs ltac:(lia) Hx Ey). lia. }
  assert (Habove : ∀ x, x ∈ drop j ks → p < x).
  { intros x [i Hx]%list_elem_of_lookup. rewrite lookup_drop in Hx.
    destruct (ks !! j) as [y|] eqn:Ey; [|apply lookup_ge_None in Ey; apply lookup_lt_Some in Hx; lia].
    subst hi'. destruct Hp as [_ Hp]. simpl in Hp.
    pose proof (sorted_lookup_le ks j (j + i) y x Hs ltac:(lia) Ey Hx). lia. }
  rewrite <- (take_drop j ks) in Hs. apply StronglySorted_app in Hs as (Hlt & Hs1 & Hs2).
  split.
  - apply StronglySorted_app_2; [|done|].
    + intros x y Hx [->|Hy]%elem_of_cons; [by apply Hbelow|by apply Hlt].
    + constructor; [done|]. apply Forall_forall. intros x Hx. by apply Habove.
  - apply Forall_app. split; [by apply Forall_take|].
    constructor; [|by apply Forall_drop].
    by eapply child_bounds_within.
Qed.

Lemma mergeUp_run M h (a top : addr) par ptop ks vs pivot cvs u u' j :
  h !! a = Some (mkNode M par ks vs u false None None) →
  h !! top = Some (mkNode M ptop [pivot] cvs u' false None None) →
  a ≠ top → ks ≠ [] → length vs = S (length ks) → j = rank pivot ks →
  ∀ h',
  reparent cvs a (<[a := mkNode M par ks (delete j vs) u false None None]> h) = Ok tt h' →
  h' !! a = Some (mkNode M par ks (delete j vs) u false None None) →
  h' !! top = Some (mkNode M ptop [pivot] cvs u' false None None) →
  BPlusTree._mergeUp a top j h =
    Ok tt (<[a := mkNode M par (take j ks ++ pivot :: drop j ks)
                        (take j vs ++ cvs ++ drop (S j) vs) u false None None]> h').
Proof.
  intros Ha Htop Hne Hks Hlen -> h' Hrun Ha' Htop'.
  pose proof (rank_le pivot ks).
  unfold BPlusTree._mergeUp. rewrite (bind_get _ _ _ _ Ha). cbn [values].
  rewrite decide_True by lia.
  erewrite bind_put by exact Ha.
  erewrite bind_get by (rewrite list_lookup_insert_ne by done; exact Htop).
  cbn [keys values]. rewrite (py_index_nonneg [pivot] 0 pivot) by done.
  rewrite bind_lift_inr.
  unfold set_values at 1. cbn [order parent keys values uid is_leaf prevLeaf nextLeaf].
  rewrite (bind_Ok _ _ _ _ _ Hrun).
  rewrite (bind_get _ _ _ _ Ha'), (bind_get _ _ _ _ Htop'). cbn [keys values].
  rewrite (mergeUp_scan_rank 0 [] ks) by (done || (rewrite length_delete; [simpl; lia|apply lookup_lt_is_Some_2; lia])).
  cbn [fst snd app]. rewrite take_delete_same, drop_delete_same.
  unfold put. rewrite Ha'. done.
Qed.

Lemma split_child_spec M {n} h par nxt lo hi (a : addr) ks (cs : list (tree n)) j c
      (c2 : tree n) lo' hi' :
  3 ≤ M →
  let cs2 := <[j := c2]> cs in
  rep h M par nxt ((a, ks, cs2) : tree (S n)) →
  NoDup (a :: (cs2 ≫= ids)) →
  keys_ok lo hi ks → ks ≠ [] →
  Forall2 (fun b c => wf M b.1 b.2 c ∧ size_ok M c) (child_bounds lo hi ks) cs →
  cs !! j = Some c →
  child_bounds lo hi ks !! j = Some (lo', hi') →
  wf M lo' hi' c2 → Z.of_nat (length (tkeys c2)) = M →
  ∃ h' (cs' : list (tree n)) ks',
    (∀ f self, BPlusTree.overflow (S f) (taddr c2) self h = BPlusTree.overflow f a self h') ∧
    rep h' M par nxt ((a, ks', cs') : tree (S n)) ∧
    wf M lo hi ((a, ks', cs') : tree (S n)) ∧
    length ks' = S (length ks) ∧
    leftmost ((a, ks', cs') : tree (S n)) = leftmost ((a, ks, cs2) : tree (S n)) ∧
    cs' ≫= contents = cs2 ≫= contents ∧
    NoDup (a :: (cs' ≫= ids)) ∧
    (∀ x, x ∈ cs' ≫= ids → x ∈ cs2 ≫= ids ∨ (length h ≤ x)%nat) ∧
    (length h ≤ length h')%nat ∧
    (∀ x, (x < length h)%nat → x ∉ a :: (cs2 ≫= ids) → h' !! x = h !! x).
Proof.
  intros HM cs2 [[u Ha] Hcs2] Hnd Hks Hne Hwcs Hc Hb Hwf2 Hlen2.
  cbn [fst snd] in Ha, Hcs2.
  assert (Hj : (j < length cs)%nat) by (by eapply lookup_lt_Some).
  assert (Hc2 : cs2 !! j = Some c2) by (by apply list_lookup_insert_eq).
  destruct (Forall2_lookup_r _ _ _ _ _ Hcs2 Hc2) as (nxj & Hnxj & Hrep2).
  pose proof (Forall2_length _ _ _ Hwcs) as Hlcs. rewrite length_child_bounds in Hlcs.
  (* the identifiers left of, inside and right of the split child *)
  set (A := take j cs2 ≫= ids). set (B := drop (S j) cs2 ≫= ids).
  assert (Hids2 : cs2 ≫= ids = A ++ ids c2 ++ B).
  { subst A B. rewrite <- (take_drop_middle cs2 j c2 Hc2) at 1.
    by rewrite bind_app, bind_cons. }
  apply NoDup_cons in Hnd as [Ha2 Hnd]. rewrite Hids2 in Hnd, Ha2.
  apply NoDup_app in Hnd as (HndA & HAC & Hnd).
  apply NoDup_app in Hnd as (HndC & HCB & HndB).
  assert (Hlt : ∀ x, x ∈ A ++ ids c2 ++ B → (x < length h)%nat).
  { rewrite <- Hids2. intros x (c0 & Hx & Hc0)%list_elem_of_bind.
    apply list_elem_of_lookup in Hc0 as [i Hc0].
    destruct (Forall2_lookup_r _ _ _ _ _ Hcs2 Hc0) as (nx & _ & Hrc).
    by eapply rep_ids_lt. }
  assert (Halt : (a < length h)%nat) by (by eapply lookup_lt_Some).
  destruct (split_spec M h (Some a) nxj lo' hi' c2 HM Hrep2 Hwf2 HndC Hlen2)
    as (top & h1 & pivot & l & r & Hrun1 & Hrep1 & Hwf1 & Hlo & Hlm & Hcont & Hnd1 &
        Hids1 & Hlen1 & Hframe1).
  set (ptop := match n with O => None | S _ => Some a end) in Hrep1.
  destruct Hrep1 as [[u1 Htop1] Hlr1]. cbn [fst snd] in Htop1, Hlr1.
  change (child_nexts nxj [l; r]) with [Some (leftmost r); nxj] in Hlr1.
  destruct Hwf1 as (Hkp & _ & Hwlr). cbn [fst snd] in Hkp, Hwlr.
  rewrite child_bounds_cons, child_bounds_nil in Hwlr.
  assert (Hpin : in_range lo' hi' pivot).
  { destruct Hkp as [_ Hkp]. by apply Forall_cons in Hkp as [? _]. }
  assert (Hrank : rank pivot ks = j) by (eapply rank_unique; [by destruct Hks|done|done]).
  (* facts about the fresh and reused identifiers *)
  assert (Hnew : ∀ x, x ∈ top :: ids l ++ ids r →
                      (x ≠ a) ∧ (x ∉ A) ∧ (x ∉ B)).
  { intros x Hx. destruct (Hids1 x Hx) as [Hin|Hge].
    - split_and!.
      + intros ->. apply Ha2. rewrite !elem_of_app. auto.
      + intros HxA. eapply HAC; [done|]. apply elem_of_app. auto.
      + intros HxB. by eapply HCB.
    - split_and!.
      + lia.
      + intros HxA. specialize (Hlt x). rewrite !elem_of_app in Hlt. specialize (Hlt ltac:(auto)). lia.
      + intros HxB. specialize (Hlt x). rewrite !elem_of_app in Hlt. specialize (Hlt ltac:(auto)). lia. }
  assert (Hatop : a ≠ top) by (intros ->; by destruct (Hnew top ltac:(left))).
  assert (Ha1 : h1 !! a = h !! a).
  { apply Hframe1; [done|]. intros Hin. apply Ha2. rewrite !elem_of_app. auto. }
  set (vs := VNode ∘ taddr <$> cs2) in *.
  set (na := mkNode M par ks (delete j vs) u false None None).
  set (h1a := <[a := na]> h1).
  assert (Hlr1a : Forall2 (rep h1a M (Some top)) [Some (leftmost r); nxj] [l; r]).
  { eapply rep_children_frame; [|done]. intros x Hx. subst h1a.
    apply list_lookup_insert_ne. intros <-.
    destruct (Hnew a) as [? _]; [|done]. right.
    by rewrite bind_cons, bind_singleton in Hx. }
  apply NoDup_cons in Hnd1 as [Htopn Hnd1].
  destruct (reparent_spec M h1a (Some top) a _ [l; r] Hlr1a)
    as (h4 & Hrun4 & Hlr4 & Hlen4 & Hframe4).
  { by rewrite bind_cons, bind_singleton. }
  assert (Hta : ∀ x, x ∈ taddr <$> [l; r] → x ∈ ids l ++ ids r).
  { intros x. rewrite !fmap_cons, !elem_of_cons, elem_of_app.
    intros [->|[->|Hx]]; [left|right|by apply elem_of_nil in Hx]; apply taddr_in_ids. }
  assert (Ha4 : h4 !! a = Some na).
  { rewrite Hframe4.
    - subst h1a. apply list_lookup_insert_eq. by eapply lookup_lt_Some; rewrite Ha1.
    - intros Hx%Hta. destruct (Hnew a) as [? _]; [by right|done]. }
  assert (Htop4 : h4 !! top = Some (mkNode M ptop [pivot] (VNode ∘ taddr <$> [l; r]) u1
                                            false None None)).
  { rewrite Hframe4.
    - subst h1a. by rewrite list_lookup_insert_ne.
    - intros Hx%Hta. done. }
  set (ks' := take j ks ++ pivot :: drop j ks).
  set (cs' := take j cs2 ++ l :: r :: drop (S j) cs2).
  set (na' := mkNode M par ks' (take j vs ++ (VNode ∘ taddr <$> [l; r]) ++ drop (S j) vs)
                     u false None None).
  set (h5 := <[a := na']> h4).
  assert (Hlvs : length vs = S (length ks)).
  { subst vs cs2. by rewrite length_fmap, length_insert. }
  assert (Hmerge : BPlusTree._mergeUp a top j h1 = Ok tt h5).
  { eapply (mergeUp_run M h1 a top par ptop ks vs pivot _ u u1 j); try done.
    by rewrite Ha1. }
  assert (Hfr : ∀ x, (x < length h)%nat → x ≠ a → x ∉ ids c2 → h5 !! x = h !! x).
  { intros x Hx Hxa Hxc. subst h5. rewrite list_lookup_insert_ne by done.
    rewrite Hframe4.
    - subst h1a. rewrite list_lookup_insert_ne by done. by apply Hframe1.
    - intros Hin%Hta. destruct (Hids1 x) as [?|?]; [by right|done|lia]. }
  assert (Hsib : ∀ x, x ∈ A ++ B → h5 !! x = h !! x).
  { intros x Hx. apply Hfr.
    - apply Hlt. rewrite !elem_of_app in *. tauto.
    - intros ->. apply Ha2. rewrite !elem_of_app in *. tauto.
    - intros Hxc. apply elem_of_app in Hx as [Hx|Hx].
      + eapply HAC; [done|]. apply elem_of_app. auto.
      + by eapply HCB. }
  assert (Hanew : a ∉ ids l ++ ids r).
  { intros Hin. destruct (Hnew a) as [? _]; [by right|done]. }
  assert (Hids' : cs' ≫= ids = A ++ (ids l ++ ids r) ++ B).
  { subst cs' A B. by rewrite bind_app, !bind_cons, <- !app_assoc. }
  exists h5, cs', ks'. split_and!.
  - intros f self. cbn [BPlusTree.overflow].
    destruct (rep_root _ _ _ _ _ Hrep2) as (nd2 & Hl2 & Ho & Hp2 & Hk2 & _).
    rewrite (bind_get _ _ _ _ Hl2), Hk2, Ho, Hlen2, Z.eqb_refl, Hp2.
    rewrite (bind_Ok _ _ _ _ _ Hrun1), (bind_get _ _ _ _ Htop1). cbn [keys].
    rewrite (py_index_nonneg [pivot] 0 pivot) by done. rewrite bind_lift_inr.
    rewrite Ha in Ha1.
    assert (Hc2' : cs2 !! rank pivot ks = Some c2) by (by rewrite Hrank).
    rewrite (bind_Ok _ _ _ _ _ (find_child M h1 par a ks cs2 pivot u c2 Ha1 Hne Hc2')).
    cbn [BPlusTree.unpack]. rewrite bind_ret. cbn [snd]. rewrite Hrank.
    by rewrite (bind_Ok _ _ _ _ _ Hmerge).
  - split.
    + exists u. cbn [fst snd]. subst h5.
      rewrite list_lookup_insert_eq by (by eapply lookup_lt_Some).
      subst na' vs cs'. by rewrite !fmap_app, !fmap_cons, fmap_take, fmap_drop.
    + cbn [fst snd]. subst cs'. rewrite (child_nexts_splice nxt cs2 j c2 l r Hc2 Hlm).
      rewrite (drop_S _ _ _ Hnxj).
      apply Forall2_cons_1 in Hlr4 as [Hl4 Hr4%Forall2_cons_1].
      destruct Hr4 as [Hr4 _].
      apply Forall2_app; [|constructor; [|constructor]].
      * eapply rep_children_frame; [|by apply Forall2_take].
        intros x Hx. apply Hsib. apply elem_of_app. by left.
      * eapply rep_frame; [|done]. intros x Hx. subst h5.
        apply list_lookup_insert_ne. intros <-. apply Hanew. apply elem_of_app. auto.
      * eapply rep_frame; [|done]. intros x Hx. subst h5.
        apply list_lookup_insert_ne. intros <-. apply Hanew. apply elem_of_app. auto.
      * eapply rep_children_frame; [|by apply Forall2_drop].
        intros x Hx. apply Hsib. apply elem_of_app. by right.
  - split_and!; cbn [fst snd].
    + by eapply keys_ok_insert.
    + subst ks'. by destruct (take j ks).
    + subst ks' cs' cs2. rewrite (child_bounds_splice lo hi ks j lo' hi' pivot Hb).
      rewrite take_insert_ge, drop_insert_lt by lia.
      apply Forall2_cons_1 in Hwlr as [Hwl Hwr%Forall2_cons_1].
      destruct Hwr as [Hwr _].
      apply Forall2_app; [by apply Forall2_take|].
      constructor; [done|]. constructor; [done|]. by apply Forall2_drop.
  - subst ks'. rewrite length_app, length_take. simpl. rewrite length_drop. lia.
  - cbn [leftmost snd]. subst cs' cs2. destruct j as [|j'].
    + destruct cs as [|c0 cs0]; [done|]. simpl. done.
    + destruct cs as [|c0 cs0]; [done|]. simpl. done.
  - rewrite (contents_middle cs2 j c2 Hc2). subst cs'.
    by rewrite bind_app, !bind_cons, <- Hcont, <- !app_assoc.
  - rewrite Hids'. apply NoDup_cons. split.
    + intros Hin. rewrite !elem_of_app in Hin.
      destruct Hin as [?|[Hin|?]].
      * apply Ha2. rewrite !elem_of_app. auto.
      * apply Hanew. by apply elem_of_app.
      * apply Ha2. rewrite !elem_of_app. auto.
    + apply NoDup_app. split_and!; [done| |].
      * intros x HxA [Hx|Hx]%elem_of_app.
        -- destruct (Hnew x) as (_ & ? & _); [by right|done].
        -- eapply HAC; [done|]. apply elem_of_app. auto.
      * apply NoDup_app. split_and!; [done| |done].
        intros x Hx HxB. destruct (Hnew x) as (_ & _ & ?); [by right|done].
  - intros x. rewrite Hids', Hids2, !elem_of_app.
    intros [Hx|[Hx|Hx]]; [tauto| |tauto].
    destruct (Hids1 x) as [?|?]; [right; by apply elem_of_app|tauto|tauto].
  - subst h5 h1a. rewrite length_insert, Hlen4, length_insert. done.
  - intros x Hx Hnin. apply not_elem_of_cons in Hnin as [Hxa Hnin].
    apply Hfr; [done|done|]. intros Hxc. apply Hnin. rewrite Hids2, !elem_of_app. auto.
Qed.

(** ** Insertion below a node *)

Lemma bind_middle {A B} (f : A → list B) (l : list A) j c :
  l !! j = Some c →
  l ≫= f = (take j l ≫= f) ++ f c ++ (drop (S j) l ≫= f).
Proof.
  intros Hj. rewrite <- (take_drop_middle l j c Hj) at 1.
  by rewrite bind_app, bind_cons.
Qed.

Lemma bind_insert_middle {A B} (f : A → list B) (l : list A) j c :
  (j < length l)%nat →
  <[j := c]> l ≫= f = (take j l ≫= f) ++ f c ++ (drop (S j) l ≫= f).
Proof.
  intros Hj. rewrite (bind_middle f (<[j := c]> l) j c) by (by apply list_lookup_insert_eq).
  by rewrite take_insert_ge, drop_insert_lt by lia.
Qed.

Lemma add_leaf_exact M h par nxt (e : addr) (kb : list (Z * list Z)) key value u prev :
  h !! e = Some (mkNode M par kb.*1 (VBucket <$> kb.*2) u true prev nxt) →
  LeafNode.add e key value h =
    Ok tt (<[e := mkNode M par (assoc_add key value kb).*1
                         (VBucket <$> (assoc_add key value kb).*2) u true prev nxt]> h).
Proof.
  intros Ha. unfold LeafNode.add. rewrite (bind_get _ _ _ _ Ha). cbn [keys values].
  destruct kb as [|[k b] kb].
  - simpl. unfold put. by rewrite Ha.
  - pose proof (add_scan_assoc 0 [] ((k, b) :: kb) key value ltac:(done) eq_refl) as Hscan.
    rewrite !app_nil_l in Hscan.
    rewrite fmap_cons. rewrite <- fmap_cons. rewrite Hscan, bind_lift_inr.
    unfold put. by rewrite Ha.
Qed.

Lemma add_leaf_run M h par nxt (e : addr) (kb : list (Z * list Z)) key value :
  rep h M par nxt ((e, kb) : tree 0) →
  ∃ h1, LeafNode.add e key value h = Ok tt h1 ∧
        rep h1 M par nxt ((e, assoc_add key value kb) : tree 0) ∧
        length h1 = length h ∧
        (∀ x, x ≠ e → h1 !! x = h !! x).
Proof.
  intros (u & prev & Ha). cbn [fst snd] in Ha.
  assert (He : (e < length h)%nat) by (by eapply lookup_lt_Some).
  eexists. split_and!.
  - by apply add_leaf_exact.
  - exists u, prev. by rewrite list_lookup_insert_eq.
  - by rewrite length_insert.
  - intros x Hx. by rewrite list_lookup_insert_ne.
Qed.

Lemma overflow_stop M {n} h par nxt (t : tree n) f self :
  rep h M par nxt t → Z.of_nat (length (tkeys t)) ≠ M →
  BPlusTree.overflow (S f) (taddr t) self h = Ok self h.
Proof.
  intros Hrep Hne. destruct (rep_root _ _ _ _ _ Hrep) as (nd & Hl & Ho & _ & Hk & _).
  cbn [BPlusTree.overflow]. rewrite (bind_get _ _ _ _ Hl), Hk, Ho.
  by rewrite (proj2 (Z.eqb_neq _ _) Hne).
Qed.

Lemma insert_sub M {n} :
  3 ≤ M → ∀ (t : tree n) h par nxt lo hi key value,
  rep h M par nxt t → wf M lo hi t → NoDup (ids t) →
  Z.of_nat (length (tkeys t)) < M → in_range lo hi key →
  ∃ (e : addr) h1 h2 (t2 : tree n),
    (∀ f, (n < f)%nat → BPlusTree.descend f (VNode (taddr t)) key h = Ok e h) ∧
    LeafNode.add e key value h = Ok tt h1 ∧
    (∀ f self, BPlusTree.overflow (n + S f) e self h1 =
               BPlusTree.overflow (S f) (taddr t) self h2) ∧
    rep h2 M par nxt t2 ∧ wf M lo hi t2 ∧
    taddr t2 = taddr t ∧ leftmost t2 = leftmost t ∧
    Z.of_nat (length (tkeys t2)) ≤ M ∧
    (length (tkeys t) ≤ length (tkeys t2))%nat ∧
    contents t2 = assoc_add key value (contents t) ∧
    NoDup (ids t2) ∧
    (∀ x, x ∈ ids t2 → x ∈ ids t ∨ (length h ≤ x)%nat) ∧
    (length h ≤ length h2)%nat ∧
    (∀ x, (x < length h)%nat → x ∉ ids t → h2 !! x = h !! x).
Proof.
  intros HM. induction n as [|n IH]; intros t h par nxt lo hi key value Hrep Hwf Hnd Hsz Hkey.
  - destruct t as [e kb].
    destruct (add_leaf_run M h par nxt e kb key value Hrep) as (h1 & Hadd & Hrep1 & Hlen1 & Hf1).
    exists e, h1, h1, (e, assoc_add key value kb).
    pose proof (assoc_add_length key value kb) as Hal.
    cbn [tkeys snd] in Hsz. rewrite length_fmap in Hsz.
    split_and!; try done.
    + intros [|f] Hf; [lia|]. destruct Hrep as (u & prev & Ha).
      simpl. by rewrite (bind_get _ _ _ _ Ha).
    + by apply assoc_add_keys_ok.
    + cbn [tkeys snd]. rewrite length_fmap. lia.
    + cbn [tkeys snd]. rewrite !length_fmap. lia.
    + by rewrite !(contents_leaf (_, _)).
    + intros x Hx. by left.
    + lia.
    + intros x Hx Hne. apply Hf1. intros ->. apply Hne. left.
  - destruct t as [[a ks] cs]. pose proof Hrep as [[u Ha] Hcs].
    pose proof Hwf as (Hks & Hne & Hwcs). cbn [fst snd] in Ha, Hcs, Hks, Hne, Hwcs.
    cbn [tkeys fst snd] in Hsz.
    set (j := rank key ks).
    destruct (children_lookup lo hi ks cs key Hwcs) as (c & [lo' hi'] & Hc & Hb & Hwc & Hsc).
    fold j in Hc, Hb. cbn [fst snd] in Hwc.
    destruct (Forall2_lookup_r _ _ _ _ _ Hcs Hc) as (nxj & Hnxj & Hrc).
    destruct (rank_bounds lo hi ks key Hkey) as (lo'' & hi'' & Hb' & Hkey').
    fold j in Hb'. rewrite Hb in Hb'. injection Hb' as <- <-.
    assert (Hj : (j < length cs)%nat) by (by eapply lookup_lt_Some).
    (* identifiers left of, inside and right of the selected child *)
    set (A := take j cs ≫= ids). set (B := drop (S j) cs ≫= ids).
    assert (Hids : cs ≫= ids = A ++ ids c ++ B) by (by apply bind_middle).
    cbn [ids fst snd] in Hnd. apply NoDup_cons in Hnd as [Ha2 Hnd].
    rewrite Hids in Hnd, Ha2.
    apply NoDup_app in Hnd as (HndA & HAC & Hnd).
    apply NoDup_app in Hnd as (HndC & HCB & HndB).
    assert (Hlt : ∀ x, x ∈ a :: (cs ≫= ids) → (x < length h)%nat).
    { intros x Hx. by eapply (rep_ids_lt h M par nxt ((a, ks, cs) : tree (S n))). }
    destruct (IH c h (Some a) nxj lo' hi' key value Hrc Hwc HndC (proj1 Hsc) Hkey')
      as (e & h1 & h2 & c2 & Hdesc & Hadd & Hover & Hrep2 & Hwf2 & Hta2 & Hlm2 & Hsz2 &
          Hgrow & Hcont2 & Hnd2 & Hids2 & Hlen2 & Hframe2).
    set (cs2 := <[j := c2]> cs).
    assert (Hc2 : cs2 !! j = Some c2) by (by apply list_lookup_insert_eq).
    assert (Hidsc2 : cs2 ≫= ids = A ++ ids c2 ++ B) by (by apply bind_insert_middle).
    assert (Hnew : ∀ x, x ∈ ids c2 → (x ≠ a) ∧ (x ∉ A) ∧ (x ∉ B)).
    { intros x Hx. destruct (Hids2 x Hx) as [Hin|Hge].
      - split_and!.
        + intros ->. apply Ha2. rewrite !elem_of_app. auto.
        + intros HxA. eapply HAC; [done|]. apply elem_of_app. auto.
        + intros HxB. by eapply HCB.
      - assert (HAB : ∀ y, y ∈ A ++ B → (y < length h)%nat).
        { intros y Hy. apply Hlt. right. rewrite Hids, !elem_of_app.
          apply elem_of_app in Hy. tauto. }
        pose proof (Hlt a ltac:(left)).
        split_and!; [lia| |].
        + intros HxA. specialize (HAB x). rewrite elem_of_app in HAB.
          specialize (HAB ltac:(auto)). lia.
        + intros HxB. specialize (HAB x). rewrite elem_of_app in HAB.
          specialize (HAB ltac:(auto)). lia. }
    assert (Hfr : ∀ x, (x < length h)%nat → x ∉ ids c → h2 !! x = h !! x) by done.
    assert (Hsib : ∀ x, x ∈ A ++ B → h2 !! x = h !! x).
    { intros x Hx. apply Hfr.
      - apply Hlt. right. rewrite Hids, !elem_of_app. apply elem_of_app in Hx. tauto.
      - intros Hxc. apply elem_of_app in Hx as [Hx|Hx].
        + eapply HAC; [done|]. apply elem_of_app. auto.
        + by eapply HCB. }
    assert (Ha' : h2 !! a = Some (mkNode M par ks (VNode ∘ taddr <$> cs2) u false None None)).
    { rewrite Hfr; [|by apply Hlt; left|].
      - rewrite Ha. subst cs2. rewrite list_fmap_insert. cbn [compose]. rewrite Hta2.
        f_equal. f_equal. symmetry. apply list_insert_id.
        by rewrite list_lookup_fmap, Hc.
      - intros Hin. apply Ha2. rewrite !elem_of_app. auto. }
    assert (Hrepcs2 : rep h2 M par nxt ((a, ks, cs2) : tree (S n))).
    { split; [by exists u|]. cbn [fst snd]. subst cs2.
      rewrite (child_nexts_insert nxt cs j c c2 Hc Hlm2).
      apply Forall2_same_length_lookup_2; [rewrite length_insert; by eapply Forall2_length|].
      intros i nx y Hnx Hy. destruct (decide (i = j)) as [->|Hij].
      - rewrite list_lookup_insert_eq in Hy by done. injection Hy as <-.
        rewrite Hnxj in Hnx. by injection Hnx as <-.
      - rewrite list_lookup_insert_ne in Hy by done.
        destruct (Forall2_lookup_r _ _ _ _ _ Hcs Hy) as (nx' & Hnx' & Hry).
        rewrite Hnx in Hnx'. injection Hnx' as <-.
        eapply rep_frame; [|done]. intros x Hx. apply Hsib.
        destruct (decide (i < j)%nat).
        + apply elem_of_app. left. subst A. eapply ids_child; [|done].
          apply elem_of_take. exists i. split; [done|lia].
        + apply elem_of_app. right. subst B. eapply ids_child; [|done].
          apply list_elem_of_lookup. exists (i - S j)%nat. rewrite lookup_drop.
          rewrite <- Hy. f_equal. lia. }
    assert (Hndcs2 : NoDup (a :: (cs2 ≫= ids))).
    { rewrite Hidsc2. apply NoDup_cons. split.
      - intros Hin. rewrite !elem_of_app in Hin. destruct Hin as [?|[Hin|?]].
        + apply Ha2. rewrite !elem_of_app. auto.
        + by destruct (Hnew a Hin).
        + apply Ha2. rewrite !elem_of_app. auto.
      - apply NoDup_app. split_and!; [done| |].
        + intros x HxA [Hx|Hx]%elem_of_app.
          * by destruct (Hnew x Hx) as (_ & ? & _).
          * eapply HAC; [done|]. apply elem_of_app. auto.
        + apply NoDup_app. split_and!; [done| |done].
          intros x Hx HxB. by destruct (Hnew x Hx) as (_ & _ & ?). }
    assert (Hcontcs2 : cs2 ≫= contents = assoc_add key value (cs ≫= contents)).
    { subst cs2. rewrite (bind_insert_middle contents cs j c2 Hj), Hcont2.
      rewrite (bind_middle contents cs j c Hc).
      destruct (contents_split M lo hi ks cs key (proj1 Hks) Hwcs) as [Hl Hr].
      by rewrite assoc_add_app. }
    assert (Hidscs2 : ∀ x, x ∈ cs2 ≫= ids → x ∈ cs ≫= ids ∨ (length h ≤ x)%nat).
    { intros x. rewrite Hidsc2, Hids, !elem_of_app. intros [?|[Hx|?]]; [tauto| |tauto].
      destruct (Hids2 x Hx); tauto. }
    assert (Hdescend : ∀ f, (S n < f)%nat →
              BPlusTree.descend f (VNode a) key h = Ok e h).
    { intros [|f] Hf; [lia|]. cbn [BPlusTree.descend].
      rewrite (bind_get _ _ _ _ Ha). cbn [is_leaf].
      rewrite (bind_Ok _ _ _ _ _ (find_child M h par a ks cs key u c Ha Hne Hc)).
      cbn [BPlusTree.unpack]. rewrite bind_ret. cbn [fst]. apply Hdesc. lia. }
    assert (Hstep : ∀ f self, BPlusTree.overflow (S n + S f) e self h1 =
                              BPlusTree.overflow (S (S f)) (taddr c2) self h2).
    { intros f self. replace (S n + S f)%nat with (n + S (S f))%nat by lia.
      rewrite Hover. by rewrite Hta2. }
    subst cs2.
    destruct (decide (Z.of_nat (length (tkeys c2)) = M)) as [Hfull|Hnfull].
    + destruct (split_child_spec M h2 par nxt lo hi a ks cs j c c2 lo' hi' HM
                  Hrepcs2 Hndcs2 Hks Hne Hwcs Hc Hb Hwf2 Hfull)
        as (h' & cs' & ks' & Hov & Hrep' & Hwf' & Hlks' & Hlm' & Hcont' & Hnd' & Hids' &
            Hlen' & Hframe').
      exists e, h1, h', (a, ks', cs'). split_and!; try done.
      * intros f self. by rewrite Hstep, Hov.
      * rewrite Hlm'. cbn [leftmost snd].
        destruct cs as [|c0 cs0]; [done|]. destruct j as [|j']; [|done].
        simpl in Hc. injection Hc as ->. done.
      * cbn [tkeys fst snd]. lia.
      * cbn [tkeys fst snd]. lia.
      * rewrite !contents_node. cbn [snd]. by rewrite Hcont', Hcontcs2.
      * cbn [ids fst snd]. intros x [->|Hx]%elem_of_cons; [left; left|].
        destruct (Hids' x Hx) as [Hx'|?]; [|right; lia].
        destruct (Hidscs2 x Hx'); [left; by right|by right].
      * lia.
      * intros x Hx Hnin. cbn [ids fst snd] in Hnin. rewrite Hframe'; [| lia |].
        -- apply not_elem_of_cons in Hnin as [Hxa Hnin]. apply Hfr; [done|].
           intros Hxc. apply Hnin. rewrite Hids, !elem_of_app. auto.
        -- apply not_elem_of_cons in Hnin as [Hxa Hnin].
           apply not_elem_of_cons. split; [done|]. intros Hin.
           destruct (Hidscs2 x Hin); [done|lia].
    + exists e, h1, h2, (a, ks, <[j := c2]> cs). split_and!; try done.
      * intros f self. rewrite Hstep.
        rewrite (overflow_stop M h2 (Some a) nxj c2 (S f) self Hrep2 Hnfull).
        symmetry. apply (overflow_stop M h2 par nxt ((a, ks, <[j := c2]> cs) : tree (S n)) f self Hrepcs2).
        cbn [tkeys fst snd]. lia.
      * split_and!; [done|done|]. cbn [fst snd].
        rewrite <- (list_insert_id (child_bounds lo hi ks) j (lo', hi') Hb).
        apply Forall2_insert; [done|]. split; [done|].
        destruct Hsc as [Hsc1 Hsc2]. split; [lia|].
        destruct n; [lia|done].
      * cbn [leftmost snd].
        destruct cs as [|c0 cs0]; [done|]. destruct j as [|j']; [|done].
        simpl in Hc. injection Hc as ->. done.
      * cbn [tkeys fst snd]. lia.
      * rewrite !contents_node. done.
      * cbn [ids fst snd]. intros x [->|Hx]%elem_of_cons; [left; left|].
        destruct (Hidscs2 x Hx); [left; by right|by right].
      * intros x Hx Hnin. cbn [ids fst snd] in Hnin.
        apply not_elem_of_cons in Hnin as [Hxa Hnin]. apply Hfr; [done|].
        intros Hxc. apply Hnin. rewrite Hids, !elem_of_app. auto.
Qed.

(** ** One insertion, and a sequence of insertions *)

Lemma init_spec M h0 :
  0 < M →
  BPlusTree.init M h0 =
    Ok (BPlusTree.mk (length h0) M) (h0 ++ [LeafNode.init M (S (length h0))]) ∧
  tree_inv M 0 [] (BPlusTree.mk (length h0) M) (h0 ++ [LeafNode.init M (S (length h0))]).
Proof.
  intros HM. split; [done|].
  exists (length h0, []). split_and!; try done.
  - exists (S (length h0)), None. cbn [fst snd]. by rewrite lookup_alloc_new.
  - split; constructor.
  - cbn. apply NoDup_singleton.
Qed.

Lemma insert_spec M n cont self h fuel key value :
  3 ≤ M → tree_inv M n cont self h → (n + 2 ≤ fuel)%nat →
  ∃ self' h' n',
    BPlusTree.insert fuel key value self h = Ok self' h' ∧
    tree_inv M n' (assoc_add key value cont) self' h' ∧
    (n' ≤ S n)%nat.
Proof.
  intros HM (t & Hroot & Hord & Hrep & Hwf & Hnd & Hsz & Hcont) Hfuel.
  destruct (insert_sub M HM t h None None None None key value Hrep Hwf Hnd Hsz)
    as (e & h1 & h2 & t2 & Hdesc & Hadd & Hover & Hrep2 & Hwf2 & Hta2 & Hlm2 & Hsz2 &
        Hgrow & Hcont2 & Hnd2 & Hids2 & Hlen2 & Hframe2); [done|].
  unfold BPlusTree.insert. rewrite Hroot.
  rewrite (bind_Ok _ _ _ _ _ (Hdesc fuel ltac:(lia))).
  rewrite (bind_Ok _ _ _ _ _ Hadd).
  replace fuel with (n + S (S (fuel - n - 2)))%nat by lia.
  rewrite Hover, <- Hta2.
  destruct (decide (Z.of_nat (length (tkeys t2)) = M)) as [Hfull|Hnfull].
  - destruct (split_spec M h2 None None None None t2 HM Hrep2 Hwf2 Hnd2 Hfull)
      as (top & h3 & pivot & l & r & Hrun & Hrep3 & Hwf3 & _ & Hlm3 & Hcont3 & Hnd3 & _).
    assert (Hrep3' : rep h3 M None None ((top, [pivot], [l; r]) : tree (S n)))
      by (by destruct n).
    exists (BPlusTree.mk top (BPlusTree.order self)), h3, (S n). split_and!; [| |lia].
    + cbn [BPlusTree.overflow].
      destruct (rep_root _ _ _ _ _ Hrep2) as (nd & Hl & Ho & Hp & Hk & _).
      rewrite (bind_get _ _ _ _ Hl), Hk, Ho, Hfull, Z.eqb_refl, Hp.
      rewrite (bind_Ok _ _ _ _ _ Hrun).
      apply (overflow_stop M h3 None None ((top, [pivot], [l; r]) : tree (S n))
               _ _ Hrep3').
      cbn. lia.
    + exists (top, [pivot], [l; r]). split_and!; try done.
      * cbn [ids fst snd]. by rewrite bind_cons, bind_singleton.
      * cbn. lia.
      * rewrite contents_node. cbn [snd]. rewrite bind_cons, bind_singleton.
        by rewrite Hcont3, Hcont2, Hcont.
  - exists self, h2, n. split_and!; [| |lia].
    + by apply (overflow_stop M h2 None None t2).
    + exists t2. split_and!; try done.
      * by rewrite Hta2.
      * lia.
      * by rewrite Hcont2, Hcont.
Qed.

Lemma inserts_spec M fuel kvs :
  3 ≤ M → ∀ n cont self h,
  tree_inv M n cont self h → (n + length kvs + 2 ≤ fuel)%nat →
  ∃ self' h' n',
    inserts fuel kvs self h = Ok self' h' ∧
    tree_inv M n' (foldl (fun acc kv => assoc_add kv.1 kv.2 acc) cont kvs) self' h' ∧
    (n' ≤ n + length kvs)%nat.
Proof.
  intros HM. induction kvs as [|[k v] kvs IH]; intros n cont self h Hinv Hfuel.
  - exists self, h, n. split_and!; [done|done|lia].
  - simpl in Hfuel.
    destruct (insert_spec M n cont self h fuel k v HM Hinv ltac:(lia))
      as (self1 & h1 & n1 & Hins & Hinv1 & Hn1).
    destruct (IH n1 _ self1 h1 Hinv1 ltac:(lia)) as (self' & h' & n' & Hrun & Hinv' & Hn').
    exists self', h', n'. split_and!; [|done|simpl; lia].
    cbn [inserts]. by rewrite (bind_Ok _ _ _ _ _ Hins).
Qed.

Lemma construct_insert_spec M fuel kvs h0 :
  3 ≤ M → (length kvs + 2 ≤ fuel)%nat →
  ∃ self h n,
    construct_insert fuel M kvs h0 = Ok self h ∧
    tree_inv M n (model kvs) self h ∧ (n ≤ length kvs)%nat.
Proof.
  intros HM Hfuel. destruct (init_spec M h0 ltac:(lia)) as [Hinit Hinv].
  destruct (inserts_spec M fuel kvs HM 0 [] _ _ Hinv ltac:(lia))
    as (self & h & n & Hrun & Hinv' & Hn).
  exists self, h, n. split_and!; [|done|lia].
  unfold construct_insert. by rewrite (bind_Ok _ _ _ _ _ Hinit).
Qed.

(** ** The leaf chain *)

Lemma rep_children_nonempty M {n} h p nxt (cs : list (tree n)) :
  Forall2 (rep h M p) (child_nexts nxt cs) cs → cs ≠ [].
Proof. intros H ->. by apply Forall2_length in H. Qed.

Lemma edge_descend_leftmost M {n} h par nxt (t : tree n) f :
  rep h M par nxt t → (n < f)%nat →
  BPlusTree.edge_descend f 0 (VNode (taddr t)) h = Ok (VNode (leftmost t)) h.
Proof.
  revert par nxt t f. induction n as [|n IH]; intros par nxt t [|f] Hrep Hf; try lia.
  - destruct t as [e kb]. destruct Hrep as (u & prev & Ha).
    cbn [BPlusTree.edge_descend taddr]. by rewrite (bind_get _ _ _ _ Ha).
  - destruct t as [[a ks] cs]. destruct Hrep as [[u Ha] Hcs]. cbn [fst snd] in Ha, Hcs.
    pose proof (rep_children_nonempty _ _ _ _ _ Hcs) as Hne.
    destruct cs as [|c cs]; [done|].
    apply Forall2_cons_inv_r in Hcs as (nx & nexts & Hc & _ & _).
    cbn [BPlusTree.edge_descend taddr fst]. rewrite (bind_get _ _ _ _ Ha).
    cbn [is_leaf values]. rewrite (py_index_nonneg _ 0 (VNode (taddr c))) by done.
    rewrite bind_lift_inr. cbn [leftmost snd]. eapply IH; [done|lia].
Qed.

Lemma chain_None f h : chain f h None = Some [].
Proof. by destruct f. Qed.

Lemma chain_spec M {n} h par nxt (t : tree n) f :
  rep h M par nxt t →
  chain (length (leaves t) + f) h (Some (leftmost t)) =
    app (fst <$> leaves t) <$> chain f h nxt.
Proof.
  revert par nxt t f. induction n as [|n IH]; intros par nxt t f Hrep.
  - destruct t as [e kb]. destruct Hrep as (u & prev & Ha). cbn [fst snd] in Ha.
    cbn [leaves leftmost length Nat.add chain fst]. rewrite Ha. cbn [is_leaf nextLeaf].
    by destruct (chain f h nxt).
  - destruct t as [[a ks] cs]. destruct Hrep as [_ Hcs]. cbn [fst snd] in Hcs.
    pose proof (rep_children_nonempty _ _ _ _ _ Hcs) as Hne.
    cbn [leaves leftmost snd]. destruct cs as [|c cs]; [done|]. clear Hne.
    revert c Hcs. induction cs as [|c' cs IHcs]; intros c Hcs.
    + apply Forall2_cons_inv_r in Hcs as (nx & nexts & Hc & _ & Heq).
      rewrite child_nexts_cons in Heq. simpl in Heq. injection Heq as <- _.
      rewrite bind_singleton. by eapply IH.
    + rewrite child_nexts_cons, fmap_cons in Hcs. simpl in Hcs.
      apply Forall2_cons_1 in Hcs as [Hc Hcs].
      rewrite bind_cons, length_app, fmap_app, <- Nat.add_assoc.
      rewrite (IH _ _ c _ Hc).
      specialize (IHcs c'). rewrite child_nexts_cons in IHcs. rewrite (IHcs Hcs).
      destruct (chain f h nxt); simpl; [|done]. by rewrite app_assoc.
Qed.

Lemma rep_leaves M {n} h par nxt (t : tree n) :
  rep h M par nxt t →
  Forall (fun lf => ∃ nd, h !! lf.1 = Some nd ∧ keys nd = lf.2.*1 ∧ is_leaf nd = true)
         (leaves t).
Proof.
  revert par nxt t. induction n as [|n IH]; intros par nxt t Hrep.
  - destruct t as [e kb]. destruct Hrep as (u & prev & Ha). constructor; [|done].
    eexists. split; [exact Ha|done].
  - destruct t as [[a ks] cs]. destruct Hrep as [_ Hcs]. cbn [fst snd] in Hcs.
    cbn [leaves snd]. apply Forall_bind, Forall_forall. intros c Hc.
    apply list_elem_of_lookup in Hc as [i Hc].
    destruct (Forall2_lookup_r _ _ _ _ _ Hcs Hc) as (nx & _ & Hrc).
    by eapply IH.
Qed.

Lemma fmap_bind_comm {A B C} (g : B → C) (f : A → list B) (l : list A) :
  g <$> (l ≫= f) = l ≫= (fun x => g <$> f x).
Proof.
  induction l as [|x l IH]; [done|]. by rewrite !bind_cons, fmap_app, IH.
Qed.

Lemma chain_keys_leaves M {n} h par nxt (t : tree n) :
  rep h M par nxt t → chain_keys h (fst <$> leaves t) = (contents t).*1.
Proof.
  intros Hrep. unfold chain_keys, contents. rewrite list_fmap_bind, fmap_bind_comm.
  apply Forall_bind_ext. eapply Forall_impl; [by eapply rep_leaves|].
  intros lf (nd & Hl & Hk & _). simpl. by rewrite Hl.
Qed.

Lemma wf_leaves_size M {n} lo hi (t : tree n) :
  wf M lo hi t → size_ok M t →
  Forall (fun lf => M `div` 2 ≤ Z.of_nat (length lf.2) < M) (leaves t).
Proof.
  revert lo hi t. induction n as [|n IH]; intros lo hi t Hwf Hsz.
  - destruct t as [e kb]. destruct Hsz as [H1 H2]. cbn [tkeys snd] in H1, H2.
    rewrite length_fmap in H1, H2. constructor; [|done]. simpl. lia.
  - destruct t as [[a ks] cs]. destruct Hwf as (_ & _ & Hcs). cbn [fst snd] in Hcs.
    cbn [leaves snd]. apply Forall_bind, Forall_forall. intros c Hc.
    apply list_elem_of_lookup in Hc as [i Hc].
    destruct (Forall2_lookup_r _ _ _ _ _ Hcs Hc) as (b & _ & Hwc & Hsc).
    by eapply IH.
Qed.

Lemma wf_root_leaves_size M {n} (t : tree (S n)) :
  wf M None None t →
  Forall (fun lf => M `div` 2 ≤ Z.of_nat (length lf.2) < M) (leaves t).
Proof.
  destruct t as [[a ks] cs]. intros (_ & _ & Hcs). cbn [fst snd] in Hcs.
  cbn [leaves snd]. apply Forall_bind, Forall_forall. intros c Hc.
  apply list_elem_of_lookup in Hc as [i Hc].
  destruct (Forall2_lookup_r _ _ _ _ _ Hcs Hc) as (b & _ & Hwc & Hsc).
  by eapply wf_leaves_size.
Qed.

(** ** Inserting under a key that is present *)

Lemma assoc_add_present key value (kb : list (Z * list Z)) i b :
  StronglySorted Z.lt kb.*1 → kb !! i = Some (key, b) →
  assoc_add key value kb = <[i := (key, b ++ [value])]> kb.
Proof.
  revert i. induction kb as [|[k b'] kb IH]; intros i Hs Hi; [done|].
  apply StronglySorted_cons in Hs as [Hk Hs]. destruct i as [|i]; simpl in *.
  - injection Hi as -> ->. by rewrite Z.eqb_refl.
  - assert (k < key).
    { eapply Forall_forall in Hk; [done|]. apply list_elem_of_fmap.
      exists (key, b). split; [done|]. by eapply list_elem_of_lookup_2. }
    replace (key =? k) with false by (symmetry; apply Z.eqb_neq; lia).
    replace (key <? k) with false by (symmetry; apply Z.ltb_ge; lia).
    by rewrite (IH i).
Qed.

Lemma alookup_Some_lookup key (kb : list (Z * list Z)) b :
  alookup key kb = Some b → ∃ i, kb !! i = Some (key, b).
Proof.
  induction kb as [|[k b'] kb IH]; [done|]. simpl.
  destruct (key =? k) eqn:E.
  - apply Z.eqb_eq in E as ->. intros [= ->]. by exists 0%nat.
  - intros [i Hi]%IH. by exists (S i).
Qed.

Lemma insert_existing M n cont self h fuel key value :
  tree_inv M n cont self h → key ∈ cont.*1 → (n + 1 ≤ fuel)%nat →
  ∃ e nd i b,
    h !! e = Some nd ∧ is_leaf nd = true ∧
    keys nd !! i = Some key ∧ values nd !! i = Some (VBucket b) ∧
    alookup key cont = Some b ∧
    BPlusTree.insert fuel key value self h =
      Ok self (<[e := set_values (<[i := VBucket (b ++ [value])]> (values nd)) nd]> h).
Proof.
  intros (t & Hroot & Hord & Hrep & Hwf & Hnd & Hsz & <-) Hin Hfuel.
  destruct (descend_spec M h None None None None t key Hrep Hwf ltac:(done) Hsz)
    as ([e kb] & par' & nxt' & lo' & hi' & Hd & Hrl & Hwl & _ & Hal & Hsl & _).
  cbn [fst snd] in Hal, Hd, Hwl.
  destruct (alookup_elem _ _ Hin) as [b Hb]. rewrite Hb in Hal. symmetry in Hal.
  destruct (alookup_Some_lookup _ _ _ Hal) as [i Hi].
  pose proof Hrl as (u & prev & He). cbn [fst snd] in He, Hsl.
  pose proof (assoc_add_present key value kb i b (proj1 Hwl) Hi) as Hadd.
  pose proof (add_leaf_exact M h par' nxt' e kb key value u prev He) as Hrun.
  set (h1 := <[e := mkNode M par' (assoc_add key value kb).*1
                           (VBucket <$> (assoc_add key value kb).*2) u true prev nxt']> h)
    in Hrun.
  assert (Hrep1 : rep h1 M par' nxt' ((e, assoc_add key value kb) : tree 0)).
  { exists u, prev. subst h1. by rewrite list_lookup_insert_eq by (by eapply lookup_lt_Some). }
  assert (Hh1 : h1 = <[e := set_values (<[i := VBucket (b ++ [value])]>
                                          (VBucket <$> kb.*2))
                           (mkNode M par' kb.*1 (VBucket <$> kb.*2) u true prev nxt')]> h).
  { subst h1. rewrite Hadd. unfold set_values. cbn.
    rewrite !list_fmap_insert. cbn.
    by rewrite (list_insert_id kb.*1) by (by rewrite list_lookup_fmap, Hi). }
  eexists e, _, i, b. split_and!; [exact He|done| | |done|].
  - cbn [keys]. by rewrite list_lookup_fmap, Hi.
  - cbn [values]. by rewrite !list_lookup_fmap, Hi.
  - unfold BPlusTree.insert. rewrite Hroot.
    rewrite (bind_Ok _ _ _ _ _ (Hd fuel ltac:(lia))). cbn [fst].
    rewrite (bind_Ok _ _ _ _ _ Hrun). cbn [values]. rewrite <- Hh1.
    destruct fuel as [|f]; [lia|].
    apply (overflow_stop M h1 par' nxt' ((e, assoc_add key value kb) : tree 0) f self Hrep1).
    cbn [tkeys snd]. rewrite Hadd, length_fmap, length_insert. lia.
Qed.

(** * The properties of the module *)

Lemma inserted_under_absent key kvs : key ∉ kvs.*1 → inserted_under key kvs = [].
Proof.
  unfold inserted_under. induction kvs as [|[k v] kvs IH]; [done|].
  rewrite fmap_cons, not_elem_of_cons. intros [Hne Hnin]. simpl in Hne.
  rewrite filter_cons_False by (simpl; congruence). by apply IH.
Qed.

(** C1, as stated (for every freshly constructed tree), fails at order
    2, which the constructor accepts: after the insertions 1, 2, 3 the
    root has been split into a left node with the key 2 and a right node
    without keys under the key 3; [retrieve(3)] descends into the right
    node, where [_find] returns [None], and raises [TypeError] although
    the value 3 was inserted under the key 3.  No amount of fuel makes
    the lookup return. *)
Lemma insert_retrieve_order2_counterexample :
  ∃ self h,
    construct_insert 10 2 [(1, 1); (2, 2); (3, 3)] [] = Ok self h ∧
    expected 3 [(1, 1); (2, 2); (3, 3)] = Some (VBucket [3]) ∧
    BPlusTree.retrieve 10 3 self h = Raise TypeError h ∧
    ∀ fuel r h', BPlusTree.retrieve fuel 3 self h ≠ Ok r h'.
Proof.
  eexists _, _. split; [vm_compute; reflexivity|]. split; [reflexivity|].
  split; [vm_compute; reflexivity|].
  intros [|[|[|fuel]]] r h'; by vm_compute.
Qed.

(** C1, amended: on a tree of order at least 3 built from a fresh
    construction by any sequence of insertions, [retrieve(key)] returns
    the bucket holding exactly the values inserted under [key], in
    insertion order, and returns [None] for a key that was never
    inserted.  The fuel needed grows with the number of insertions. *)
Theorem insert_retrieve (order : Z) (kvs : list (Z * Z)) (fuel : nat) (h0 : list node) :
  3 ≤ order → (length kvs + 2 ≤ fuel)%nat →
  ∃ self h,
    construct_insert fuel order kvs h0 = Ok self h ∧
    (∀ key, BPlusTree.retrieve fuel key self h = Ok (expected key kvs) h) ∧
    (∀ key, key ∉ kvs.*1 → BPlusTree.retrieve fuel key self h = Ok None h).
Proof.
  intros HM Hfuel.
  destruct (construct_insert_spec order fuel kvs h0 HM Hfuel)
    as (self & h & n & Hrun & (t & Hroot & Hord & Hrep & Hwf & Hnd & Hsz & Hcont) & Hn).
  exists self, h. split; [done|].
  assert (Hret : ∀ key, BPlusTree.retrieve fuel key self h = Ok (expected key kvs) h).
  { intros key. rewrite (retrieve_spec order h t key self fuel Hrep Hwf Hsz Hroot) by lia.
    rewrite Hcont, alookup_model. unfold expected.
    by destruct (inserted_under key kvs). }
  split; [done|]. intros key Hkey. rewrite Hret. unfold expected.
  by rewrite inserted_under_absent.
Qed.

(** The statement of C1 at order 3 and four insertions, two of them under
    the same key. *)
Lemma insert_retrieve_witness :
  3 ≤ 3 ∧ (length [(10, 1); (20, 2); (10, 3); (5, 4)] + 2 ≤ 6)%nat ∧
  ∃ self h,
    construct_insert 6 3 [(10, 1); (20, 2); (10, 3); (5, 4)] [] = Ok self h ∧
    (∀ key, BPlusTree.retrieve 6 key self h =
            Ok (expected key [(10, 1); (20, 2); (10, 3); (5, 4)]) h) ∧
    (∀ key, key ∉ [(10, 1); (20, 2); (10, 3); (5, 4)].*1 →
            BPlusTree.retrieve 6 key self h = Ok None h).
Proof.
  split; [lia|]. split; [simpl; lia|].
  apply (insert_retrieve 3 [(10, 1); (20, 2); (10, 3); (5, 4)] 6 []); [lia|simpl; lia].
Defined.

(** C2: after any sequence of insertions into a tree of order [M] at least
    3, following [nextLeaf] from the leftmost leaf to the end yields all
    inserted keys in strictly ascending order (so no key sits in two
    leaves), and every leaf other than the root holds between
    [M // 2 - 1] and [M - 1] keys. *)
Theorem leaf_chain_sorted (order : Z) (kvs : list (Z * Z)) (fuel : nat) (h0 : list node) :
  3 ≤ order → (length kvs + 2 ≤ fuel)%nat →
  ∃ self h lm ls,
    construct_insert fuel order kvs h0 = Ok self h ∧
    BPlusTree.getLeftmostLeaf fuel self h = Ok (Some (VNode lm)) h ∧
    (∃ cf, ∀ f, (cf ≤ f)%nat → chain f h (Some lm) = Some ls) ∧
    StronglySorted Z.lt (chain_keys h ls) ∧
    (∀ k, k ∈ chain_keys h ls ↔ k ∈ kvs.*1) ∧
    Forall (fun a => a = BPlusTree.root self ∨
                     ∃ nd, h !! a = Some nd ∧ is_leaf nd = true ∧
                           order `div` 2 - 1 ≤ Z.of_nat (length (keys nd)) ≤ order - 1) ls.
Proof.
  intros HM Hfuel.
  destruct (construct_insert_spec order fuel kvs h0 HM Hfuel)
    as (self & h & n & Hrun & (t & Hroot & Hord & Hrep & Hwf & Hnd & Hsz & Hcont) & Hn).
  exists self, h, (leftmost t), (fst <$> leaves t). split_and!; [done|..].
  - unfold BPlusTree.getLeftmostLeaf. rewrite Hroot.
    by rewrite (bind_Ok _ _ _ _ _ (edge_descend_leftmost order h None None t fuel Hrep
                                      ltac:(lia))).
  - exists (length (leaves t)). intros f Hf.
    replace f with (length (leaves t) + (f - length (leaves t)))%nat by lia.
    rewrite (chain_spec order h None None t _ Hrep), chain_None. simpl.
    by rewrite app_nil_r.
  - rewrite (chain_keys_leaves order h None None t Hrep), Hcont. apply model_sorted.
  - intros k. rewrite (chain_keys_leaves order h None None t Hrep), Hcont.
    apply elem_of_model_keys.
  - apply Forall_fmap. destruct n as [|n].
    + destruct t as [e kb]. constructor; [|done]. left. by rewrite Hroot.
    + pose proof (wf_root_leaves_size order t Hwf) as Hsize.
      pose proof (rep_leaves order h None None t Hrep) as Hleaves.
      eapply Forall_impl; [apply Forall_and; split; [exact Hsize|exact Hleaves]|].
      intros lf [Hs (nd & Hl & Hk & Hlf)]. right. exists nd. split_and!; try done.
      * rewrite Hk, length_fmap. lia.
      * rewrite Hk, length_fmap. lia.
Qed.

(** The statement of C2 at order 3 and four insertions. *)
Lemma leaf_chain_sorted_witness :
  3 ≤ 3 ∧ (length [(10, 1); (20, 2); (10, 3); (5, 4)] + 2 ≤ 6)%nat ∧
  ∃ self h lm ls,
    construct_insert 6 3 [(10, 1); (20, 2); (10, 3); (5, 4)] [] = Ok self h ∧
    BPlusTree.getLeftmostLeaf 6 self h = Ok (Some (VNode lm)) h ∧
    (∃ cf, ∀ f, (cf ≤ f)%nat → chain f h (Some lm) = Some ls) ∧
    StronglySorted Z.lt (chain_keys h ls) ∧
    (∀ k, k ∈ chain_keys h ls ↔ k ∈ [(10, 1); (20, 2); (10, 3); (5, 4)].*1) ∧
    Forall (fun a => a = BPlusTree.root self ∨
                     ∃ nd, h !! a = Some nd ∧ is_leaf nd = true ∧
                           3 `div` 2 - 1 ≤ Z.of_nat (length (keys nd)) ≤ 3 - 1) ls.
Proof.
  split; [lia|]. split; [simpl; lia|].
  apply (leaf_chain_sorted 3 [(10, 1); (20, 2); (10, 3); (5, 4)] 6 []); [lia|simpl; lia].
Defined.

(** C3: the order-3 scenario.  After 10, 20, 5 the root is an internal
    node with one key; after all eight insertions [retrieve(12)] is
    [[12]], [retrieve(99)] is [None], and the leaf chain read from the
    leftmost leaf holds 5, 6, 7, 10, 12, 17, 20, 30. *)
Theorem scenario_order3 :
  (∃ t h n, built 10 3 [10; 20; 5] = Ok t h ∧ h !! BPlusTree.root t = Some n ∧
            is_leaf n = false ∧ length (keys n) = 1%nat) ∧
  (∃ t h lm ls, built 10 3 [10; 20; 5; 6; 12; 30; 7; 17] = Ok t h ∧
     BPlusTree.retrieve 10 12 t h = Ok (Some (VBucket [12])) h ∧
     BPlusTree.retrieve 10 99 t h = Ok None h ∧
     BPlusTree.getLeftmostLeaf 10 t h = Ok (Some (VNode lm)) h ∧
     chain 10 h (Some lm) = Some ls ∧
     chain_keys h ls = [5; 6; 7; 10; 12; 17; 20; 30]).
Proof.
  split.
  - eexists _, _, _. split; [vm_compute; reflexivity|]. by vm_compute.
  - eexists _, _, _, _. split; [vm_compute; reflexivity|].
    split; [vm_compute; reflexivity|].
    split; [vm_compute; reflexivity|].
    split; [vm_compute; reflexivity|].
    split; vm_compute; reflexivity.
Qed.

(** C4: the leaf chain is not kept doubly linked.  After inserting 3, 4,
    5, 2, 1 into a tree of order 3 the leaf at address 4 has the leaf at
    address 2 as successor, whose [prevLeaf] is still the leaf at address
    0; after inserting 1, 2, 3, 4 and merging the leaves 0 and 2, the
    surviving leaf 0 has leaf 4 as successor, whose [prevLeaf] is still
    the merged-away leaf 2. *)
Theorem leaf_chain_prev_stale :
  (∃ t h l s, built 10 3 [3; 4; 5; 2; 1] = Ok t h ∧
     h !! 4%nat = Some l ∧ keys l = [2; 3] ∧ nextLeaf l = Some 2%nat ∧
     h !! 2%nat = Some s ∧ keys s = [4; 5] ∧ prevLeaf s = Some 0%nat) ∧
  (∃ t h h' l s, built 10 3 [1; 2; 3; 4] = Ok t h ∧
     BPlusTree._mergeOnDelete 0 2 h = Ok tt h' ∧
     h' !! 0%nat = Some l ∧ keys l = [1; 2] ∧ nextLeaf l = Some 4%nat ∧
     h' !! 4%nat = Some s ∧ keys s = [3; 4] ∧ prevLeaf s = Some 2%nat).
Proof.
  split.
  - eexists _, _, _, _. split; [vm_compute; reflexivity|].
    split; [vm_compute; reflexivity|]. split; [reflexivity|]. split; [reflexivity|].
    split; [vm_compute; reflexivity|]. split; reflexivity.
  - eexists _, _, _, _, _. split; [vm_compute; reflexivity|].
    split; [vm_compute; reflexivity|].
    split; [vm_compute; reflexivity|]. split; [reflexivity|]. split; [reflexivity|].
    split; [vm_compute; reflexivity|]. split; reflexivity.
Qed.

(** C5, as stated, fails: with key 1 stored, calling [delete] raises
    [AttributeError] and the bucket is still there. *)
Lemma delete_counterexample :
  ∃ t h, built 5 3 [1] = Ok t h ∧
    BPlusTree.call 5 "delete" [1] t h = Raise AttributeError h ∧
    BPlusTree.retrieve 5 1 t h = Ok (Some (VBucket [1])) h.
Proof.
  eexists _, _. split; [vm_compute; reflexivity|]. split; vm_compute; reflexivity.
Qed.

(** C5, amended: the class defines no [delete]; for every tree state and
    arguments the call raises [AttributeError] and leaves the heap as it
    was. *)
Theorem delete_not_defined (fuel : nat) (args : list Z) (self : BPlusTree.t) (h : list node) :
  BPlusTree.call fuel "delete" args self h = Raise AttributeError h.
Proof. reflexivity. Qed.

(** C6, as stated, fails: constructing a tree of order 2 succeeds. *)
Lemma init_order2_counterexample :
  BPlusTree.init 2 [] = Ok (BPlusTree.mk 0 2) [LeafNode.init 2 1] ∧
  ¬ (∃ e h, BPlusTree.init 2 [] = Raise e h).
Proof. split; [reflexivity|]. by intros (e & h & H). Qed.

(** What an order below 3 leads to later: with order 2 the fourth
    insertion reaches an internal node without keys, where [_find] returns
    [None], and the unpacking of its result raises. *)
Example order2_insert_raises :
  ∃ h, built 10 2 [1; 2; 3; 4] = Raise TypeError h.
Proof. eexists. vm_compute. reflexivity. Qed.

(** C6, amended: construction validates nothing; for every order it
    returns a tree whose root is a new empty leaf of that order. *)
Theorem init_never_fails (order : Z) (h : list node) :
  BPlusTree.init order h =
    Ok (BPlusTree.mk (length h) order) (h ++ [LeafNode.init order (S (length h))]).
Proof. reflexivity. Qed.

(** C7: borrowing between internal nodes is not the rotation through the
    separator.  In the order-5 tree [borrow_heap] the root has keys 30, 60
    and [retrieve(30)] finds the bucket.  [_borrowLeft] on the middle
    child takes the root's last key 60, not the separator 30, and puts the
    sibling's key at the front of the root: the root's keys become 20, 30,
    the node's keys 60, 40, and [retrieve(30)] returns [None].
    [_borrowRight] takes the root's first key and appends, with the same
    outcome. *)
Theorem borrow_internal_breaks_order :
  BPlusTree.retrieve 5 30 borrow_tree borrow_heap = Ok (Some (VBucket [30])) borrow_heap ∧
  (∃ h', BPlusTree._borrowLeft 2 1 1 borrow_heap = Ok tt h' ∧
         keys_at h' 0 = Some [20; 30] ∧ keys_at h' 2 = Some [60; 40] ∧
         BPlusTree.retrieve 5 30 borrow_tree h' = Ok None h') ∧
  (∃ h', BPlusTree._borrowRight 2 3 1 borrow_heap = Ok tt h' ∧
         keys_at h' 0 = Some [60; 70] ∧ keys_at h' 2 = Some [40; 30] ∧
         BPlusTree.retrieve 5 30 borrow_tree h' = Ok None h').
Proof.
  split; [vm_compute; reflexivity|]. split.
  - eexists. split; [vm_compute; reflexivity|]. split; [reflexivity|].
    split; [reflexivity|]. vm_compute. reflexivity.
  - eexists. split; [vm_compute; reflexivity|]. split; [reflexivity|].
    split; [reflexivity|]. vm_compute. reflexivity.
Qed.

(** C8: [getRightmostLeaf] never returns a leaf.  Whenever it returns, it
    returns [None]; on the order-3 tree holding 10, 20, 5 its loop stops
    at the rightmost leaf (address 2) and the method still returns [None],
    while [getLeftmostLeaf] returns the leftmost leaf (address 0). *)
Theorem getRightmostLeaf_returns_None :
  (∀ fuel self h, match BPlusTree.getRightmostLeaf fuel self h with
                  | Ok r _ => r = None
                  | _ => True
                  end) ∧
  (∃ t h, built 10 3 [10; 20; 5] = Ok t h ∧
     BPlusTree.edge_descend 10 (-1) (VNode (BPlusTree.root t)) h = Ok (VNode 2) h ∧
     BPlusTree.getRightmostLeaf 10 t h = Ok None h ∧
     BPlusTree.getLeftmostLeaf 10 t h = Ok (Some (VNode 0)) h).
Proof.
  split.
  - intros fuel self h. unfold BPlusTree.getRightmostLeaf, bind.
    by destruct (BPlusTree.edge_descend fuel (-1) (VNode (BPlusTree.root self)) h).
  - eexists _, _. split; [vm_compute; reflexivity|].
    split; [vm_compute; reflexivity|]. split; vm_compute; reflexivity.
Qed.

(** C9: [floor] is bound neither in the module nor among the builtins, so
    [isUnderflow] and [isNearlyUnderflow] raise [NameError] on every node,
    whatever a bound [floor] would compute. *)
Theorem underflow_predicates_raise (floor_half : Z → exn + Z) (n : node) :
  bound "floor" = false ∧
  Node.isUnderflow floor_half n = inl NameError ∧
  Node.isNearlyUnderflow floor_half n = inl NameError.
Proof. split; [|split]; reflexivity. Qed.

(** C10, as stated (for every state reached by construction and
    insertions), fails at order 2, which the constructor accepts: after
    the insertions 1, 2, 3 the key 3 is present, and [insert(3, 9)] raises
    [TypeError] on its way down, in the right child of the root, which has
    no keys; nothing is appended to the bucket of 3.  No amount of fuel
    makes the call return. *)
Lemma insert_existing_key_order2_counterexample :
  ∃ self h,
    construct_insert 10 2 [(1, 1); (2, 2); (3, 3)] [] = Ok self h ∧
    3 ∈ [(1, 1); (2, 2); (3, 3)].*1 ∧
    BPlusTree.insert 10 3 9 self h = Raise TypeError h ∧
    ∀ fuel self' h', BPlusTree.insert fuel 3 9 self h ≠ Ok self' h'.
Proof.
  eexists _, _. split; [vm_compute; reflexivity|]. split; [compute_done|].
  split; [vm_compute; reflexivity|].
  intros [|[|[|fuel]]] self' h'; by vm_compute.
Qed.

(** C10, amended: on a tree of order at least 3 built by insertions,
    inserting under a key that is present changes one thing only: in the
    leaf that holds the key, the key's bucket gets the value appended.
    The tree object (its root) and every other field of every node stay
    as they were. *)
Theorem insert_existing_key (order : Z) (kvs : list (Z * Z)) (fuel : nat)
    (h0 : list node) (key value : Z) :
  3 ≤ order → (length kvs + 2 ≤ fuel)%nat → key ∈ kvs.*1 →
  ∃ self h e nd i b,
    construct_insert fuel order kvs h0 = Ok self h ∧
    h !! e = Some nd ∧ is_leaf nd = true ∧
    keys nd !! i = Some key ∧ values nd !! i = Some (VBucket b) ∧
    BPlusTree.retrieve fuel key self h = Ok (Some (VBucket b)) h ∧
    BPlusTree.insert fuel key value self h =
      Ok self (<[e := set_values (<[i := VBucket (b ++ [value])]> (values nd)) nd]> h).
Proof.
  intros HM Hfuel Hkey.
  destruct (construct_insert_spec order fuel kvs h0 HM Hfuel)
    as (self & h & n & Hrun & Hinv & Hn).
  destruct (insert_existing order n (model kvs) self h fuel key value Hinv)
    as (e & nd & i & b & He & Hlf & Hk & Hv & Hal & Hins);
    [by apply elem_of_model_keys|lia|].
  destruct Hinv as (t & Hroot & Hord & Hrep & Hwf & Hnd & Hsz & Hcont).
  exists self, h, e, nd, i, b. split_and!; try done.
  rewrite (retrieve_spec order h t key self fuel Hrep Hwf Hsz Hroot) by lia.
  by rewrite Hcont, Hal.
Qed.

(** The statement of C10 at order 3: key 10 is inserted a second time. *)
Lemma insert_existing_key_witness :
  3 ≤ 3 ∧ (length [(10, 1); (20, 2); (5, 4)] + 2 ≤ 5)%nat ∧
  10 ∈ [(10, 1); (20, 2); (5, 4)].*1 ∧
  ∃ self h e nd i b,
    construct_insert 5 3 [(10, 1); (20, 2); (5, 4)] [] = Ok self h ∧
    h !! e = Some nd ∧ is_leaf nd = true ∧
    keys nd !! i = Some 10 ∧ values nd !! i = Some (VBucket b) ∧
    BPlusTree.retrieve 5 10 self h = Ok (Some (VBucket b)) h ∧
    BPlusTree.insert 5 10 7 self h =
      Ok self (<[e := set_values (<[i := VBucket (b ++ [7])]> (values nd)) nd]> h).
Proof.
  split; [lia|]. split; [simpl; lia|]. split; [compute_done|].
  apply (insert_existing_key 3 [(10, 1); (20, 2); (5, 4)] 5 [] 10 7);
    [lia|simpl; lia|compute_done].
Defined.

(** * Further properties of the module *)

(** ** Operations that only read *)

Lemma readonly_ret {A} (a : A) : readonly (ret a).
Proof. by intros h. Qed.

Lemma readonly_raise {A} e : readonly (raise (A:=A) e).
Proof. by intros h. Qed.

Lemma readonly_out_of_fuel {A} : readonly (out_of_fuel (A:=A)).
Proof. by intros h. Qed.

Lemma readonly_lift {A} (r : exn + A) : readonly (lift r).
Proof. destruct r; by intros h. Qed.

Lemma readonly_get a : readonly (get a).
Proof. intros h. unfold get. by destruct (h !! a). Qed.

Lemma readonly_bind {A B} (m : M A) (k : A → M B) :
  readonly m → (∀ a, readonly (k a)) → readonly (bind m k).
Proof.
  intros Hm Hk h. unfold bind. specialize (Hm h).
  destruct (m h) as [a h'| |]; [|done|done]. subst h'. apply Hk.
Qed.

Lemma readonly_find v key : readonly (BPlusTree._find v key).
Proof.
  destruct v; [|apply readonly_raise].
  apply readonly_bind; [apply readonly_get|]. intros n. apply readonly_lift.
Qed.

Lemma readonly_unpack {A} (r : option A) : readonly (BPlusTree.unpack r).
Proof. destruct r; [apply readonly_ret|apply readonly_raise]. Qed.

Lemma readonly_descend fuel v key : readonly (BPlusTree.descend fuel v key).
Proof.
  revert v. induction fuel as [|f IH]; intros v; [apply readonly_out_of_fuel|].
  destruct v as [a|b]; [|apply readonly_raise]. cbn [BPlusTree.descend].
  apply readonly_bind; [apply readonly_get|]. intros n.
  destruct (is_leaf n); [apply readonly_ret|].
  apply readonly_bind; [apply readonly_find|]. intros r.
  apply readonly_bind; [apply readonly_unpack|]. intros ji. apply IH.
Qed.

Lemma readonly_edge_descend fuel i v : readonly (BPlusTree.edge_descend fuel i v).
Proof.
  revert v. induction fuel as [|f IH]; intros v; [apply readonly_out_of_fuel|].
  destruct v as [a|b]; [|apply readonly_raise]. cbn [BPlusTree.edge_descend].
  apply readonly_bind; [apply readonly_get|]. intros n.
  destruct (is_leaf n); [apply readonly_ret|].
  apply readonly_bind; [apply readonly_lift|]. intros w. apply IH.
Qed.

(** X1: [retrieve], the two leaf accessors, the two sibling accessors and
    [_find] never change the heap, whether they return, raise or run out
    of fuel, and in whatever state the heap is. *)
Theorem lookups_are_readonly (fuel : nat) (key : Z) (self : BPlusTree.t) (a : nat)
    (v : pyval) :
  readonly (BPlusTree.retrieve fuel key self) ∧
  readonly (BPlusTree.getLeftmostLeaf fuel self) ∧
  readonly (BPlusTree.getRightmostLeaf fuel self) ∧
  readonly (BPlusTree.getPrevSibling a) ∧
  readonly (BPlusTree.getNextSibling a) ∧
  readonly (BPlusTree._find v key).
Proof.
  split_and!.
  - apply readonly_bind; [apply readonly_descend|]. intros e.
    apply readonly_bind; [apply readonly_get|]. intros n. apply readonly_lift.
  - apply readonly_bind; [apply readonly_edge_descend|]. intros w. apply readonly_ret.
  - apply readonly_bind; [apply readonly_edge_descend|]. intros w. apply readonly_ret.
  - apply readonly_bind; [apply readonly_get|]. intros n. cbn beta.
    destruct (parent n); [|apply readonly_ret].
    destruct (keys n); [apply readonly_ret|].
    apply readonly_bind; [apply readonly_find|]. intros r.
    apply readonly_bind; [apply readonly_unpack|]. intros ji. cbn zeta.
    case_match; [|apply readonly_ret].
    apply readonly_bind; [apply readonly_get|]. intros pn.
    apply readonly_bind; [apply readonly_lift|]. intros w. apply readonly_ret.
  - apply readonly_bind; [apply readonly_get|]. intros n. cbn beta.
    destruct (parent n); [|apply readonly_ret].
    destruct (keys n); [apply readonly_ret|].
    apply readonly_bind; [apply readonly_find|]. intros r.
    apply readonly_bind; [apply readonly_unpack|]. intros ji. cbn zeta.
    apply readonly_bind; [apply readonly_get|]. intros pn.
    case_match; [|apply readonly_ret].
    apply readonly_bind; [apply readonly_lift|]. intros w. apply readonly_ret.
  - apply readonly_find.
Qed.

(** ** [intersperse] *)

Lemma assign_even_replicate {A} (lst : list A) (item : A) :
  BPlusTree.assign_even (replicate (length lst * 2) item) lst =
    Some (lst ≫= fun x => [x; item]).
Proof.
  induction lst as [|x lst IH]; [done|].
  cbn [length Nat.mul Nat.add replicate BPlusTree.assign_even].
  change (replicate (length lst * 2) item) with (replicate (length lst * 2) item).
  rewrite IH. done.
Qed.

(** X2: [intersperse] never fails, and what it returns is every element
    of the list followed by the item, the last one included: twice as
    long as the list. *)
Theorem intersperse_spec {A : Type} (lst : list A) (item : A) :
  BPlusTree.intersperse lst item = Some (lst ≫= fun x => [x; item]) ∧
  (∀ r, BPlusTree.intersperse lst item = Some r →
        length r = (2 * length lst)%nat ∧
        ∀ i : nat, (i < length lst)%nat →
           r !! (2 * i)%nat = lst !! i ∧ r !! (2 * i + 1)%nat = Some item).
Proof.
  assert (E : BPlusTree.intersperse lst item = Some (lst ≫= fun x => [x; item])).
  { apply assign_even_replicate. }
  split; [done|]. intros r Hr. rewrite E in Hr. injection Hr as <-. clear E.
  induction lst as [|x lst [IHl IHi]]; [split; [done|intros i Hi; simpl in Hi; lia]|].
  rewrite bind_cons. cbn [app length].
  split; [lia|].
  intros [|i] Hi; [done|]. simpl in Hi.
  replace (2 * S i)%nat with (S (S (2 * i))) by lia.
  replace (S (S (2 * i)) + 1)%nat with (S (S (2 * i + 1))) by lia.
  apply (IHi i). lia.
Qed.

(** ** [_find] *)

(** X3: on a node with at least one key and more values than keys,
    [_find] returns the value at the first position whose key exceeds the
    search key, or at the position after the last key when no key does;
    the keys before that position are at most the search key. *)
Theorem find_first_greater (h : list node) (a : nat) (n : node) (key : Z) :
  h !! a = Some n → keys n ≠ [] → (length (keys n) < length (values n))%nat →
  ∃ v i, BPlusTree._find (VNode a) key h = Ok (Some (v, i)) h ∧
         values n !! i = Some v ∧ (i ≤ length (keys n))%nat ∧
         (∀ j k, (j < i)%nat → keys n !! j = Some k → k ≤ key) ∧
         (∀ k, keys n !! i = Some k → key < k).
Proof.
  intros Ha Hk Hl. pose proof (rank_le key (keys n)) as Hr.
  destruct (lookup_lt_is_Some_2 (values n) (rank key (keys n)) ltac:(lia)) as [v Hv].
  exists v, (rank key (keys n)). split_and!; [|done|done| |].
  - unfold BPlusTree._find. rewrite (bind_get _ _ _ _ Ha).
    rewrite (find_scan_rank 0 _ _ _ Hk). simpl. rewrite Hv. done.
  - intros j k. apply rank_below.
  - intros k. apply rank_above.
Qed.

Lemma find_first_greater_witness :
  borrow_heap !! 0%nat =
    Some (mkNode 5 None [30; 60] [VNode 1%nat; VNode 2%nat; VNode 3%nat]
                 1%nat false None None) ∧
  [30; 60] ≠ [] ∧ (length [30; 60] < length [VNode 1%nat; VNode 2%nat; VNode 3%nat])%nat ∧
  ∃ v i, BPlusTree._find (VNode 0%nat) 35 borrow_heap = Ok (Some (v, i)) borrow_heap ∧
         [VNode 1%nat; VNode 2%nat; VNode 3%nat] !! i = Some v ∧
         (i ≤ length [30; 60])%nat ∧
         (∀ j k, (j < i)%nat → [30; 60] !! j = Some k → k ≤ 35) ∧
         (∀ k, [30; 60] !! i = Some k → 35 < k).
Proof.
  split; [reflexivity|]. split; [done|]. split; [simpl; lia|].
  apply (find_first_greater borrow_heap 0%nat
           (mkNode 5 None [30; 60] [VNode 1%nat; VNode 2%nat; VNode 3%nat]
                   1%nat false None None) 35); [reflexivity|done|simpl; lia].
Defined.

(** X4: on a node without keys [_find] returns [None], which no caller
    can unpack: when the root is an internal node without keys,
    [retrieve] and [insert] raise [TypeError] for every key and leave the
    heap as it is. *)
Theorem keyless_root_raises (h : list node) (self : BPlusTree.t) (n : node)
    (fuel : nat) (key value : Z) :
  h !! BPlusTree.root self = Some n → is_leaf n = false → keys n = [] →
  BPlusTree._find (VNode (BPlusTree.root self)) key h = Ok None h ∧
  BPlusTree.retrieve (S fuel) key self h = Raise TypeError h ∧
  BPlusTree.insert (S fuel) key value self h = Raise TypeError h.
Proof.
  intros Ha Hl Hk.
  assert (F : BPlusTree._find (VNode (BPlusTree.root self)) key h = Ok None h).
  { unfold BPlusTree._find. rewrite (bind_get _ _ _ _ Ha), Hk. done. }
  assert (E : BPlusTree.descend (S fuel) (VNode (BPlusTree.root self)) key h
              = Raise TypeError h).
  { cbn [BPlusTree.descend]. rewrite (bind_get _ _ _ _ Ha), Hl.
    unfold bind at 1. rewrite F. done. }
  unfold BPlusTree.retrieve, BPlusTree.insert. unfold bind at 1 3. rewrite E. done.
Qed.

Lemma keyless_root_raises_witness :
  [Node.init 4 1%nat] !! BPlusTree.root (BPlusTree.mk 0%nat 4) = Some (Node.init 4 1%nat) ∧
  is_leaf (Node.init 4 1%nat) = false ∧ keys (Node.init 4 1%nat) = [] ∧
  BPlusTree._find (VNode (BPlusTree.root (BPlusTree.mk 0%nat 4))) 7 [Node.init 4 1%nat]
    = Ok None [Node.init 4 1%nat] ∧
  BPlusTree.retrieve 1 7 (BPlusTree.mk 0%nat 4) [Node.init 4 1%nat]
    = Raise TypeError [Node.init 4 1%nat] ∧
  BPlusTree.insert 1 7 7 (BPlusTree.mk 0%nat 4) [Node.init 4 1%nat]
    = Raise TypeError [Node.init 4 1%nat].
Proof.
  split; [reflexivity|]. split; [reflexivity|]. split; [reflexivity|].
  apply (keyless_root_raises [Node.init 4 1%nat] (BPlusTree.mk 0%nat 4)
           (Node.init 4 1%nat) 0 7 7); reflexivity.
Defined.

(** ** [LeafNode.add] *)

(** X5: [LeafNode.add] on a leaf with sorted keys and one bucket per
    key: the keys stay sorted, the value is appended to the bucket of its
    key (a new bucket when the key is new), every other bucket is what it
    was, the number of keys grows by one exactly when the key is new, and
    nothing else in the heap changes. *)
Theorem leaf_add_spec (h : list node) (self : nat) (s : node) (bs : list (Z * list Z))
    (key value : Z) :
  h !! self = Some s → is_leaf s = true →
  keys s = bs.*1 → values s = VBucket <$> bs.*2 →
  StronglySorted Z.lt (keys s) →
  ∃ bs' : list (Z * list Z),
    LeafNode.add self key value h =
      Ok tt (<[self := set_values (VBucket <$> bs'.*2) (set_keys bs'.*1 s)]> h) ∧
    StronglySorted Z.lt bs'.*1 ∧
    alookup key bs' = Some (default [] (alookup key bs) ++ [value]) ∧
    (∀ k, k ≠ key → alookup k bs' = alookup k bs) ∧
    length bs' = match alookup key bs with
                 | Some _ => length bs
                 | None => S (length bs)
                 end.
Proof.
  intros Ha Hl Hk Hv Hs. exists (assoc_add key value bs). split_and!.
  - destruct s as [M par ks vs u lf prev nxt]. simpl in *. subst.
    apply (add_leaf_exact M h par nxt self bs key value u prev Ha).
  - rewrite Hk in Hs. by apply assoc_add_sorted.
  - rewrite Hk in Hs. rewrite (alookup_assoc_add _ _ _ _ Hs). by rewrite decide_True.
  - intros k Hne. rewrite Hk in Hs. rewrite (alookup_assoc_add _ _ _ _ Hs).
    by rewrite decide_False.
  - rewrite Hk in Hs. clear Ha Hk Hv.
    induction bs as [|[k b] bs IH]; simpl; [done|].
    simpl in Hs. apply StronglySorted_inv in Hs as [Hs Hall].
    destruct (key =? k) eqn:E; [done|].
    destruct (key <? k) eqn:E2; simpl.
    + rewrite (alookup_None key bs); [done|].
      intros Hin. rewrite Forall_forall in Hall. apply Hall in Hin. lia.
    + rewrite (IH Hs). by destruct (alookup key bs).
Qed.

Lemma leaf_add_spec_witness :
  let s := mkNode 4 None [1; 5] [VBucket [10]; VBucket [50]] 1%nat true None None in
  let bs := [(1, [10]); (5, [50])] in
  [s] !! 0%nat = Some s ∧ is_leaf s = true ∧
  keys s = bs.*1 ∧ values s = VBucket <$> bs.*2 ∧
  StronglySorted Z.lt (keys s) ∧
  ∃ bs' : list (Z * list Z),
    LeafNode.add 0%nat 5 51 [s] =
      Ok tt (<[0%nat := set_values (VBucket <$> bs'.*2) (set_keys bs'.*1 s)]> [s]) ∧
    StronglySorted Z.lt bs'.*1 ∧
    alookup 5 bs' = Some (default [] (alookup 5 bs) ++ [51]) ∧
    (∀ k, k ≠ 5 → alookup k bs' = alookup k bs) ∧
    length bs' = match alookup 5 bs with
                 | Some _ => length bs
                 | None => S (length bs)
                 end.
Proof.
  intros s bs.
  assert (Hs : StronglySorted Z.lt (keys s)).
  { repeat constructor; lia. }
  split; [reflexivity|]. split; [reflexivity|]. split; [reflexivity|].
  split; [reflexivity|]. split; [exact Hs|].
  apply (leaf_add_spec [s] 0%nat s bs 5 51); [reflexivity..|exact Hs].
Defined.

(** ** The two [split] methods on arbitrary nodes *)

Lemma slice_to_from {A} (l : list A) i : slice_to l i ++ slice_from l i = l.
Proof. apply take_drop. Qed.

Lemma py_index_head {A} (l : list A) x l' : l = x :: l' → py_index l 0 = inr x.
Proof. by intros ->. Qed.

Lemma py_index_nil {A} : py_index (@nil A) 0 = inl IndexError.
Proof. done. Qed.

(** [LeafNode.split] run on an arbitrary heap, as far as [right.keys[0]]
    allows. *)
Lemma leaf_split_any (h : list node) (self : nat) (s : node) k rest :
  h !! self = Some s →
  slice_from (keys s) (order s `div` 2) = k :: rest →
  let mid := order s `div` 2 in
  ∃ h',
    LeafNode.split self h = Ok (length h) h' ∧
    length h' = S (S (length h)) ∧
    h' !! length h =
      Some (mkNode (order s) None [k] [VNode self; VNode (S (length h))]
                   (S (length h)) false None None) ∧
    h' !! S (length h) =
      Some (mkNode (order s) (Some (length h)) (slice_from (keys s) mid)
                   (slice_from (values s) mid) (S (S (length h))) true
                   (Some self) (nextLeaf s)) ∧
    h' !! self =
      Some (set_nextLeaf (Some (S (length h)))
              (set_values (slice_to (values s) mid)
                 (set_keys (slice_to (keys s) mid) (set_parent (Some (length h)) s)))) ∧
    (∀ x, x ≠ self → (x < length h)%nat → h' !! x = h !! x).
Proof.
  intros Ha Hsl mid.
  assert (He : (self < length h)%nat) by (by eapply lookup_lt_Some).
  assert (El : ∀ x : node, length (h ++ [x]) = S (length h)) by (intros; len).
  eexists. split.
  { unfold LeafNode.split. rewrite (bind_get _ _ _ _ Ha). cbn zeta.
    rewrite !bind_alloc. rewrite !El.
    erewrite bind_modify by (lk; exact Ha).
    erewrite bind_get by (lk; reflexivity). cbn [keys].
    rewrite (py_index_head _ _ _ Hsl), bind_lift_inr.
    erewrite bind_modify by (lk; reflexivity).
    erewrite bind_modify by (lk; reflexivity).
    reflexivity. }
  split; [len|].
  split; [by lk|]. split; [by lk|]. split; [by lk|].
  intros x Hx Hlt. by lk.
Qed.

(** X6: [LeafNode.split] on any leaf, whatever its order, as long as
    the slice [keys[mid:]] is not empty: it returns a new internal node
    without parent whose children are the leaf and a new right leaf and
    whose only key is the first key of the right leaf; the keys and the
    values of the two leaves, concatenated, are those the leaf had; the
    right leaf is linked in after the leaf; and no other object
    changes. *)
Theorem leaf_split_partition (h : list node) (self : nat) (s : node) :
  h !! self = Some s →
  slice_from (keys s) (order s `div` 2) ≠ [] →
  ∃ h' l r t,
    LeafNode.split self h = Ok (length h) h' ∧
    length h' = S (S (length h)) ∧
    h' !! self = Some l ∧ h' !! S (length h) = Some r ∧ h' !! length h = Some t ∧
    keys l ++ keys r = keys s ∧ values l ++ values r = values s ∧
    keys t = take 1 (keys r) ∧ values t = [VNode self; VNode (S (length h))] ∧
    is_leaf t = false ∧ is_leaf r = true ∧ is_leaf l = is_leaf s ∧
    parent t = None ∧ parent l = Some (length h) ∧ parent r = Some (length h) ∧
    nextLeaf l = Some (S (length h)) ∧ nextLeaf r = nextLeaf s ∧
    prevLeaf r = Some self ∧ prevLeaf l = prevLeaf s ∧
    uid l = uid s ∧ uid t = S (length h) ∧ uid r = S (S (length h)) ∧
    (∀ x, x ≠ self → (x < length h)%nat → h' !! x = h !! x).
Proof.
  intros Ha Hne.
  destruct (slice_from (keys s) (order s `div` 2)) as [|k rest] eqn:Hsl; [done|].
  destruct (leaf_split_any h self s k rest Ha Hsl) as (h' & Hrun & Hlen & Ht & Hr & Hl & Hfr).
  eexists h', _, _, _. split; [exact Hrun|]. split; [exact Hlen|].
  split; [exact Hl|]. split; [exact Hr|]. split; [exact Ht|].
  destruct s as [M par ks vs u lf prev nxt]. cbn. cbn in Hsl. rewrite Hsl.
  split; [by rewrite <- Hsl, slice_to_from|]. split; [by rewrite slice_to_from|].
  by split_and!.
Qed.

Lemma leaf_split_partition_witness :
  let s := mkNode (-1) None [1; 2; 3] [VBucket [1]; VBucket [2]; VBucket [3]]
                  1%nat true None None in
  [s] !! 0%nat = Some s ∧
  slice_from (keys s) (order s `div` 2) ≠ [] ∧
  ∃ h' l r t,
    LeafNode.split 0%nat [s] = Ok (length [s]) h' ∧
    length h' = S (S (length [s])) ∧
    h' !! 0%nat = Some l ∧ h' !! S (length [s]) = Some r ∧ h' !! length [s] = Some t ∧
    keys l ++ keys r = keys s ∧ values l ++ values r = values s ∧
    keys t = take 1 (keys r) ∧ values t = [VNode 0%nat; VNode (S (length [s]))] ∧
    is_leaf t = false ∧ is_leaf r = true ∧ is_leaf l = is_leaf s ∧
    parent t = None ∧ parent l = Some (length [s]) ∧ parent r = Some (length [s]) ∧
    nextLeaf l = Some (S (length [s])) ∧ nextLeaf r = nextLeaf s ∧
    prevLeaf r = Some 0%nat ∧ prevLeaf l = prevLeaf s ∧
    uid l = uid s ∧ uid t = S (length [s]) ∧ uid r = S (S (length [s])) ∧
    (∀ x, x ≠ 0%nat → (x < length [s])%nat → h' !! x = [s] !! x).
Proof.
  intros s. split; [reflexivity|]. split; [by vm_compute|].
  apply (leaf_split_partition [s] 0%nat s); [reflexivity|by vm_compute].
Defined.

(** X7: when the slice [keys[mid:]] of a leaf is empty (the leaf has
    at most [order // 2] keys, or none at all), [LeafNode.split] raises
    [IndexError] on [right.keys[0]], after two nodes have been created
    and the leaf has been made a child of the new, still empty, top
    node: the leaf keeps its keys and values but has lost its parent. *)
Theorem leaf_split_short_raises (h : list node) (self : nat) (s : node) :
  h !! self = Some s →
  slice_from (keys s) (order s `div` 2) = [] →
  ∃ h',
    LeafNode.split self h = Raise IndexError h' ∧
    length h' = S (S (length h)) ∧
    h' !! self = Some (set_parent (Some (length h)) s) ∧
    h' !! length h = Some (Node.init (order s) (S (length h))) ∧
    (∀ x, x ≠ self → (x < length h)%nat → h' !! x = h !! x).
Proof.
  intros Ha Hsl.
  assert (He : (self < length h)%nat) by (by eapply lookup_lt_Some).
  eexists. split.
  { unfold LeafNode.split. rewrite (bind_get _ _ _ _ Ha). cbn zeta.
    rewrite !bind_alloc.
    erewrite bind_modify by (lk; exact Ha).
    erewrite bind_get by (lk; reflexivity). cbn [keys].
    rewrite Hsl. reflexivity. }
  split; [len|]. split; [by lk|]. split; [by lk|].
  intros x Hx Hlt. by lk.
Qed.

Lemma leaf_split_short_raises_witness :
  let s := mkNode 5 (Some 7%nat) [1; 2] [VBucket [1]; VBucket [2]] 1%nat true None None in
  [s] !! 0%nat = Some s ∧
  slice_from (keys s) (order s `div` 2) = [] ∧
  ∃ h',
    LeafNode.split 0%nat [s] = Raise IndexError h' ∧
    length h' = S (S (length [s])) ∧
    h' !! 0%nat = Some (set_parent (Some (length [s])) s) ∧
    h' !! length [s] = Some (Node.init (order s) (S (length [s]))) ∧
    (∀ x, x ≠ 0%nat → (x < length [s])%nat → h' !! x = [s] !! x).
Proof.
  intros s. split; [reflexivity|]. split; [by vm_compute|].
  apply (leaf_split_short_raises [s] 0%nat s); [reflexivity|by vm_compute].
Defined.

(** Re-parenting on an arbitrary heap: every value that is a node must be
    allocated; then only [parent] fields change. *)
Lemma reparent_any vs p h :
  (∀ c, VNode c ∈ vs → (c < length h)%nat) →
  ∃ h', reparent vs p h = Ok tt h' ∧ length h' = length h ∧
        ∀ a n, h !! a = Some n →
               h' !! a = Some (if bool_decide (VNode a ∈ vs)
                               then set_parent (Some p) n else n).
Proof.
  revert h. induction vs as [|[c|b] vs IH]; intros h Hal.
  - exists h. by split_and!.
  - destruct (lookup_lt_is_Some_2 h c) as [nc Hc]; [apply Hal; left|].
    destruct (IH (<[c := set_parent (Some p) nc]> h)) as (h' & Hrun & Hlen & Hh').
    { intros c' Hc'. rewrite length_insert. apply Hal. by right. }
    exists h'. split_and!.
    + cbn [reparent]. by rewrite (bind_modify _ _ _ _ _ Hc).
    + by rewrite Hlen, length_insert.
    + intros a n Hn. destruct (decide (a = c)) as [->|Hne].
      * assert (n = nc) as -> by congruence.
        rewrite (Hh' c (set_parent (Some p) nc)).
        2:{ apply list_lookup_insert_eq. by eapply lookup_lt_Some. }
        rewrite (bool_decide_eq_true_2 (VNode c ∈ VNode c :: vs)) by left.
        by destruct (bool_decide _), nc.
      * rewrite (Hh' a n) by (by rewrite list_lookup_insert_ne).
        rewrite (bool_decide_ext (VNode a ∈ VNode c :: vs) (VNode a ∈ vs)); [done|].
        rewrite elem_of_cons. split; [|tauto]. intros [E|E]; [congruence|done].
  - destruct (IH h) as (h' & Hrun & Hlen & Hh').
    { intros c' Hc'. apply Hal. by right. }
    exists h'. split_and!; [done|done|].
    intros a n Hn. rewrite (Hh' a n Hn).
    rewrite (bool_decide_ext (VNode a ∈ VBucket b :: vs) (VNode a ∈ vs)); [done|].
    rewrite elem_of_cons. split; [|tauto]. intros [E|E]; [congruence|done].
Qed.

(** [Node.split] run on an arbitrary heap: the state after the two
    allocations and the two assignments to [self], then the two
    re-parenting loops. *)
Lemma node_split_any (h : list node) (self : nat) (s : node) :
  h !! self = Some s →
  (∀ c, VNode c ∈ values s → (c < length h)%nat) →
  0 ≤ order s `div` 2 < Z.of_nat (length (keys s)) →
  let mid := order s `div` 2 in
  let L := mkNode (order s) (Some self) (slice_to (keys s) mid)
                  (slice_to (values s) (mid + 1)) (S (length h)) false None None in
  let R := mkNode (order s) (Some self) (slice_from (keys s) (mid + 1))
                  (slice_from (values s) (mid + 1)) (S (S (length h))) false None None in
  ∃ h' k,
    Node.split self h = Ok self h' ∧ keys s !! Z.to_nat mid = Some k ∧
    length h' = S (S (length h)) ∧
    ∀ a n,
      <[self := set_keys [k] (set_values [VNode (length h); VNode (S (length h))] s)]>
        (h ++ [L; R]) !! a = Some n →
      h' !! a = Some (if bool_decide (VNode a ∈ values R)
                      then set_parent (Some (S (length h))) n
                      else if bool_decide (VNode a ∈ values L)
                           then set_parent (Some (length h)) n else n).
Proof.
  intros Ha Hal Hmid mid L R.
  assert (He : (self < length h)%nat) by (by eapply lookup_lt_Some).
  destruct (lookup_lt_is_Some_2 (keys s) (Z.to_nat mid)) as [k Hk]; [subst mid; lia|].
  set (T := set_keys [k] (set_values [VNode (length h); VNode (S (length h))] s)).
  set (h2 := <[self := T]> (h ++ [L; R])).
  assert (El : length (h ++ [L]) = S (length h)) by len.
  assert (Hlen2 : length h2 = S (S (length h))) by (subst h2; len).
  assert (HvL : ∀ c, VNode c ∈ values L → VNode c ∈ values s).
  { intros c Hc. eapply subseteq_take, Hc. }
  assert (HvR : ∀ c, VNode c ∈ values R → VNode c ∈ values s).
  { intros c Hc. eapply subseteq_drop, Hc. }
  assert (HL2 : h2 !! length h = Some L).
  { subst h2. rewrite list_lookup_insert_ne by lia. by rewrite lookup_app_r, Nat.sub_diag by lia. }
  assert (HR2 : h2 !! S (length h) = Some R).
  { subst h2. rewrite list_lookup_insert_ne by lia. rewrite lookup_app_r by lia.
    by replace (S (length h) - length h)%nat with 1%nat by lia. }
  destruct (reparent_any (values L) (length h) h2) as (h3 & Hrun3 & Hlen3 & Hh3).
  { intros c Hc. apply HvL, Hal in Hc. lia. }
  destruct (reparent_any (values R) (S (length h)) h3) as (h4 & Hrun4 & Hlen4 & Hh4).
  { intros c Hc. apply HvR, Hal in Hc. lia. }
  exists h4, k. split_and!; [|done|lia|].
  - unfold Node.split. rewrite (bind_get _ _ _ _ Ha). cbn zeta.
    fold mid. rewrite !bind_alloc. fold L. rewrite !El. fold R.
    erewrite bind_modify by (lk; exact Ha).
    erewrite (py_index_nonneg (keys s) mid k); [|lia|done].
    rewrite bind_lift_inr.
    erewrite bind_modify by (lk; reflexivity).
    rewrite list_insert_insert_eq. rewrite <- (app_assoc h [L] [R]).
    change (<[self := _]> (h ++ [L] ++ [R])) with h2.
    rewrite (bind_get _ _ _ _ HL2).
    unfold bind at 1. rewrite Hrun3.
    assert (HR3 : h3 !! S (length h) = Some R).
    { rewrite (Hh3 (S (length h)) R HR2).
      rewrite bool_decide_eq_false_2; [done|].
      intros Hc. apply HvL, Hal in Hc. lia. }
    rewrite (bind_get _ _ _ _ HR3).
    unfold bind at 1. rewrite Hrun4. done.
  - intros a n Hn. rewrite (Hh4 a _ (Hh3 a n Hn)).
    by destruct (bool_decide (VNode a ∈ values R)), (bool_decide (VNode a ∈ values L)).
Qed.

(** X8: [Node.split] on any internal node that is not its own child,
    whose children are allocated and whose [mid = order // 2] is a valid
    key index: the node keeps only the middle key and gets two new
    children; the keys left of the middle go to the left one and those
    right of it to the right one, the values are divided after position
    [mid]; every former child is re-parented to the half that lists it
    (the right one if both do) and is otherwise unchanged, as is every
    other object. *)
Theorem node_split_partition (h : list node) (self : nat) (s : node) :
  h !! self = Some s →
  (∀ c, VNode c ∈ values s → (c < length h)%nat ∧ c ≠ self) →
  0 ≤ order s `div` 2 < Z.of_nat (length (keys s)) →
  ∃ h' l r k,
    Node.split self h = Ok self h' ∧
    length h' = S (S (length h)) ∧
    h' !! self =
      Some (set_keys [k] (set_values [VNode (length h); VNode (S (length h))] s)) ∧
    h' !! length h = Some l ∧ h' !! S (length h) = Some r ∧
    keys l ++ k :: keys r = keys s ∧ values l ++ values r = values s ∧
    length (keys l) = Z.to_nat (order s `div` 2) ∧
    length (values l) = (S (length (keys l)) `min` length (values s))%nat ∧
    parent l = Some self ∧ parent r = Some self ∧
    is_leaf l = false ∧ is_leaf r = false ∧
    uid l = S (length h) ∧ uid r = S (S (length h)) ∧
    (∀ c n, c ≠ self → h !! c = Some n →
       h' !! c = Some (if bool_decide (VNode c ∈ values r)
                       then set_parent (Some (S (length h))) n
                       else if bool_decide (VNode c ∈ values l)
                            then set_parent (Some (length h)) n
                            else n)).
Proof.
  intros Ha Hal Hmid.
  assert (He : (self < length h)%nat) by (by eapply lookup_lt_Some).
  destruct (node_split_any h self s Ha (fun c Hc => proj1 (Hal c Hc)) Hmid)
    as (h' & k & Hrun & Hk & Hlen & Hfinal).
  set (mid := order s `div` 2) in *.
  set (L := mkNode (order s) (Some self) (slice_to (keys s) mid)
                   (slice_to (values s) (mid + 1)) (S (length h)) false None None) in *.
  set (R := mkNode (order s) (Some self) (slice_from (keys s) (mid + 1))
                   (slice_from (values s) (mid + 1)) (S (S (length h))) false None None) in *.
  assert (HvL : ∀ c, VNode c ∈ values L → VNode c ∈ values s).
  { intros c Hc. eapply subseteq_take, Hc. }
  assert (HvR : ∀ c, VNode c ∈ values R → VNode c ∈ values s).
  { intros c Hc. eapply subseteq_drop, Hc. }
  exists h', L, R, k. split; [exact Hrun|]. split; [lia|].
  split.
  { rewrite (Hfinal self _ ltac:(by lk)).
    rewrite !bool_decide_eq_false_2; [done| |].
    - intros Hc. by apply HvL, Hal in Hc as [_ ?].
    - intros Hc. by apply HvR, Hal in Hc as [_ ?]. }
  split.
  { rewrite (Hfinal (length h) L).
    2:{ rewrite list_lookup_insert_ne by lia. by rewrite lookup_app_r, Nat.sub_diag by lia. }
    rewrite !bool_decide_eq_false_2; [done| |].
    - intros Hc. apply HvL, Hal in Hc. lia.
    - intros Hc. apply HvR, Hal in Hc. lia. }
  split.
  { rewrite (Hfinal (S (length h)) R).
    2:{ rewrite list_lookup_insert_ne by lia. rewrite lookup_app_r by lia.
        by replace (S (length h) - length h)%nat with 1%nat by lia. }
    rewrite !bool_decide_eq_false_2; [done| |].
    - intros Hc. apply HvL, Hal in Hc. lia.
    - intros Hc. apply HvR, Hal in Hc. lia. }
  split.
  { cbn [keys L R]. rewrite slice_to_nonneg, slice_from_nonneg by lia.
    replace (Z.to_nat (mid + 1)) with (S (Z.to_nat mid)) by lia.
    rewrite <- (take_drop_middle (keys s) (Z.to_nat mid) k) at 3 by done. done. }
  split; [apply slice_to_from|].
  split.
  { cbn [keys L]. rewrite slice_to_nonneg by lia. rewrite length_take. lia. }
  split.
  { cbn [keys values L]. rewrite !slice_to_nonneg by lia. rewrite !length_take. lia. }
  split_and!; try done.
  intros c n Hc Hn. apply Hfinal.
  assert ((c < length h)%nat) by (by eapply lookup_lt_Some). by lk.
Qed.

Lemma node_split_partition_witness :
  let s := mkNode 4 (Some 9%nat) [10; 20; 30; 40]
                  [VNode 1%nat; VNode 2%nat; VNode 3%nat; VNode 4%nat; VNode 5%nat]
                  1%nat false None None in
  let c := fun k u => mkNode 4 (Some 0%nat) [k] [VBucket [k]] u true None None in
  let h := [s; c 1 2%nat; c 10 3%nat; c 20 4%nat; c 30 5%nat; c 40 6%nat] in
  h !! 0%nat = Some s ∧
  (∀ c, VNode c ∈ values s → (c < length h)%nat ∧ c ≠ 0%nat) ∧
  0 ≤ order s `div` 2 < Z.of_nat (length (keys s)) ∧
  ∃ h' l r k,
    Node.split 0%nat h = Ok 0%nat h' ∧
    length h' = S (S (length h)) ∧
    h' !! 0%nat =
      Some (set_keys [k] (set_values [VNode (length h); VNode (S (length h))] s)) ∧
    h' !! length h = Some l ∧ h' !! S (length h) = Some r ∧
    keys l ++ k :: keys r = keys s ∧ values l ++ values r = values s ∧
    length (keys l) = Z.to_nat (order s `div` 2) ∧
    length (values l) = (S (length (keys l)) `min` length (values s))%nat ∧
    parent l = Some 0%nat ∧ parent r = Some 0%nat ∧
    is_leaf l = false ∧ is_leaf r = false ∧
    uid l = S (length h) ∧ uid r = S (S (length h)) ∧
    (∀ c n, c ≠ 0%nat → h !! c = Some n →
       h' !! c = Some (if bool_decide (VNode c ∈ values r)
                       then set_parent (Some (S (length h))) n
                       else if bool_decide (VNode c ∈ values l)
                            then set_parent (Some (length h)) n
                            else n)).
Proof.
  intros s c h.
  assert (Hal : ∀ c, VNode c ∈ values s → (c < length h)%nat ∧ c ≠ 0%nat).
  { intros x Hx. cbn in Hx. rewrite !elem_of_cons in Hx. cbn.
    destruct Hx as [E|[E|[E|[E|[E|E]]]]];
      [injection E as ->; lia..|by apply elem_of_nil in E]. }
  split; [reflexivity|]. split; [exact Hal|]. split; [by vm_compute|].
  apply (node_split_partition h 0%nat s); [reflexivity|exact Hal|by vm_compute].
Defined.

(** X9: when [mid = order // 2] is not below the number of keys,
    [Node.split] raises [IndexError] on [self.keys[mid]], after the
    node's [values] have already been replaced by the two new nodes: the
    node keeps its keys but no longer lists its children. *)
Theorem node_split_short_raises (h : list node) (self : nat) (s : node) :
  h !! self = Some s →
  Z.of_nat (length (keys s)) ≤ order s `div` 2 →
  ∃ h',
    Node.split self h = Raise IndexError h' ∧
    length h' = S (S (length h)) ∧
    h' !! self = Some (set_values [VNode (length h); VNode (S (length h))] s) ∧
    (∀ x, x ≠ self → (x < length h)%nat → h' !! x = h !! x).
Proof.
  intros Ha Hmid.
  assert (He : (self < length h)%nat) by (by eapply lookup_lt_Some).
  eexists. split.
  { unfold Node.split. rewrite (bind_get _ _ _ _ Ha). cbn zeta.
    rewrite !bind_alloc.
    erewrite bind_modify by (lk; exact Ha).
    unfold py_index. rewrite (proj2 (Z.leb_le 0 (order s `div` 2))) by lia.
    rewrite (proj2 (Z.leb_le 0 (order s `div` 2))) by lia.
    rewrite lookup_ge_None_2 by lia. reflexivity. }
  split; [len|]. split.
  { lk. rewrite length_app. cbn [length]. by rewrite Nat.add_1_r. }
  intros x Hx Hlt. by lk.
Qed.

Lemma node_split_short_raises_witness :
  let s := mkNode 5 None [10] [VNode 1%nat; VNode 2%nat] 1%nat false None None in
  [s] !! 0%nat = Some s ∧
  Z.of_nat (length (keys s)) ≤ order s `div` 2 ∧
  ∃ h',
    Node.split 0%nat [s] = Raise IndexError h' ∧
    length h' = S (S (length [s])) ∧
    h' !! 0%nat = Some (set_values [VNode (length [s]); VNode (S (length [s]))] s) ∧
    (∀ x, x ≠ 0%nat → (x < length [s])%nat → h' !! x = [s] !! x).
Proof.
  intros s. split; [reflexivity|]. split; [by vm_compute|].
  apply (node_split_short_raises [s] 0%nat s); [reflexivity|by vm_compute].
Defined.

(** ** Orders below 2 *)

(** With an order that no length can equal, the overflow loop never
    runs: an insertion only touches the root leaf. *)
Lemma insert_unbounded_leaf M h (r : addr) par nxt kb u prev self fuel key value :
  M ≤ 0 → BPlusTree.root self = r →
  h !! r = Some (mkNode M par kb.*1 (VBucket <$> kb.*2) u true prev nxt) →
  BPlusTree.insert (S fuel) key value self h =
    Ok self (<[r := mkNode M par (assoc_add key value kb).*1
                          (VBucket <$> (assoc_add key value kb).*2) u true prev nxt]> h).
Proof.
  intros HM Hroot Ha. unfold BPlusTree.insert. rewrite Hroot.
  assert (Hd : BPlusTree.descend (S fuel) (VNode r) key h = Ok r h).
  { cbn [BPlusTree.descend]. by rewrite (bind_get _ _ _ _ Ha). }
  rewrite (bind_Ok _ _ _ _ _ Hd).
  rewrite (bind_Ok _ _ _ _ _ (add_leaf_exact M h par nxt r kb key value u prev Ha)).
  cbn [BPlusTree.overflow].
  erewrite bind_get by (apply list_lookup_insert_eq; by eapply lookup_lt_Some).
  cbn [keys order].
  pose proof (assoc_add_length key value kb) as Hl.
  pose proof (assoc_add_nonempty key value kb) as Hne.
  destruct (assoc_add key value kb) as [|x l] eqn:E; [done|].
  rewrite (proj2 (Z.eqb_neq _ _)); [done|]. rewrite length_fmap. simpl. lia.
Qed.

Lemma inserts_unbounded_leaf M (r : addr) par nxt u prev self fuel kvs :
  M ≤ 0 → BPlusTree.root self = r → ∀ h kb,
  h !! r = Some (mkNode M par kb.*1 (VBucket <$> kb.*2) u true prev nxt) →
  let kb' := foldl (fun acc kv => assoc_add kv.1 kv.2 acc) kb kvs in
  inserts (S fuel) kvs self h =
    Ok self (<[r := mkNode M par kb'.*1 (VBucket <$> kb'.*2) u true prev nxt]> h).
Proof.
  intros HM Hroot. induction kvs as [|[k v] kvs IH]; intros h kb Ha.
  - simpl. by rewrite list_insert_id.
  - cbn [inserts foldl fst snd]. unfold bind.
    rewrite (insert_unbounded_leaf M h r par nxt kb u prev self fuel k v HM Hroot Ha).
    erewrite IH by (apply list_lookup_insert_eq; by eapply lookup_lt_Some).
    by rewrite list_insert_insert_eq.
Qed.

(** X10: with an order of 0 or less no node ever splits: any sequence of
    insertions leaves the tree a single root leaf that holds every key in
    ascending order with its bucket, and [retrieve] still returns exactly
    what was inserted under a key. *)
Theorem nonpositive_order_never_splits (order : Z) (kvs : list (Z * Z)) (fuel : nat)
    (h0 : list node) :
  order ≤ 0 → (0 < fuel)%nat →
  ∃ self h,
    construct_insert fuel order kvs h0 = Ok self h ∧
    BPlusTree.root self = length h0 ∧
    h = h0 ++ [mkNode order None (model kvs).*1 (VBucket <$> (model kvs).*2)
                      (S (length h0)) true None None] ∧
    StronglySorted Z.lt (model kvs).*1 ∧
    ∀ key, BPlusTree.retrieve fuel key self h = Ok (expected key kvs) h.
Proof.
  intros HM Hfuel. destruct fuel as [|fuel]; [lia|].
  set (lf := mkNode order None (model kvs).*1 (VBucket <$> (model kvs).*2)
                    (S (length h0)) true None None).
  exists (BPlusTree.mk (length h0) order), (h0 ++ [lf]).
  split_and!; [|done|done|apply model_sorted|].
  - unfold construct_insert.
    rewrite (bind_Ok _ _ h0 (BPlusTree.mk (length h0) order)
               (h0 ++ [LeafNode.init order (S (length h0))]) eq_refl).
    rewrite (inserts_unbounded_leaf order (length h0) None None (S (length h0)) None
               (BPlusTree.mk (length h0) order) fuel kvs HM eq_refl _ [])
      by apply lookup_alloc_new.
    cbn zeta. fold (model kvs). fold lf.
    f_equal. rewrite insert_app_r_alt, Nat.sub_diag by lia. done.
  - intros key. unfold BPlusTree.retrieve. cbn [BPlusTree.root].
    assert (Hl : (h0 ++ [lf]) !! length h0 = Some lf) by apply lookup_alloc_new.
    assert (Hd : BPlusTree.descend (S fuel) (VNode (length h0)) key (h0 ++ [lf])
                 = Ok (length h0) (h0 ++ [lf])).
    { cbn [BPlusTree.descend]. by rewrite (bind_get _ _ _ _ Hl). }
    rewrite (bind_Ok _ _ _ _ _ Hd).
    rewrite (bind_get _ _ _ _ Hl). cbn [keys values lf].
    pose proof (retrieve_scan_alookup 0 [] (model kvs) key eq_refl) as Hs.
    rewrite app_nil_l in Hs. rewrite Hs. cbn [lift].
    rewrite alookup_model. unfold expected. by destruct (inserted_under key kvs).
Qed.

Lemma nonpositive_order_never_splits_witness :
  0 ≤ 0 ∧ (0 < 1)%nat ∧
  ∃ self h,
    construct_insert 1 0 [(3, 30); (1, 10); (2, 20); (1, 11)] [] = Ok self h ∧
    BPlusTree.root self = length (@nil node) ∧
    h = [] ++ [mkNode 0 None (model [(3, 30); (1, 10); (2, 20); (1, 11)]).*1
                    (VBucket <$> (model [(3, 30); (1, 10); (2, 20); (1, 11)]).*2)
                    (S (length (@nil node))) true None None] ∧
    StronglySorted Z.lt (model [(3, 30); (1, 10); (2, 20); (1, 11)]).*1 ∧
    ∀ key, BPlusTree.retrieve 1 key self h =
           Ok (expected key [(3, 30); (1, 10); (2, 20); (1, 11)]) h.
Proof.
  split; [lia|]. split; [lia|].
  apply (nonpositive_order_never_splits 0 [(3, 30); (1, 10); (2, 20); (1, 11)] 1 []); lia.
Defined.

(** An internal root of order 1 with one key: each round of the overflow
    loop splits it into itself with one key again. *)
Lemma overflow_order1_loop fuel : ∀ h (top : addr) self n,
  h !! top = Some n → is_leaf n = false → order n = 1 → parent n = None →
  length (keys n) = 1%nat →
  (∀ c, VNode c ∈ values n → (c < length h)%nat ∧ c ≠ top) →
  BPlusTree.overflow fuel top self h = OutOfFuel.
Proof.
  induction fuel as [|f IH]; intros h top self n Ha Hl Ho Hp Hk Hc; [done|].
  assert (He : (top < length h)%nat) by (by eapply lookup_lt_Some).
  cbn [BPlusTree.overflow]. rewrite (bind_get _ _ _ _ Ha), Ho, Hk.
  cbn [Z.of_nat Pos.of_succ_nat Z.eqb Pos.eqb]. rewrite Hp.
  destruct (node_split_any h top n Ha (fun c H => proj1 (Hc c H)))
    as (h' & k & Hrun & Hk' & Hlen & Hfinal).
  { rewrite Ho, Hk. by vm_compute. }
  assert (Hsp : BPlusTree.split_method top h = Ok top h').
  { unfold BPlusTree.split_method. by rewrite (bind_get _ _ _ _ Ha), Hl. }
  change (Z.of_nat 1 =? 1) with true. cbn match.
  rewrite (bind_Ok _ _ _ _ _ Hsp).
  apply (IH h' top _ (set_keys [k] (set_values [VNode (length h); VNode (S (length h))] n))).
  - rewrite (Hfinal top _ ltac:(by lk)).
    rewrite !bool_decide_eq_false_2; [done| |].
    + intros Hin. eapply subseteq_take in Hin. by apply Hc in Hin as [_ ?].
    + intros Hin. eapply subseteq_drop in Hin. by apply Hc in Hin as [_ ?].
  - by destruct n.
  - by destruct n.
  - by destruct n.
  - by destruct n.
  - intros c Hin. assert (VNode c ∈ [VNode (length h); VNode (S (length h))]) as Hin'.
    { by destruct n. }
    rewrite !elem_of_cons in Hin'. rewrite Hlen.
    destruct Hin' as [E|[E|E]]; [injection E as ->; lia..|by apply elem_of_nil in E].
Qed.

(** X11: a tree of order 1 never completes an insertion: the root leaf
    overflows with its first key, is split, and the new root holds one
    key, which is again as many as the order, so the overflow loop splits
    it for ever.  No amount of fuel gives a result. *)
Theorem order1_insert_diverges (fuel : nat) (key value : Z) (kvs : list (Z * Z))
    (h0 : list node) :
  construct_insert fuel 1 ((key, value) :: kvs) h0 = OutOfFuel.
Proof.
  unfold construct_insert.
  rewrite (bind_Ok _ _ h0 (BPlusTree.mk (length h0) 1)
             (h0 ++ [LeafNode.init 1 (S (length h0))]) eq_refl).
  cbn [inserts].
  assert (E : ∀ self, BPlusTree.root self = length h0 →
            BPlusTree.insert fuel key value self
              (h0 ++ [LeafNode.init 1 (S (length h0))]) = OutOfFuel);
    [|unfold bind at 1; by rewrite E].
  intros self Hroot.
  destruct fuel as [|f]; [done|].
  set (h1 := h0 ++ [LeafNode.init 1 (S (length h0))]).
  assert (Hr : h1 !! length h0 = Some (LeafNode.init 1 (S (length h0))))
    by apply lookup_alloc_new.
  unfold BPlusTree.insert. rewrite Hroot.
  assert (Hd : BPlusTree.descend (S f) (VNode (length h0)) key h1 = Ok (length h0) h1).
  { cbn [BPlusTree.descend]. by rewrite (bind_get _ _ _ _ Hr). }
  rewrite (bind_Ok _ _ _ _ _ Hd).
  rewrite (bind_Ok _ _ _ _ _
             (add_leaf_exact 1 h1 None None (length h0) [] key value (S (length h0)) None Hr)).
  cbn [assoc_add fmap list_fmap fst snd].
  set (lf := mkNode 1 None [key] [VBucket [value]] (S (length h0)) true None None).
  set (h2 := <[length h0 := lf]> h1).
  assert (Hl1 : length h1 = S (length h0)) by (subst h1; len).
  assert (Hl2 : length h2 = S (length h0)) by (subst h2; len).
  assert (Hlf : h2 !! length h0 = Some lf) by (subst h2; by lk).
  cbn [BPlusTree.overflow]. rewrite (bind_get _ _ _ _ Hlf).
  cbn [keys lf length order parent]. change (Z.of_nat 1 =? 1) with true. cbn match.
  destruct (leaf_split_any h2 (length h0) lf key [] Hlf eq_refl)
    as (h3 & Hrun & Hlen3 & Htop & _).
  assert (Hsp : BPlusTree.split_method (length h0) h2 = Ok (length h2) h3).
  { unfold BPlusTree.split_method. by rewrite (bind_get _ _ _ _ Hlf). }
  rewrite (bind_Ok _ _ _ _ _ Hsp).
  eapply overflow_order1_loop; [exact Htop|done..|].
  intros c Hin. cbn [values] in Hin. rewrite Hlen3, Hl2. rewrite !elem_of_cons in Hin.
  destruct Hin as [E|[E|E]]; [injection E as ->; lia..|by apply elem_of_nil in E].
Qed.

(** ** What is reachable from the root *)

(** A node reached [d] levels below the root of a represented tree is
    the root of a represented subtree, [d] levels lower, with a key range
    inside that of the tree. *)
Lemma reach_subtree M {n} h par nxt lo hi (t : tree n) d a :
  rep h M par nxt t → wf M lo hi t →
  reach h (taddr t) d a →
  ∃ m (s : tree m) par' nxt' lo' hi',
    (m + d = n)%nat ∧ taddr s = a ∧ rep h M par' nxt' s ∧ wf M lo' hi' s ∧
    (∀ x, x ∈ ids s → x ∈ ids t) ∧
    (∀ k, in_range lo' hi' k → in_range lo hi k) ∧
    match d with
    | O => par' = par ∧ tkeys s = tkeys t ∧ contents s = contents t
    | S _ => size_ok M s ∧ is_Some par'
    end.
Proof.
  intros Hrep Hwf Hr. induction Hr as [|d a nd c Hr IH Ha Hl Hin].
  - exists n, t, par, nxt, lo, hi. split_and!; try done; lia.
  - destruct IH as (m & s & par' & nxt' & lo' & hi' & Hm & Hs & Hreps & Hwfs & Hids & Hrng & _).
    destruct m as [|m].
    { destruct s as [a' kb]. destruct Hreps as (u & prev & Ha'). simpl in Hs, Ha'. subst a'.
      rewrite Ha in Ha'. injection Ha' as ->. done. }
    destruct s as [[a' ks] cs]. simpl in Hs. subst a'.
    destruct Hreps as [(u & Ha') Hcs]. cbn [fst snd] in Ha', Hcs.
    rewrite Ha in Ha'. injection Ha' as ->. cbn [values] in Hin.
    apply list_elem_of_fmap in Hin as (c' & Hc & Hc'). cbn in Hc. injection Hc as ->.
    apply list_elem_of_lookup in Hc' as [i Hi].
    destruct (Forall2_lookup_r _ _ _ _ _ Hcs Hi) as (nx & _ & Hrepc).
    destruct Hwfs as (Hks & Hne & Hwcs). cbn [fst snd] in Hks, Hne, Hwcs.
    destruct (Forall2_lookup_r _ _ _ _ _ Hwcs Hi) as ([lo2 hi2] & Hb & Hwfc & Hszc).
    exists m, c', (Some a), nx, lo2, hi2. split_and!; try done.
    + lia.
    + intros x Hx. apply Hids. cbn [ids fst snd]. right.
      eapply ids_child; [|done]. by eapply list_elem_of_lookup_2.
    + intros k Hk. apply Hrng. by eapply child_bounds_within.
Qed.

(** Conversely, every identifier of a represented tree is reachable. *)
Lemma reach_trans h r d1 a d2 b :
  reach h r d1 a → reach h a d2 b → reach h r (d2 + d1) b.
Proof.
  intros H1 H2. induction H2 as [|d a' nd c H2 IH Ha Hl Hin]; [done|].
  simpl. by eapply reach_child.
Qed.

Lemma ids_reach M {n} h par nxt (t : tree n) x :
  rep h M par nxt t → x ∈ ids t → ∃ d, reach h (taddr t) d x.
Proof.
  revert par nxt t. induction n as [|n IH]; intros par nxt t Hrep Hx.
  - destruct t as [a kb]. simpl in Hx. apply list_elem_of_singleton in Hx as ->.
    exists 0%nat. constructor.
  - destruct t as [[a ks] cs]. cbn [ids fst snd] in Hx.
    apply elem_of_cons in Hx as [->|Hx]; [exists 0%nat; constructor|].
    apply list_elem_of_bind in Hx as (c & Hx & Hc).
    destruct Hrep as [(u & Ha) Hcs]. cbn [fst snd] in Ha, Hcs.
    apply list_elem_of_lookup in Hc as [i Hi].
    destruct (Forall2_lookup_r _ _ _ _ _ Hcs Hi) as (nx & _ & Hrepc).
    destruct (IH _ _ _ Hrepc Hx) as [d Hd].
    exists (d + 1)%nat. eapply reach_trans; [|exact Hd].
    eapply (reach_child _ _ _ _ _ (taddr c)); [constructor|exact Ha|done|].
    cbn [values]. apply list_elem_of_fmap. exists c. split; [done|].
    by eapply list_elem_of_lookup_2.
Qed.

Lemma model_nil_inv kvs : model kvs = [] → kvs = [].
Proof.
  destruct kvs as [|[k v] kvs _] using rev_ind; [done|].
  rewrite model_snoc. intros H. by apply assoc_add_nonempty in H.
Qed.

(** X12: the shape of every node of a built tree.  A node reached from
    the root has the tree's order, strictly ascending keys and fewer keys
    than the order; it is the root exactly when it has no parent, and
    empty only in a tree nothing was inserted into; a leaf has one bucket
    per key and, unless it is the root, at least [order // 2] keys; an
    internal node has at least one key, one child more than keys, and
    each child is a node whose parent link points back to it. *)
Theorem built_nodes_shape (order : Z) (kvs : list (Z * Z)) (fuel : nat) (h0 : list node) :
  3 ≤ order → (length kvs + 2 ≤ fuel)%nat →
  ∃ self h,
    construct_insert fuel order kvs h0 = Ok self h ∧
    ∀ d a, reach h (BPlusTree.root self) d a →
      ∃ nd, h !! a = Some nd ∧ node_order nd = order ∧
        StronglySorted Z.lt (keys nd) ∧
        Node.getSize nd < order ∧
        Node.isRoot nd = bool_decide (d = 0%nat) ∧
        (Node.isEmpty nd = true ↔ kvs = []) ∧
        (is_leaf nd = true →
           (d ≠ 0%nat → order `div` 2 ≤ Node.getSize nd) ∧
           ∃ bs, values nd = VBucket <$> bs ∧ length bs = length (keys nd)) ∧
        (is_leaf nd = false →
           keys nd ≠ [] ∧ length (values nd) = S (length (keys nd)) ∧
           ∀ v, v ∈ values nd →
             ∃ c nc, v = VNode c ∧ h !! c = Some nc ∧ parent nc = Some a).
Proof.
  intros HM Hfuel.
  destruct (construct_insert_spec order fuel kvs h0 HM Hfuel)
    as (self & h & n & Hrun & (t & Hroot & Hord & Hrep & Hwf & Hnd & Hsz & Hcont) & Hn).
  exists self, h. split; [done|]. intros d a Hr. rewrite Hroot in Hr.
  destruct (reach_subtree order h None None None None t d a Hrep Hwf Hr)
    as (m & s & par' & nxt' & lo' & hi' & Hm & Hs & Hreps & Hwfs & Hids & Hrng & Hd).
  assert (Hdiv : 1 ≤ order `div` 2) by (apply Z.div_le_lower_bound; lia).
  assert (Hsize : Z.of_nat (length (tkeys s)) < order).
  { destruct d; [destruct Hd as (_ & -> & _); done|]. by destruct Hd as [[? _] _]. }
  assert (Hpar : match par' with None => true | Some _ => false end = bool_decide (d = 0%nat)).
  { destruct d; [by destruct Hd as [-> _]|]. by destruct Hd as [_ [p ->]]. }
  destruct m as [|m].
  - destruct s as [a' kb]. simpl in Hs. subst a'.
    destruct Hreps as (u & prev & Ha). cbn [fst snd] in Ha.
    eexists. split; [exact Ha|]. unfold Node.getSize, Node.isRoot, Node.isEmpty.
    cbn [keys values parent is_leaf].
    split; [done|]. split; [apply Hwfs|]. split; [done|]. split; [done|].
    split; [|split; [|done]].
    + rewrite Z.eqb_eq. split.
      * intros Hlen. destruct d.
        -- destruct Hd as (_ & _ & Hc). rewrite contents_leaf, Hcont in Hc. cbn in Hc.
           apply model_nil_inv. rewrite <- Hc. destruct kb; [done|simpl in Hlen; lia].
        -- destruct Hd as [[_ Hlo] _]. simpl in Hlo. lia.
      * intros ->. simpl in Hn. assert (d = 0%nat) as -> by lia.
        destruct Hd as (_ & _ & Hc). rewrite contents_leaf, Hcont in Hc. cbn in Hc.
        by subst kb.
    + intros _. split.
      * intros Hne. destruct d; [done|]. destruct Hd as [[_ Hlo] _]. exact Hlo.
      * exists kb.*2. by rewrite !length_fmap.
  - destruct s as [[a' ks] cs]. simpl in Hs. subst a'.
    destruct Hreps as [(u & Ha) Hcs]. cbn [fst snd] in Ha, Hcs.
    destruct Hwfs as (Hks & Hne & Hwcs). cbn [fst snd] in Hks, Hne, Hwcs.
    eexists. split; [exact Ha|]. unfold Node.getSize, Node.isRoot, Node.isEmpty.
    cbn [keys values parent is_leaf].
    split; [done|]. split; [apply Hks|]. split; [done|]. split; [done|].
    split; [|split; [done|]].
    + rewrite Z.eqb_eq. split.
      * intros Hlen. destruct ks; [done|simpl in Hlen; lia].
      * intros ->. simpl in Hn. lia.
    + intros _. split; [done|]. split.
      * rewrite length_fmap. apply Forall2_length in Hwcs.
        by rewrite length_child_bounds in Hwcs.
      * intros v Hv. apply list_elem_of_fmap in Hv as (c & -> & Hc).
        apply list_elem_of_lookup in Hc as [i Hi].
        destruct (Forall2_lookup_r _ _ _ _ _ Hcs Hi) as (nx & _ & Hrepc).
        destruct (rep_root _ _ _ _ _ Hrepc) as (nc & Hnc & _ & Hp & _).
        by exists (taddr c), nc.
Qed.

Lemma built_nodes_shape_witness :
  3 ≤ 3 ∧ (length [(10, 1); (20, 2); (10, 3); (5, 4)] + 2 ≤ 6)%nat ∧
  ∃ self h,
    construct_insert 6 3 [(10, 1); (20, 2); (10, 3); (5, 4)] [] = Ok self h ∧
    ∀ d a, reach h (BPlusTree.root self) d a →
      ∃ nd, h !! a = Some nd ∧ node_order nd = 3 ∧
        StronglySorted Z.lt (keys nd) ∧
        Node.getSize nd < 3 ∧
        Node.isRoot nd = bool_decide (d = 0%nat) ∧
        (Node.isEmpty nd = true ↔ [(10, 1); (20, 2); (10, 3); (5, 4)] = []) ∧
        (is_leaf nd = true →
           (d ≠ 0%nat → 3 `div` 2 ≤ Node.getSize nd) ∧
           ∃ bs, values nd = VBucket <$> bs ∧ length bs = length (keys nd)) ∧
        (is_leaf nd = false →
           keys nd ≠ [] ∧ length (values nd) = S (length (keys nd)) ∧
           ∀ v, v ∈ values nd →
             ∃ c nc, v = VNode c ∧ h !! c = Some nc ∧ parent nc = Some a).
Proof.
  split; [lia|]. split; [simpl; lia|].
  apply (built_nodes_shape 3 [(10, 1); (20, 2); (10, 3); (5, 4)] 6 []); [lia|simpl; lia].
Defined.

(** ** Balance and height *)

Lemma wf_tkeys M {n} lo hi (t : tree n) : wf M lo hi t → keys_ok lo hi (tkeys t).
Proof. destruct n; [done|]. by intros (? & _). Qed.

Lemma length_bind_ge {A B} (f : A → list B) (l : list A) (k : nat) :
  Forall (fun x => (k ≤ length (f x))%nat) l → (length l * k ≤ length (l ≫= f))%nat.
Proof.
  induction 1 as [|x l Hx _ IH]; [done|].
  rewrite bind_cons, length_app. simpl. lia.
Qed.

(** A subtree of height [n] that respects the occupancy rules holds at
    least [2 ^ n] keys. *)
Lemma wf_contents_pow M {n} lo hi (t : tree n) :
  3 ≤ M → wf M lo hi t → (n = O → contents t ≠ []) →
  (2 ^ n ≤ length (contents t))%nat.
Proof.
  intros HM. revert lo hi t. induction n as [|n IH]; intros lo hi t Hwf Hne.
  - specialize (Hne eq_refl). rewrite contents_leaf in *.
    destruct t as [a [|x kb]]; [done|]. simpl. lia.
  - destruct t as [[a ks] cs]. destruct Hwf as (Hks & Hnn & Hcs). cbn [fst snd] in *.
    rewrite contents_node. cbn [snd].
    assert (Hlen : (2 ≤ length cs)%nat).
    { apply Forall2_length in Hcs. rewrite length_child_bounds in Hcs.
      destruct ks; [done|]. simpl in Hcs. lia. }
    assert (Hall : Forall (fun c => (2 ^ n ≤ length (contents c))%nat) cs).
    { apply Forall_forall. intros c Hc. apply list_elem_of_lookup in Hc as [i Hi].
      destruct (Forall2_lookup_r _ _ _ _ _ Hcs Hi) as ([lo2 hi2] & _ & Hwfc & Hsz).
      apply (IH lo2 hi2 c Hwfc). intros ->. rewrite contents_leaf.
      destruct Hsz as [_ Hlo]. simpl in Hlo.
      assert (1 ≤ M `div` 2) by (apply Z.div_le_lower_bound; lia).
      intros E. destruct c as [ac kc]. simpl in *. subst kc. simpl in Hlo. lia. }
    pose proof (length_bind_ge contents cs (2 ^ n) Hall) as Hb.
    change (2 ^ S n)%nat with (2 * 2 ^ n)%nat. nia.
Qed.

(** X13: a built tree is balanced, and its height is logarithmic.  There
    is a height [n], with [2 ^ n] at most the number of distinct keys,
    such that every node reached from the root lies at most [n] levels
    down and is a leaf exactly when it lies [n] levels down. *)
Theorem built_tree_balanced (order : Z) (kvs : list (Z * Z)) (fuel : nat)
    (h0 : list node) :
  3 ≤ order → (length kvs + 2 ≤ fuel)%nat →
  ∃ self h (n : nat),
    construct_insert fuel order kvs h0 = Ok self h ∧
    (kvs ≠ [] → (2 ^ n ≤ length (model kvs))%nat) ∧
    ∀ d a, reach h (BPlusTree.root self) d a →
      (d ≤ n)%nat ∧ ∃ nd, h !! a = Some nd ∧ (is_leaf nd = true ↔ d = n).
Proof.
  intros HM Hfuel.
  destruct (construct_insert_spec order fuel kvs h0 HM Hfuel)
    as (self & h & n & Hrun & (t & Hroot & Hord & Hrep & Hwf & Hnd & Hsz & Hcont) & Hn).
  exists self, h, n. split; [done|]. split.
  - intros Hne. rewrite <- Hcont. apply (wf_contents_pow order None None t HM Hwf).
    intros _. rewrite Hcont. intros E. by apply model_nil_inv in E.
  - intros d a Hr. rewrite Hroot in Hr.
    destruct (reach_subtree order h None None None None t d a Hrep Hwf Hr)
      as (m & s & par' & nxt' & lo' & hi' & Hm & Hs & Hreps & Hwfs & _).
    split; [lia|].
    destruct (rep_root _ _ _ _ _ Hreps) as (nd & Hl & _ & _ & _ & Hleaf).
    exists nd. rewrite Hs in Hl. split; [done|]. rewrite Hleaf.
    rewrite bool_decide_eq_true. lia.
Qed.

Lemma built_tree_balanced_witness :
  3 ≤ 3 ∧ (length [(10, 1); (20, 2); (10, 3); (5, 4)] + 2 ≤ 6)%nat ∧
  ∃ self h (n : nat),
    construct_insert 6 3 [(10, 1); (20, 2); (10, 3); (5, 4)] [] = Ok self h ∧
    ([(10, 1); (20, 2); (10, 3); (5, 4)] ≠ [] →
     (2 ^ n ≤ length (model [(10, 1); (20, 2); (10, 3); (5, 4)]%Z))%nat) ∧
    ∀ d a, reach h (BPlusTree.root self) d a →
      (d ≤ n)%nat ∧ ∃ nd, h !! a = Some nd ∧ (is_leaf nd = true ↔ d = n).
Proof.
  split; [lia|]. split; [simpl; lia|].
  apply (built_tree_balanced 3 [(10, 1); (20, 2); (10, 3); (5, 4)] 6 []); [lia|simpl; lia].
Defined.

(** ** Search order *)

(** X14: the search order of a built tree.  For an internal node reached
    from the root and its child at position [i], every key stored in the
    child or anywhere below it is below the node's key at position [i]
    (if there is one) and at least the node's key at position [i - 1]
    (if there is one). *)
Theorem built_tree_search_order (order : Z) (kvs : list (Z * Z)) (fuel : nat)
    (h0 : list node) :
  3 ≤ order → (length kvs + 2 ≤ fuel)%nat →
  ∃ self h,
    construct_insert fuel order kvs h0 = Ok self h ∧
    ∀ d a nd i c d' a' nd' k,
      reach h (BPlusTree.root self) d a → h !! a = Some nd → is_leaf nd = false →
      values nd !! i = Some (VNode c) →
      reach h c d' a' → h !! a' = Some nd' → k ∈ keys nd' →
      (∀ s, keys nd !! i = Some s → k < s) ∧
      (∀ j s, i = S j → keys nd !! j = Some s → s ≤ k).
Proof.
  intros HM Hfuel.
  destruct (construct_insert_spec order fuel kvs h0 HM Hfuel)
    as (self & h & n & Hrun & (t & Hroot & Hord & Hrep & Hwf & Hnd & Hsz & Hcont) & Hn).
  exists self, h. split; [done|].
  intros d a nd i c d' a' nd' k Hr Ha Hl Hi Hr' Ha' Hk. rewrite Hroot in Hr.
  destruct (reach_subtree order h None None None None t d a Hrep Hwf Hr)
    as (m & s & par' & nxt' & lo' & hi' & Hm & Hs & Hreps & Hwfs & _).
  destruct m as [|m].
  { destruct (rep_root _ _ _ _ _ Hreps) as (nd0 & Hl0 & _ & _ & _ & Hleaf).
    rewrite Hs, Ha in Hl0. injection Hl0 as <-. by rewrite Hl in Hleaf. }
  destruct s as [[a0 ks] cs]. simpl in Hs. subst a0.
  destruct Hreps as [(u & Ha0) Hcs]. cbn [fst snd] in Ha0, Hcs.
  destruct Hwfs as (Hks & Hne & Hwcs). cbn [fst snd] in Hks, Hne, Hwcs.
  rewrite Ha in Ha0. injection Ha0 as ->. cbn [values keys] in *.
  rewrite list_lookup_fmap in Hi.
  destruct (cs !! i) as [c'|] eqn:Hci; [|done]. cbn in Hi. injection Hi as <-.
  destruct (Forall2_lookup_r _ _ _ _ _ Hcs Hci) as (nx & _ & Hrepc).
  destruct (Forall2_lookup_r _ _ _ _ _ Hwcs Hci) as ([lo2 hi2] & Hb & Hwfc & _).
  cbn [fst snd] in Hwfc.
  destruct (reach_subtree order h _ nx lo2 hi2 c' d' a' Hrepc Hwfc Hr')
    as (m2 & s2 & par2 & nxt2 & lo3 & hi3 & _ & Hs2 & Hreps2 & Hwfs2 & _ & Hrng & _).
  destruct (rep_root _ _ _ _ _ Hreps2) as (nd2 & Hl2 & _ & _ & Hk2 & _).
  rewrite Hs2, Ha' in Hl2. injection Hl2 as <-.
  apply wf_tkeys in Hwfs2 as [_ Hin]. rewrite <- Hk2 in Hin.
  rewrite Forall_forall in Hin. apply Hin, Hrng in Hk as [Hlo Hhi].
  apply child_bounds_lookup in Hb as (-> & -> & _).
  split.
  - intros s Hs. rewrite Hs in Hhi. exact Hhi.
  - intros j s -> Hs. rewrite Hs in Hlo. exact Hlo.
Qed.

Lemma built_tree_search_order_witness :
  3 ≤ 3 ∧ (length [(10, 1); (20, 2); (10, 3); (5, 4)] + 2 ≤ 6)%nat ∧
  ∃ self h,
    construct_insert 6 3 [(10, 1); (20, 2); (10, 3); (5, 4)] [] = Ok self h ∧
    ∀ d a nd i c d' a' nd' k,
      reach h (BPlusTree.root self) d a → h !! a = Some nd → is_leaf nd = false →
      values nd !! i = Some (VNode c) →
      reach h c d' a' → h !! a' = Some nd' → k ∈ keys nd' →
      (∀ s, keys nd !! i = Some s → k < s) ∧
      (∀ j s, i = S j → keys nd !! j = Some s → s ≤ k).
Proof.
  split; [lia|]. split; [simpl; lia|].
  apply (built_tree_search_order 3 [(10, 1); (20, 2); (10, 3); (5, 4)] 6 []);
    [lia|simpl; lia].
Defined.

(** ** Siblings *)

Lemma py_index_lookup {A} (l : list A) (i : nat) x :
  l !! i = Some x → py_index l (Z.of_nat i) = inr x.
Proof. intros H. apply py_index_nonneg; [lia|]. by rewrite Nat2Z.id. Qed.

(** The two sibling accessors on the child at position [i] of a
    represented internal node. *)
Lemma siblings_run M {n} h par nxt lo hi (a : addr) ks (cs : list (tree n)) i c :
  3 ≤ M →
  rep h M par nxt ((a, ks, cs) : tree (S n)) → wf M lo hi ((a, ks, cs) : tree (S n)) →
  cs !! i = Some c →
  BPlusTree.getPrevSibling (taddr c) h =
    Ok (match i with O => None | S j => (VNode ∘ taddr <$> cs) !! j end) h ∧
  BPlusTree.getNextSibling (taddr c) h = Ok ((VNode ∘ taddr <$> cs) !! S i) h.
Proof.
  intros HM [(u & Ha) Hcs] (Hks & Hne & Hwcs) Hi. cbn [fst snd] in *.
  destruct (Forall2_lookup_r _ _ _ _ _ Hcs Hi) as (nx & _ & Hrepc).
  destruct (Forall2_lookup_r _ _ _ _ _ Hwcs Hi) as ([lo2 hi2] & Hb & Hwfc & Hsz).
  cbn [fst snd] in Hwfc.
  destruct (rep_root _ _ _ _ _ Hrepc) as (nc & Hnc & _ & Hp & Hk & _).
  assert (Hdiv : 1 ≤ M `div` 2) by (apply Z.div_le_lower_bound; lia).
  assert (Hkne : ∃ k0 rest, keys nc = k0 :: rest ∧ in_range lo2 hi2 k0).
  { pose proof (wf_tkeys _ _ _ _ Hwfc) as [_ Hrange]. rewrite <- Hk in Hrange.
    destruct (keys nc) as [|k0 rest] eqn:E.
    - exfalso. destruct n.
      + destruct Hsz as [_ Hlo]. rewrite <- Hk in Hlo. simpl in Hlo. lia.
      + destruct Hwfc as (_ & Hnn & _). apply Hnn. symmetry. exact Hk.
    - exists k0, rest. split; [done|]. by apply Forall_cons in Hrange as [? _]. }
  destruct Hkne as (k0 & rest & Hk0 & Hin).
  assert (Hrank : rank k0 ks = i) by (eapply rank_unique; [apply Hks|done..]).
  assert (Hfind : BPlusTree._find (VNode a) k0 h = Ok (Some (VNode (taddr c), i)) h).
  { rewrite <- Hrank. eapply find_child; [exact Ha|done|by rewrite Hrank]. }
  split.
  - unfold BPlusTree.getPrevSibling. rewrite (bind_get _ _ _ _ Hnc), Hp, Hk0.
    rewrite (bind_Ok _ _ _ _ _ Hfind). cbn [BPlusTree.unpack]. rewrite bind_ret.
    cbn [snd]. destruct i as [|j].
    + done.
    + replace (0 <=? Z.of_nat (S j) - 1) with true by (symmetry; apply Z.leb_le; lia).
      rewrite (bind_get _ _ _ _ Ha). cbn [values].
      replace (Z.of_nat (S j) - 1) with (Z.of_nat j) by lia.
      destruct (lookup_lt_is_Some_2 cs j) as [cj Hj].
      { apply lookup_lt_Some in Hi. lia. }
      rewrite (py_index_lookup _ j (VNode (taddr cj))) by (by rewrite list_lookup_fmap, Hj).
      rewrite bind_lift_inr. by rewrite list_lookup_fmap, Hj.
  - unfold BPlusTree.getNextSibling. rewrite (bind_get _ _ _ _ Hnc), Hp, Hk0.
    rewrite (bind_Ok _ _ _ _ _ Hfind). cbn [BPlusTree.unpack]. rewrite bind_ret.
    cbn [snd]. rewrite (bind_get _ _ _ _ Ha). cbn [values]. rewrite length_fmap.
    destruct (cs !! S i) as [cn|] eqn:Hn.
    + apply lookup_lt_Some in Hn as Hlt.
      replace (Z.of_nat i + 1 <? Z.of_nat (length cs)) with true
        by (symmetry; apply Z.ltb_lt; lia).
      replace (Z.of_nat i + 1) with (Z.of_nat (S i)) by lia.
      rewrite (py_index_lookup _ (S i) (VNode (taddr cn))) by (by rewrite list_lookup_fmap, Hn).
      rewrite bind_lift_inr. by rewrite list_lookup_fmap, Hn.
    + apply lookup_ge_None in Hn.
      replace (Z.of_nat i + 1 <? Z.of_nat (length cs)) with false
        by (symmetry; apply Z.ltb_ge; lia).
      rewrite list_lookup_fmap. by rewrite (proj2 (lookup_ge_None _ _) Hn).
Qed.

(** X15: the sibling accessors on a built tree.  For the child at
    position [i] of an internal node reached from the root,
    [getPrevSibling] returns the node's value at position [i - 1] and
    [getNextSibling] the one at position [i + 1], or [None] where there is
    none; for the root both return [None]. *)
Theorem built_tree_siblings (order : Z) (kvs : list (Z * Z)) (fuel : nat)
    (h0 : list node) :
  3 ≤ order → (length kvs + 2 ≤ fuel)%nat →
  ∃ self h,
    construct_insert fuel order kvs h0 = Ok self h ∧
    BPlusTree.getPrevSibling (BPlusTree.root self) h = Ok None h ∧
    BPlusTree.getNextSibling (BPlusTree.root self) h = Ok None h ∧
    ∀ d a nd i c,
      reach h (BPlusTree.root self) d a → h !! a = Some nd → is_leaf nd = false →
      values nd !! i = Some (VNode c) →
      BPlusTree.getPrevSibling c h =
        Ok (match i with O => None | S j => values nd !! j end) h ∧
      BPlusTree.getNextSibling c h = Ok (values nd !! S i) h.
Proof.
  intros HM Hfuel.
  destruct (construct_insert_spec order fuel kvs h0 HM Hfuel)
    as (self & h & n & Hrun & (t & Hroot & Hord & Hrep & Hwf & Hnd & Hsz & Hcont) & Hn).
  exists self, h. split; [done|].
  destruct (rep_root _ _ _ _ _ Hrep) as (rn & Hrn & _ & Hrp & _).
  rewrite Hroot. split_and!.
  - unfold BPlusTree.getPrevSibling. by rewrite (bind_get _ _ _ _ Hrn), Hrp.
  - unfold BPlusTree.getNextSibling. by rewrite (bind_get _ _ _ _ Hrn), Hrp.
  - intros d a nd i c Hr Ha Hl Hi.
    destruct (reach_subtree order h None None None None t d a Hrep Hwf Hr)
      as (m & s & par' & nxt' & lo' & hi' & Hm & Hs & Hreps & Hwfs & _).
    destruct m as [|m].
    { destruct (rep_root _ _ _ _ _ Hreps) as (nd0 & Hl0 & _ & _ & _ & Hleaf).
      rewrite Hs, Ha in Hl0. injection Hl0 as <-. by rewrite Hl in Hleaf. }
    destruct s as [[a0 ks] cs]. simpl in Hs. subst a0.
    pose proof Hreps as [(u & Ha0) _]. cbn [fst snd] in Ha0.
    rewrite Ha in Ha0. injection Ha0 as ->. cbn [values] in *.
    rewrite list_lookup_fmap in Hi.
    destruct (cs !! i) as [c'|] eqn:Hci; [|done]. cbn in Hi. injection Hi as <-.
    exact (siblings_run order h par' nxt' lo' hi' a ks cs i c' HM Hreps Hwfs Hci).
Qed.

Lemma built_tree_siblings_witness :
  3 ≤ 3 ∧ (length [(10, 1); (20, 2); (10, 3); (5, 4)] + 2 ≤ 6)%nat ∧
  ∃ self h,
    construct_insert 6 3 [(10, 1); (20, 2); (10, 3); (5, 4)] [] = Ok self h ∧
    BPlusTree.getPrevSibling (BPlusTree.root self) h = Ok None h ∧
    BPlusTree.getNextSibling (BPlusTree.root self) h = Ok None h ∧
    ∀ d a nd i c,
      reach h (BPlusTree.root self) d a → h !! a = Some nd → is_leaf nd = false →
      values nd !! i = Some (VNode c) →
      BPlusTree.getPrevSibling c h =
        Ok (match i with O => None | S j => values nd !! j end) h ∧
      BPlusTree.getNextSibling c h = Ok (values nd !! S i) h.
Proof.
  split; [lia|]. split; [simpl; lia|].
  apply (built_tree_siblings 3 [(10, 1); (20, 2); (10, 3); (5, 4)] 6 []); [lia|simpl; lia].
Defined.

(** ** What an insertion leaves alone *)

(** [insert] on a represented tree, with the footprint: the nodes of the
    new tree are nodes of the old one or new objects, and an old object
    outside the tree is not written. *)
Lemma insert_frame M n (t : tree n) self h fuel key value :
  3 ≤ M → BPlusTree.root self = taddr t → BPlusTree.order self = M →
  rep h M None None t → wf M None None t → NoDup (ids t) →
  Z.of_nat (length (tkeys t)) < M → (n + 2 ≤ fuel)%nat →
  ∃ self' h' n' (t' : tree n'),
    BPlusTree.insert fuel key value self h = Ok self' h' ∧
    BPlusTree.root self' = taddr t' ∧ BPlusTree.order self' = M ∧
    rep h' M None None t' ∧ wf M None None t' ∧ NoDup (ids t') ∧
    Z.of_nat (length (tkeys t')) < M ∧
    contents t' = assoc_add key value (contents t) ∧ (n' ≤ S n)%nat ∧
    (∀ x, x ∈ ids t' → x ∈ ids t ∨ (length h ≤ x)%nat) ∧
    (length h ≤ length h')%nat ∧
    (∀ x, (x < length h)%nat → x ∉ ids t → h' !! x = h !! x).
Proof.
  intros HM Hroot Hord Hrep Hwf Hnd Hsz Hfuel.
  destruct (insert_sub M HM t h None None None None key value Hrep Hwf Hnd Hsz)
    as (e & h1 & h2 & t2 & Hdesc & Hadd & Hover & Hrep2 & Hwf2 & Hta2 & Hlm2 & Hsz2 &
        Hgrow & Hcont2 & Hnd2 & Hids2 & Hlen2 & Hframe2); [done|].
  unfold BPlusTree.insert. rewrite Hroot.
  rewrite (bind_Ok _ _ _ _ _ (Hdesc fuel ltac:(lia))).
  rewrite (bind_Ok _ _ _ _ _ Hadd).
  replace fuel with (n + S (S (fuel - n - 2)))%nat by lia.
  rewrite Hover, <- Hta2.
  destruct (decide (Z.of_nat (length (tkeys t2)) = M)) as [Hfull|Hnfull].
  - destruct (split_spec M h2 None None None None t2 HM Hrep2 Hwf2 Hnd2 Hfull)
      as (top & h3 & pivot & l & r & Hrun & Hrep3 & Hwf3 & _ & Hlm3 & Hcont3 & Hnd3 &
          Hids3 & Hlen3 & Hframe3).
    assert (Hrep3' : rep h3 M None None ((top, [pivot], [l; r]) : tree (S n)))
      by (by destruct n).
    assert (Hidseq : ids ((top, [pivot], [l; r]) : tree (S n)) = top :: ids l ++ ids r).
    { cbn [ids fst snd]. by rewrite bind_cons, bind_singleton. }
    exists (BPlusTree.mk top (BPlusTree.order self)), h3, (S n), (top, [pivot], [l; r]).
    split_and!; try done.
    + cbn [BPlusTree.overflow].
      destruct (rep_root _ _ _ _ _ Hrep2) as (nd & Hl & Ho & Hp & Hk & _).
      rewrite (bind_get _ _ _ _ Hl), Hk, Ho, Hfull, Z.eqb_refl, Hp.
      rewrite (bind_Ok _ _ _ _ _ Hrun).
      apply (overflow_stop M h3 None None ((top, [pivot], [l; r]) : tree (S n))
               _ _ Hrep3').
      cbn. lia.
    + by rewrite Hidseq.
    + cbn. lia.
    + rewrite contents_node. cbn [snd]. rewrite bind_cons, bind_singleton.
      by rewrite Hcont3, Hcont2.
    + intros x Hx. rewrite Hidseq in Hx. destruct (Hids3 x Hx) as [Hx2|Hx2].
      * destruct (Hids2 x Hx2); [by left|by right].
      * right. lia.
    + lia.
    + intros x Hx Hnin. rewrite Hframe3; [by apply Hframe2|lia|].
      intros Hx2. destruct (Hids2 x Hx2); [done|lia].
  - exists self, h2, n, t2. split_and!; try done.
    + by apply (overflow_stop M h2 None None t2).
    + by rewrite Hta2.
    + lia.
    + lia.
Qed.

Lemma inserts_frame M fuel kvs :
  3 ≤ M → ∀ n (t : tree n) self h,
  BPlusTree.root self = taddr t → BPlusTree.order self = M →
  rep h M None None t → wf M None None t → NoDup (ids t) →
  Z.of_nat (length (tkeys t)) < M → (n + length kvs + 2 ≤ fuel)%nat →
  ∃ self' h' n' (t' : tree n'),
    inserts fuel kvs self h = Ok self' h' ∧
    BPlusTree.root self' = taddr t' ∧ BPlusTree.order self' = M ∧
    rep h' M None None t' ∧ wf M None None t' ∧ NoDup (ids t') ∧
    Z.of_nat (length (tkeys t')) < M ∧
    contents t' = foldl (fun acc kv => assoc_add kv.1 kv.2 acc) (contents t) kvs ∧
    (n' ≤ n + length kvs)%nat ∧
    (∀ x, x ∈ ids t' → x ∈ ids t ∨ (length h ≤ x)%nat) ∧
    (length h ≤ length h')%nat ∧
    (∀ x, (x < length h)%nat → x ∉ ids t → h' !! x = h !! x).
Proof.
  intros HM. induction kvs as [|[k v] kvs IH];
    intros n t self h Hroot Hord Hrep Hwf Hnd Hsz Hfuel.
  - exists self, h, n, t. split_and!; try done; [lia|by left].
  - simpl in Hfuel.
    destruct (insert_frame M n t self h fuel k v HM Hroot Hord Hrep Hwf Hnd Hsz ltac:(lia))
      as (self1 & h1 & n1 & t1 & Hins & Hroot1 & Hord1 & Hrep1 & Hwf1 & Hnd1 & Hsz1 &
          Hcont1 & Hn1 & Hids1 & Hlen1 & Hframe1).
    destruct (IH n1 t1 self1 h1 Hroot1 Hord1 Hrep1 Hwf1 Hnd1 Hsz1 ltac:(lia))
      as (self' & h' & n' & t' & Hrun & Hroot' & Hord' & Hrep' & Hwf' & Hnd' & Hsz' &
          Hcont' & Hn' & Hids' & Hlen' & Hframe').
    exists self', h', n', t'. split_and!; try done.
    + cbn [inserts]. by rewrite (bind_Ok _ _ _ _ _ Hins).
    + cbn [foldl fst snd]. by rewrite Hcont', Hcont1.
    + simpl. lia.
    + intros x Hx. destruct (Hids' x Hx) as [Hx1|Hx1].
      * destruct (Hids1 x Hx1); [by left|by right].
      * right. lia.
    + lia.
    + intros x Hx Hnin. rewrite Hframe'; [by apply Hframe1|lia|].
      intros Hx1. destruct (Hids1 x Hx1); [done|lia].
Qed.

Lemma construct_frame M fuel kvs h0 :
  3 ≤ M → (length kvs + 2 ≤ fuel)%nat →
  ∃ self h n (t : tree n),
    construct_insert fuel M kvs h0 = Ok self h ∧
    BPlusTree.root self = taddr t ∧ BPlusTree.order self = M ∧
    rep h M None None t ∧ wf M None None t ∧ NoDup (ids t) ∧
    Z.of_nat (length (tkeys t)) < M ∧ contents t = model kvs ∧
    (n ≤ length kvs)%nat ∧
    (∀ x, x ∈ ids t → (length h0 ≤ x)%nat) ∧
    (length h0 ≤ length h)%nat ∧
    (∀ x, (x < length h0)%nat → h !! x = h0 !! x).
Proof.
  intros HM Hfuel.
  destruct (init_spec M h0 ltac:(lia)) as [Hinit (t0 & Hr0 & Ho0 & Hrep0 & Hwf0 & Hnd0 & Hsz0 & Hc0)].
  set (h1 := h0 ++ [LeafNode.init M (S (length h0))]) in *.
  destruct (inserts_frame M fuel kvs HM 0 t0 _ h1 Hr0 Ho0 Hrep0 Hwf0 Hnd0 Hsz0 ltac:(lia))
    as (self & h & n & t & Hrun & Hroot & Hord & Hrep & Hwf & Hnd & Hsz & Hcont & Hn &
        Hids & Hlen & Hframe).
  assert (Hl1 : length h1 = S (length h0)) by (subst h1; len).
  assert (Ht0 : ids t0 = [length h0]).
  { destruct t0 as [a kb]. simpl in *. by subst a. }
  exists self, h, n, t. split_and!; try done.
  - rewrite Hcont, Hc0. done.
  - intros x Hx. destruct (Hids x Hx) as [Hx0|Hx0]; [|lia].
    rewrite Ht0 in Hx0. apply list_elem_of_singleton in Hx0. lia.
  - lia.
  - intros x Hx. rewrite Hframe; [subst h1; by rewrite lookup_app_l by lia|lia|].
    rewrite Ht0. rewrite list_elem_of_singleton. lia.
Qed.

(** X16: trees of order at least 3 that share a heap do not disturb each
    other.  A tree of order at least 3 is built, a second one, also of
    order at least 3, is built after it, and then one more pair is
    inserted into the first: every lookup in either tree returns exactly
    what was inserted into that tree, and no object that existed before
    the first tree was built has changed. *)
Theorem two_trees_independent (order1 order2 : Z) (kvs1 kvs2 : list (Z * Z))
    (fuel : nat) (h0 : list node) (key value : Z) :
  3 ≤ order1 → 3 ≤ order2 →
  (length kvs1 + 2 ≤ fuel)%nat → (length kvs2 + 2 ≤ fuel)%nat →
  ∃ a hA b hB a' h',
    construct_insert fuel order1 kvs1 h0 = Ok a hA ∧
    construct_insert fuel order2 kvs2 hA = Ok b hB ∧
    BPlusTree.insert fuel key value a hB = Ok a' h' ∧
    (∀ k, BPlusTree.retrieve fuel k a' h' = Ok (expected k (kvs1 ++ [(key, value)])) h') ∧
    (∀ k, BPlusTree.retrieve fuel k b h' = Ok (expected k kvs2) h') ∧
    (∀ x, (x < length h0)%nat → h' !! x = h0 !! x).
Proof.
  intros HM1 HM2 Hf1 Hf2.
  destruct (construct_frame order1 fuel kvs1 h0 HM1 Hf1)
    as (a & hA & nA & tA & HrunA & HrootA & HordA & HrepA & HwfA & HndA & HszA & HcontA &
        HnA & HidsA & HlenA & HframeA).
  destruct (construct_frame order2 fuel kvs2 hA HM2 Hf2)
    as (b & hB & nB & tB & HrunB & HrootB & HordB & HrepB & HwfB & HndB & HszB & HcontB &
        HnB & HidsB & HlenB & HframeB).
  assert (HrepA' : rep hB order1 None None tA).
  { eapply rep_frame; [|exact HrepA]. intros x Hx. apply HframeB.
    eapply rep_ids_lt; [exact HrepA|exact Hx]. }
  destruct (insert_frame order1 nA tA a hB fuel key value HM1 HrootA HordA HrepA' HwfA
              HndA HszA ltac:(lia))
    as (a' & h' & n' & t' & Hins & Hroot' & Hord' & Hrep' & Hwf' & Hnd' & Hsz' & Hcont' &
        Hn' & Hids' & Hlen' & Hframe').
  assert (HrepB' : rep h' order2 None None tB).
  { eapply rep_frame; [|exact HrepB]. intros x Hx. apply Hframe'.
    - eapply rep_ids_lt; [exact HrepB|exact Hx].
    - intros HxA. apply HidsB in Hx. eapply rep_ids_lt in HxA; [|exact HrepA]. lia. }
  exists a, hA, b, hB, a', h'. split_and!; try done.
  - intros k. rewrite (retrieve_spec order1 h' t' k a' fuel Hrep' Hwf' Hsz' Hroot') by lia.
    rewrite Hcont', HcontA, <- model_snoc, alookup_model. unfold expected.
    by destruct (inserted_under k (kvs1 ++ [(key, value)])).
  - intros k. rewrite (retrieve_spec order2 h' tB k b fuel HrepB' HwfB HszB HrootB) by lia.
    rewrite HcontB, alookup_model. unfold expected.
    by destruct (inserted_under k kvs2).
  - intros x Hx. rewrite Hframe'; [|lia|].
    + rewrite HframeB by lia. by apply HframeA.
    + intros HxA. apply HidsA in HxA. lia.
Qed.

Lemma two_trees_independent_witness :
  3 ≤ 3 ∧ 3 ≤ 4 ∧
  (length [(10, 1); (20, 2); (5, 4)] + 2 ≤ 6)%nat ∧
  (length [(10, 7); (11, 8); (12, 9); (13, 0)] + 2 ≤ 6)%nat ∧
  ∃ a hA b hB a' h',
    construct_insert 6 3 [(10, 1); (20, 2); (5, 4)] [] = Ok a hA ∧
    construct_insert 6 4 [(10, 7); (11, 8); (12, 9); (13, 0)] hA = Ok b hB ∧
    BPlusTree.insert 6 30 3 a hB = Ok a' h' ∧
    (∀ k, BPlusTree.retrieve 6 k a' h' =
          Ok (expected k ([(10, 1); (20, 2); (5, 4)] ++ [(30, 3)])) h') ∧
    (∀ k, BPlusTree.retrieve 6 k b h' =
          Ok (expected k [(10, 7); (11, 8); (12, 9); (13, 0)]) h') ∧
    (∀ x, (x < length (@nil node))%nat → h' !! x = (@nil node) !! x).
Proof.
  split; [lia|]. split; [lia|]. split; [simpl; lia|]. split; [simpl; lia|].
  apply (two_trees_independent 3 4 [(10, 1); (20, 2); (5, 4)]
           [(10, 7); (11, 8); (12, 9); (13, 0)] 6 [] 30 3); [lia|lia|simpl; lia|simpl; lia].
Defined.

(** ** Insertions that do not split *)




(** ** Replacing a subtree *)

Lemma NoDup_bind_disjoint {A B} (f : A → list B) (l : list A) i j x y z :
  NoDup (l ≫= f) → l !! i = Some x → l !! j = Some y → i ≠ j →
  z ∈ f x → z ∈ f y → False.
Proof.
  revert i j. induction l as [|a l IH]; intros i j Hnd Hi Hj Hne Hx Hy; [done|].
  rewrite bind_cons in Hnd. apply NoDup_app in Hnd as (_ & Hdisj & Hnd).
  destruct i as [|i], j as [|j]; simpl in *; try done.
  - injection Hi as ->. eapply Hdisj; [done|].
    apply list_elem_of_bind. exists y. split; [done|]. by eapply list_elem_of_lookup_2.
  - injection Hj as ->. eapply Hdisj; [done|].
    apply list_elem_of_bind. exists x. split; [done|]. by eapply list_elem_of_lookup_2.
  - eapply (IH i j); eauto.
Qed.

Lemma NoDup_bind_insert {A B} (f : A → list B) (l : list A) i x y :
  NoDup (l ≫= f) → l !! i = Some x → NoDup (f y) → (∀ z, z ∈ f y → z ∈ f x) →
  NoDup (<[i := y]> l ≫= f).
Proof.
  intros Hnd Hi Hy Hsub.
  rewrite (bind_middle f l i x Hi) in Hnd.
  rewrite bind_insert_middle by (by eapply lookup_lt_Some).
  apply NoDup_app in Hnd as (H1 & Hd1 & Hnd). apply NoDup_app in Hnd as (H2 & Hd2 & H3).
  apply NoDup_app. split_and!; [done| |].
  - intros z Hz Hin. apply (Hd1 z Hz). apply elem_of_app in Hin as [Hin|Hin].
    + apply elem_of_app. left. by apply Hsub.
    + apply elem_of_app. by right.
  - apply NoDup_app. split_and!; [done| |done].
    intros z Hz. apply Hd2. by apply Hsub.
Qed.

Lemma elem_of_bind_insert {A B} (f : A → list B) (l : list A) i x y z :
  l !! i = Some x → (∀ z, z ∈ f y → z ∈ f x) →
  z ∈ <[i := y]> l ≫= f → z ∈ l ≫= f.
Proof.
  intros Hi Hsub.
  rewrite (bind_middle f l i x Hi).
  rewrite bind_insert_middle by (by eapply lookup_lt_Some).
  rewrite !elem_of_app. intros [?|[?|?]]; auto.
Qed.

Lemma bind_insert_same {A B} (f : A → list B) (l : list A) i x y :
  l !! i = Some x → f y = f x → <[i := y]> l ≫= f = l ≫= f.
Proof.
  intros Hi Hf. rewrite (bind_middle f l i x Hi).
  rewrite bind_insert_middle by (by eapply lookup_lt_Some). by rewrite Hf.
Qed.

Lemma fmap_insert_same {A B} (f : A → B) (l : list A) i x y :
  l !! i = Some x → f y = f x → f <$> <[i := y]> l = f <$> l.
Proof.
  intros Hi Hf. rewrite list_fmap_insert, Hf.
  apply list_insert_id. by rewrite list_lookup_fmap, Hi.
Qed.

Lemma leftmost_insert {n} (a : addr) ks (cs : list (tree n)) i c c' :
  cs !! i = Some c → leftmost c' = leftmost c →
  leftmost ((a, ks, <[i := c']> cs) : tree (S n)) = leftmost ((a, ks, cs) : tree (S n)).
Proof.
  intros Hi Hl. cbn [leftmost fst snd]. destruct cs as [|c0 cs]; [done|].
  destruct i; simpl in *; [|done]. by injection Hi as ->.
Qed.

(** One child of a represented, well-formed node is replaced by a tree
    with the same address, first leaf and contents, whose nodes are among
    the old ones, in a heap that differs only inside the old child. *)
Lemma replace_child M {n} h h' par nxt lo hi (a : addr) ks (cs : list (tree n)) i
      (c c' : tree n) nx b :
  rep h M par nxt ((a, ks, cs) : tree (S n)) →
  wf M lo hi ((a, ks, cs) : tree (S n)) →
  NoDup (ids ((a, ks, cs) : tree (S n))) →
  cs !! i = Some c → child_nexts nxt cs !! i = Some nx →
  child_bounds lo hi ks !! i = Some b →
  rep h' M (Some a) nx c' → wf M b.1 b.2 c' → size_ok M c' →
  taddr c' = taddr c → leftmost c' = leftmost c →
  (∀ x, x ∈ ids c' → x ∈ ids c) → NoDup (ids c') →
  contents c' = contents c →
  (∀ x, x ∉ ids c → h' !! x = h !! x) →
  let t' : tree (S n) := (a, ks, <[i := c']> cs) in
  rep h' M par nxt t' ∧ wf M lo hi t' ∧ NoDup (ids t') ∧
  leftmost t' = leftmost ((a, ks, cs) : tree (S n)) ∧
  contents t' = contents ((a, ks, cs) : tree (S n)) ∧
  (∀ x, x ∈ ids t' → x ∈ ids ((a, ks, cs) : tree (S n))).
Proof.
  intros [(u & Ha) Hcs] (Hks & Hne & Hwcs) Hnd Hi Hnx Hb Hrep' Hwf' Hsz' Hta Hlm Hsub Hnd'
         Hcont Hframe t'.
  cbn [fst snd ids] in *. apply NoDup_cons in Hnd as [Hanin Hnd].
  assert (Hac : a ∉ ids c).
  { intros Hin. apply Hanin. eapply ids_child; [|done]. by eapply list_elem_of_lookup_2. }
  subst t'. split_and!.
  - split; cbn [fst snd].
    + exists u. rewrite Hframe by done. rewrite Ha. do 2 f_equal.
      symmetry. by apply (fmap_insert_same (VNode ∘ taddr) cs i c c'); [|cbn; rewrite Hta].
    + rewrite (child_nexts_insert nxt cs i c c' Hi Hlm).
      apply Forall2_same_length_lookup_2.
      { rewrite length_insert. by eapply Forall2_length. }
      intros j nj cj Hnj Hcj. destruct (decide (j = i)) as [->|Hji].
      * rewrite list_lookup_insert_eq in Hcj by (by eapply lookup_lt_Some).
        injection Hcj as <-. rewrite Hnx in Hnj. by injection Hnj as <-.
      * rewrite list_lookup_insert_ne in Hcj by done.
        eapply rep_frame; [|by eapply Forall2_lookup_lr].
        intros x Hx. apply Hframe. intros Hxc.
        by eapply (NoDup_bind_disjoint ids cs j i cj c x).
  - split_and!; [done|done|]. cbn [fst snd].
    rewrite <- (list_insert_id (child_bounds lo hi ks) i b Hb).
    apply Forall2_insert; [exact Hwcs|by split].
  - cbn [ids fst snd]. apply NoDup_cons. split.
    + intros Hin. apply Hanin. by eapply elem_of_bind_insert.
    + by eapply NoDup_bind_insert.
  - by eapply leftmost_insert.
  - rewrite !contents_node. cbn [snd]. by eapply bind_insert_same.
  - cbn [ids fst snd]. intros x [->|Hx]%elem_of_cons; [left|right].
    by eapply elem_of_bind_insert.
Qed.

(** A node reached below the root of a represented tree roots a subtree
    that can be exchanged: whatever replaces it, with the same address,
    first leaf and contents and in a heap that differs only inside it,
    gives a represented tree again. *)
Lemma subtree_replace M {n} h par nxt lo hi (t : tree n) d a :
  rep h M par nxt t → wf M lo hi t → NoDup (ids t) →
  reach h (taddr t) d a →
  ∃ m (s : tree m) ps ns los his,
    (m + d = n)%nat ∧ taddr s = a ∧ rep h M ps ns s ∧ wf M los his s ∧ NoDup (ids s) ∧
    (d ≠ 0%nat → size_ok M s) ∧ (d = 0%nat → tkeys s = tkeys t) ∧
    ∀ h' (s' : tree m),
      rep h' M ps ns s' → wf M los his s' → (d ≠ 0%nat → size_ok M s') →
      taddr s' = taddr s → leftmost s' = leftmost s →
      (∀ x, x ∈ ids s' → x ∈ ids s) → NoDup (ids s') →
      contents s' = contents s →
      (∀ x, x ∉ ids s → h' !! x = h !! x) →
      ∃ t' : tree n,
        rep h' M par nxt t' ∧ wf M lo hi t' ∧ NoDup (ids t') ∧
        taddr t' = taddr t ∧ contents t' = contents t ∧
        (d ≠ 0%nat → tkeys t' = tkeys t) ∧ (d = 0%nat → tkeys t' = tkeys s').
Proof.
  intros Hrep Hwf Hnd Hr. induction Hr as [|d a nd c Hr IH Ha Hl Hin].
  - exists n, t, par, nxt, lo, hi. split_and!; try done; try lia.
    intros h' s' Hrep' Hwf' _ Hta _ _ Hnd' Hcont _. exists s'. by split_and!.
  - destruct IH as (m & s & ps & ns & los & his & Hm & Hs & Hreps & Hwfs & Hnds & Hszs &
                    Hks0 & K).
    destruct m as [|m].
    { destruct s as [a' kb]. destruct Hreps as (u & prev & Ha'). simpl in Hs, Ha'. subst a'.
      rewrite Ha in Ha'. injection Ha' as ->. done. }
    destruct s as [[a' ks] cs]. simpl in Hs. subst a'.
    pose proof Hreps as [(u & Ha') Hcs]. cbn [fst snd] in Ha', Hcs.
    rewrite Ha in Ha'. injection Ha' as ->. cbn [values] in Hin.
    apply list_elem_of_fmap in Hin as (c' & Hc & Hc'). cbn in Hc. injection Hc as ->.
    apply list_elem_of_lookup in Hc' as [i Hi].
    destruct (Forall2_lookup_r _ _ _ _ _ Hcs Hi) as (nx & Hnx & Hrepc).
    pose proof Hwfs as (Hks & Hne & Hwcs). cbn [fst snd] in Hks, Hne, Hwcs.
    destruct (Forall2_lookup_r _ _ _ _ _ Hwcs Hi) as (b & Hb & Hwfc & Hszc).
    assert (Hndc : NoDup (ids c')).
    { cbn [ids fst snd] in Hnds. apply NoDup_cons in Hnds as [_ Hnds].
      rewrite (bind_middle ids cs i c' Hi) in Hnds.
      apply NoDup_app in Hnds as (_ & _ & Hnds). by apply NoDup_app in Hnds as (? & _ & _). }
    exists m, c', (Some a), nx, b.1, b.2. split_and!; try done; try lia.
    intros h' s' Hrep' Hwf' Hsz' Hta Hlm Hsub Hnd' Hcont Hframe.
    destruct (replace_child M h h' ps ns los his a ks cs i c' s' nx b Hreps Hwfs Hnds Hi
                Hnx Hb Hrep' Hwf' (Hsz' ltac:(done)) Hta Hlm Hsub Hnd' Hcont Hframe)
      as (Hrep2 & Hwf2 & Hnd2 & Hlm2 & Hcont2 & Hsub2).
    destruct (K h' (a, ks, <[i := s']> cs) Hrep2 Hwf2) as (t' & Ht'); try done.
    { intros x Hx. apply Hframe. intros Hxc. apply Hx. cbn [ids fst snd]. right.
      eapply ids_child; [|done]. by eapply list_elem_of_lookup_2. }
    destruct Ht' as (Hrt & Hwt & Hnt & Htt & Hct & Hk1 & Hk2).
    exists t'. split_and!; try done.
    intros _. destruct (decide (d = 0%nat)) as [Hd|Hd].
    + rewrite (Hk2 Hd). exact (Hks0 Hd).
    + by apply Hk1.
Qed.

(** ** Moving the separator between two adjacent children *)

Lemma child_bounds_lo_irrel lo lo' hi ks i :
  child_bounds lo hi ks !! S i = child_bounds lo' hi ks !! S i.
Proof. by destruct ks. Qed.

Lemma child_bounds_at lo hi ks i :
  (i ≤ length ks)%nat →
  child_bounds lo hi ks !! i =
    Some (match i with O => lo | S i' => Some (default 0 (ks !! i')) end,
          match ks !! i with Some x => Some x | None => hi end).
Proof.
  intros Hi. destruct (lookup_lt_is_Some_2 (child_bounds lo hi ks) i) as [[l u] Hb].
  { rewrite length_child_bounds. lia. }
  rewrite Hb. by apply child_bounds_lookup in Hb as (-> & -> & _).
Qed.

Lemma child_bounds_insert_other lo hi ks j k i :
  i ≠ j → i ≠ S j →
  child_bounds lo hi (<[j := k]> ks) !! i = child_bounds lo hi ks !! i.
Proof.
  intros H1 H2. destruct (decide (i ≤ length ks)%nat) as [Hi|Hi].
  - rewrite !child_bounds_at by (by rewrite ?length_insert).
    rewrite list_lookup_insert_ne by done.
    destruct i as [|i']; [done|]. by rewrite list_lookup_insert_ne by lia.
  - rewrite !lookup_ge_None_2; [done|rewrite length_child_bounds; lia|].
    rewrite length_child_bounds, length_insert. lia.
Qed.

Lemma child_bounds_insert_left lo hi ks j k l u :
  (j < length ks)%nat → child_bounds lo hi ks !! j = Some (l, u) →
  child_bounds lo hi (<[j := k]> ks) !! j = Some (l, Some k).
Proof.
  intros Hj Hb. apply child_bounds_lookup in Hb as (-> & _ & _).
  rewrite child_bounds_at by (rewrite length_insert; lia).
  rewrite list_lookup_insert_eq by done.
  destruct j as [|j']; [done|]. by rewrite list_lookup_insert_ne by lia.
Qed.

Lemma child_bounds_insert_right lo hi ks j k l u :
  (j < length ks)%nat → child_bounds lo hi ks !! S j = Some (l, u) →
  child_bounds lo hi (<[j := k]> ks) !! S j = Some (Some k, u).
Proof.
  intros Hj Hb. apply child_bounds_lookup in Hb as (_ & -> & _).
  rewrite child_bounds_at by (rewrite length_insert; lia).
  rewrite list_lookup_insert_eq by done. cbn.
  by rewrite list_lookup_insert_ne by lia.
Qed.

(** The children of a node after the key between the children at [j]
    and [S j] has been replaced and the two children with it. *)
Lemma children_move_sep {n} (P : option Z * option Z → tree n → Prop) lo hi ks
      (cs : list (tree n)) j k x y lj uj lS uS :
  Forall2 P (child_bounds lo hi ks) cs →
  (j < length ks)%nat →
  child_bounds lo hi ks !! j = Some (lj, uj) →
  child_bounds lo hi ks !! S j = Some (lS, uS) →
  P (lj, Some k) x → P (Some k, uS) y →
  Forall2 P (child_bounds lo hi (<[j := k]> ks)) (<[S j := y]> (<[j := x]> cs)).
Proof.
  intros Hcs Hj Hbj HbS Hx Hy.
  apply Forall2_same_length_lookup_2.
  { rewrite !length_insert, !length_child_bounds, length_insert.
    apply Forall2_length in Hcs. by rewrite length_child_bounds in Hcs. }
  assert (Hlen : length cs = S (length ks)).
  { apply Forall2_length in Hcs. by rewrite length_child_bounds in Hcs. }
  intros i b c Hb Hc. destruct (decide (i = S j)) as [->|HiS].
  - rewrite list_lookup_insert_eq in Hc by (rewrite length_insert; lia).
    injection Hc as <-.
    rewrite (child_bounds_insert_right lo hi ks j k lS uS Hj HbS) in Hb. by injection Hb as <-.
  - rewrite list_lookup_insert_ne in Hc by done.
    destruct (decide (i = j)) as [->|Hij].
    + rewrite list_lookup_insert_eq in Hc by lia. injection Hc as <-.
      rewrite (child_bounds_insert_left lo hi ks j k lj uj Hj Hbj) in Hb. by injection Hb as <-.
    + rewrite list_lookup_insert_ne in Hc by done.
      rewrite child_bounds_insert_other in Hb by done.
      by eapply Forall2_lookup_lr.
Qed.

(** The separator itself: a key strictly between the keys before it and
    the keys after it may replace it. *)
Lemma keys_ok_replace lo hi ks j k :
  keys_ok lo hi ks → (j < length ks)%nat → in_range lo hi k →
  (∀ i x, (i < j)%nat → ks !! i = Some x → x < k) →
  (∀ i x, (j < i)%nat → ks !! i = Some x → k < x) →
  keys_ok lo hi (<[j := k]> ks).
Proof.
  intros [Hs Hr] Hj Hin Hbefore Hafter.
  rewrite insert_take_drop by done. split.
  - apply StronglySorted_app_2.
    + intros x1 x2 H1 H2. apply list_elem_of_lookup in H1 as [i Hi].
      assert (Hij : (i < j)%nat).
      { apply lookup_lt_Some in Hi. rewrite length_take in Hi. lia. }
      rewrite lookup_take_lt in Hi by done.
      pose proof (Hbefore i x1 Hij Hi) as Hx1.
      apply elem_of_cons in H2 as [->|H2]; [done|].
      apply list_elem_of_lookup in H2 as [i2 Hi2]. rewrite lookup_drop in Hi2.
      pose proof (Hafter (S j + i2)%nat x2 ltac:(lia) Hi2). lia.
    + rewrite <- (take_drop j ks) in Hs. by apply StronglySorted_app_1_l in Hs.
    + constructor.
      * rewrite <- (take_drop (S j) ks) in Hs. by apply StronglySorted_app_1_r in Hs.
      * apply Forall_forall. intros x Hx.
        apply list_elem_of_lookup in Hx as [i2 Hi2]. rewrite lookup_drop in Hi2.
        apply (Hafter (S j + i2)%nat x ltac:(lia) Hi2).
  - apply Forall_app. split; [by apply Forall_take|].
    constructor; [done|]. by apply Forall_drop.
Qed.

Lemma lookup_two_split {A} (l : list A) j x y :
  l !! j = Some x → l !! S j = Some y →
  ∃ l1 l2, l = l1 ++ x :: y :: l2 ∧ length l1 = j.
Proof.
  intros Hj HS. exists (take j l), (drop (S (S j)) l). split.
  - rewrite <- (drop_S l y (S j)) by done. by rewrite take_drop_middle.
  - rewrite length_take. apply lookup_lt_Some in Hj. lia.
Qed.

Lemma double_insert_app {A} (l1 l2 : list A) x y x' y' :
  <[S (length l1) := y']> (<[length l1 := x']> (l1 ++ x :: y :: l2)) =
    l1 ++ x' :: y' :: l2.
Proof. induction l1 as [|a l1 IH]; simpl; [done|]. by f_equal. Qed.

Lemma double_insert_middle {A B} (f : A → list B) (l : list A) j x y x' y' :
  l !! j = Some x → l !! S j = Some y → f x' ++ f y' = f x ++ f y →
  <[S j := y']> (<[j := x']> l) ≫= f = l ≫= f.
Proof.
  intros Hj HS Hf. destruct (lookup_two_split l j x y Hj HS) as (l1 & l2 & -> & <-).
  rewrite double_insert_app, !bind_app, !bind_cons. f_equal.
  by rewrite !app_assoc, Hf.
Qed.

(** ** [_borrowLeft] and [_borrowRight] between leaves *)

Lemma py_index_last {A} (l : list A) x : py_index (l ++ [x]) (-1) = inr x.
Proof.
  unfold py_index. cbn [Z.leb Z.compare]. rewrite length_app. cbn [length].
  replace (0 <=? Z.of_nat (length l + 1) + -1) with true by (symmetry; apply Z.leb_le; lia).
  replace (Z.to_nat (Z.of_nat (length l + 1) + -1)) with (length l) by lia.
  by rewrite lookup_app_r, Nat.sub_diag by lia.
Qed.

Lemma py_set_nonneg {A} (l : list A) (i : nat) x :
  (i < length l)%nat → py_set l (Z.of_nat i) x = inr (<[i := x]> l).
Proof.
  intros Hi. unfold py_set. cbv zeta.
  rewrite (proj2 (Z.leb_le 0 (Z.of_nat i))) by lia.
  rewrite (proj2 (Z.leb_le 0 (Z.of_nat i))) by lia.
  rewrite (proj2 (Z.ltb_lt (Z.of_nat i) (Z.of_nat (length l)))) by lia.
  cbn [andb]. by rewrite Nat2Z.id.
Qed.

Lemma leaves_ids (cs : list (tree 0)) : cs ≫= ids = fst <$> cs.
Proof. induction cs as [|c cs IH]; [done|]. rewrite bind_cons, fmap_cons, IH. done. Qed.

Lemma sep_below_next lo hi ks j sep l u :
  keys_ok lo hi ks → ks !! j = Some sep →
  child_bounds lo hi ks !! S j = Some (l, u) →
  from_option (fun x => sep < x) True u.
Proof.
  intros [Hs Hr] Hj Hb. apply child_bounds_lookup in Hb as (_ & -> & _).
  destruct (ks !! S j) as [x|] eqn:E; cbn.
  - assert (Hne : sep ≠ x).
    { intros ->. rewrite <- (take_drop_middle ks j x Hj) in Hs.
      apply StronglySorted_app_1_r, StronglySorted_cons in Hs as [Hall _].
      rewrite Forall_forall in Hall. assert (x < x); [|lia].
      apply Hall. apply list_elem_of_lookup. exists 0%nat.
      by rewrite lookup_drop, Nat.add_0_r. }
    pose proof (sorted_lookup_le ks j (S j) sep x Hs ltac:(lia) Hj E). lia.
  - rewrite Forall_forall in Hr. destruct (Hr sep) as [_ Hu]; [by eapply list_elem_of_lookup_2|].
    done.
Qed.

Lemma parent_of_Ok h (a : addr) n (p : addr) :
  h !! a = Some n → parent n = Some p → BPlusTree.parent_of a h = Ok p h.
Proof.
  intros Ha Hp. unfold BPlusTree.parent_of. by rewrite (bind_get _ _ _ _ Ha), Hp.
Qed.

(** What the children at [j] and [S j] of a represented two-level node
    are in the heap, and that they and the node are three objects. *)
Lemma two_leaves M h par nxt lo hi (p : addr) ks (cs : list (tree 0)) j
      (xa : addr) xkb (ya : addr) ykb :
  rep h M par nxt ((p, ks, cs) : tree 1) →
  wf M lo hi ((p, ks, cs) : tree 1) →
  NoDup (ids ((p, ks, cs) : tree 1)) →
  cs !! j = Some ((xa, xkb) : tree 0) → cs !! S j = Some ((ya, ykb) : tree 0) →
  ∃ u ux prevx uy prevy nxy sep lj uS,
    h !! p = Some (mkNode M par ks (VNode ∘ taddr <$> cs) u false None None) ∧
    h !! xa = Some (mkNode M (Some p) xkb.*1 (VBucket <$> xkb.*2) ux true prevx (Some ya)) ∧
    h !! ya = Some (mkNode M (Some p) ykb.*1 (VBucket <$> ykb.*2) uy true prevy nxy) ∧
    child_nexts nxt cs !! j = Some (Some ya) ∧ child_nexts nxt cs !! S j = Some nxy ∧
    xa ≠ ya ∧ p ≠ xa ∧ p ≠ ya ∧
    (xa < length h)%nat ∧ (ya < length h)%nat ∧ (p < length h)%nat ∧
    (j < length ks)%nat ∧ length cs = S (length ks) ∧ ks !! j = Some sep ∧
    child_bounds lo hi ks !! j = Some (lj, Some sep) ∧
    child_bounds lo hi ks !! S j = Some (Some sep, uS) ∧
    keys_ok lj (Some sep) xkb.*1 ∧ keys_ok (Some sep) uS ykb.*1 ∧
    size_ok M ((xa, xkb) : tree 0) ∧ size_ok M ((ya, ykb) : tree 0).
Proof.
  intros [(u & Hp) Hcs] (Hks & Hne & Hwcs) Hnd Hj HS. cbn [fst snd] in *.
  assert (Hlen : length cs = S (length ks)).
  { apply Forall2_length in Hwcs. by rewrite length_child_bounds in Hwcs. }
  assert (HjS : (S j < length cs)%nat) by (by eapply lookup_lt_Some).
  destruct (lookup_lt_is_Some_2 ks j ltac:(lia)) as [sep Hsep].
  destruct (Forall2_lookup_r _ _ _ _ _ Hcs Hj) as (nxx & Hnxx & (ux & prevx & Hx)).
  destruct (Forall2_lookup_r _ _ _ _ _ Hcs HS) as (nxy & Hnxy & (uy & prevy & Hy)).
  cbn [fst snd] in Hx, Hy.
  assert (Enx : nxx = Some ya).
  { pose proof (child_nexts_lookup (n:=0) nxt cs j _ Hj) as E.
    rewrite HS in E. rewrite E in Hnxx. by injection Hnxx as <-. }
  subst nxx.
  destruct (Forall2_lookup_r _ _ _ _ _ Hwcs Hj) as ([lj uj] & Hbj & Hwfj & Hszj).
  destruct (Forall2_lookup_r _ _ _ _ _ Hwcs HS) as ([lS uS] & HbS & HwfS & HszS).
  cbn [fst snd wf] in Hwfj, HwfS.
  pose proof (child_bounds_lookup _ _ _ _ _ _ Hbj) as (_ & Euj & _).
  pose proof (child_bounds_lookup _ _ _ _ _ _ HbS) as (ElS & _ & _).
  rewrite Hsep in Euj, ElS. cbn in ElS. subst uj lS.
  change (NoDup (p :: (cs ≫= ids))) in Hnd. apply NoDup_cons in Hnd as [Hpn Hnd].
  assert (Hxy : xa ≠ ya).
  { intros ->. eapply (NoDup_bind_disjoint ids cs j (S j) _ _ ya Hnd Hj HS); [lia|left|left]. }
  assert (Hpx : p ≠ xa).
  { intros ->. apply Hpn. eapply ids_child; [eapply list_elem_of_lookup_2, Hj|cbn; left]. }
  assert (Hpy : p ≠ ya).
  { intros ->. apply Hpn. eapply ids_child; [eapply list_elem_of_lookup_2, HS|cbn; left]. }
  exists u, ux, prevx, uy, prevy, nxy, sep, lj, uS.
  split_and!; try done; try (by eapply lookup_lt_Some); lia.
Qed.

(** Two adjacent leaves exchange pairs across their common boundary, and
    the key between them becomes the first key of the right one. *)
Lemma move_between_leaves M h h' par nxt lo hi (p : addr) ks (cs : list (tree 0)) j
      (xa : addr) xkb (ya : addr) ykb xkb' k b rest :
  3 ≤ M →
  rep h M par nxt ((p, ks, cs) : tree 1) →
  wf M lo hi ((p, ks, cs) : tree 1) →
  NoDup (ids ((p, ks, cs) : tree 1)) →
  cs !! j = Some ((xa, xkb) : tree 0) → cs !! S j = Some ((ya, ykb) : tree 0) →
  xkb' ++ (k, b) :: rest = xkb ++ ykb →
  size_ok M ((xa, xkb') : tree 0) → size_ok M ((ya, (k, b) :: rest) : tree 0) →
  (∀ n, h !! p = Some n → h' !! p = Some (set_keys (<[j := k]> ks) n)) →
  (∀ n, h !! xa = Some n →
        h' !! xa = Some (set_values (VBucket <$> xkb'.*2) (set_keys xkb'.*1 n))) →
  (∀ n, h !! ya = Some n →
        h' !! ya = Some (set_values (VBucket <$> ((k, b) :: rest).*2)
                           (set_keys ((k, b) :: rest).*1 n))) →
  (∀ x, x ≠ p → x ≠ xa → x ≠ ya → h' !! x = h !! x) →
  let t' : tree 1 :=
    (p, <[j := k]> ks,
     <[S j := ((ya, (k, b) :: rest) : tree 0)]> (<[j := ((xa, xkb') : tree 0)]> cs)) in
  rep h' M par nxt t' ∧ wf M lo hi t' ∧ NoDup (ids t') ∧
  leftmost t' = leftmost ((p, ks, cs) : tree 1) ∧
  contents t' = contents ((p, ks, cs) : tree 1) ∧
  (∀ x, x ∈ ids t' → x ∈ ids ((p, ks, cs) : tree 1)).
Proof.
  intros HM Hrep Hwf Hnd Hj HS Hsame Hszx Hszy Hhp Hhx Hhy Hframe t'.
  destruct (two_leaves M h par nxt lo hi p ks cs j xa xkb ya ykb Hrep Hwf Hnd Hj HS)
    as (u & ux & prevx & uy & prevy & nxy & sep & lj & uS & Hp & Hx & Hy & Hnxx & Hnxy &
        Hxy & Hpx & Hpy & Hxl & Hyl & Hpl & Hjl & Hlen & Hsep & Hbj & HbS & Hkx & Hky &
        _ & _).
  pose proof Hrep as [_ Hcs]. pose proof Hwf as (Hks & Hne & Hwcs). cbn [fst snd] in *.
  assert (Hdiv : 1 ≤ M `div` 2) by (apply Z.div_le_lower_bound; lia).
  (* the keys of the two leaves, together, before and after *)
  assert (Hall : StronglySorted Z.lt (xkb ++ ykb).*1 ∧
                 Forall (in_range lj uS) (xkb ++ ykb).*1).
  { rewrite fmap_app. destruct Hkx as [Sx Rx], Hky as [Sy Ry]. split.
    - apply StronglySorted_app_2; [|done|done].
      intros x1 x2 H1 H2. rewrite Forall_forall in Rx, Ry.
      destruct (Rx x1 H1) as [_ ?], (Ry x2 H2) as [? _]. cbn in *. lia.
    - apply Forall_app. split.
      + eapply Forall_impl; [exact Rx|]. intros x [? Hu]. split; [done|].
        pose proof (sep_below_next lo hi ks j sep _ _ Hks Hsep HbS) as Hn.
        destruct uS; cbn in *; [lia|done].
      + eapply Forall_impl; [exact Ry|]. intros x [Hl ?]. split; [|done].
        assert (Hlj : from_option (fun l => l ≤ sep) True lj).
        { pose proof Hks as [Hs0 Hr0]. rewrite Forall_forall in Hr0.
          pose proof (child_bounds_lookup _ _ _ _ _ _ Hbj) as (Elj & _ & _).
          destruct j as [|j'].
          - subst lj. destruct (Hr0 sep) as [? _]; [by eapply list_elem_of_lookup_2|done].
          - destruct (ks !! j') as [x0|] eqn:E; cbn in Elj; subst lj; cbn.
            + by eapply (sorted_lookup_le ks j' (S j')); [|lia|..].
            + apply lookup_ge_None in E. lia. }
        destruct lj; cbn in *; [lia|done]. }
  rewrite <- Hsame, fmap_app in Hall. destruct Hall as [Hsort Hrange].
  apply StronglySorted_app in Hsort as (Hcross & Sx' & Sy').
  apply Forall_app in Hrange as [Rx' Ry'].
  assert (Hxne : xkb' ≠ []).
  { destruct Hszx as [_ Hlo]. cbn in Hlo. intros ->. simpl in Hlo. lia. }
  assert (Hxk : Forall (fun x => x < k) xkb'.*1).
  { apply Forall_forall. intros x Hxin. apply Hcross; [done|]. cbn. left. }
  assert (Hklj : from_option (fun l => l < k) True lj).
  { destruct xkb' as [|[x0 b0] xkb']; [done|].
    apply Forall_cons in Rx' as [[Hl _] _]. apply Forall_cons in Hxk as [? _].
    destruct lj; cbn in *; [lia|done]. }
  assert (HkuS : from_option (fun u => k < u) True uS).
  { cbn in Ry'. apply Forall_cons in Ry' as [[_ ?] _]. done. }
  assert (Hkx' : keys_ok lj (Some k) xkb'.*1).
  { split; [done|]. apply Forall_forall. intros x Hxin.
    rewrite Forall_forall in Rx', Hxk. destruct (Rx' x Hxin) as [? _]. split; [done|].
    cbn. by apply Hxk. }
  assert (Hky' : keys_ok (Some k) uS ((k, b) :: rest).*1).
  { split; [done|]. apply Forall_forall. intros x Hxin.
    rewrite Forall_forall in Ry'. destruct (Ry' x Hxin) as [_ ?]. split; [|done].
    cbn. cbn in Hxin. apply elem_of_cons in Hxin as [->|Hxin]; [lia|].
    cbn in Sy'. apply StronglySorted_cons in Sy' as [Hk' _].
    rewrite Forall_forall in Hk'. specialize (Hk' x Hxin). lia. }
  assert (Hks' : keys_ok lo hi (<[j := k]> ks)).
  { apply keys_ok_replace; [done|done| | |].
    - destruct (Z_lt_dec k sep) as [Hlt|Hge].
      + eapply (child_bounds_within lo hi ks j lj (Some sep)); [done|done|].
        split; [|done]. destruct lj; cbn in *; [lia|done].
      + eapply (child_bounds_within lo hi ks (S j) (Some sep) uS); [done|done|].
        split; [cbn; lia|done].
    - intros i x Hij Hi.
      pose proof (child_bounds_lookup _ _ _ _ _ _ Hbj) as (Elj & _ & _).
      destruct j as [|j']; [lia|].
      destruct (lookup_lt_is_Some_2 ks j' ltac:(lia)) as [x0 Hx0].
      rewrite Hx0 in Elj. cbn in Elj. subst lj. cbn in Hklj.
      pose proof (sorted_lookup_le ks i j' x x0 (proj1 Hks) ltac:(lia) Hi Hx0). lia.
    - intros i x Hij Hi.
      pose proof (child_bounds_lookup _ _ _ _ _ _ HbS) as (_ & EuS & _).
      destruct (lookup_lt_is_Some_2 ks (S j)) as [x1 Hx1].
      { apply lookup_lt_Some in Hi. lia. }
      rewrite Hx1 in EuS. subst uS. cbn in HkuS.
      pose proof (sorted_lookup_le ks (S j) i x1 x (proj1 Hks) ltac:(lia) Hx1 Hi). lia. }
  assert (Hnexts : child_nexts nxt (<[S j := ((ya, (k, b) :: rest) : tree 0)]>
                                      (<[j := ((xa, xkb') : tree 0)]> cs))
                   = child_nexts nxt cs).
  { rewrite (child_nexts_insert (n:=0) nxt _ (S j) (ya, ykb));
      [|by rewrite list_lookup_insert_ne by lia|done].
    by rewrite (child_nexts_insert (n:=0) nxt cs j (xa, xkb)). }
  assert (Hvals : VNode ∘ taddr <$> <[S j := ((ya, (k, b) :: rest) : tree 0)]>
                                      (<[j := ((xa, xkb') : tree 0)]> cs)
                  = VNode ∘ taddr <$> cs).
  { rewrite (fmap_insert_same _ _ (S j) ((ya, ykb) : tree 0));
      [|by rewrite list_lookup_insert_ne by lia|done].
    by rewrite (fmap_insert_same _ cs j ((xa, xkb) : tree 0)). }
  assert (Hids : <[S j := ((ya, (k, b) :: rest) : tree 0)]>
                   (<[j := ((xa, xkb') : tree 0)]> cs) ≫= ids = cs ≫= ids).
  { by apply (double_insert_middle ids cs j ((xa, xkb) : tree 0) ((ya, ykb) : tree 0)). }
  subst t'. split_and!.
  - split; cbn [fst snd].
    + exists u. rewrite (Hhp _ Hp). unfold set_keys. cbn. do 2 f_equal.
      symmetry. exact Hvals.
    + rewrite Hnexts. apply Forall2_same_length_lookup_2.
      { rewrite !length_insert. by eapply Forall2_length. }
      intros i ni ci Hni Hci. destruct (decide (i = S j)) as [->|HiS].
      * rewrite list_lookup_insert_eq in Hci by (rewrite length_insert; lia).
        injection Hci as <-. rewrite Hnxy in Hni. injection Hni as <-.
        exists uy, prevy. cbn [fst snd]. by rewrite (Hhy _ Hy).
      * rewrite list_lookup_insert_ne in Hci by done.
        destruct (decide (i = j)) as [->|Hij].
        -- rewrite list_lookup_insert_eq in Hci by lia. injection Hci as <-.
           rewrite Hnxx in Hni. injection Hni as <-.
           exists ux, prevx. cbn [fst snd]. by rewrite (Hhx _ Hx).
        -- rewrite list_lookup_insert_ne in Hci by done.
           pose proof (Forall2_lookup_lr _ _ _ _ _ _ Hcs Hni Hci) as (ui & previ & Hi).
           exists ui, previ. rewrite Hframe; [done| | |].
           ++ intros E.
              change (NoDup (p :: (cs ≫= ids))) in Hnd. apply NoDup_cons in Hnd as [Hpn _].
              apply Hpn. rewrite <- E.
              eapply ids_child; [eapply list_elem_of_lookup_2, Hci|cbn; left].
           ++ intros E. change (NoDup (p :: (cs ≫= ids))) in Hnd.
              apply NoDup_cons in Hnd as [_ Hnd].
              eapply (NoDup_bind_disjoint ids cs i j _ _ xa Hnd Hci Hj Hij); cbn;
                rewrite ?E; left.
           ++ intros E. change (NoDup (p :: (cs ≫= ids))) in Hnd.
              apply NoDup_cons in Hnd as [_ Hnd].
              eapply (NoDup_bind_disjoint ids cs i (S j) _ _ ya Hnd Hci HS HiS); cbn;
                rewrite ?E; left.
  - split_and!; [done| |].
    + cbn [fst snd]. intros E. apply (f_equal length) in E.
      rewrite length_insert in E. simpl in E. lia.
    + cbn [fst snd].
      apply (children_move_sep _ lo hi ks cs j k _ _ lj (Some sep) (Some sep) uS);
        try done.
  - change (NoDup (p :: (<[S j := ((ya, (k, b) :: rest) : tree 0)]>
                           (<[j := ((xa, xkb') : tree 0)]> cs) ≫= ids))).
    by rewrite Hids.
  - cbn [leftmost fst snd]. destruct cs as [|c0 cs]; [done|].
    destruct j as [|j']; [|done]. cbn in Hj. by injection Hj as ->.
  - rewrite !contents_node. cbn [snd].
    apply (double_insert_middle contents cs j ((xa, xkb) : tree 0) ((ya, ykb) : tree 0));
      [done|done|].
    rewrite (contents_leaf ((xa, xkb') : tree 0)), (contents_leaf ((ya, (k, b) :: rest) : tree 0)),
      (contents_leaf ((xa, xkb) : tree 0)), (contents_leaf ((ya, ykb) : tree 0)).
    exact Hsame.
  - intros x. change (x ∈ p :: (<[S j := ((ya, (k, b) :: rest) : tree 0)]>
                                  (<[j := ((xa, xkb') : tree 0)]> cs) ≫= ids)
                      → x ∈ p :: (cs ≫= ids)).
    by rewrite Hids.
Qed.

(** The leaf branch of [_borrowLeft] on three distinct objects. *)
Lemma borrowLeft_leaf_heap h (nd sib p : addr) n s pn ks0 k vs0 v j :
  h !! nd = Some n → h !! sib = Some s → h !! p = Some pn →
  is_leaf n = true → parent n = Some p → nd ≠ sib → p ≠ nd → p ≠ sib →
  keys s = ks0 ++ [k] → values s = vs0 ++ [v] → (j < length (keys pn))%nat →
  BPlusTree._borrowLeft nd sib (Z.of_nat (S j)) h =
    Ok tt (<[p := set_keys (<[j := k]> (keys pn)) pn]>
             (<[nd := set_values (v :: values n) (set_keys (k :: keys n) n)]>
                (<[sib := set_values vs0 (set_keys ks0 s)]> h))).
Proof.
  intros Hn Hs Hp Hl Hpar Hns Hpn Hps Hk Hv Hj.
  assert (Hnl : (nd < length h)%nat) by (by eapply lookup_lt_Some).
  assert (Hsl : (sib < length h)%nat) by (by eapply lookup_lt_Some).
  assert (Hpl : (p < length h)%nat) by (by eapply lookup_lt_Some).
  unfold BPlusTree._borrowLeft. rewrite (bind_get _ _ _ _ Hn), Hl.
  rewrite (bind_get _ _ _ _ Hs), Hk, py_index_last, bind_lift_inr.
  rewrite (bind_put _ _ _ _ _ Hs), List.removelast_last.
  erewrite bind_get by (lk; reflexivity). cbn [values set_keys].
  rewrite Hv, py_index_last, bind_lift_inr.
  erewrite bind_put by (lk; reflexivity). rewrite List.removelast_last.
  rewrite list_insert_insert_eq.
  erewrite bind_modify by (lk; exact Hn).
  erewrite bind_modify by (lk; reflexivity).
  rewrite list_insert_insert_eq.
  erewrite (bind_Ok (BPlusTree.parent_of nd)).
  2:{ eapply parent_of_Ok; [lk; reflexivity|]. cbn. exact Hpar. }
  erewrite bind_get by (lk; exact Hp).
  replace (Z.of_nat (S j) - 1) with (Z.of_nat j) by lia.
  rewrite (py_set_nonneg _ j k Hj), bind_lift_inr.
  unfold put. lk. rewrite Hp. done.
Qed.

(** The leaf branch of [_borrowRight] on three distinct objects, when the
    sibling has a second key to become the separator. *)
Lemma borrowRight_leaf_heap h (nd sib p : addr) n s pn k k2 ks0 v vs0 j :
  h !! nd = Some n → h !! sib = Some s → h !! p = Some pn →
  is_leaf n = true → parent n = Some p → nd ≠ sib → p ≠ nd → p ≠ sib →
  keys s = k :: k2 :: ks0 → values s = v :: vs0 → (j < length (keys pn))%nat →
  BPlusTree._borrowRight nd sib (Z.of_nat j) h =
    Ok tt (<[p := set_keys (<[j := k2]> (keys pn)) pn]>
             (<[nd := set_values (values n ++ [v]) (set_keys (keys n ++ [k]) n)]>
                (<[sib := set_values vs0 (set_keys (k2 :: ks0) s)]> h))).
Proof.
  intros Hn Hs Hp Hl Hpar Hns Hpn Hps Hk Hv Hj.
  assert (Hnl : (nd < length h)%nat) by (by eapply lookup_lt_Some).
  assert (Hsl : (sib < length h)%nat) by (by eapply lookup_lt_Some).
  assert (Hpl : (p < length h)%nat) by (by eapply lookup_lt_Some).
  unfold BPlusTree._borrowRight. rewrite (bind_get _ _ _ _ Hn), Hl.
  rewrite (bind_get _ _ _ _ Hs), Hk.
  rewrite (py_index_head (k :: k2 :: ks0) k (k2 :: ks0) eq_refl), bind_lift_inr.
  rewrite (bind_put _ _ _ _ _ Hs). cbn [tail].
  erewrite bind_get by (lk; reflexivity). cbn [values set_keys].
  rewrite Hv, (py_index_head (v :: vs0) v vs0 eq_refl), bind_lift_inr.
  erewrite bind_put by (lk; reflexivity). cbn [tail].
  rewrite list_insert_insert_eq.
  erewrite bind_modify by (lk; exact Hn).
  erewrite bind_modify by (lk; reflexivity).
  rewrite list_insert_insert_eq.
  erewrite bind_get by (lk; reflexivity). cbn [keys set_values set_keys].
  rewrite (py_index_head (k2 :: ks0) k2 ks0 eq_refl), bind_lift_inr.
  erewrite (bind_Ok (BPlusTree.parent_of nd)).
  2:{ eapply parent_of_Ok; [lk; reflexivity|]. cbn. exact Hpar. }
  erewrite bind_get by (lk; exact Hp).
  rewrite (py_set_nonneg _ j k2 Hj), bind_lift_inr.
  unfold put. lk. rewrite Hp. done.
Qed.

Lemma snoc_inv {A} (l : list A) : l ≠ [] → ∃ l' x, l = l' ++ [x].
Proof.
  destruct l as [|a l _] using rev_ind; [done|]. intros _. by exists l, a.
Qed.

(** [_borrowLeft] between two adjacent leaves of a represented node: the
    left leaf's last pair moves to the front of the right leaf and its key
    becomes the separator. *)
Lemma borrowLeft_leaf_spec M h par nxt lo hi (p : addr) ks (cs : list (tree 0)) j
      (sa : addr) skb (na : addr) nkb :
  3 ≤ M →
  rep h M par nxt ((p, ks, cs) : tree 1) →
  wf M lo hi ((p, ks, cs) : tree 1) →
  NoDup (ids ((p, ks, cs) : tree 1)) →
  cs !! j = Some ((sa, skb) : tree 0) → cs !! S j = Some ((na, nkb) : tree 0) →
  M `div` 2 < Z.of_nat (length skb) → Z.of_nat (length nkb) + 1 < M →
  ∃ h' (t' : tree 1) skb' k b,
    BPlusTree._borrowLeft na sa (Z.of_nat (S j)) h = Ok tt h' ∧
    skb = skb' ++ [(k, b)] ∧
    t' = (p, <[j := k]> ks,
          <[S j := ((na, (k, b) :: nkb) : tree 0)]> (<[j := ((sa, skb') : tree 0)]> cs)) ∧
    rep h' M par nxt t' ∧ wf M lo hi t' ∧ NoDup (ids t') ∧
    leftmost t' = leftmost ((p, ks, cs) : tree 1) ∧
    contents t' = contents ((p, ks, cs) : tree 1) ∧
    (∀ x, x ∈ ids t' → x ∈ ids ((p, ks, cs) : tree 1)) ∧
    length h' = length h ∧
    (∀ x, x ∉ ids ((p, ks, cs) : tree 1) → h' !! x = h !! x).
Proof.
  intros HM Hrep Hwf Hnd Hj HS Hlend Hroom.
  assert (Hdiv : 1 ≤ M `div` 2) by (apply Z.div_le_lower_bound; lia).
  destruct (snoc_inv skb) as (skb' & [k b] & ->); [by intros ->; simpl in Hlend; lia|].
  destruct (two_leaves M h par nxt lo hi p ks cs j sa _ na nkb Hrep Hwf Hnd Hj HS)
    as (u & ux & prevx & uy & prevy & nxy & sep & lj & uS & Hp & Hx & Hy & Hnxx & Hnxy &
        Hxy & Hpx & Hpy & Hxl & Hyl & Hpl & Hjl & Hlen & Hsep & Hbj & HbS & Hkx & Hky &
        Hszx & Hszy).
  rewrite length_app in Hlend. cbn [length] in Hlend.
  pose proof Hx as Hx2. rewrite !fmap_app in Hx2.
  pose proof (borrowLeft_leaf_heap h na sa p _ _ _ skb'.*1 k (VBucket <$> skb'.*2)
                (VBucket b) j Hy Hx2 Hp eq_refl eq_refl (not_eq_sym Hxy) Hpy Hpx
                eq_refl eq_refl Hjl) as Hrun.
  cbn [keys values] in Hrun.
  match type of Hrun with _ = Ok tt ?hh => set (h' := hh) in * end.
  exists h'. eexists _, skb', k, b. split; [exact Hrun|].
  split; [done|]. split; [reflexivity|].
  assert (Hin : ∀ x, x ∉ ids ((p, ks, cs) : tree 1) → x ≠ p ∧ x ≠ sa ∧ x ≠ na).
  { intros x Hx'. change (x ∉ p :: (cs ≫= ids)) in Hx'. apply not_elem_of_cons in Hx' as [? Hx'].
    split_and!; [done|intros ->|intros ->]; apply Hx'.
    - eapply ids_child; [eapply list_elem_of_lookup_2, Hj|cbn; left].
    - eapply ids_child; [eapply list_elem_of_lookup_2, HS|cbn; left]. }
  destruct (move_between_leaves M h h' par nxt lo hi p ks cs j sa _ na nkb skb' k b nkb
              HM Hrep Hwf Hnd Hj HS) as (R1 & R2 & R3 & R4 & R5 & R6).
  - by rewrite <- app_assoc.
  - destruct Hszx as [Hhi _]. cbn [tkeys snd] in Hhi.
    rewrite length_fmap, length_app in Hhi. cbn [length] in Hhi.
    split; cbn [tkeys snd]; rewrite length_fmap; lia.
  - destruct Hszy as [Hhi Hlo]. cbn [tkeys snd] in Hhi, Hlo. rewrite length_fmap in Hhi, Hlo.
    split; cbn [tkeys snd]; rewrite length_fmap; cbn [length]; lia.
  - intros n Hn. rewrite Hp in Hn. injection Hn as <-. subst h'. by lk.
  - intros n Hn. rewrite Hx in Hn. injection Hn as <-. subst h'. by lk.
  - intros n Hn. rewrite Hy in Hn. injection Hn as <-. subst h'. by lk.
  - intros x ? ? ?. subst h'. by lk.
  - split_and!; try done.
    + subst h'. len.
    + intros x Hx'. destruct (Hin x Hx') as (? & ? & ?). subst h'. by lk.
Qed.

(** ** From a local repair to the whole tree *)

(** What a represented, well-formed tree guarantees to its user. *)
Lemma lookups_preserved M {n} (t : tree n) self h kvs fuel :
  3 ≤ M → BPlusTree.root self = taddr t → BPlusTree.order self = M →
  rep h M None None t → wf M None None t → NoDup (ids t) →
  Z.of_nat (length (tkeys t)) < M → contents t = model kvs →
  (n + 2 ≤ fuel)%nat →
  (∀ key, BPlusTree.retrieve fuel key self h = Ok (expected key kvs) h) ∧
  (∀ key value, ∃ self2 h2,
      BPlusTree.insert fuel key value self h = Ok self2 h2 ∧
      ∀ k, BPlusTree.retrieve fuel k self2 h2 = Ok (expected k (kvs ++ [(key, value)])) h2).
Proof.
  intros HM Hroot Hord Hrep Hwf Hnd Hsz Hcont Hfuel. split.
  - intros key. rewrite (retrieve_spec M h t key self fuel Hrep Hwf Hsz Hroot) by lia.
    rewrite Hcont, alookup_model. unfold expected. by destruct (inserted_under key kvs).
  - intros key value.
    destruct (insert_frame M n t self h fuel key value HM Hroot Hord Hrep Hwf Hnd Hsz Hfuel)
      as (self2 & h2 & n2 & t2 & Hins & Hroot2 & Hord2 & Hrep2 & Hwf2 & Hnd2 & Hsz2 & Hcont2 &
          Hn2 & _).
    exists self2, h2. split; [done|]. intros k.
    rewrite (retrieve_spec M h2 t2 k self2 fuel Hrep2 Hwf2 Hsz2 Hroot2) by lia.
    rewrite Hcont2, Hcont, <- model_snoc, alookup_model. unfold expected.
    by destruct (inserted_under k (kvs ++ [(key, value)])).
Qed.

(** Two adjacent children of a node reached from the root, and what it
    takes to put a repaired node in its place. *)
Lemma at_two_children M {n} h par nxt lo hi (t : tree n) d a nd j x y :
  rep h M par nxt t → wf M lo hi t → NoDup (ids t) →
  Z.of_nat (length (tkeys t)) < M →
  reach h (taddr t) d a → h !! a = Some nd →
  values nd !! j = Some (VNode x) → values nd !! S j = Some (VNode y) →
  ∃ m ks (cs : list (tree m)) (cx cy : tree m) ps ns los his,
    (S m + d = n)%nat ∧ keys nd = ks ∧
    cs !! j = Some cx ∧ cs !! S j = Some cy ∧ taddr cx = x ∧ taddr cy = y ∧
    rep h M ps ns ((a, ks, cs) : tree (S m)) ∧
    wf M los his ((a, ks, cs) : tree (S m)) ∧
    NoDup (ids ((a, ks, cs) : tree (S m))) ∧
    Z.of_nat (length ks) < M ∧
    ∀ h' (s' : tree (S m)),
      rep h' M ps ns s' → wf M los his s' → Z.of_nat (length (tkeys s')) < M →
      taddr s' = a → leftmost s' = leftmost ((a, ks, cs) : tree (S m)) →
      (∀ z, z ∈ ids s' → z ∈ ids ((a, ks, cs) : tree (S m))) → NoDup (ids s') →
      contents s' = contents ((a, ks, cs) : tree (S m)) →
      (∀ z, z ∉ ids ((a, ks, cs) : tree (S m)) → h' !! z = h !! z) →
      ∃ t' : tree n,
        rep h' M par nxt t' ∧ wf M lo hi t' ∧ NoDup (ids t') ∧
        taddr t' = taddr t ∧ contents t' = contents t ∧
        Z.of_nat (length (tkeys t')) < M.
Proof.
  intros Hrep Hwf Hnd Hsz Hr Ha Hx Hy.
  destruct (subtree_replace M h par nxt lo hi t d a Hrep Hwf Hnd Hr)
    as (m & s & ps & ns & los & his & Hm & Hs & Hreps & Hwfs & Hnds & Hszs & Hk0 & K).
  destruct m as [|m].
  { destruct s as [a' kb]. destruct Hreps as (u & prev & Ha'). simpl in Hs, Ha'. subst a'.
    rewrite Ha in Ha'. injection Ha' as ->. cbn [values] in Hx.
    rewrite list_lookup_fmap in Hx. by destruct (kb.*2 !! j). }
  destruct s as [[a' ks] cs]. simpl in Hs. subst a'.
  pose proof Hreps as [(u & Ha') _]. cbn [fst snd] in Ha'.
  rewrite Ha in Ha'. injection Ha' as ->. cbn [values keys] in *.
  rewrite list_lookup_fmap in Hx, Hy.
  destruct (cs !! j) as [cx|] eqn:Hcx; [|done].
  destruct (cs !! S j) as [cy|] eqn:Hcy; [|done].
  cbn in Hx, Hy. injection Hx as <-. injection Hy as <-.
  assert (Hszk : Z.of_nat (length ks) < M).
  { destruct (decide (d = 0%nat)) as [Hd|Hd].
    - specialize (Hk0 Hd). cbn in Hk0. by rewrite Hk0.
    - by destruct (Hszs Hd) as [? _]. }
  exists m, ks, cs, cx, cy, ps, ns, los, his. split_and!; try done; try lia.
  intros h' s' Hrep' Hwf' Hsz' Hta Hlm Hsub Hnd' Hcont Hframe.
  destruct (K h' s' Hrep' Hwf') as (t' & Hrt & Hwt & Hnt & Htt & Hct & Hk1 & Hk2); try done.
  exists t'. split_and!; try done.
  destruct (decide (d = 0%nat)) as [Hd|Hd].
  - by rewrite (Hk2 Hd).
  - by rewrite (Hk1 Hd).
Qed.

(** X18: [_borrowLeft] between leaves of a built tree.  For two adjacent
    children of a node reached from the root, the right one a leaf with
    room for one more key and the left one with more than [order // 2]
    keys, the call moves the last key of the left leaf to the front of the
    right leaf and makes it the key between them in the parent; after it
    every lookup returns what it returned before, and the tree still takes
    insertions correctly. *)
Theorem borrowLeft_between_leaves (order : Z) (kvs : list (Z * Z)) (fuel : nat)
    (h0 : list node) :
  3 ≤ order → (length kvs + 2 ≤ fuel)%nat →
  ∃ self h,
    construct_insert fuel order kvs h0 = Ok self h ∧
    ∀ d a nd j sib nod sn nn,
      reach h (BPlusTree.root self) d a → h !! a = Some nd →
      values nd !! j = Some (VNode sib) → values nd !! S j = Some (VNode nod) →
      h !! sib = Some sn → h !! nod = Some nn → is_leaf nn = true →
      order `div` 2 < Node.getSize sn → Node.getSize nn + 1 < order →
      ∃ h' sn' nn' nd' k,
        BPlusTree._borrowLeft nod sib (Z.of_nat (S j)) h = Ok tt h' ∧
        h' !! sib = Some sn' ∧ h' !! nod = Some nn' ∧ h' !! a = Some nd' ∧
        keys sn = keys sn' ++ [k] ∧ keys nn' = k :: keys nn ∧
        keys nd' = <[j := k]> (keys nd) ∧
        (∀ key, BPlusTree.retrieve fuel key self h' = Ok (expected key kvs) h') ∧
        (∀ key value, ∃ self2 h2,
            BPlusTree.insert fuel key value self h' = Ok self2 h2 ∧
            ∀ k', BPlusTree.retrieve fuel k' self2 h2 =
                  Ok (expected k' (kvs ++ [(key, value)])) h2).
Proof.
  intros HM Hfuel.
  destruct (construct_frame order fuel kvs h0 HM Hfuel)
    as (self & h & n & t & Hrun & Hroot & Hord & Hrep & Hwf & Hnd & Hsz & Hcont & Hn & _).
  exists self, h. split; [done|].
  intros d a nd j sib nod sn nn Hr Ha Hx Hy Hsn Hnn Hleaf Hlend Hroom.
  rewrite Hroot in Hr. unfold Node.getSize in Hlend, Hroom.
  destruct (at_two_children order h None None None None t d a nd j sib nod
              Hrep Hwf Hnd Hsz Hr Ha Hx Hy)
    as (m & ks & cs & cx & cy & ps & ns & los & his & Hm & Hks & Hcx & Hcy & Htx & Hty &
        Hreps & Hwfs & Hnds & Hszk & K).
  pose proof Hreps as [_ Hcs]. cbn [fst snd] in Hcs.
  destruct (Forall2_lookup_r _ _ _ _ _ Hcs Hcy) as (ny & _ & Hrepy).
  destruct (Forall2_lookup_r _ _ _ _ _ Hcs Hcx) as (nx & _ & Hrepx).
  destruct (rep_root _ _ _ _ _ Hrepy) as (nn0 & Hnn0 & _ & _ & Hkn & Hln).
  rewrite Hty, Hnn in Hnn0. injection Hnn0 as <-.
  destruct m as [|m]; [|by rewrite Hleaf in Hln].
  destruct (rep_root _ _ _ _ _ Hrepx) as (sn0 & Hsn0 & _ & _ & Hksn & _).
  rewrite Htx, Hsn in Hsn0. injection Hsn0 as <-.
  destruct cx as [sa skb], cy as [na nkb]. cbn in Htx, Hty, Hksn, Hkn. subst sa na.
  rewrite Hksn, length_fmap in Hlend. rewrite Hkn, length_fmap in Hroom.
  destruct (borrowLeft_leaf_spec order h ps ns los his a ks cs j sib skb nod nkb
              HM Hreps Hwfs Hnds Hcx Hcy Hlend Hroom)
    as (h' & s' & skb' & k & b & Hrun' & -> & -> & Hrep' & Hwf' & Hnd' & Hlm' & Hcont' &
        Hsub' & Hlen' & Hframe').
  destruct (K h' _ Hrep' Hwf') as (t' & Hrt & Hwt & Hnt & Htt & Hct & Hszt); try done.
  { cbn [tkeys fst snd]. by rewrite length_insert. }
  pose proof Hrep' as [(u' & Ha') Hcs']. cbn [fst snd] in Ha', Hcs'.
  assert (Hlcs : (S j < length cs)%nat) by (by eapply lookup_lt_Some).
  assert (Hsib' : ∃ sn', h' !! sib = Some sn' ∧ keys sn' = skb'.*1).
  { eassert (Hl : _ !! j = Some ((sib, skb') : tree 0)).
    2:{ destruct (Forall2_lookup_r _ _ _ _ _ Hcs' Hl) as (? & _ & (? & ? & E)).
        eexists. split; [exact E|done]. }
    rewrite list_lookup_insert_ne by lia. apply list_lookup_insert_eq. lia. }
  assert (Hnod' : ∃ nn', h' !! nod = Some nn' ∧ keys nn' = k :: nkb.*1).
  { eassert (Hl : _ !! S j = Some ((nod, (k, b) :: nkb) : tree 0)).
    2:{ destruct (Forall2_lookup_r _ _ _ _ _ Hcs' Hl) as (? & _ & (? & ? & E)).
        eexists. split; [exact E|done]. }
    apply list_lookup_insert_eq. rewrite length_insert. lia. }
  destruct Hsib' as (sn' & Hsn' & Hksn'), Hnod' as (nn' & Hnn' & Hknn').
  destruct (lookups_preserved order t' self h' kvs fuel HM) as [Hret Hins]; try done.
  { by rewrite Htt. } { by rewrite Hct. } { lia. }
  eexists h', sn', nn', _, k. split_and!; try done.
  - rewrite Hksn, Hksn', fmap_app. done.
  - by rewrite Hknn', Hkn.
  - cbn [keys]. by rewrite Hks.
Qed.

Lemma borrowLeft_between_leaves_witness :
  3 ≤ 5 ∧ (length [(1, 1); (2, 2); (3, 3); (4, 4); (5, 5); (0, 0)] + 2 ≤ 8)%nat ∧
  ∃ self h,
    construct_insert 8 5 [(1, 1); (2, 2); (3, 3); (4, 4); (5, 5); (0, 0)] [] = Ok self h ∧
    ∀ d a nd j sib nod sn nn,
      reach h (BPlusTree.root self) d a → h !! a = Some nd →
      values nd !! j = Some (VNode sib) → values nd !! S j = Some (VNode nod) →
      h !! sib = Some sn → h !! nod = Some nn → is_leaf nn = true →
      5 `div` 2 < Node.getSize sn → Node.getSize nn + 1 < 5 →
      ∃ h' sn' nn' nd' k,
        BPlusTree._borrowLeft nod sib (Z.of_nat (S j)) h = Ok tt h' ∧
        h' !! sib = Some sn' ∧ h' !! nod = Some nn' ∧ h' !! a = Some nd' ∧
        keys sn = keys sn' ++ [k] ∧ keys nn' = k :: keys nn ∧
        keys nd' = <[j := k]> (keys nd) ∧
        (∀ key, BPlusTree.retrieve 8 key self h' =
                Ok (expected key [(1, 1); (2, 2); (3, 3); (4, 4); (5, 5); (0, 0)]) h') ∧
        (∀ key value, ∃ self2 h2,
            BPlusTree.insert 8 key value self h' = Ok self2 h2 ∧
            ∀ k', BPlusTree.retrieve 8 k' self2 h2 =
                  Ok (expected k' ([(1, 1); (2, 2); (3, 3); (4, 4); (5, 5); (0, 0)]
                                     ++ [(key, value)])) h2).
Proof.
  split; [lia|]. split; [simpl; lia|].
  apply (borrowLeft_between_leaves 5 [(1, 1); (2, 2); (3, 3); (4, 4); (5, 5); (0, 0)] 8 []);
    [lia|simpl; lia].
Defined.

(** The premises of X18 are met in the tree of order 5 built from the
    keys 1, 2, 3, 4, 5, 0: its root (address 1) has the leaves at
    addresses 0 (keys 0, 1, 2) and 2 (keys 3, 4, 5) as children, and the
    call moves key 2. *)
Example borrowLeft_scenario :
  ∃ self h h',
    built 8 5 [1; 2; 3; 4; 5; 0] = Ok self h ∧
    BPlusTree.root self = 1%nat ∧
    keys_at h 1%nat = Some [3] ∧ keys_at h 0%nat = Some [0; 1; 2] ∧
    keys_at h 2%nat = Some [3; 4; 5] ∧
    BPlusTree._borrowLeft 2%nat 0%nat 1 h = Ok tt h' ∧
    keys_at h' 1%nat = Some [2] ∧ keys_at h' 0%nat = Some [0; 1] ∧
    keys_at h' 2%nat = Some [2; 3; 4; 5].
Proof. eexists _, _, _. vm_compute. repeat split. Qed.

(** [_borrowRight] between two adjacent leaves of a represented node: the
    right leaf's first pair moves to the end of the left leaf and the right
    leaf's new first key becomes the separator. *)
Lemma borrowRight_leaf_spec M h par nxt lo hi (p : addr) ks (cs : list (tree 0)) j
      (na : addr) nkb (sa : addr) skb :
  3 ≤ M →
  rep h M par nxt ((p, ks, cs) : tree 1) →
  wf M lo hi ((p, ks, cs) : tree 1) →
  NoDup (ids ((p, ks, cs) : tree 1)) →
  cs !! j = Some ((na, nkb) : tree 0) → cs !! S j = Some ((sa, skb) : tree 0) →
  M `div` 2 < Z.of_nat (length skb) → Z.of_nat (length nkb) + 1 < M →
  ∃ h' (t' : tree 1) k b k2 b2 rest,
    BPlusTree._borrowRight na sa (Z.of_nat j) h = Ok tt h' ∧
    skb = (k, b) :: (k2, b2) :: rest ∧
    t' = (p, <[j := k2]> ks,
          <[S j := ((sa, (k2, b2) :: rest) : tree 0)]>
            (<[j := ((na, nkb ++ [(k, b)]) : tree 0)]> cs)) ∧
    rep h' M par nxt t' ∧ wf M lo hi t' ∧ NoDup (ids t') ∧
    leftmost t' = leftmost ((p, ks, cs) : tree 1) ∧
    contents t' = contents ((p, ks, cs) : tree 1) ∧
    (∀ x, x ∈ ids t' → x ∈ ids ((p, ks, cs) : tree 1)) ∧
    length h' = length h ∧
    (∀ x, x ∉ ids ((p, ks, cs) : tree 1) → h' !! x = h !! x).
Proof.
  intros HM Hrep Hwf Hnd Hj HS Hlend Hroom.
  assert (Hdiv : 1 ≤ M `div` 2) by (apply Z.div_le_lower_bound; lia).
  destruct skb as [|[k b] [|[k2 b2] rest]]; [simpl in Hlend; lia..|].
  destruct (two_leaves M h par nxt lo hi p ks cs j na nkb sa _ Hrep Hwf Hnd Hj HS)
    as (u & ux & prevx & uy & prevy & nxy & sep & lj & uS & Hp & Hx & Hy & Hnxx & Hnxy &
        Hxy & Hpx & Hpy & Hxl & Hyl & Hpl & Hjl & Hlen & Hsep & Hbj & HbS & Hkx & Hky &
        Hszx & Hszy).
  cbn [length] in Hlend.
  pose proof (borrowRight_leaf_heap h na sa p _ _ _ k k2 (rest.*1) (VBucket b)
                (fmap (M:=list) VBucket (((k2, b2) :: rest).*2)) j Hx Hy Hp eq_refl eq_refl
                Hxy Hpx Hpy eq_refl eq_refl Hjl) as Hrun.
  cbn [keys values] in Hrun.
  match type of Hrun with _ = Ok tt ?hh => set (h' := hh) in * end.
  exists h'. eexists _, k, b, k2, b2, rest. split; [exact Hrun|].
  split; [done|]. split; [reflexivity|].
  assert (Hin : ∀ x, x ∉ ids ((p, ks, cs) : tree 1) → x ≠ p ∧ x ≠ na ∧ x ≠ sa).
  { intros x Hx'. change (x ∉ p :: (cs ≫= ids)) in Hx'. apply not_elem_of_cons in Hx' as [? Hx'].
    split_and!; [done|intros ->|intros ->]; apply Hx'.
    - eapply ids_child; [eapply list_elem_of_lookup_2, Hj|cbn; left].
    - eapply ids_child; [eapply list_elem_of_lookup_2, HS|cbn; left]. }
  destruct (move_between_leaves M h h' par nxt lo hi p ks cs j na nkb sa _
              (nkb ++ [(k, b)]) k2 b2 rest HM Hrep Hwf Hnd Hj HS)
    as (R1 & R2 & R3 & R4 & R5 & R6).
  - by rewrite <- app_assoc.
  - destruct Hszx as [Hhi Hlo]. cbn [tkeys snd] in Hhi, Hlo. rewrite length_fmap in Hhi, Hlo.
    split; cbn [tkeys snd]; rewrite length_fmap, length_app; cbn [length]; lia.
  - destruct Hszy as [Hhi _]. cbn [tkeys snd] in Hhi. rewrite length_fmap in Hhi.
    cbn [length] in Hhi.
    split; cbn [tkeys snd]; rewrite length_fmap; cbn [length]; lia.
  - intros n Hn. rewrite Hp in Hn. injection Hn as <-. subst h'. by lk.
  - intros n Hn. rewrite Hx in Hn. injection Hn as <-. subst h'. lk.
    by rewrite !fmap_app.
  - intros n Hn. rewrite Hy in Hn. injection Hn as <-. subst h'. by lk.
  - intros x ? ? ?. subst h'. by lk.
  - split_and!; try done.
    + subst h'. len.
    + intros x Hx'. destruct (Hin x Hx') as (? & ? & ?). subst h'. by lk.
Qed.

(** X19: [_borrowRight] between leaves of a built tree.  For two
    adjacent children of a node reached from the root, the left one a
    leaf with room for one more key and the right one with more than
    [order // 2] keys, the call moves the first key of the right leaf to
    the end of the left leaf and makes the right leaf's new first key the
    key between them in the parent; after it every lookup returns what it
    returned before, and the tree still takes insertions correctly. *)
Theorem borrowRight_between_leaves (order : Z) (kvs : list (Z * Z)) (fuel : nat)
    (h0 : list node) :
  3 ≤ order → (length kvs + 2 ≤ fuel)%nat →
  ∃ self h,
    construct_insert fuel order kvs h0 = Ok self h ∧
    ∀ d a nd j nod sib nn sn,
      reach h (BPlusTree.root self) d a → h !! a = Some nd →
      values nd !! j = Some (VNode nod) → values nd !! S j = Some (VNode sib) →
      h !! nod = Some nn → h !! sib = Some sn → is_leaf nn = true →
      order `div` 2 < Node.getSize sn → Node.getSize nn + 1 < order →
      ∃ h' sn' nn' nd' k k2,
        BPlusTree._borrowRight nod sib (Z.of_nat j) h = Ok tt h' ∧
        h' !! sib = Some sn' ∧ h' !! nod = Some nn' ∧ h' !! a = Some nd' ∧
        keys sn = k :: keys sn' ∧ head (keys sn') = Some k2 ∧
        keys nn' = keys nn ++ [k] ∧ keys nd' = <[j := k2]> (keys nd) ∧
        (∀ key, BPlusTree.retrieve fuel key self h' = Ok (expected key kvs) h') ∧
        (∀ key value, ∃ self2 h2,
            BPlusTree.insert fuel key value self h' = Ok self2 h2 ∧
            ∀ k', BPlusTree.retrieve fuel k' self2 h2 =
                  Ok (expected k' (kvs ++ [(key, value)])) h2).
Proof.
  intros HM Hfuel.
  destruct (construct_frame order fuel kvs h0 HM Hfuel)
    as (self & h & n & t & Hrun & Hroot & Hord & Hrep & Hwf & Hnd & Hsz & Hcont & Hn & _).
  exists self, h. split; [done|].
  intros d a nd j nod sib nn sn Hr Ha Hx Hy Hnn Hsn Hleaf Hlend Hroom.
  rewrite Hroot in Hr. unfold Node.getSize in Hlend, Hroom.
  destruct (at_two_children order h None None None None t d a nd j nod sib
              Hrep Hwf Hnd Hsz Hr Ha Hx Hy)
    as (m & ks & cs & cx & cy & ps & ns & los & his & Hm & Hks & Hcx & Hcy & Htx & Hty &
        Hreps & Hwfs & Hnds & Hszk & K).
  pose proof Hreps as [_ Hcs]. cbn [fst snd] in Hcs.
  destruct (Forall2_lookup_r _ _ _ _ _ Hcs Hcy) as (ny & _ & Hrepy).
  destruct (Forall2_lookup_r _ _ _ _ _ Hcs Hcx) as (nx & _ & Hrepx).
  destruct (rep_root _ _ _ _ _ Hrepx) as (nn0 & Hnn0 & _ & _ & Hkn & Hln).
  rewrite Htx, Hnn in Hnn0. injection Hnn0 as <-.
  destruct m as [|m]; [|by rewrite Hleaf in Hln].
  destruct (rep_root _ _ _ _ _ Hrepy) as (sn0 & Hsn0 & _ & _ & Hksn & _).
  rewrite Hty, Hsn in Hsn0. injection Hsn0 as <-.
  destruct cx as [na nkb], cy as [sa skb]. cbn in Htx, Hty, Hksn, Hkn. subst sa na.
  rewrite Hksn, length_fmap in Hlend. rewrite Hkn, length_fmap in Hroom.
  destruct (borrowRight_leaf_spec order h ps ns los his a ks cs j nod nkb sib skb
              HM Hreps Hwfs Hnds Hcx Hcy Hlend Hroom)
    as (h' & s' & k & b & k2 & b2 & rest & Hrun' & -> & -> & Hrep' & Hwf' & Hnd' & Hlm' &
        Hcont' & Hsub' & Hlen' & Hframe').
  destruct (K h' _ Hrep' Hwf') as (t' & Hrt & Hwt & Hnt & Htt & Hct & Hszt); try done.
  { cbn [tkeys fst snd]. by rewrite length_insert. }
  pose proof Hrep' as [(u' & Ha') Hcs']. cbn [fst snd] in Ha', Hcs'.
  assert (Hlcs : (S j < length cs)%nat) by (by eapply lookup_lt_Some).
  assert (Hnod' : ∃ nn', h' !! nod = Some nn' ∧ keys nn' = (nkb ++ [(k, b)]).*1).
  { eassert (Hl : _ !! j = Some ((nod, nkb ++ [(k, b)]) : tree 0)).
    2:{ destruct (Forall2_lookup_r _ _ _ _ _ Hcs' Hl) as (? & _ & (? & ? & E)).
        eexists. split; [exact E|done]. }
    rewrite list_lookup_insert_ne by lia. apply list_lookup_insert_eq. lia. }
  assert (Hsib' : ∃ sn', h' !! sib = Some sn' ∧ keys sn' = k2 :: rest.*1).
  { eassert (Hl : _ !! S j = Some ((sib, (k2, b2) :: rest) : tree 0)).
    2:{ destruct (Forall2_lookup_r _ _ _ _ _ Hcs' Hl) as (? & _ & (? & ? & E)).
        eexists. split; [exact E|done]. }
    apply list_lookup_insert_eq. rewrite length_insert. lia. }
  destruct Hsib' as (sn' & Hsn' & Hksn'), Hnod' as (nn' & Hnn' & Hknn').
  destruct (lookups_preserved order t' self h' kvs fuel HM) as [Hret Hins]; try done.
  { by rewrite Htt. } { by rewrite Hct. } { lia. }
  eexists h', sn', nn', _, k, k2. split_and!; try done.
  - by rewrite Hksn, Hksn'.
  - by rewrite Hksn'.
  - by rewrite Hknn', Hkn, fmap_app.
  - cbn [keys]. by rewrite Hks.
Qed.

Lemma borrowRight_between_leaves_witness :
  3 ≤ 5 ∧ (length [(1, 1); (2, 2); (3, 3); (4, 4); (5, 5); (6, 6)] + 2 ≤ 8)%nat ∧
  ∃ self h,
    construct_insert 8 5 [(1, 1); (2, 2); (3, 3); (4, 4); (5, 5); (6, 6)] [] = Ok self h ∧
    ∀ d a nd j nod sib nn sn,
      reach h (BPlusTree.root self) d a → h !! a = Some nd →
      values nd !! j = Some (VNode nod) → values nd !! S j = Some (VNode sib) →
      h !! nod = Some nn → h !! sib = Some sn → is_leaf nn = true →
      5 `div` 2 < Node.getSize sn → Node.getSize nn + 1 < 5 →
      ∃ h' sn' nn' nd' k k2,
        BPlusTree._borrowRight nod sib (Z.of_nat j) h = Ok tt h' ∧
        h' !! sib = Some sn' ∧ h' !! nod = Some nn' ∧ h' !! a = Some nd' ∧
        keys sn = k :: keys sn' ∧ head (keys sn') = Some k2 ∧
        keys nn' = keys nn ++ [k] ∧ keys nd' = <[j := k2]> (keys nd) ∧
        (∀ key, BPlusTree.retrieve 8 key self h' =
                Ok (expected key [(1, 1); (2, 2); (3, 3); (4, 4); (5, 5); (6, 6)]) h') ∧
        (∀ key value, ∃ self2 h2,
            BPlusTree.insert 8 key value self h' = Ok self2 h2 ∧
            ∀ k', BPlusTree.retrieve 8 k' self2 h2 =
                  Ok (expected k' ([(1, 1); (2, 2); (3, 3); (4, 4); (5, 5); (6, 6)]
                                     ++ [(key, value)])) h2).
Proof.
  split; [lia|]. split; [simpl; lia|].
  apply (borrowRight_between_leaves 5 [(1, 1); (2, 2); (3, 3); (4, 4); (5, 5); (6, 6)] 8 []);
    [lia|simpl; lia].
Defined.

(** The premises of X19 are met in the tree of order 5 built from the
    keys 1 to 6: its root (address 1) has the leaves at addresses 0
    (keys 1, 2) and 2 (keys 3, 4, 5, 6) as children, and the call moves
    key 3. *)
Example borrowRight_scenario :
  ∃ self h h',
    built 8 5 [1; 2; 3; 4; 5; 6] = Ok self h ∧
    BPlusTree.root self = 1%nat ∧
    keys_at h 1%nat = Some [3] ∧ keys_at h 0%nat = Some [1; 2] ∧
    keys_at h 2%nat = Some [3; 4; 5; 6] ∧
    BPlusTree._borrowRight 0%nat 2%nat 0 h = Ok tt h' ∧
    keys_at h' 1%nat = Some [4] ∧ keys_at h' 0%nat = Some [1; 2; 3] ∧
    keys_at h' 2%nat = Some [4; 5; 6].
Proof. eexists _, _, _. vm_compute. repeat split. Qed.

(** X20: [_borrowRight] from a leaf that has a single key.  The key and
    its bucket are moved to the node first; then [sibling.keys[0]], read
    for the parent's new separator, raises [IndexError]: the sibling is
    left empty and the parent keeps its old key. *)
Theorem borrowRight_last_key_raises (h : list node) (nod sib p : nat) (n s pn : node)
    (k : Z) (v : pyval) (vs0 : list pyval) (parentIndex : Z) :
  h !! nod = Some n → h !! sib = Some s → h !! p = Some pn →
  is_leaf n = true → parent n = Some p → nod ≠ sib → p ≠ nod → p ≠ sib →
  keys s = [k] → values s = v :: vs0 →
  BPlusTree._borrowRight nod sib parentIndex h =
    Raise IndexError
      (<[nod := set_values (values n ++ [v]) (set_keys (keys n ++ [k]) n)]>
         (<[sib := set_values vs0 (set_keys [] s)]> h)).
Proof.
  intros Hn Hs Hp Hl Hpar Hns Hpn Hps Hk Hv.
  assert (Hnl : (nod < length h)%nat) by (by eapply lookup_lt_Some).
  assert (Hsl : (sib < length h)%nat) by (by eapply lookup_lt_Some).
  assert (Hpl : (p < length h)%nat) by (by eapply lookup_lt_Some).
  unfold BPlusTree._borrowRight. rewrite (bind_get _ _ _ _ Hn), Hl.
  rewrite (bind_get _ _ _ _ Hs), Hk.
  rewrite (py_index_head [k] k [] eq_refl), bind_lift_inr.
  rewrite (bind_put _ _ _ _ _ Hs). cbn [tail].
  erewrite bind_get by (lk; reflexivity). cbn [values set_keys].
  rewrite Hv, (py_index_head (v :: vs0) v vs0 eq_refl), bind_lift_inr.
  erewrite bind_put by (lk; reflexivity). cbn [tail].
  rewrite list_insert_insert_eq.
  erewrite bind_modify by (lk; exact Hn).
  erewrite bind_modify by (lk; reflexivity).
  rewrite list_insert_insert_eq.
  erewrite bind_get by (lk; reflexivity). cbn [keys set_values set_keys].
  done.
Qed.

Lemma borrowRight_last_key_raises_witness :
  let h := [mkNode 5 None [10] [VNode 1%nat; VNode 2%nat] 1%nat false None None;
            mkNode 5 (Some 0%nat) [1] [VBucket [1]] 2%nat true None (Some 2%nat);
            mkNode 5 (Some 0%nat) [10] [VBucket [10]] 3%nat true (Some 1%nat) None] in
  h !! 1%nat = Some (mkNode 5 (Some 0%nat) [1] [VBucket [1]] 2%nat true None (Some 2%nat)) ∧
  h !! 2%nat =
    Some (mkNode 5 (Some 0%nat) [10] [VBucket [10]] 3%nat true (Some 1%nat) None) ∧
  h !! 0%nat =
    Some (mkNode 5 None [10] [VNode 1%nat; VNode 2%nat] 1%nat false None None) ∧
  BPlusTree._borrowRight 1%nat 2%nat 0 h =
    Raise IndexError
      [mkNode 5 None [10] [VNode 1%nat; VNode 2%nat] 1%nat false None None;
       mkNode 5 (Some 0%nat) [1; 10] [VBucket [1]; VBucket [10]] 2%nat true None (Some 2%nat);
       mkNode 5 (Some 0%nat) [] [] 3%nat true (Some 1%nat) None].
Proof.
  intros h. split; [reflexivity|]. split; [reflexivity|]. split; [reflexivity|].
  exact (borrowRight_last_key_raises h 1%nat 2%nat 0%nat _ _ _ 10 (VBucket [10]) [] 0
           eq_refl eq_refl eq_refl eq_refl eq_refl ltac:(lia) ltac:(lia) ltac:(lia)
           eq_refl eq_refl).
Defined.

(** ** Merging two adjacent children *)

Lemma keys_ok_delete lo hi ks j : keys_ok lo hi ks → keys_ok lo hi (delete j ks).
Proof.
  intros [Hs Hr]. split; [|by apply Forall_delete].
  destruct (decide (j < length ks)%nat) as [Hj|Hj].
  - rewrite delete_take_drop. rewrite <- (take_drop j ks) in Hs.
    apply StronglySorted_app in Hs as (Hc & H1 & H2).
    apply StronglySorted_app_2; [|done|].
    + intros x1 x2 Hx1 Hx2. apply Hc; [done|].
      eapply (subseteq_drop 1 (drop j ks)). by rewrite drop_drop, Nat.add_1_r.
    + rewrite <- (take_drop 1 (drop j ks)) in H2.
      apply StronglySorted_app_1_r in H2. by rewrite drop_drop, Nat.add_1_r in H2.
  - rewrite delete_take_drop, take_ge, drop_ge, app_nil_r by lia. done.
Qed.

Lemma child_bounds_delete lo hi ks j i lj uj lS uS :
  (j < length ks)%nat →
  child_bounds lo hi ks !! j = Some (lj, uj) →
  child_bounds lo hi ks !! S j = Some (lS, uS) →
  child_bounds lo hi (delete j ks) !! i =
    if decide (i < j)%nat then child_bounds lo hi ks !! i
    else if decide (i = j) then Some (lj, uS)
    else child_bounds lo hi ks !! S i.
Proof.
  intros Hj Hbj HbS.
  apply child_bounds_lookup in Hbj as (-> & _ & _).
  apply child_bounds_lookup in HbS as (_ & -> & _).
  assert (Hld : length (delete j ks) = (length ks - 1)%nat).
  { rewrite length_delete; [done|]. by apply lookup_lt_is_Some_2. }
  destruct (decide (i ≤ length (delete j ks))%nat) as [Hi|Hi].
  - rewrite child_bounds_at by done.
    repeat case_decide.
    + rewrite child_bounds_at by lia.
      rewrite list_lookup_delete_lt by lia.
      destruct i as [|i']; [done|]. by rewrite list_lookup_delete_lt by lia.
    + subst i. rewrite list_lookup_delete_ge by lia.
      destruct j as [|j']; [done|]. by rewrite list_lookup_delete_lt by lia.
    + rewrite child_bounds_at by lia.
      rewrite list_lookup_delete_ge by lia.
      destruct i as [|i']; [lia|]. by rewrite list_lookup_delete_ge by lia.
  - repeat case_decide; try lia.
    rewrite !lookup_ge_None_2; [done|rewrite length_child_bounds; lia|].
    rewrite length_child_bounds. lia.
Qed.

Lemma lookup_merged {A} (l : list A) j x i :
  (S j < length l)%nat →
  delete (S j) (<[j := x]> l) !! i =
    if decide (i < j)%nat then l !! i
    else if decide (i = j) then Some x
    else l !! S i.
Proof.
  intros Hj. repeat case_decide.
  - rewrite list_lookup_delete_lt by lia. by rewrite list_lookup_insert_ne by lia.
  - subst i. rewrite list_lookup_delete_lt by lia. apply list_lookup_insert_eq. lia.
  - rewrite list_lookup_delete_ge by lia. by rewrite list_lookup_insert_ne by lia.
Qed.

Lemma bind_merged {A B} (f : A → list B) (l : list A) j x y z :
  l !! j = Some x → l !! S j = Some y → f z = f x ++ f y →
  delete (S j) (<[j := z]> l) ≫= f = l ≫= f.
Proof.
  intros Hj HS Hf. destruct (lookup_two_split l j x y Hj HS) as (l1 & l2 & -> & <-).
  rewrite insert_app_r_alt, Nat.sub_diag by lia. cbn [insert list_insert].
  rewrite delete_take_drop.
  rewrite take_app_ge, drop_app_ge by lia.
  replace (S (length l1) - length l1)%nat with 1%nat by lia.
  replace (S (S (length l1)) - length l1)%nat with 2%nat by lia.
  cbn [take drop]. rewrite <- app_assoc. cbn [app].
  rewrite !bind_app, !bind_cons, Hf. by rewrite <- app_assoc.
Qed.

Lemma elem_of_bind_merged {A B} (f : A → list B) (l : list A) j x y z w :
  l !! j = Some x → l !! S j = Some y → (∀ v, v ∈ f z → v ∈ f x ∨ v ∈ f y) →
  w ∈ delete (S j) (<[j := z]> l) ≫= f → w ∈ l ≫= f.
Proof.
  intros Hj HS Hf. destruct (lookup_two_split l j x y Hj HS) as (l1 & l2 & -> & <-).
  rewrite insert_app_r_alt, Nat.sub_diag by lia. cbn [insert list_insert].
  rewrite delete_take_drop.
  rewrite take_app_ge, drop_app_ge by lia.
  replace (S (length l1) - length l1)%nat with 1%nat by lia.
  replace (S (S (length l1)) - length l1)%nat with 2%nat by lia.
  cbn [take drop]. rewrite <- app_assoc. cbn [app].
  rewrite !bind_app, !bind_cons, !elem_of_app.
  intros [?|[Hz|?]]; [tauto| |tauto]. destruct (Hf _ Hz); tauto.
Qed.

Lemma NoDup_bind_merged {A B} (f : A → list B) (l : list A) j x y z :
  l !! j = Some x → l !! S j = Some y → NoDup (l ≫= f) →
  NoDup (f z) → (∀ v, v ∈ f z → v ∈ f x ∨ v ∈ f y) →
  NoDup (delete (S j) (<[j := z]> l) ≫= f).
Proof.
  intros Hj HS Hnd Hz Hf. destruct (lookup_two_split l j x y Hj HS) as (l1 & l2 & -> & <-).
  rewrite insert_app_r_alt, Nat.sub_diag by lia. cbn [insert list_insert].
  rewrite delete_take_drop.
  rewrite take_app_ge, drop_app_ge by lia.
  replace (S (length l1) - length l1)%nat with 1%nat by lia.
  replace (S (S (length l1)) - length l1)%nat with 2%nat by lia.
  cbn [take drop]. rewrite <- app_assoc. cbn [app].
  rewrite !bind_app, !bind_cons in *.
  apply NoDup_app in Hnd as (N1 & D1 & Hnd).
  apply NoDup_app in Hnd as (Nx & Dx & Hnd).
  apply NoDup_app in Hnd as (Ny & Dy & N2).
  apply NoDup_app. split_and!; [done| |].
  - intros v Hv Hin. apply (D1 v Hv). rewrite !elem_of_app.
    apply elem_of_app in Hin as [Hin|Hin]; [|tauto]. destruct (Hf _ Hin); tauto.
  - apply NoDup_app. split_and!; [done| |done].
    intros v Hv Hin. destruct (Hf _ Hv) as [Hvx|Hvy].
    + apply (Dx v Hvx). rewrite elem_of_app. tauto.
    + by apply (Dy v Hvy).
Qed.

(** The parent's side of a merge: the children at [j] and [S j] of a
    represented node with at least two keys are replaced by one child
    that stands for both, and the key between them is dropped. *)
Lemma merge_children M {m} h h' par nxt lo hi (p : addr) ks (cs : list (tree m)) j
      (l r l' : tree m) u lj uj lS uS nr :
  rep h M par nxt ((p, ks, cs) : tree (S m)) →
  wf M lo hi ((p, ks, cs) : tree (S m)) →
  NoDup (ids ((p, ks, cs) : tree (S m))) →
  cs !! j = Some l → cs !! S j = Some r → (2 ≤ length ks)%nat →
  child_bounds lo hi ks !! j = Some (lj, uj) →
  child_bounds lo hi ks !! S j = Some (lS, uS) →
  child_nexts nxt cs !! S j = Some nr →
  rep h' M (Some p) nr l' → wf M lj uS l' → size_ok M l' →
  taddr l' = taddr l → leftmost l' = leftmost l →
  (∀ x, x ∈ ids l' → x ∈ ids l ∨ x ∈ ids r) → NoDup (ids l') →
  contents l' = contents l ++ contents r →
  h !! p = Some (mkNode M par ks (VNode ∘ taddr <$> cs) u false None None) →
  h' !! p = Some (mkNode M par (delete j ks) (delete (S j) (VNode ∘ taddr <$> cs))
                         u false None None) →
  (∀ x, x ≠ p → x ∉ ids l → x ∉ ids r → h' !! x = h !! x) →
  let t' : tree (S m) := (p, delete j ks, delete (S j) (<[j := l']> cs)) in
  rep h' M par nxt t' ∧ wf M lo hi t' ∧ NoDup (ids t') ∧
  leftmost t' = leftmost ((p, ks, cs) : tree (S m)) ∧
  contents t' = contents ((p, ks, cs) : tree (S m)) ∧
  (∀ x, x ∈ ids t' → x ∈ ids ((p, ks, cs) : tree (S m))).
Proof.
  intros [_ Hcs] (Hks & Hne & Hwcs) Hnd Hj HS Hk2 Hbj HbS Hnr Hrep' Hwf' Hsz' Hta Hlm Hsub
         Hnd' Hcont Hp Hp' Hframe t'.
  cbn [fst snd] in *.
  assert (Hlen : length cs = S (length ks)).
  { apply Forall2_length in Hwcs. by rewrite length_child_bounds in Hwcs. }
  assert (HjS : (S j < length cs)%nat) by (by eapply lookup_lt_Some).
  assert (Hjk : (j < length ks)%nat) by lia.
  change (NoDup (p :: (cs ≫= ids))) in Hnd. apply NoDup_cons in Hnd as [Hpn Hnd].
  assert (Hlend : length (delete (S j) (<[j := l']> cs)) = (length cs - 1)%nat).
  { rewrite length_delete; [by rewrite length_insert|].
    apply lookup_lt_is_Some_2. by rewrite length_insert. }
  assert (Hldk : length (delete j ks) = (length ks - 1)%nat).
  { rewrite length_delete; [done|]. by apply lookup_lt_is_Some_2. }
  assert (Hother : ∀ i c x, cs !! i = Some c → i ≠ j → i ≠ S j → x ∈ ids c →
                            h' !! x = h !! x).
  { intros i c x Hc H1 H2 Hx. apply Hframe.
    - intros ->. apply Hpn. eapply ids_child; [|done]. by eapply list_elem_of_lookup_2.
    - intros Hxl. by eapply (NoDup_bind_disjoint ids cs i j c l x).
    - intros Hxr. by eapply (NoDup_bind_disjoint ids cs i (S j) c r x). }
  subst t'. split_and!.
  - split; cbn [fst snd].
    + exists u. rewrite Hp'. do 2 f_equal.
      rewrite <- (fmap_insert_same (VNode ∘ taddr) cs j l l' Hj) by (cbn; by rewrite Hta).
      by rewrite list_fmap_delete.
    + apply Forall2_same_length_lookup_2.
      { unfold child_nexts. rewrite length_app, length_fmap. cbn [length].
        destruct (delete (S j) (<[j := l']> cs)) eqn:E; [simpl in Hlend; lia|].
        simpl. lia. }
      intros i ni ci Hni Hci.
      rewrite (child_nexts_lookup nxt _ i ci Hci) in Hni. injection Hni as <-.
      rewrite lookup_merged in Hci by done. rewrite (lookup_merged cs j l' (S i)) by done.
      destruct (decide (i < j)%nat) as [Hlt|Hge]; [|destruct (decide (i = j)) as [->|Hne']].
      * (* before the merged child *)
        pose proof (Forall2_lookup_r _ _ _ _ _ Hcs Hci) as (ni & Hni & Hri).
        rewrite (child_nexts_lookup nxt cs i ci Hci) in Hni. injection Hni as <-.
        eapply rep_frame; [intros x Hx; apply (Hother i ci x Hci); [lia|lia|exact Hx]|].
        destruct (decide (S i < j)%nat) as [?|?]; [exact Hri|].
        destruct (decide (S i = j)) as [E|E]; [|lia].
        rewrite E, Hj in Hri. by rewrite Hlm.
      * (* the merged child *)
        injection Hci as <-.
        rewrite (child_nexts_lookup nxt cs (S j) r HS) in Hnr. injection Hnr as <-.
        destruct (decide (S j < j)%nat) as [?|?]; [lia|].
        destruct (decide (S j = j)) as [?|?]; [lia|]. exact Hrep'.
      * (* after the merged child *)
        pose proof (Forall2_lookup_r _ _ _ _ _ Hcs Hci) as (ni & Hni & Hri).
        rewrite (child_nexts_lookup nxt cs (S i) ci Hci) in Hni. injection Hni as <-.
        eapply rep_frame; [intros x Hx; apply (Hother (S i) ci x Hci); [lia|lia|exact Hx]|].
        destruct (decide (S i < j)%nat) as [?|?]; [lia|].
        destruct (decide (S i = j)) as [?|?]; [lia|]. exact Hri.
  - split_and!.
    + by apply keys_ok_delete.
    + cbn [fst snd]. intros E. rewrite E in Hldk. simpl in Hldk. lia.
    + cbn [fst snd]. apply Forall2_same_length_lookup_2.
      { rewrite length_child_bounds. lia. }
      intros i b c Hb Hc.
      rewrite (child_bounds_delete lo hi ks j i lj uj lS uS Hjk Hbj HbS) in Hb.
      rewrite lookup_merged in Hc by done.
      destruct (decide (i < j)%nat) as [Hlt|Hge]; [|destruct (decide (i = j)) as [->|Hne']].
      * exact (Forall2_lookup_lr _ _ _ _ _ _ Hwcs Hb Hc).
      * injection Hb as <-. injection Hc as <-. done.
      * exact (Forall2_lookup_lr _ _ _ _ _ _ Hwcs Hb Hc).
  - change (NoDup (p :: (delete (S j) (<[j := l']> cs) ≫= ids))). apply NoDup_cons. split.
    + intros Hin. apply Hpn. by eapply (elem_of_bind_merged ids cs j l r l').
    + by eapply (NoDup_bind_merged ids cs j l r l').
  - cbn [leftmost fst snd]. destruct cs as [|c0 cs]; [done|].
    destruct j as [|j']; cbn.
    + cbn in Hj. injection Hj as ->. destruct cs; [done|]. done.
    + done.
  - rewrite !contents_node. cbn [snd]. by eapply (bind_merged contents cs j l r l').
  - intros x. change (x ∈ p :: (delete (S j) (<[j := l']> cs) ≫= ids) → x ∈ p :: (cs ≫= ids)).
    rewrite !elem_of_cons. intros [->|Hx]; [by left|right].
    by eapply (elem_of_bind_merged ids cs j l r l').
Qed.

(** ** [_mergeOnDelete] on two leaves *)

Lemma insert_delete_next {A} (l : list A) j x :
  l !! j = Some x → (S j < length l)%nat →
  <[j := x]> (delete j l) = delete (S j) l.
Proof.
  intros Hj Hl. destruct (lookup_lt_is_Some_2 l (S j) Hl) as [y Hy].
  destruct (lookup_two_split l j x y Hj Hy) as (l1 & l2 & -> & <-).
  rewrite !delete_take_drop.
  rewrite take_app_ge, !drop_app_ge, take_app_ge by lia.
  rewrite Nat.sub_diag.
  replace (S (length l1) - length l1)%nat with 1%nat by lia.
  replace (S (S (length l1)) - length l1)%nat with 2%nat by lia.
  cbn [take drop]. rewrite !app_nil_r.
  rewrite insert_app_r_alt, Nat.sub_diag by lia. cbn. by rewrite <- app_assoc.
Qed.

(** The run of [_mergeOnDelete] on two leaves and their parent, three
    distinct objects, when [_find] locates the left leaf at [j]. *)
Lemma merge_leaf_heap h (la ra p : addr) ln rn pn k0 ks0 v j sep vj :
  h !! la = Some ln → h !! ra = Some rn → h !! p = Some pn →
  is_leaf ln = true → is_leaf rn = true → parent ln = Some p →
  la ≠ ra → p ≠ la → p ≠ ra →
  keys ln = k0 :: ks0 →
  BPlusTree._find (VNode p) k0 h = Ok (Some (v, j)) h →
  keys pn !! j = Some sep → values pn !! j = Some vj → (S j < length (values pn))%nat →
  BPlusTree._mergeOnDelete la ra h =
    Ok tt (<[la := set_values (values ln ++ values rn)
                     (set_keys (keys ln ++ keys rn) (set_nextLeaf (nextLeaf rn) ln))]>
             (<[p := set_values (<[j := VNode la]> (delete j (values pn)))
                       (set_keys (delete j (keys pn)) pn)]> h)).
Proof.
  intros Hl Hr Hp Hll Hlr Hpar Hlr' Hpl Hpr Hk Hfind Hsep Hvj Hlen.
  assert (Hla : (la < length h)%nat) by (by eapply lookup_lt_Some).
  assert (Hra : (ra < length h)%nat) by (by eapply lookup_lt_Some).
  assert (Hpa : (p < length h)%nat) by (by eapply lookup_lt_Some).
  unfold BPlusTree._mergeOnDelete. rewrite (bind_get _ _ _ _ Hl), Hk.
  rewrite (py_index_head (k0 :: ks0) k0 ks0 eq_refl), bind_lift_inr, Hpar.
  rewrite (bind_Ok _ _ _ _ _ Hfind). cbn [BPlusTree.unpack]. rewrite bind_ret. cbn [snd].
  rewrite (bind_get _ _ _ _ Hp), (py_index_lookup _ j sep Hsep), bind_lift_inr.
  rewrite (bind_put _ _ _ _ _ Hp).
  erewrite bind_get by (lk; reflexivity). cbn [values set_keys].
  rewrite (py_index_lookup _ j vj Hvj), bind_lift_inr.
  erewrite bind_put by (lk; reflexivity). rewrite list_insert_insert_eq.
  erewrite bind_get by (lk; reflexivity). cbn [values set_values].
  rewrite py_set_nonneg, bind_lift_inr.
  2:{ rewrite length_delete by (by eexists). lia. }
  erewrite bind_put by (lk; reflexivity). rewrite list_insert_insert_eq.
  erewrite bind_get by (lk; exact Hl).
  erewrite bind_get by (lk; exact Hr). rewrite Hll, Hlr. cbn [andb].
  erewrite bind_modify by (lk; exact Hl).
  erewrite bind_get by (lk; exact Hr).
  erewrite bind_modify by (lk; reflexivity). rewrite list_insert_insert_eq.
  erewrite bind_get by (lk; exact Hr).
  unfold modify. erewrite bind_get by (lk; reflexivity).
  unfold put. lk. rewrite list_insert_insert_eq. rewrite <- Hk. done.
Qed.

(** The first key of a child leads [_find] on the parent back to the
    child. *)
Lemma find_own_index M {n} h par nxt lo hi (a : addr) ks (cs : list (tree n)) i c :
  3 ≤ M →
  rep h M par nxt ((a, ks, cs) : tree (S n)) → wf M lo hi ((a, ks, cs) : tree (S n)) →
  cs !! i = Some c →
  ∃ k0 rest nc,
    h !! taddr c = Some nc ∧ parent nc = Some a ∧ keys nc = k0 :: rest ∧
    keys nc = tkeys c ∧
    BPlusTree._find (VNode a) k0 h = Ok (Some (VNode (taddr c), i)) h.
Proof.
  intros HM [(u & Ha) Hcs] (Hks & Hne & Hwcs) Hi. cbn [fst snd] in *.
  destruct (Forall2_lookup_r _ _ _ _ _ Hcs Hi) as (nx & _ & Hrepc).
  destruct (Forall2_lookup_r _ _ _ _ _ Hwcs Hi) as ([lo2 hi2] & Hb & Hwfc & Hsz).
  cbn [fst snd] in Hwfc.
  destruct (rep_root _ _ _ _ _ Hrepc) as (nc & Hnc & _ & Hp & Hk & _).
  assert (Hdiv : 1 ≤ M `div` 2) by (apply Z.div_le_lower_bound; lia).
  pose proof (wf_tkeys _ _ _ _ Hwfc) as [_ Hrange].
  destruct (keys nc) as [|k0 rest] eqn:E.
  - exfalso. destruct n.
    + destruct Hsz as [_ Hlo]. rewrite <- Hk in Hlo. simpl in Hlo. lia.
    + destruct Hwfc as (_ & Hnn & _). apply Hnn. symmetry. exact Hk.
  - rewrite <- Hk in Hrange. apply Forall_cons in Hrange as [Hin _].
    assert (Hrank : rank k0 ks = i) by (eapply rank_unique; [apply Hks|done..]).
    exists k0, rest, nc. split_and!; try done; [by rewrite E|].
    rewrite <- Hrank. eapply find_child; [exact Ha|done|by rewrite Hrank].
Qed.

Lemma keys_ok_app lo mid hi ks1 ks2 :
  keys_ok lo (Some mid) ks1 → keys_ok (Some mid) hi ks2 →
  from_option (fun l => l ≤ mid) True lo → from_option (fun u => mid < u) True hi →
  keys_ok lo hi (ks1 ++ ks2).
Proof.
  intros [S1 R1] [S2 R2] Hlo Hhi. split.
  - apply StronglySorted_app_2; [|done|done].
    intros x1 x2 H1 H2. rewrite Forall_forall in R1, R2.
    destruct (R1 x1 H1) as [_ ?], (R2 x2 H2) as [? _]. cbn in *. lia.
  - apply Forall_app. split.
    + eapply Forall_impl; [exact R1|]. intros x [? Hu]. split; [done|].
      destruct hi; cbn in *; [lia|done].
    + eapply Forall_impl; [exact R2|]. intros x [Hl ?]. split; [|done].
      destruct lo; cbn in *; [lia|done].
Qed.

Lemma sep_above_prev lo hi ks j sep l u :
  keys_ok lo hi ks → ks !! j = Some sep →
  child_bounds lo hi ks !! j = Some (l, u) →
  from_option (fun x => x ≤ sep) True l.
Proof.
  intros [Hs Hr] Hj Hb. apply child_bounds_lookup in Hb as (-> & _ & _).
  rewrite Forall_forall in Hr. destruct j as [|j'].
  - destruct (Hr sep) as [? _]; [by eapply list_elem_of_lookup_2|done].
  - destruct (ks !! j') as [x0|] eqn:E; cbn.
    + by eapply (sorted_lookup_le ks j' (S j')); [|lia|..].
    + apply lookup_ge_None in E. apply lookup_lt_Some in Hj. lia.
Qed.

(** [_mergeOnDelete] on two adjacent leaves of a represented node with
    at least two keys, when the two leaves together fit in one. *)
Lemma merge_leaves_spec M h par nxt lo hi (p : addr) ks (cs : list (tree 0)) j
      (la : addr) lkb (ra : addr) rkb :
  3 ≤ M →
  rep h M par nxt ((p, ks, cs) : tree 1) →
  wf M lo hi ((p, ks, cs) : tree 1) →
  NoDup (ids ((p, ks, cs) : tree 1)) →
  cs !! j = Some ((la, lkb) : tree 0) → cs !! S j = Some ((ra, rkb) : tree 0) →
  (2 ≤ length ks)%nat → Z.of_nat (length lkb + length rkb) < M →
  ∃ h' nr,
    BPlusTree._mergeOnDelete la ra h = Ok tt h' ∧
    child_nexts nxt cs !! S j = Some nr ∧
    let t' : tree 1 :=
      (p, delete j ks, delete (S j) (<[j := ((la, lkb ++ rkb) : tree 0)]> cs)) in
    rep h' M par nxt t' ∧ wf M lo hi t' ∧ NoDup (ids t') ∧
    leftmost t' = leftmost ((p, ks, cs) : tree 1) ∧
    contents t' = contents ((p, ks, cs) : tree 1) ∧
    (∀ x, x ∈ ids t' → x ∈ ids ((p, ks, cs) : tree 1)) ∧
    length h' = length h ∧
    (∀ x, x ∉ ids ((p, ks, cs) : tree 1) → h' !! x = h !! x).
Proof.
  intros HM Hrep Hwf Hnd Hj HS Hk2 Hfit.
  destruct (two_leaves M h par nxt lo hi p ks cs j la lkb ra rkb Hrep Hwf Hnd Hj HS)
    as (u & ux & prevx & uy & prevy & nxy & sep & lj & uS & Hp & Hx & Hy & Hnxx & Hnxy &
        Hxy & Hpx & Hpy & Hxl & Hyl & Hpl & Hjl & Hlen & Hsep & Hbj & HbS & Hkx & Hky &
        Hszx & Hszy).
  destruct (find_own_index M h par nxt lo hi p ks cs j ((la, lkb) : tree 0) HM Hrep Hwf Hj)
    as (k0 & rest & nc & Hnc & _ & Hk0 & _ & Hfind).
  cbn [taddr fst] in Hnc, Hfind. rewrite Hx in Hnc. injection Hnc as <-. cbn [keys] in Hk0.
  pose proof (merge_leaf_heap h la ra p _ _ _ k0 rest (VNode la) j sep (VNode la)
                Hx Hy Hp eq_refl eq_refl eq_refl Hxy Hpx Hpy Hk0 Hfind Hsep) as Hrun.
  cbn [keys values nextLeaf] in Hrun.
  specialize (Hrun ltac:(by rewrite list_lookup_fmap, Hj)
                   ltac:(rewrite length_fmap; lia)).
  match type of Hrun with _ = Ok tt ?hh => set (h' := hh) in * end.
  exists h', nxy. split; [exact Hrun|]. split; [exact Hnxy|].
  pose proof Hwf as (Hks & _ & _). cbn [fst snd] in Hks.
  destruct (merge_children M h h' par nxt lo hi p ks cs j ((la, lkb) : tree 0)
              ((ra, rkb) : tree 0) ((la, lkb ++ rkb) : tree 0) u lj (Some sep) (Some sep) uS
              nxy Hrep Hwf Hnd Hj HS Hk2 Hbj HbS Hnxy)
    as (R1 & R2 & R3 & R4 & R5 & R6); try done.
  - exists ux, prevx. cbn [fst snd]. subst h'. lk. by rewrite !fmap_app.
  - cbn [wf snd]. rewrite fmap_app.
    apply (keys_ok_app lj sep uS); [done|done| |].
    + by eapply sep_above_prev.
    + by eapply sep_below_next.
  - destruct Hszx as [_ Hlo]. cbn [tkeys snd] in Hlo. rewrite length_fmap in Hlo.
    split; cbn [tkeys snd]; rewrite length_fmap, length_app; lia.
  - intros x. cbn. rewrite !list_elem_of_singleton. tauto.
  - cbn. apply NoDup_singleton.
  - by rewrite !contents_leaf.
  - subst h'. lk. unfold set_values, set_keys.
    cbn [keys values order parent uid is_leaf prevLeaf nextLeaf]. do 2 f_equal.
    apply insert_delete_next; [by rewrite list_lookup_fmap, Hj|rewrite length_fmap; lia].
  - intros x H1 H2 H3. cbn in H2, H3. rewrite list_elem_of_singleton in H2, H3.
    subst h'. by lk.
  - split_and!; try done.
    + subst h'. len.
    + intros x Hx'. change (x ∉ p :: (cs ≫= ids)) in Hx'.
      apply not_elem_of_cons in Hx' as [? Hx'].
      assert (x ≠ la).
      { intros ->. apply Hx'.
        eapply ids_child; [eapply list_elem_of_lookup_2, Hj|cbn; left]. }
      subst h'. by lk.
Qed.

Lemma length_delete_le {A} (l : list A) i : (length (delete i l) ≤ length l)%nat.
Proof.
  revert i. induction l as [|x l IH]; intros [|i]; simpl; try lia.
  specialize (IH i). lia.
Qed.

(** X21: [_mergeOnDelete] on two leaves of a built tree.  For two
    adjacent leaves under a node reached from the root that has at least
    two keys, which together hold fewer keys than the order, the call
    appends the right leaf's keys and buckets to the left leaf, lets the
    left leaf point to the right leaf's successor, and removes the key
    between them and the right leaf from the parent; after it every
    lookup returns what it returned before, and the tree still takes
    insertions correctly. *)
Theorem mergeOnDelete_leaves (order : Z) (kvs : list (Z * Z)) (fuel : nat)
    (h0 : list node) :
  3 ≤ order → (length kvs + 2 ≤ fuel)%nat →
  ∃ self h,
    construct_insert fuel order kvs h0 = Ok self h ∧
    ∀ d a nd j l r ln rn,
      reach h (BPlusTree.root self) d a → h !! a = Some nd →
      values nd !! j = Some (VNode l) → values nd !! S j = Some (VNode r) →
      h !! l = Some ln → h !! r = Some rn → is_leaf ln = true →
      2 ≤ Node.getSize nd → Node.getSize ln + Node.getSize rn < order →
      ∃ h' ln' nd',
        BPlusTree._mergeOnDelete l r h = Ok tt h' ∧
        h' !! l = Some ln' ∧ h' !! a = Some nd' ∧
        keys ln' = keys ln ++ keys rn ∧ values ln' = values ln ++ values rn ∧
        nextLeaf ln' = nextLeaf rn ∧
        keys nd' = delete j (keys nd) ∧ values nd' = delete (S j) (values nd) ∧
        (∀ key, BPlusTree.retrieve fuel key self h' = Ok (expected key kvs) h') ∧
        (∀ key value, ∃ self2 h2,
            BPlusTree.insert fuel key value self h' = Ok self2 h2 ∧
            ∀ k', BPlusTree.retrieve fuel k' self2 h2 =
                  Ok (expected k' (kvs ++ [(key, value)])) h2).
Proof.
  intros HM Hfuel.
  destruct (construct_frame order fuel kvs h0 HM Hfuel)
    as (self & h & n & t & Hrun & Hroot & Hord & Hrep & Hwf & Hnd & Hsz & Hcont & Hn & _).
  exists self, h. split; [done|].
  intros d a nd j l r ln rn Hr Ha Hx Hy Hln Hrn Hleaf Hk2 Hfit.
  rewrite Hroot in Hr. unfold Node.getSize in Hk2, Hfit.
  destruct (at_two_children order h None None None None t d a nd j l r
              Hrep Hwf Hnd Hsz Hr Ha Hx Hy)
    as (m & ks & cs & cx & cy & ps & ns & los & his & Hm & Hks & Hcx & Hcy & Htx & Hty &
        Hreps & Hwfs & Hnds & Hszk & K).
  pose proof Hreps as [(u0 & Ha0) Hcs]. cbn [fst snd] in Ha0, Hcs.
  assert (Hvals : values nd = VNode ∘ taddr <$> cs).
  { rewrite Ha in Ha0. by injection Ha0 as ->. }
  destruct (Forall2_lookup_r _ _ _ _ _ Hcs Hcx) as (nx & _ & Hrepx).
  destruct (rep_root _ _ _ _ _ Hrepx) as (ln0 & Hln0 & _ & _ & _ & Hll).
  rewrite Htx, Hln in Hln0. injection Hln0 as <-.
  destruct m as [|m]; [|by rewrite Hleaf in Hll].
  destruct cx as [la lkb], cy as [ra rkb]. cbn in Htx, Hty. subst la ra.
  destruct (Forall2_lookup_r _ _ _ _ _ Hcs Hcy) as (ny & Hny & (uy & py & Hrn0)).
  destruct Hrepx as (ux & px & Hln0). cbn [fst snd] in Hln0, Hrn0.
  rewrite Hln in Hln0. rewrite Hrn in Hrn0. injection Hln0 as ->. injection Hrn0 as ->.
  cbn [keys values nextLeaf] in *. rewrite !length_fmap in Hfit. rewrite Hks in Hk2.
  destruct (merge_leaves_spec order h ps ns los his a ks cs j l lkb r rkb
              HM Hreps Hwfs Hnds Hcx Hcy ltac:(lia) ltac:(lia))
    as (h' & nr & Hrun' & Hnr & Hrep' & Hwf' & Hnd' & Hlm' & Hcont' & Hsub' & Hlen' & Hframe').
  rewrite Hny in Hnr. injection Hnr as <-.
  destruct (K h' _ Hrep' Hwf') as (t' & Hrt & Hwt & Hnt & Htt & Hct & Hszt); try done.
  { cbn [tkeys fst snd]. pose proof (length_delete_le ks j). lia. }
  pose proof Hrep' as [(u' & Ha') Hcs']. cbn [fst snd] in Ha', Hcs'.
  assert (Hlcs : (S j < length cs)%nat) by (by eapply lookup_lt_Some).
  assert (Hl' : ∃ ux' px', h' !! l =
             Some (mkNode order (Some a) (lkb ++ rkb).*1 (VBucket <$> (lkb ++ rkb).*2)
                          ux' true px' ny)).
  { eassert (Hl : _ !! j = Some ((l, lkb ++ rkb) : tree 0)).
    2:{ destruct (Forall2_lookup_r _ _ _ _ _ Hcs' Hl) as (nl & Hnl & (ux' & px' & E)).
        exists ux', px'. cbn [fst snd] in E. rewrite E. do 2 f_equal.
        rewrite (child_nexts_lookup (n:=0) ns _ j _ Hl) in Hnl. injection Hnl as <-.
        rewrite lookup_merged by done.
        destruct (decide (S j < j)%nat); [lia|]. destruct (decide (S j = j)); [lia|].
        rewrite (child_nexts_lookup (n:=0) ns cs (S j) _ Hcy) in Hny. by injection Hny as <-. }
    rewrite lookup_merged by done.
    destruct (decide (j < j)%nat); [lia|]. by destruct (decide (j = j)). }
  destruct Hl' as (ux' & px' & Hl').
  destruct (lookups_preserved order t' self h' kvs fuel HM) as [Hret Hins]; try done.
  { by rewrite Htt. } { by rewrite Hct. } { lia. }
  eexists h', _, _. split; [exact Hrun'|]. split; [exact Hl'|]. split; [exact Ha'|].
  cbn [keys values nextLeaf]. split_and!; try done.
  - by rewrite fmap_app.
  - by rewrite !fmap_app.
  - by rewrite Hks.
  - rewrite Hvals, list_fmap_delete. f_equal.
    by apply (fmap_insert_same (VNode ∘ taddr) cs j ((l, lkb) : tree 0)).
Qed.

Lemma mergeOnDelete_leaves_witness :
  3 ≤ 3 ∧ (length [(1, 1); (2, 2); (3, 3); (4, 4)] + 2 ≤ 6)%nat ∧
  ∃ self h,
    construct_insert 6 3 [(1, 1); (2, 2); (3, 3); (4, 4)] [] = Ok self h ∧
    ∀ d a nd j l r ln rn,
      reach h (BPlusTree.root self) d a → h !! a = Some nd →
      values nd !! j = Some (VNode l) → values nd !! S j = Some (VNode r) →
      h !! l = Some ln → h !! r = Some rn → is_leaf ln = true →
      2 ≤ Node.getSize nd → Node.getSize ln + Node.getSize rn < 3 →
      ∃ h' ln' nd',
        BPlusTree._mergeOnDelete l r h = Ok tt h' ∧
        h' !! l = Some ln' ∧ h' !! a = Some nd' ∧
        keys ln' = keys ln ++ keys rn ∧ values ln' = values ln ++ values rn ∧
        nextLeaf ln' = nextLeaf rn ∧
        keys nd' = delete j (keys nd) ∧ values nd' = delete (S j) (values nd) ∧
        (∀ key, BPlusTree.retrieve 6 key self h' =
                Ok (expected key [(1, 1); (2, 2); (3, 3); (4, 4)]) h') ∧
        (∀ key value, ∃ self2 h2,
            BPlusTree.insert 6 key value self h' = Ok self2 h2 ∧
            ∀ k', BPlusTree.retrieve 6 k' self2 h2 =
                  Ok (expected k' ([(1, 1); (2, 2); (3, 3); (4, 4)] ++ [(key, value)])) h2).
Proof.
  split; [lia|]. split; [simpl; lia|].
  apply (mergeOnDelete_leaves 3 [(1, 1); (2, 2); (3, 3); (4, 4)] 6 []); [lia|simpl; lia].
Defined.

(** The premises of X21 are met in the tree of order 3 built from the
    keys 1 to 4: its root (address 1) has the keys 2 and 3 and the leaves
    at addresses 0 (key 1), 2 (key 2) and 4 (keys 3, 4); the call merges
    the first two. *)
Example mergeOnDelete_scenario :
  ∃ self h h',
    built 8 3 [1; 2; 3; 4] = Ok self h ∧
    BPlusTree.root self = 1%nat ∧
    keys_at h 1%nat = Some [2; 3] ∧ keys_at h 0%nat = Some [1] ∧
    keys_at h 2%nat = Some [2] ∧
    BPlusTree._mergeOnDelete 0%nat 2%nat h = Ok tt h' ∧
    keys_at h' 1%nat = Some [3] ∧ keys_at h' 0%nat = Some [1; 2] ∧
    (values <$> h' !! 1%nat) = Some [VNode 0%nat; VNode 4%nat].
Proof. eexists _, _, _. vm_compute. repeat split. Qed.

(** ** [_mergeOnDelete] on two internal nodes *)

Lemma reparent_all_nodes {n} (gs : list (tree n)) p h :
  BPlusTree.reparent_all (VNode ∘ taddr <$> gs) p h = reparent (VNode ∘ taddr <$> gs) p h.
Proof.
  revert h. induction gs as [|g gs IH]; intros h; [done|].
  rewrite fmap_cons. cbn [BPlusTree.reparent_all reparent compose set_parent_attr].
  unfold bind. destruct (modify (taddr g) (set_parent (Some p)) h); [apply IH|done|done].
Qed.

Lemma child_bounds_app lo hi ks1 sep ks2 :
  child_bounds lo hi (ks1 ++ sep :: ks2) =
    child_bounds lo (Some sep) ks1 ++ child_bounds (Some sep) hi ks2.
Proof.
  revert lo. induction ks1 as [|k ks1 IH]; intros lo; [done|].
  cbn [app]. rewrite !child_bounds_cons, IH. done.
Qed.

Lemma child_nexts_app {n} nxt (cs1 cs2 : list (tree n)) c2 cs2' :
  cs1 ≠ [] → cs2 = c2 :: cs2' →
  child_nexts nxt (cs1 ++ cs2) = child_nexts (Some (leftmost c2)) cs1 ++ child_nexts nxt cs2.
Proof.
  intros Hne ->. destruct cs1 as [|c1 cs1]; [done|].
  unfold child_nexts. cbn [app tail]. rewrite fmap_app, fmap_cons.
  rewrite <- !app_assoc. done.
Qed.

(** The first key of a well-formed internal node lies strictly above
    the node's lower bound: its first child is not empty. *)
Lemma keys_above_lo M {n} lo hi (a : addr) ks (cs : list (tree n)) :
  3 ≤ M → wf M lo hi ((a, ks, cs) : tree (S n)) →
  Forall (fun k => from_option (fun l => l < k) True lo) ks.
Proof.
  intros HM (Hks & Hne & Hwcs). cbn [fst snd] in *.
  destruct ks as [|k0 ks]; [done|].
  assert (Hdiv : 1 ≤ M `div` 2) by (apply Z.div_le_lower_bound; lia).
  rewrite child_bounds_cons in Hwcs.
  apply Forall2_cons_inv_l in Hwcs as (c0 & cs' & [Hwf0 Hsz0] & _ & ->).
  cbn [fst snd] in Hwf0.
  assert (Hx : ∃ x, x ∈ tkeys c0).
  { destruct (tkeys c0) as [|x l] eqn:E; [|exists x; left].
    exfalso. destruct n.
    - destruct Hsz0 as [_ Hlo]. rewrite E in Hlo. simpl in Hlo. lia.
    - destruct Hwf0 as (_ & Hnn & _). by apply Hnn. }
  destruct Hx as [x Hx]. pose proof (wf_tkeys _ _ _ _ Hwf0) as [_ Hr].
  rewrite Forall_forall in Hr. destruct (Hr x Hx) as [Hl Hu]. cbn in Hu.
  destruct Hks as [Hs _]. apply StronglySorted_cons in Hs as [Hall _].
  constructor.
  - destruct lo; cbn in *; [lia|done].
  - eapply Forall_impl; [exact Hall|]. intros y Hy. destruct lo; cbn in *; [lia|done].
Qed.

(** The run of [_mergeOnDelete] on two internal nodes and their parent, up
    to the loop that redirects the right node's children. *)
Lemma merge_node_heap h (la ra p : addr) ln rn pn k0 ks0 v j sep vj h2 :
  h !! la = Some ln → h !! ra = Some rn → h !! p = Some pn →
  is_leaf ln = false → parent ln = Some p →
  la ≠ ra → p ≠ la → p ≠ ra →
  keys ln = k0 :: ks0 →
  BPlusTree._find (VNode p) k0 h = Ok (Some (v, j)) h →
  keys pn !! j = Some sep → values pn !! j = Some vj → (S j < length (values pn))%nat →
  BPlusTree.reparent_all (values rn) la
    (<[la := set_keys (keys ln ++ [sep]) ln]>
       (<[p := set_values (<[j := VNode la]> (delete j (values pn)))
                 (set_keys (delete j (keys pn)) pn)]> h)) = Ok tt h2 →
  h2 !! la = Some (set_keys (keys ln ++ [sep]) ln) → h2 !! ra = Some rn →
  BPlusTree._mergeOnDelete la ra h =
    Ok tt (<[la := set_values (values ln ++ values rn)
                     (set_keys ((keys ln ++ [sep]) ++ keys rn) ln)]> h2).
Proof.
  intros Hl Hr Hp Hll Hpar Hlr' Hpl Hpr Hk Hfind Hsep Hvj Hlen Hre Hl2 Hr2.
  assert (Hla : (la < length h)%nat) by (by eapply lookup_lt_Some).
  assert (Hra : (ra < length h)%nat) by (by eapply lookup_lt_Some).
  assert (Hpa : (p < length h)%nat) by (by eapply lookup_lt_Some).
  unfold BPlusTree._mergeOnDelete. rewrite (bind_get _ _ _ _ Hl), Hk.
  rewrite (py_index_head (k0 :: ks0) k0 ks0 eq_refl), bind_lift_inr, Hpar.
  rewrite (bind_Ok _ _ _ _ _ Hfind). cbn [BPlusTree.unpack]. rewrite bind_ret. cbn [snd].
  rewrite (bind_get _ _ _ _ Hp), (py_index_lookup _ j sep Hsep), bind_lift_inr.
  rewrite (bind_put _ _ _ _ _ Hp).
  erewrite bind_get by (lk; reflexivity). cbn [values set_keys].
  rewrite (py_index_lookup _ j vj Hvj), bind_lift_inr.
  erewrite bind_put by (lk; reflexivity). rewrite list_insert_insert_eq.
  erewrite bind_get by (lk; reflexivity). cbn [values set_values].
  rewrite py_set_nonneg, bind_lift_inr.
  2:{ rewrite length_delete by (by eexists). lia. }
  erewrite bind_put by (lk; reflexivity). rewrite list_insert_insert_eq.
  erewrite bind_get by (lk; exact Hl).
  erewrite bind_get by (lk; exact Hr). rewrite Hll. cbn [andb].
  match goal with
  | |- bind (bind ?m1 ?k1) ?k2 ?hh = _ =>
      assert (Hin : bind m1 k1 hh = Ok tt h2)
  end.
  { erewrite bind_modify by (lk; exact Hl).
    erewrite bind_get by (lk; exact Hr).
    exact Hre. }
  rewrite (bind_Ok _ _ _ _ _ Hin).
  rewrite (bind_get _ _ _ _ Hr2), (bind_modify _ _ _ _ _ Hl2).
  assert (Hla2 : (la < length h2)%nat) by (by eapply lookup_lt_Some).
  erewrite bind_get.
  2:{ rewrite list_lookup_insert_ne by done. exact Hr2. }
  unfold modify. erewrite bind_get by (rewrite list_lookup_insert_eq by done; reflexivity).
  unfold put. rewrite list_lookup_insert_eq by done. rewrite list_insert_insert_eq.
  rewrite <- Hk. by destruct ln.
Qed.

(** [_mergeOnDelete] on two adjacent internal children of a represented
    node with at least two keys, when their keys and the key between them
    fit in one node. *)
Lemma merge_nodes_spec M {m} h par nxt lo hi (p : addr) ks (cs : list (tree (S m))) j
      (la : addr) lks (lcs : list (tree m)) (ra : addr) rks (rcs : list (tree m)) :
  3 ≤ M →
  rep h M par nxt ((p, ks, cs) : tree (S (S m))) →
  wf M lo hi ((p, ks, cs) : tree (S (S m))) →
  NoDup (ids ((p, ks, cs) : tree (S (S m)))) →
  cs !! j = Some ((la, lks, lcs) : tree (S m)) →
  cs !! S j = Some ((ra, rks, rcs) : tree (S m)) →
  (2 ≤ length ks)%nat → Z.of_nat (length lks + length rks) + 1 < M →
  ∃ h' sep,
    BPlusTree._mergeOnDelete la ra h = Ok tt h' ∧ ks !! j = Some sep ∧
    let t' : tree (S (S m)) :=
      (p, delete j ks,
       delete (S j) (<[j := ((la, lks ++ sep :: rks, lcs ++ rcs) : tree (S m))]> cs)) in
    rep h' M par nxt t' ∧ wf M lo hi t' ∧ NoDup (ids t') ∧
    leftmost t' = leftmost ((p, ks, cs) : tree (S (S m))) ∧
    contents t' = contents ((p, ks, cs) : tree (S (S m))) ∧
    (∀ x, x ∈ ids t' → x ∈ ids ((p, ks, cs) : tree (S (S m)))) ∧
    length h' = length h ∧
    (∀ x, x ∉ ids ((p, ks, cs) : tree (S (S m))) → h' !! x = h !! x).
Proof.
  intros HM Hrep Hwf Hnd Hj HS Hk2 Hfit.
  set (l := ((la, lks, lcs) : tree (S m))) in *.
  set (r := ((ra, rks, rcs) : tree (S m))) in *.
  pose proof Hrep as [(u & Hp) Hcs]. pose proof Hwf as (Hks & Hne & Hwcs).
  cbn [fst snd] in Hp, Hcs, Hks, Hne, Hwcs.
  assert (Hlen : length cs = S (length ks)).
  { apply Forall2_length in Hwcs. by rewrite length_child_bounds in Hwcs. }
  assert (HjS : (S j < length cs)%nat) by (by eapply lookup_lt_Some).
  destruct (lookup_lt_is_Some_2 ks j ltac:(lia)) as [sep Hsep].
  destruct (Forall2_lookup_r _ _ _ _ _ Hcs Hj) as (nxx & Hnxx & Hrepl).
  destruct (Forall2_lookup_r _ _ _ _ _ Hcs HS) as (nr & Hnr & Hrepr).
  assert (Enx : nxx = Some (leftmost r)).
  { pose proof (child_nexts_lookup nxt cs j _ Hj) as E.
    rewrite HS in E. rewrite E in Hnxx. by injection Hnxx as <-. }
  subst nxx.
  destruct (Forall2_lookup_r _ _ _ _ _ Hwcs Hj) as ([lj uj] & Hbj & Hwfl & Hszl).
  destruct (Forall2_lookup_r _ _ _ _ _ Hwcs HS) as ([lS uS] & HbS & Hwfr & Hszr).
  cbn [fst snd] in Hwfl, Hwfr.
  pose proof (child_bounds_lookup _ _ _ _ _ _ Hbj) as (_ & Euj & _).
  pose proof (child_bounds_lookup _ _ _ _ _ _ HbS) as (ElS & _ & _).
  rewrite Hsep in Euj, ElS. cbn in ElS. subst uj lS.
  change (NoDup (p :: (cs ≫= ids))) in Hnd. pose proof Hnd as Hnd0.
  apply NoDup_cons in Hnd as [Hpn Hnd].
  assert (Hdisj : ∀ x, x ∈ ids l → x ∈ ids r → False).
  { intros x. eapply (NoDup_bind_disjoint ids cs j (S j) _ _ x Hnd Hj HS). lia. }
  assert (Hpl : p ∉ ids l).
  { intros Hx. apply Hpn. eapply ids_child; [eapply list_elem_of_lookup_2, Hj|done]. }
  assert (Hpr : p ∉ ids r).
  { intros Hx. apply Hpn. eapply ids_child; [eapply list_elem_of_lookup_2, HS|done]. }
  assert (Hndl : NoDup (ids l)).
  { pose proof Hnd as Hx. rewrite (bind_middle ids cs j l Hj) in Hx.
    apply NoDup_app in Hx as (_ & _ & Hx). by apply NoDup_app in Hx as (? & _ & _). }
  assert (Hndr : NoDup (ids r)).
  { pose proof Hnd as Hx. rewrite (bind_middle ids cs (S j) r HS) in Hx.
    apply NoDup_app in Hx as (_ & _ & Hx). by apply NoDup_app in Hx as (? & _ & _). }
  change (NoDup (la :: (lcs ≫= ids))) in Hndl. change (NoDup (ra :: (rcs ≫= ids))) in Hndr.
  change (p ∉ la :: (lcs ≫= ids)) in Hpl. change (p ∉ ra :: (rcs ≫= ids)) in Hpr.
  apply not_elem_of_cons in Hpl as [Hpla Hplc]. apply not_elem_of_cons in Hpr as [Hpra Hprc].
  apply NoDup_cons in Hndl as [Hlan Hndlc]. apply NoDup_cons in Hndr as [Hran Hndrc].
  assert (Hlr : la ≠ ra).
  { intros E. apply (Hdisj la); [left|rewrite E; left]. }
  assert (Hlarc : la ∉ rcs ≫= ids).
  { intros Hx. apply (Hdisj la); [left|by right]. }
  assert (Hralc : ra ∉ lcs ≫= ids).
  { intros Hx. apply (Hdisj ra); [by right|left]. }
  assert (Hlcrc : ∀ x, x ∈ lcs ≫= ids → x ∈ rcs ≫= ids → False).
  { intros x H1 H2. apply (Hdisj x); by right. }
  destruct Hrepl as [(ul & Hl) Hlcs]. destruct Hrepr as [(ur & Hr) Hrcs].
  cbn [fst snd l r] in Hl, Hlcs, Hr, Hrcs.
  destruct Hwfl as (Hlks & Hlne & Hwlcs). destruct Hwfr as (Hrks & Hrne & Hwrcs).
  cbn [fst snd l r] in Hlks, Hlne, Hwlcs, Hrks, Hrne, Hwrcs.
  assert (Hllen : length lcs = S (length lks)).
  { apply Forall2_length in Hwlcs. by rewrite length_child_bounds in Hwlcs. }
  assert (Hrlen : length rcs = S (length rks)).
  { apply Forall2_length in Hwrcs. by rewrite length_child_bounds in Hwrcs. }
  destruct (find_own_index M h par nxt lo hi p ks cs j l HM Hrep Hwf Hj)
    as (k0 & rest & nc & Hnc & _ & Hk0 & _ & Hfind).
  change (taddr l) with la in Hnc, Hfind. rewrite Hl in Hnc. injection Hnc as <-.
  cbn [keys] in Hk0.
  assert (Hla : (la < length h)%nat) by (by eapply lookup_lt_Some).
  assert (Hra : (ra < length h)%nat) by (by eapply lookup_lt_Some).
  assert (Hpa : (p < length h)%nat) by (by eapply lookup_lt_Some).
  set (pn := mkNode M par ks (VNode ∘ taddr <$> cs) u false None None) in *.
  set (ln := mkNode M (Some p) lks (VNode ∘ taddr <$> lcs) ul false None None) in *.
  set (rn := mkNode M (Some p) rks (VNode ∘ taddr <$> rcs) ur false None None) in *.
  set (h1 := <[la := set_keys (keys ln ++ [sep]) ln]>
       (<[p := set_values (<[j := VNode la]> (delete j (values pn)))
                 (set_keys (delete j (keys pn)) pn)]> h)).
  assert (Hrcs1 : Forall2 (rep h1 M (Some ra)) (child_nexts nr rcs) rcs).
  { eapply rep_children_frame; [|exact Hrcs]. intros x Hx. subst h1.
    assert (x ≠ la) by (by intros ->). assert (x ≠ p) by (by intros ->). by lk. }
  destruct (reparent_spec M h1 (Some ra) la _ rcs Hrcs1 Hndrc)
    as (h2 & Hre & Hrcs2 & Hlen2 & Hframe2).
  assert (Hlen1 : length h1 = length h) by (subst h1; len).
  assert (Hnot : ∀ x, x ∉ rcs ≫= ids → x ∉ taddr <$> rcs).
  { intros x Hx Hin. apply Hx. apply list_elem_of_fmap in Hin as (c & -> & Hc).
    eapply ids_child; [done|apply taddr_in_ids]. }
  assert (Hl2 : h2 !! la = Some (set_keys (keys ln ++ [sep]) ln)).
  { rewrite Hframe2 by (by apply Hnot). subst h1. by lk. }
  assert (Hr2 : h2 !! ra = Some rn).
  { rewrite Hframe2 by (by apply Hnot). subst h1. by lk. }
  pose proof (merge_node_heap h la ra p ln rn pn k0 rest (VNode la) j sep (VNode la) h2
                Hl Hr Hp eq_refl eq_refl Hlr Hpla Hpra Hk0 Hfind Hsep) as Hrun.
  specialize (Hrun ltac:(by subst pn; cbn [values]; rewrite list_lookup_fmap, Hj)
                   ltac:(subst pn; cbn [values]; rewrite length_fmap; lia)).
  rewrite <- reparent_all_nodes in Hre.
  specialize (Hrun Hre Hl2 Hr2).
  match type of Hrun with _ = Ok tt ?hh => set (h' := hh) in * end.
  exists h', sep. split; [exact Hrun|]. split; [exact Hsep|].
  assert (Hrne' : ∃ c2 rcs', rcs = c2 :: rcs').
  { destruct rcs as [|c2 rcs']; [simpl in Hrlen; lia|eauto]. }
  destruct Hrne' as (c2 & rcs' & Ercs).
  assert (Hlne' : lcs ≠ []) by (intros ->; simpl in Hllen; lia).
  set (l' := ((la, lks ++ sep :: rks, lcs ++ rcs) : tree (S m))).
  assert (Hframe : ∀ x, x ≠ p → x ≠ la → x ∉ rcs ≫= ids → h' !! x = h !! x).
  { intros x H1 H2 H3. subst h'. rewrite list_lookup_insert_ne by done.
    rewrite Hframe2 by (by apply Hnot). subst h1. by lk. }
  destruct (merge_children M h h' par nxt lo hi p ks cs j l r l' u lj (Some sep) (Some sep)
              uS nr Hrep Hwf Hnd0 Hj HS Hk2 Hbj HbS Hnr)
    as (R1 & R2 & R3 & R4 & R5 & R6); try done.
  - (* representation of the merged node *)
    split; cbn [fst snd l'].
    + exists ul. subst h'. rewrite list_lookup_insert_eq by lia.
      subst ln rn. unfold set_values, set_keys.
      cbn [keys values order parent uid is_leaf prevLeaf nextLeaf].
      by rewrite <- app_assoc, fmap_app.
    + rewrite (child_nexts_app nr lcs rcs c2 rcs' Hlne' Ercs).
      apply Forall2_app.
      * assert (Elm : leftmost r = leftmost c2).
        { subst r. cbn [leftmost fst snd]. by rewrite Ercs. }
        rewrite <- Elm.
        eapply rep_children_frame; [|exact Hlcs]. intros x Hx. apply Hframe.
        -- by intros ->.
        -- by intros ->.
        -- intros Hx'. by eapply Hlcrc.
      * eapply rep_children_frame; [|exact Hrcs2]. intros x Hx. subst h'.
        assert (x ≠ la) by (by intros ->). by rewrite list_lookup_insert_ne.
  - (* search order of the merged node *)
    cbn [wf fst snd l']. split_and!.
    + replace (lks ++ sep :: rks) with (lks ++ [sep] ++ rks) by done.
      pose proof (keys_above_lo M (Some sep) uS ra rks rcs HM
                    (conj Hrks (conj Hrne Hwrcs))) as Habove.
      assert (Hsl : from_option (fun x => x ≤ sep) True lj)
        by exact (sep_above_prev lo hi ks j sep lj (Some sep) Hks Hsep Hbj).
      assert (Hsu : from_option (fun x => sep < x) True uS)
        by exact (sep_below_next lo hi ks j sep (Some sep) uS Hks Hsep HbS).
      destruct Hlks as [Sl Rl], Hrks as [Sr Rr]. split.
      * apply StronglySorted_app_2; [|done|].
        -- intros x1 x2 H1 H2. rewrite Forall_forall in Rl, Rr, Habove.
           destruct (Rl x1 H1) as [_ Hu]. cbn in Hu.
           apply elem_of_cons in H2 as [->|H2]; [done|].
           specialize (Habove x2 H2). cbn in Habove. lia.
        -- constructor; [done|]. eapply Forall_impl; [exact Habove|]. by intros y Hy.
      * apply Forall_app. split; [|constructor].
        -- eapply Forall_impl; [exact Rl|]. intros x [? Hu]. split; [done|].
           destruct uS; cbn in *; [lia|done].
        -- split; [done|done].
        -- eapply Forall_impl; [exact Rr|]. intros x [Hl' ?]. split; [|done].
           destruct lj; cbn in *; [lia|done].
    + by destruct lks.
    + rewrite child_bounds_app. by apply Forall2_app.
  - split; [|done]. cbn [tkeys fst snd l']. rewrite length_app. simpl. lia.
  - subst l' l. cbn [leftmost fst snd]. by destruct lcs.
  - intros x. change (x ∈ la :: ((lcs ++ rcs) ≫= ids) →
                      x ∈ la :: (lcs ≫= ids) ∨ x ∈ ra :: (rcs ≫= ids)).
    rewrite bind_app, !elem_of_cons, elem_of_app. tauto.
  - change (NoDup (la :: ((lcs ++ rcs) ≫= ids))). rewrite bind_app.
    apply NoDup_cons. split.
    + rewrite elem_of_app. tauto.
    + apply NoDup_app. split_and!; [done| |done]. intros x H1 H2. by eapply Hlcrc.
  - rewrite !contents_node. cbn [snd l' l r]. by rewrite bind_app.
  - subst h'. assert (p ∉ taddr <$> rcs) by (by apply Hnot).
    rewrite list_lookup_insert_ne by done. rewrite Hframe2 by done. subst h1. lk.
    subst pn. unfold set_values, set_keys.
    cbn [keys values order parent uid is_leaf prevLeaf nextLeaf]. do 2 f_equal.
    apply insert_delete_next; [by rewrite list_lookup_fmap, Hj|rewrite length_fmap; lia].
  - intros x H1 H2 H3. change (x ∉ la :: (lcs ≫= ids)) in H2.
    change (x ∉ ra :: (rcs ≫= ids)) in H3.
    apply not_elem_of_cons in H2 as [? _]. apply not_elem_of_cons in H3 as [_ ?].
    by apply Hframe.
  - split_and!; try done.
    + subst h'. rewrite length_insert. lia.
    + intros x Hx'. change (x ∉ p :: (cs ≫= ids)) in Hx'.
      apply not_elem_of_cons in Hx' as [? Hx'].
      apply Hframe; [done| |].
      * intros ->. apply Hx'. eapply ids_child; [eapply list_elem_of_lookup_2, Hj|left].
      * intros Hin. apply Hx'. eapply ids_child; [eapply list_elem_of_lookup_2, HS|by right].
Qed.

(** X22: [_mergeOnDelete] on two internal nodes of a built tree.  For
    two adjacent internal children of a node reached from the root that
    has at least two keys, whose keys together with the key between them
    are fewer than the order, the call appends that key and the right
    node's keys and children to the left node, makes the left node the
    parent of every child it now has, and removes the key and the right
    node from the parent; after it every lookup returns what it returned
    before, and the tree still takes insertions correctly. *)
Theorem mergeOnDelete_internal (order : Z) (kvs : list (Z * Z)) (fuel : nat)
    (h0 : list node) :
  3 ≤ order → (length kvs + 2 ≤ fuel)%nat →
  ∃ self h,
    construct_insert fuel order kvs h0 = Ok self h ∧
    ∀ d a nd j l r ln rn,
      reach h (BPlusTree.root self) d a → h !! a = Some nd →
      values nd !! j = Some (VNode l) → values nd !! S j = Some (VNode r) →
      h !! l = Some ln → h !! r = Some rn → is_leaf ln = false →
      2 ≤ Node.getSize nd → Node.getSize ln + Node.getSize rn + 1 < order →
      ∃ h' ln' nd' sep,
        BPlusTree._mergeOnDelete l r h = Ok tt h' ∧
        h' !! l = Some ln' ∧ h' !! a = Some nd' ∧ keys nd !! j = Some sep ∧
        keys ln' = keys ln ++ sep :: keys rn ∧ values ln' = values ln ++ values rn ∧
        (∀ c, VNode c ∈ values ln' → ∃ cn, h' !! c = Some cn ∧ parent cn = Some l) ∧
        keys nd' = delete j (keys nd) ∧ values nd' = delete (S j) (values nd) ∧
        (∀ key, BPlusTree.retrieve fuel key self h' = Ok (expected key kvs) h') ∧
        (∀ key value, ∃ self2 h2,
            BPlusTree.insert fuel key value self h' = Ok self2 h2 ∧
            ∀ k', BPlusTree.retrieve fuel k' self2 h2 =
                  Ok (expected k' (kvs ++ [(key, value)])) h2).
Proof.
  intros HM Hfuel.
  destruct (construct_frame order fuel kvs h0 HM Hfuel)
    as (self & h & n & t & Hrun & Hroot & Hord & Hrep & Hwf & Hnd & Hsz & Hcont & Hn & _).
  exists self, h. split; [done|].
  intros d a nd j l r ln rn Hr Ha Hx Hy Hln Hrn Hleaf Hk2 Hfit.
  rewrite Hroot in Hr. unfold Node.getSize in Hk2, Hfit.
  destruct (at_two_children order h None None None None t d a nd j l r
              Hrep Hwf Hnd Hsz Hr Ha Hx Hy)
    as (m & ks & cs & cx & cy & ps & ns & los & his & Hm & Hks & Hcx & Hcy & Htx & Hty &
        Hreps & Hwfs & Hnds & Hszk & K).
  pose proof Hreps as [(u0 & Ha0) Hcs]. cbn [fst snd] in Ha0, Hcs.
  assert (Hvals : values nd = VNode ∘ taddr <$> cs).
  { rewrite Ha in Ha0. by injection Ha0 as ->. }
  destruct (Forall2_lookup_r _ _ _ _ _ Hcs Hcx) as (nx & _ & Hrepx).
  destruct (rep_root _ _ _ _ _ Hrepx) as (ln0 & Hln0 & _ & _ & _ & Hll).
  rewrite Htx, Hln in Hln0. injection Hln0 as <-.
  destruct m as [|m]; [by rewrite Hleaf in Hll|].
  destruct cx as [[la lks] lcs], cy as [[ra rks] rcs]. cbn in Htx, Hty. subst la ra.
  destruct (Forall2_lookup_r _ _ _ _ _ Hcs Hcy) as (ny & Hny & [(uy & Hrn0) _]).
  destruct Hrepx as [(ux & Hln0) _]. cbn [fst snd] in Hln0, Hrn0.
  rewrite Hln in Hln0. rewrite Hrn in Hrn0. injection Hln0 as ->. injection Hrn0 as ->.
  cbn [keys values] in *. rewrite Hks in Hk2.
  destruct (merge_nodes_spec order h ps ns los his a ks cs j l lks lcs r rks rcs
              HM Hreps Hwfs Hnds Hcx Hcy ltac:(lia) ltac:(lia))
    as (h' & sep & Hrun' & Hsep & Hrep' & Hwf' & Hnd' & Hlm' & Hcont' & Hsub' & Hlen' &
        Hframe').
  destruct (K h' _ Hrep' Hwf') as (t' & Hrt & Hwt & Hnt & Htt & Hct & Hszt); try done.
  { cbn [tkeys fst snd]. pose proof (length_delete_le ks j). lia. }
  pose proof Hrep' as [(u' & Ha') Hcs']. cbn [fst snd] in Ha', Hcs'.
  assert (Hlcs : (S j < length cs)%nat) by (by eapply lookup_lt_Some).
  assert (Hl' : ∃ ux',
             h' !! l = Some (mkNode order (Some a) (lks ++ sep :: rks)
                                    (VNode ∘ taddr <$> (lcs ++ rcs)) ux' false None None) ∧
             ∀ c, c ∈ lcs ++ rcs → ∃ cn, h' !! taddr c = Some cn ∧ parent cn = Some l).
  { eassert (Hl : _ !! j = Some ((l, lks ++ sep :: rks, lcs ++ rcs) : tree (S m))).
    2:{ destruct (Forall2_lookup_r _ _ _ _ _ Hcs' Hl) as (nl & Hnl & [(ux' & E) Hch]).
        cbn [fst snd] in E, Hch. exists ux'. split; [exact E|].
        intros c Hc. apply list_elem_of_lookup in Hc as [i Hi].
        destruct (Forall2_lookup_r _ _ _ _ _ Hch Hi) as (nc & _ & Hrc).
        destruct (rep_root _ _ _ _ _ Hrc) as (cn & Hcn & _ & Hpar & _).
        by exists cn. }
    rewrite lookup_merged by done.
    destruct (decide (j < j)%nat); [lia|]. by destruct (decide (j = j)). }
  destruct Hl' as (ux' & Hl' & Hpar').
  destruct (lookups_preserved order t' self h' kvs fuel HM) as [Hret Hins]; try done.
  { by rewrite Htt. } { by rewrite Hct. } { lia. }
  eexists h', _, _, sep. split; [exact Hrun'|]. split; [exact Hl'|]. split; [exact Ha'|].
  cbn [keys values]. split_and!; try done.
  - by rewrite Hks in *.
  - by rewrite fmap_app.
  - intros c Hc. apply list_elem_of_fmap in Hc as (c' & E & Hc'). injection E as ->.
    by apply Hpar'.
  - by rewrite Hks.
  - rewrite Hvals, list_fmap_delete. f_equal.
    by apply (fmap_insert_same (VNode ∘ taddr) cs j ((l, lks, lcs) : tree (S m))).
Qed.

Lemma mergeOnDelete_internal_witness :
  3 ≤ 4 ∧
  (length ((fun k => (k, k)) <$> [14; 13; 12; 11; 10; 9; 8; 7; 6; 5; 4; 3; 2; 1]) + 2
   ≤ 16)%nat ∧
  ∃ self h,
    construct_insert 16 4
      ((fun k => (k, k)) <$> [14; 13; 12; 11; 10; 9; 8; 7; 6; 5; 4; 3; 2; 1]) [] =
      Ok self h ∧
    ∀ d a nd j l r ln rn,
      reach h (BPlusTree.root self) d a → h !! a = Some nd →
      values nd !! j = Some (VNode l) → values nd !! S j = Some (VNode r) →
      h !! l = Some ln → h !! r = Some rn → is_leaf ln = false →
      2 ≤ Node.getSize nd → Node.getSize ln + Node.getSize rn + 1 < 4 →
      ∃ h' ln' nd' sep,
        BPlusTree._mergeOnDelete l r h = Ok tt h' ∧
        h' !! l = Some ln' ∧ h' !! a = Some nd' ∧ keys nd !! j = Some sep ∧
        keys ln' = keys ln ++ sep :: keys rn ∧ values ln' = values ln ++ values rn ∧
        (∀ c, VNode c ∈ values ln' → ∃ cn, h' !! c = Some cn ∧ parent cn = Some l) ∧
        keys nd' = delete j (keys nd) ∧ values nd' = delete (S j) (values nd) ∧
        (∀ key,
            BPlusTree.retrieve 16 key self h' =
              Ok (expected key
                    ((fun k => (k, k)) <$> [14; 13; 12; 11; 10; 9; 8; 7; 6; 5; 4; 3; 2; 1]))
                 h') ∧
        (∀ key value, ∃ self2 h2,
            BPlusTree.insert 16 key value self h' = Ok self2 h2 ∧
            ∀ k', BPlusTree.retrieve 16 k' self2 h2 =
                  Ok (expected k'
                        (((fun k => (k, k)) <$>
                            [14; 13; 12; 11; 10; 9; 8; 7; 6; 5; 4; 3; 2; 1]) ++
                         [(key, value)])) h2).
Proof.
  split; [lia|]. split; [simpl; lia|].
  apply (mergeOnDelete_internal 4
           ((fun k => (k, k)) <$> [14; 13; 12; 11; 10; 9; 8; 7; 6; 5; 4; 3; 2; 1]) 16 []);
    [lia|simpl; lia].
Defined.

(** The premises of X22 are met in the tree of order 4 built from the
    keys 14 down to 1: its root (address 1) has the keys 7 and 11 and
    three internal children, of which those at addresses 16 (key 9) and 10
    (key 13) hold one key each; the call merges them around the key 11. *)
Example mergeOnDelete_internal_scenario :
  ∃ self h h',
    built 16 4 [14; 13; 12; 11; 10; 9; 8; 7; 6; 5; 4; 3; 2; 1] = Ok self h ∧
    BPlusTree.root self = 1%nat ∧
    keys_at h 1%nat = Some [7; 11] ∧
    (values <$> h !! 1%nat) = Some [VNode 15%nat; VNode 16%nat; VNode 10%nat] ∧
    keys_at h 16%nat = Some [9] ∧ keys_at h 10%nat = Some [13] ∧
    (is_leaf <$> h !! 16%nat) = Some false ∧
    BPlusTree._mergeOnDelete 16%nat 10%nat h = Ok tt h' ∧
    keys_at h' 1%nat = Some [7] ∧ keys_at h' 16%nat = Some [9; 11; 13] ∧
    (values <$> h' !! 1%nat) = Some [VNode 15%nat; VNode 16%nat] ∧
    (values <$> h' !! 16%nat) = Some [VNode 8%nat; VNode 6%nat; VNode 4%nat; VNode 2%nat] ∧
    (parent <$> h' !! 4%nat) = Some (Some 16%nat).
Proof. eexists _, _, _. vm_compute. repeat split. Qed.

(** ** [_mergeOnDelete] under a node with a single key *)

Lemma keyless_descend h (a : addr) n fuel key :
  h !! a = Some n → is_leaf n = false → keys n = [] →
  BPlusTree.descend (S fuel) (VNode a) key h = Raise TypeError h.
Proof.
  intros Ha Hl Hk. cbn [BPlusTree.descend]. rewrite (bind_get _ _ _ _ Ha), Hl.
  unfold bind at 1. unfold BPlusTree._find. rewrite (bind_get _ _ _ _ Ha), Hk. done.
Qed.

(** X23: [_mergeOnDelete] does not notice that it empties the parent.
    When the root of a built tree has one key and two leaves below it,
    merging the two leaves succeeds and leaves the root with no key and a
    single child; the root is not replaced by that child, so afterwards
    [retrieve] and [insert] raise [TypeError] for every key. *)
Theorem mergeOnDelete_empties_root (order : Z) (kvs : list (Z * Z)) (fuel : nat)
    (h0 : list node) :
  3 ≤ order → (length kvs + 2 ≤ fuel)%nat →
  ∃ self h,
    construct_insert fuel order kvs h0 = Ok self h ∧
    ∀ nd l r ln,
      h !! BPlusTree.root self = Some nd → values nd = [VNode l; VNode r] →
      h !! l = Some ln → is_leaf ln = true →
      ∃ h' nd',
        BPlusTree._mergeOnDelete l r h = Ok tt h' ∧
        h' !! BPlusTree.root self = Some nd' ∧ keys nd' = [] ∧ values nd' = [VNode l] ∧
        ∀ key value,
          BPlusTree.retrieve fuel key self h' = Raise TypeError h' ∧
          BPlusTree.insert fuel key value self h' = Raise TypeError h'.
Proof.
  intros HM Hfuel.
  destruct (construct_frame order fuel kvs h0 HM Hfuel)
    as (self & h & n & t & Hrun & Hroot & Hord & Hrep & Hwf & Hnd & Hsz & Hcont & Hn & _).
  exists self, h. split; [done|].
  intros nd l r ln Ha Hvals Hln Hleaf. rewrite Hroot in *.
  destruct n as [|m].
  { destruct Hrep as (u & prev & E). change (taddr t) with t.1 in Ha.
    rewrite Ha in E. injection E as ->. cbn [values] in Hvals.
    by destruct (t.2.*2). }
  destruct t as [[p ks] cs]. change (taddr _) with p in *.
  pose proof Hrep as [(u & Hp) Hcs]. cbn [fst snd] in Hp, Hcs.
  rewrite Ha in Hp. injection Hp as ->. cbn [values] in Hvals.
  destruct cs as [|cl [|cr [|? ?]]]; try done.
  cbn in Hvals. injection Hvals as Hl Hr.
  assert (Hm : m = O).
  { apply Forall2_cons_inv_r in Hcs as (nx & ? & Hrepl & _ & _).
    destruct (rep_root _ _ _ _ _ Hrepl) as (ln0 & Hln0 & _ & _ & _ & Hll).
    rewrite Hl, Hln in Hln0. injection Hln0 as <-. rewrite Hleaf in Hll.
    destruct m; [done|]. by rewrite bool_decide_eq_false_2 in Hll. }
  subst m. destruct cl as [la lkb], cr as [ra rkb]. cbn in Hl, Hr. subst la ra.
  destruct (two_leaves order h None None None None p ks _ 0 l lkb r rkb Hrep Hwf Hnd
              eq_refl eq_refl)
    as (u' & ux & prevx & uy & prevy & nxy & sep & lj & uS & Hp & Hx & Hy & Hnxx & Hnxy &
        Hxy & Hpx & Hpy & Hxl & Hyl & Hpl & Hjl & Hlen & Hsep & _).
  destruct ks as [|k [|? ?]]; try done. injection Hsep as ->.
  destruct (find_own_index order h None None None None p [sep] _ 0 ((l, lkb) : tree 0)
              HM Hrep Hwf eq_refl)
    as (k0 & rest & nc & Hnc & _ & Hk0 & _ & Hfind).
  cbn [taddr fst] in Hnc, Hfind. rewrite Hx in Hnc. injection Hnc as <-. cbn [keys] in Hk0.
  pose proof (merge_leaf_heap h l r p _ _ _ k0 rest (VNode l) 0 sep (VNode l)
                Hx Hy Hp eq_refl eq_refl eq_refl Hxy Hpx Hpy Hk0 Hfind eq_refl eq_refl)
    as Hrun'.
  specialize (Hrun' ltac:(simpl; lia)).
  cbn [keys values nextLeaf delete] in Hrun'.
  match type of Hrun' with _ = Ok tt ?hh => set (h' := hh) in * end.
  assert (Hp' : h' !! p = Some (mkNode order None [] [VNode l] u' false None None)).
  { subst h'. by lk. }
  eexists h', _. split; [exact Hrun'|]. split; [exact Hp'|]. split; [done|]. split; [done|].
  intros key value. destruct fuel as [|fuel]; [lia|].
  pose proof (keyless_descend h' p _ fuel key Hp' eq_refl eq_refl) as E.
  unfold BPlusTree.retrieve, BPlusTree.insert. rewrite Hroot.
  unfold bind at 1 3. change (taddr _) with p. rewrite E. done.
Qed.

Lemma mergeOnDelete_empties_root_witness :
  3 ≤ 3 ∧ (length [(1, 1); (2, 2); (3, 3)] + 2 ≤ 5)%nat ∧
  ∃ self h,
    construct_insert 5 3 [(1, 1); (2, 2); (3, 3)] [] = Ok self h ∧
    ∀ nd l r ln,
      h !! BPlusTree.root self = Some nd → values nd = [VNode l; VNode r] →
      h !! l = Some ln → is_leaf ln = true →
      ∃ h' nd',
        BPlusTree._mergeOnDelete l r h = Ok tt h' ∧
        h' !! BPlusTree.root self = Some nd' ∧ keys nd' = [] ∧ values nd' = [VNode l] ∧
        ∀ key value,
          BPlusTree.retrieve 5 key self h' = Raise TypeError h' ∧
          BPlusTree.insert 5 key value self h' = Raise TypeError h'.
Proof.
  split; [lia|]. split; [simpl; lia|].
  apply (mergeOnDelete_empties_root 3 [(1, 1); (2, 2); (3, 3)] 5 []); [lia|simpl; lia].
Defined.

(** The premises of X23 are met in the tree of order 3 built from the
    keys 1, 2, 3: its root (address 1) has the key 2 and the leaves at
    addresses 0 (key 1) and 2 (keys 2, 3). *)
Example mergeOnDelete_root_scenario :
  ∃ self h h',
    built 5 3 [1; 2; 3] = Ok self h ∧
    BPlusTree.root self = 1%nat ∧
    keys_at h 1%nat = Some [2] ∧
    (values <$> h !! 1%nat) = Some [VNode 0%nat; VNode 2%nat] ∧
    (is_leaf <$> h !! 0%nat) = Some true ∧
    BPlusTree._mergeOnDelete 0%nat 2%nat h = Ok tt h' ∧
    keys_at h' 1%nat = Some [] ∧ keys_at h' 0%nat = Some [1; 2; 3] ∧
    BPlusTree.retrieve 5 1 self h' = Raise TypeError h'.
Proof. eexists _, _, _. vm_compute. repeat split. Qed.

(** ** The loop of [getRightmostLeaf] *)

(** Following the last child from the root of a represented tree ends in
    the leaf that holds the last pairs of the tree and closes the chain. *)
Lemma edge_descend_rightmost M {n} h par nxt lo hi (t : tree n) f :
  3 ≤ M → rep h M par nxt t → wf M lo hi t → (n < f)%nat →
  ∃ rm pre kb u prev p',
    BPlusTree.edge_descend f (-1) (VNode (taddr t)) h = Ok (VNode rm) h ∧
    h !! rm = Some (mkNode M p' kb.*1 (VBucket <$> kb.*2) u true prev nxt) ∧
    contents t = pre ++ kb ∧ (n = O → pre = []) ∧ (n ≠ O → kb ≠ []).
Proof.
  intros HM. revert par nxt lo hi t f.
  induction n as [|n IH]; intros par nxt lo hi t f Hrep Hwf Hf.
  - destruct t as [a kb]. destruct Hrep as (u & prev & Ha). cbn [fst snd] in Ha.
    destruct f as [|f]; [lia|].
    exists a, [], kb, u, prev, par. split_and!; try done.
    + cbn [BPlusTree.edge_descend taddr fst]. by rewrite (bind_get _ _ _ _ Ha).
    + by rewrite contents_leaf.
  - destruct t as [[a ks] cs]. destruct Hrep as [(u & Ha) Hcs].
    destruct Hwf as (Hks & Hne & Hwcs). cbn [fst snd] in Ha, Hcs, Hks, Hne, Hwcs.
    assert (Hlen : length cs = S (length ks)).
    { apply Forall2_length in Hwcs. by rewrite length_child_bounds in Hwcs. }
    destruct (snoc_inv cs) as (cs0 & c & ->); [by destruct cs|].
    assert (Hc : (cs0 ++ [c]) !! length cs0 = Some c).
    { by rewrite lookup_app_r, Nat.sub_diag by lia. }
    destruct (Forall2_lookup_r _ _ _ _ _ Hcs Hc) as (nx & Hnx & Hrepc).
    rewrite (child_nexts_lookup nxt _ _ _ Hc) in Hnx.
    rewrite (lookup_ge_None_2 (cs0 ++ [c]) (S (length cs0))) in Hnx
      by (rewrite length_app; simpl; lia).
    injection Hnx as <-.
    destruct (Forall2_lookup_r _ _ _ _ _ Hwcs Hc) as ([lc uc] & _ & Hwfc & Hszc).
    cbn [fst snd] in Hwfc.
    destruct f as [|f]; [lia|].
    destruct (IH (Some a) nxt lc uc c f Hrepc Hwfc ltac:(lia))
      as (rm & pre & kb & u' & prev & p' & Hrun & Hrm & Hcont & Hpre & Hkb).
    exists rm, ((cs0 ≫= contents) ++ pre), kb, u', prev, p'. split_and!.
    + cbn [BPlusTree.edge_descend taddr fst]. rewrite (bind_get _ _ _ _ Ha).
      cbn [is_leaf values]. rewrite fmap_app. cbn [fmap list_fmap].
      rewrite py_index_last, bind_lift_inr. exact Hrun.
    + exact Hrm.
    + rewrite contents_node. cbn [snd].
      assert (E : (cs0 ++ [c]) ≫= contents = (cs0 ≫= contents) ++ contents c).
      { rewrite bind_app. f_equal. simpl. apply app_nil_r. }
      by rewrite E, Hcont, app_assoc.
    + done.
    + intros _. destruct n as [|n']; [|by apply Hkb].
      assert (Hdiv : 1 ≤ M `div` 2) by (apply Z.div_le_lower_bound; lia).
      rewrite contents_leaf, (Hpre eq_refl) in Hcont. destruct Hszc as [_ Hlo].
      change (tkeys c) with (c.2.*1) in Hlo. rewrite length_fmap, Hcont in Hlo.
      intros ->. simpl in Hlo. lia.
Qed.

Lemma sorted_last_max (pre l : list Z) x k :
  StronglySorted Z.lt (pre ++ l) → last l = Some x → k ∈ pre ++ l → k ≤ x.
Proof.
  intros Hs Hl Hk. destruct (snoc_inv l) as (l' & y & ->); [by intros ->|].
  rewrite last_snoc in Hl. injection Hl as ->.
  rewrite app_assoc in Hs, Hk.
  apply elem_of_app in Hk as [Hk|Hk].
  - assert (k < x); [|lia].
    induction (pre ++ l') as [|z zs IHz]; [by apply elem_of_nil in Hk|].
    cbn in Hs. apply StronglySorted_cons in Hs as [Hall Hs].
    apply elem_of_cons in Hk as [->|Hk].
    + rewrite Forall_forall in Hall. apply Hall. apply elem_of_app. right. left.
    + by apply IHz.
  - apply list_elem_of_singleton in Hk as ->. lia.
Qed.

(** X24: the loop of [getRightmostLeaf] on a built tree.  Following the
    last child from the root ends, without an exception, in a leaf that
    has no successor and whose last key is the largest key inserted; the
    method then returns [None] all the same. *)
Theorem getRightmostLeaf_loop (order : Z) (kvs : list (Z * Z)) (fuel : nat)
    (h0 : list node) :
  3 ≤ order → (length kvs + 2 ≤ fuel)%nat →
  ∃ self h rm nd,
    construct_insert fuel order kvs h0 = Ok self h ∧
    BPlusTree.edge_descend fuel (-1) (VNode (BPlusTree.root self)) h = Ok (VNode rm) h ∧
    h !! rm = Some nd ∧ is_leaf nd = true ∧ nextLeaf nd = None ∧
    (∀ k, k ∈ kvs.*1 → ∃ kmax, last (keys nd) = Some kmax ∧ k ≤ kmax) ∧
    BPlusTree.getRightmostLeaf fuel self h = Ok None h.
Proof.
  intros HM Hfuel.
  destruct (construct_frame order fuel kvs h0 HM Hfuel)
    as (self & h & n & t & Hrun & Hroot & Hord & Hrep & Hwf & Hnd & Hsz & Hcont & Hn & _).
  destruct (edge_descend_rightmost order h None None None None t fuel HM Hrep Hwf
              ltac:(lia))
    as (rm & pre & kb & u & prev & p' & Hloop & Hrm & Hc & Hpre & Hkb).
  rewrite <- Hroot in Hloop.
  eexists self, h, rm, _. split; [exact Hrun|]. split; [exact Hloop|].
  split; [exact Hrm|]. cbn [is_leaf nextLeaf keys]. split_and!; try done.
  - intros k Hk. apply elem_of_model_keys in Hk. rewrite <- Hcont, Hc in Hk.
    pose proof (wf_contents_sorted order None None t Hwf) as Hs. rewrite Hc in Hs.
    rewrite fmap_app in Hs, Hk.
    destruct (last kb.*1) as [kmax|] eqn:E.
    + exists kmax. split; [done|]. by eapply sorted_last_max.
    + apply last_None in E. apply fmap_nil_inv in E. subst kb.
      exfalso. destruct n as [|n'].
      * rewrite (Hpre eq_refl) in Hk. by apply elem_of_nil in Hk.
      * by apply Hkb.
  - unfold BPlusTree.getRightmostLeaf. by rewrite (bind_Ok _ _ _ _ _ Hloop).
Qed.

Lemma getRightmostLeaf_loop_witness :
  3 ≤ 3 ∧ (length [(10, 1); (20, 2); (5, 3)] + 2 ≤ 5)%nat ∧
  ∃ self h rm nd,
    construct_insert 5 3 [(10, 1); (20, 2); (5, 3)] [] = Ok self h ∧
    BPlusTree.edge_descend 5 (-1) (VNode (BPlusTree.root self)) h = Ok (VNode rm) h ∧
    h !! rm = Some nd ∧ is_leaf nd = true ∧ nextLeaf nd = None ∧
    (∀ k, k ∈ [(10, 1); (20, 2); (5, 3)].*1 →
          ∃ kmax, last (keys nd) = Some kmax ∧ k ≤ kmax) ∧
    BPlusTree.getRightmostLeaf 5 self h = Ok None h.
Proof.
  split; [lia|]. split; [simpl; lia|].
  apply (getRightmostLeaf_loop 3 [(10, 1); (20, 2); (5, 3)] 5 []); [lia|simpl; lia].
Defined.
